(** * YASK stencil kernel: a shallow embedding of the tile scheduler,
      the rank set-up, the bounding-box engine and the halo exchange.

    Indices ([idx_t], a signed 64-bit integer in the sources) are modelled
    on [Z].  Signed overflow is undefined in C++, so every statement below
    is about runs in which no intermediate value leaves the 64-bit range.
    Where the sources assign such a value to an [int], the model keeps
    its low 32 bits ([SetupRank.to_int]).
    Integer division is the truncating division of C++, [Z.quot]. *)

From Stdlib Require Import String Ascii.
From Stdlib Require Import ZArith List Lia Bool Arith Sorted OrderedTypeEx.
Import ListNotations.
Local Open Scope Z_scope.

(* ===================================================================== *)
(** * Part I: definitions                                                 *)
(* ===================================================================== *)

(** ** common_utils.hpp *)
Module Common.

(** [#define CEIL_DIV(numer, denom) (((numer) + (denom) - 1) / (denom))] *)
Definition CEIL_DIV (numer denom : Z) : Z := Z.quot (numer + denom - 1) denom.

(** [#define ROUND_UP(n, mult) (CEIL_DIV(n, mult) * (mult))] *)
Definition ROUND_UP (n mult : Z) : Z := CEIL_DIV n mult * mult.

(** [#define ROUND_DOWN(n, mult) (((n) / (mult)) * (mult))] *)
Definition ROUND_DOWN (n mult : Z) : Z := Z.quot n mult * mult.

(** One invocation of the visitor of [yask_for]:
    [visitor(start, stop, thread_num)]. *)
Record visit := mkVisit { v_start : Z; v_stop : Z; v_thread : Z }.

(** The canonical loop
    [for (idx_t i = i0; i < tend; i += stride)
        visitor(i, min(i + stride, end), tn i)].
    The loop does not terminate when [stride <= 0] and [i0 < tend];
    [None] is returned when the fuel is used up. *)
Fixpoint for_loop (fuel : nat) (i tend end_ stride : Z) (tn : Z -> Z)
  : option (list visit) :=
  if i <? tend then
    match fuel with
    | O => None
    | S fuel' =>
        match for_loop fuel' (i + stride) tend end_ stride tn with
        | Some vs => Some (mkVisit i (Z.min (i + stride) end_) (tn i) :: vs)
        | None => None
        end
    end
  else Some [].

(** Number of iterations that always suffices for a loop from [i] up to
    [tend] with a positive stride. *)
Definition loop_fuel (i tend : Z) : nat := Z.to_nat (tend - i).

(** [yask_for] compiled without OpenMP: [omp_get_thread_num()] is the
    stub that returns 0. *)
Definition yask_for_serial (begin end_ stride : Z) : option (list visit) :=
  if end_ <=? begin then Some []
  else for_loop (loop_fuel 0 end_) 0 end_ end_ stride (fun _ => 0).

(** The non-nested OpenMP path: the same loop under
    [#pragma omp parallel for]; [sched i] is the number of the thread
    that the run-time picks for the iteration starting at [i].  The
    iterations are listed in index order.  This is the loop for a
    positive [stride] only, which the canonical form of the pragma
    requires. *)
Definition yask_for_omp (sched : Z -> Z) (begin end_ stride : Z)
  : option (list visit) :=
  if end_ <=? begin then Some []
  else for_loop (loop_fuel 0 end_) 0 end_ end_ stride sched.

(** Inner parallel loop of the nested path for outer thread [n]. *)
Definition nested_inner (sched : Z -> Z -> Z) (tnthr niters_per_thr end_ stride n : Z)
  : option (list visit) :=
  let tbegin := n * niters_per_thr * stride in
  let tend := Z.min end_ (tbegin + niters_per_thr * stride) in
  for_loop (loop_fuel tbegin tend) tbegin tend end_ stride
           (fun i => n * tnthr + sched n i).

(** Outer parallel loop [for (idx_t n = 0; n < nthr; n++)], by count. *)
Fixpoint nested_outer (cnt : nat) (n : Z) (body : Z -> option (list visit))
  : option (list visit) :=
  match cnt with
  | O => Some []
  | S cnt' =>
      match body n, nested_outer cnt' (n + 1) body with
      | Some vs, Some ws => Some (vs ++ ws)
      | _, _ => None
      end
  end.

(** The nested OpenMP path, entered when [yask_num_threads[0]] and
    [yask_num_threads[1]] are both set: [nthr] outer threads, [tnthr]
    inner threads each.  [niter] is the only place where [begin] is
    read. *)
Definition yask_for_nested (sched : Z -> Z -> Z) (nthr tnthr : Z)
           (begin end_ stride : Z) : option (list visit) :=
  if end_ <=? begin then Some []
  else
    let niter := CEIL_DIV (end_ - begin) stride in
    let niters_per_thr := CEIL_DIV niter nthr in
    nested_outer (Z.to_nat nthr) 0
                 (nested_inner sched tnthr niters_per_thr end_ stride).

(** A point [x] is handed to the visitor by one of the calls. *)
Definition covered (vs : list visit) (x : Z) : Prop :=
  exists v, In v vs /\ v_start v <= x < v_stop v.

End Common.

(** ** Shared data: exceptions, settings, bounding boxes *)
Module Data.

(** [yask_exception]: the one exception type of the kernel, carrying a
    message.  The constructors keep apart the [throw] sites that the
    development talks about. *)
Inductive yask_exception : Type :=
| NotPrepared          (* run_solution() called without prepare_solution() *)
| RankCountMismatch (req_ranks nr : Z)
| RankIndexOutOfRange (dim : nat) (idx : Z)
| InternalDistance (mandist : Z)
| SameCoordinates (me rn : nat)
| Unaligned (rn me : nat) (di dj : nat) (rnsz mysz : Z)
| DomainTooSmall (dim : nat) (rksize min_size : Z)
| HookFailure (msg : String.string).

(** Result of a call that may throw. *)
Definition result (A : Type) : Type := (yask_exception + A)%type.

(** Element [j] of a tuple indexed by the domain dimensions. *)
Definition at_dim (t : list Z) (j : nat) : Z := nth j t 0.

(** [KernelSettings]: the per-dimension sizes, over the domain
    dimensions, and the two step-dimension entries that the scheduler
    reads. *)
Record KernelSettings := mkSettings {
  _global_sizes : list Z;
  _rank_sizes : list Z;
  _region_sizes : list Z;
  _block_sizes : list Z;
  _mini_block_sizes : list Z;
  _region_steps : Z;        (* _region_sizes[step_dim] *)
  _block_steps : Z;         (* _block_sizes[step_dim] *)
  _num_ranks : list Z;
  _rank_indices : list Z
}.

(** [is_first_rank(dim)] and [is_last_rank(dim)] of settings.hpp. *)
Definition is_first_rank (o : KernelSettings) (j : nat) : bool :=
  at_dim (_rank_indices o) j =? 0.
Definition is_last_rank (o : KernelSettings) (j : nat) : bool :=
  at_dim (_rank_indices o) j =? at_dim (_num_ranks o) j - 1.

(** [BoundingBox]: the two corners; [bb_end] is exclusive. *)
Record BoundingBox := mkBB { bb_begin : list Z; bb_end : list Z }.

(** The part of a variable that [update_grid_info] reads. *)
Record Grid := mkGrid {
  is_dim_used : nat -> bool;
  is_user_grid : bool;
  get_left_halo_size : nat -> Z;
  get_right_halo_size : nat -> Z
}.

End Data.

(** ** setup.cpp: wave-front and temporal-block settings *)
Module Angles.
Import Common Data.

(** Values that [update_grid_info] assigns. *)
Record WfInfo := mkWf {
  max_halos : list Z;
  wf_steps : Z;
  num_wf_shifts : Z;
  wf_angles : list Z;
  wf_shift_pts : list Z;
  left_wf_exts : list Z;
  right_wf_exts : list Z
}.

(** Update of the max halo in dimension [j] across the non-user
    variables that use the dimension. *)
Definition max_halo_dim (grids : list Grid) (j : nat) : Z :=
  fold_left
    (fun m gp =>
       if is_dim_used gp j then
         if negb (is_user_grid gp)
         then Z.max (Z.max m (get_left_halo_size gp j)) (get_right_halo_size gp j)
         else m
       else m)
    grids 0.

(** The per-dimension body of the loop "Calculate angles and related
    settings". *)
Record DimAngles := mkDimAngles {
  da_wf_angle : Z; da_shifts : Z; da_left_ext : Z; da_right_ext : Z
}.

Definition angle_dim (o : KernelSettings) (fold_pts mh : list Z)
           (nshifts : Z) (j : nat) : result DimAngles :=
  let rnsize := at_dim (_region_sizes o) j in
  let rksize := at_dim (_rank_sizes o) j in
  let nranks := at_dim (_num_ranks o) j in
  let angle := ROUND_UP (at_dim mh j) (at_dim fold_pts j) in
  let wf_angle := if (rnsize <? rksize) || (1 <? nranks) then angle else 0 in
  let shifts := wf_angle * nshifts in
  let min_size := at_dim mh j + shifts in
  if (1 <? nranks) && (rksize <? min_size)
  then inl (DomainTooSmall j rksize min_size)
  else inr (mkDimAngles wf_angle shifts
                        (if is_first_rank o j then 0 else shifts)
                        (if is_last_rank o j then 0 else shifts)).

(** The loop over the domain dimensions; the first failing dimension
    throws. *)
Fixpoint angle_loop (o : KernelSettings) (fold_pts mh : list Z) (nshifts : Z)
         (j : nat) (cnt : nat) : result (list DimAngles) :=
  match cnt with
  | O => inr []
  | S cnt' =>
      match angle_dim o fold_pts mh nshifts j with
      | inl e => inl e
      | inr d =>
          match angle_loop o fold_pts mh nshifts (S j) cnt' with
          | inl e => inl e
          | inr ds => inr (d :: ds)
          end
      end
  end.

(** [StencilContext::update_grid_info], for a context that has packs
    ([npacks > 0]; without packs the function returns at once).  The
    resizing of the variables is not part of the model. *)
Definition update_grid_info (o : KernelSettings) (nddims : nat)
           (fold_pts : list Z) (grids : list Grid) (npacks : Z)
  : result WfInfo :=
  let mh := map (max_halo_dim grids) (seq 0 nddims) in
  let tb_steps := _block_steps o in
  let wf := Z.max (_region_steps o) tb_steps in
  let nshifts :=
    if 0 <? wf then
      let n := npacks * wf in if 0 <? n then n - 1 else n
    else 0 in
  match angle_loop o fold_pts mh nshifts 0 nddims with
  | inl e => inl e
  | inr ds =>
      inr (mkWf mh wf nshifts (map da_wf_angle ds) (map da_shifts ds)
                (map da_left_ext ds) (map da_right_ext ds))
  end.

(** Values that [update_tb_info] assigns. *)
Record TbInfo := mkTb {
  tb_steps : Z;
  num_tb_shifts : Z;
  tb_angles : list Z;
  tb_widths : list Z;
  tb_tops : list Z;
  mb_angles : list Z
}.

(** Angles of dimension [j] in [update_tb_info]. *)
Definition tb_angle_dim (o : KernelSettings) (fold_pts mh : list Z) (j : nat) : Z :=
  let angle := ROUND_UP (at_dim mh j) (at_dim fold_pts j) in
  if at_dim (_block_sizes o) j <? at_dim (_region_sizes o) j then angle else 0.

Definition mb_angle_dim (o : KernelSettings) (fold_pts mh : list Z) (j : nat) : Z :=
  let angle := ROUND_UP (at_dim mh j) (at_dim fold_pts j) in
  if at_dim (_mini_block_sizes o) j <? at_dim (_block_sizes o) j then angle else 0.

(** One step of the loop that lowers [max_steps]. *)
Definition tb_max_steps_dim (o : KernelSettings) (fold_pts mh : list Z)
           (npacks : Z) (max_steps : Z) (j : nat) : Z :=
  let tb_angle := tb_angle_dim o fold_pts mh j in
  if 0 <? tb_angle then
    let top_sz := at_dim fold_pts j in
    let sh_pts := tb_angle * 2 * npacks in
    let nsteps := Z.quot (at_dim (_block_sizes o) j - top_sz + tb_angle * 2) sh_pts in
    Z.min max_steps nsteps
  else max_steps.

(** Base and top of the phase-0 trapezoid in dimension [j]. *)
Definition tb_width_top_dim (o : KernelSettings) (fold_pts : list Z)
           (nshifts tb_angle : Z) (j : nat) : Z * Z :=
  let blk_sz := at_dim (_block_sizes o) j in
  if (0 <? nshifts) && (0 <? tb_angle) then
    let fpts := at_dim fold_pts j in
    let min_top_sz := fpts in
    let sa := nshifts * tb_angle in
    let min_blk_width := min_top_sz + 2 * sa in
    let blk_width := ROUND_UP (CEIL_DIV blk_sz 2 + sa) fpts in
    let blk_width := Z.max blk_width min_blk_width in
    let top_sz := Z.max (blk_width - 2 * sa) 0 in
    (blk_width, top_sz)
  else (blk_sz, blk_sz).

(** [StencilContext::update_tb_info]. *)
Definition update_tb_info (o : KernelSettings) (nddims : nat)
           (fold_pts mh : list Z) (wf_steps npacks : Z) : TbInfo :=
  let dims := seq 0 nddims in
  let tb0 := _block_steps o in
  let zeros := map (fun _ => 0) dims in
  let '(tb, tba, mba) :=
    if 0 <? tb0 then
      let max_steps := fold_left (tb_max_steps_dim o fold_pts mh npacks) dims
                                 (Z.min tb0 wf_steps) in
      (Z.min tb0 max_steps,
       map (tb_angle_dim o fold_pts mh) dims,
       map (mb_angle_dim o fold_pts mh) dims)
    else (tb0, zeros, zeros) in
  let nshifts :=
    if 0 <? tb then
      let n := npacks * tb in if 0 <? n then n - 1 else n
    else 0 in
  let wt := map (fun j => tb_width_top_dim o fold_pts nshifts (at_dim tba j) j) dims in
  mkTb tb nshifts tba (map fst wt) (map snd wt) mba.

End Angles.

(** ** context: region shifting (wave-fronts) *)
Module Shift.
Import Common Data Angles.


(** [begin] and [end] of a [ScanIndices], over the domain dimensions. *)
Record ScanIndices := mkScan { idx_begin : list Z; idx_end : list Z }.

(** [t[j] = v]. *)
Fixpoint set_dim (t : list Z) (j : nat) (v : Z) : list Z :=
  match t, j with
  | [], _ => []
  | _ :: r, O => v :: r
  | x :: r, S j' => x :: set_dim r j' v
  end.




End Shift.

(** ** Tuples (tuple.hpp is not among the files at hand) *)
Module Tuple.

(** Modelled from the spec: the reductions of a tuple ("element-wise
    arithmetic, min/max") start from the first element; the value on the
    empty tuple is never used below. *)
Definition reduce (f : Z -> Z -> Z) (t : list Z) : Z :=
  match t with
  | [] => 0
  | x :: r => fold_left f r x
  end.

Definition product (t : list Z) : Z := reduce Z.mul t.
Definition max (t : list Z) : Z := reduce Z.max t.

(** [0, 1, ..., l-1]. *)
Definition range (l : Z) : list Z := map Z.of_nat (seq 0 (Z.to_nat l)).

(** Modelled from the spec: [visit_all_points] "enumerates the n-D box",
    here the box of the offsets [0 <= x_j < lens_j].  The tuple class has
    two nesting orders: with [first_inner] the first dimension is the
    unit-stride one (it changes fastest, as in the rank-index table of
    the API documentation, where the x index changes fastest); without it
    the last dimension changes fastest.  The 0-D tuple has one point. *)
Fixpoint points_first_inner (lens : list Z) : list (list Z) :=
  match lens with
  | [] => [[]]
  | l :: ls =>
      flat_map (fun rest => map (fun x => x :: rest) (range l))
               (points_first_inner ls)
  end.

Fixpoint points_last_inner (lens : list Z) : list (list Z) :=
  match lens with
  | [] => [[]]
  | l :: ls =>
      flat_map (fun x => map (cons x) (points_last_inner ls)) (range l)
  end.

Definition all_points (first_inner : bool) (lens : list Z) : list (list Z) :=
  if first_inner then points_first_inner lens else points_last_inner lens.

(** The visitor is called on the points in order and returns whether to
    keep going; the state [S] stands for what its closure captures. *)
Fixpoint visit_until {S : Type} (visitor : S -> list Z -> S * bool)
         (s : S) (pts : list (list Z)) : S :=
  match pts with
  | [] => s
  | p :: rest =>
      let (s', keep) := visitor s p in
      if keep then visit_until visitor s' rest else s'
  end.

Definition visitAllPoints {S : Type} (first_inner : bool) (lens : list Z)
           (visitor : S -> list Z -> S * bool) (s : S) : S :=
  visit_until visitor s (all_points first_inner lens).

(** Element-wise operations on tuples of the same dimensions. *)
Fixpoint addElements (a b : list Z) : list Z :=
  match a, b with
  | x :: a', y :: b' => (x + y) :: addElements a' b'
  | _, _ => []
  end.

Fixpoint subElements (a b : list Z) : list Z :=
  match a, b with
  | x :: a', y :: b' => (x - y) :: subElements a' b'
  | _, _ => []
  end.

End Tuple.

(** ** setup.cpp: [setupRank] *)
Module SetupRank.
Import Common Data Tuple Shift.

(** "Make list of factors of number of ranks." *)
Definition facts (nr : Z) : list Z :=
  filter (fun n => Z.rem nr n =? 0) (map (fun k => Z.of_nat k + 1) (seq 0 (Z.to_nat nr))).

(** Number of options per dimension: one for the first dimension and for
    every dimension with a specified count. *)
Fixpoint combo_sizes (sz : Z) (j : nat) (user : list Z) : list Z :=
  match user with
  | [] => []
  | u :: us =>
      (if (j =? 0)%nat || negb (u =? 0) then 1 else sz) :: combo_sizes sz (S j) us
  end.

(** "Override with specified values." *)
Fixpoint override (j : nat) (user num_ranks : list Z) : list Z :=
  match user, num_ranks with
  | u :: us, n :: ns =>
      (if negb (u =? 0) then u else if (j =? 0)%nat then -1 else n)
        :: override (S j) us ns
  | _, _ => num_ranks
  end.

(** The layout tried for one combination of factor indices;
    [facts.at(in)] is within range for every index of the box. *)
Definition layout_of_combo (nr : Z) (fs user combo : list Z) : list Z :=
  let num_ranks := map (fun i => nth (Z.to_nat i) fs 0) combo in
  let num_ranks := override 0 user num_ranks in
  if at_dim num_ranks 0 =? -1 then
    let num_ranks := set_dim num_ranks 0 1 in
    set_dim num_ranks 0 (Z.quot nr (product num_ranks))
  else num_ranks.

(** The visitor: keep the valid layout with the smallest maximum; the
    empty tuple is the initial [best]. *)
Definition layout_visitor (nr : Z) (fs user : list Z)
           (best : list Z) (combo : list Z) : list Z * bool :=
  let num_ranks := layout_of_combo nr fs user combo in
  (if product num_ranks =? nr then
     if (length best =? 0)%nat || (max num_ranks <? max best)
     then num_ranks else best
   else best,
   true).

(** The layout chosen when some per-dimension count is zero; the empty
    tuple is returned when no layout is valid (the assertions after the
    search then fail). *)
Definition find_rank_layout (first_inner : bool) (nr : Z) (user : list Z) : list Z :=
  let fs := facts nr in
  let combos := combo_sizes (Z.of_nat (length fs)) 0 user in
  visitAllPoints first_inner combos (layout_visitor nr fs user) [].

(** "Set number of ranks in each dim if any is unset", then "Check
    ranks". *)
Definition set_num_ranks (first_inner : bool) (nr : Z) (user : list Z)
  : result (list Z) :=
  let num_ranks :=
    if product user =? 0 then find_rank_layout first_inner nr user else user in
  let req_ranks := product num_ranks in
  if req_ranks =? nr then inr num_ranks
  else inl (RankCountMismatch req_ranks nr).

(** The tables that the ranks broadcast to each other: [coords[rn][d]]
    and [rsizes[rn][d]]. *)
Record RankTables := mkTables { coords : list (list Z); rsizes : list (list Z) }.

Definition tab (t : list (list Z)) (rn : nat) (d : nat) : Z :=
  at_dim (nth rn t []) d.

(** What the loop over the ranks accumulates. *)
Record RankSums := mkSums {
  rank_domain_sums : list Z;
  rank_domain_offsets : list Z
}.

Definition rdelta (t : RankTables) (me rn d : nat) : Z :=
  tab (coords t) rn d - tab (coords t) me d.

(** "Is rank [rn] in-line with my rank in [di]?  True when deltas in all
    other dims are zero." *)
Definition is_inline (t : RankTables) (nddims me rn di : nat) : bool :=
  forallb (fun dj => (di =? dj)%nat || (rdelta t me rn dj =? 0)) (seq 0 nddims).

(** "Make sure all the other dims are the same size": the first
    dimension [dj <> di] with different sizes throws. *)
Fixpoint check_aligned (t : RankTables) (me rn di : nat) (djs : list nat)
  : result unit :=
  match djs with
  | [] => inr tt
  | dj :: rest =>
      let mysz := tab (rsizes t) me dj in
      let rnsz := tab (rsizes t) rn dj in
      if negb (di =? dj)%nat && negb (mysz =? rnsz)
      then inl (Unaligned rn me di dj rnsz mysz)
      else check_aligned t me rn di rest
  end.

(** Body of "Loop through domain dims" for rank [rn]. *)
Definition dim_body (pass : Z) (t : RankTables) (nddims me rn : nat)
           (st : RankSums) (di : nat) : result RankSums :=
  if is_inline t nddims me rn di then
    let sums := set_dim (rank_domain_sums st) di
                        (at_dim (rank_domain_sums st) di + tab (rsizes t) rn di) in
    if pass =? 1 then
      match check_aligned t me rn di (seq 0 nddims) with
      | inl e => inl e
      | inr _ =>
          inr (mkSums sums
                 (if rdelta t me rn di <? 0
                  then set_dim (rank_domain_offsets st) di
                         (at_dim (rank_domain_offsets st) di + tab (rsizes t) rn di)
                  else rank_domain_offsets st))
      end
    else inr (mkSums sums (rank_domain_offsets st))
  else inr st.

Fixpoint dim_loop (pass : Z) (t : RankTables) (nddims me rn : nat)
         (st : RankSums) (dis : list nat) : result RankSums :=
  match dis with
  | [] => inr st
  | di :: rest =>
      match dim_body pass t nddims me rn st di with
      | inl e => inl e
      | inr st' => dim_loop pass t nddims me rn st' rest
      end
  end.

(** The value of a 64-bit integer assigned to an [int]: its low 32
    bits, read as a signed number. *)
Definition to_int (x : Z) : Z := (x + 2 ^ 31) mod 2 ^ 32 - 2 ^ 31.

(** "Manhattan distance from rn (sum of abs deltas in all dims)", in
    the [int mandist] of the source: every [mandist += abs(rdeltas[di])]
    narrows the 64-bit sum. *)
Definition mandist (t : RankTables) (nddims me rn : nat) : Z :=
  fold_left (fun m di => to_int (m + Z.abs (rdelta t me rn di))) (seq 0 nddims) 0.

(** "Check rank indices": the test that a rank makes on its own rank
    indices before the tables are exchanged; it throws when the test
    fails. *)
Definition check_rank_indices (num_ranks rank_indices : list Z) (nddims : nat) : bool :=
  forallb (fun j => (0 <=? at_dim rank_indices j)
                    && (at_dim rank_indices j <? at_dim num_ranks j))
          (seq 0 nddims).

(** Body of "Loop over all ranks, including myself".  The bookkeeping
    of the immediate neighbours that follows the dimension loop does not
    throw and is left out. *)
Definition rank_body (pass : Z) (t : RankTables) (nddims me : nat)
           (st : RankSums) (rn : nat) : result RankSums :=
  let md := mandist t nddims me rn in
  if (rn =? me)%nat && negb (md =? 0) then inl (InternalDistance md)
  else if negb (rn =? me)%nat && (md =? 0) then inl (SameCoordinates me rn)
  else dim_loop pass t nddims me rn st (seq 0 nddims).

Fixpoint rank_loop (pass : Z) (t : RankTables) (nddims me : nat)
         (st : RankSums) (rns : list nat) : result RankSums :=
  match rns with
  | [] => inr st
  | rn :: rest =>
      match rank_body pass t nddims me st rn with
      | inl e => inl e
      | inr st' => rank_loop pass t nddims me st' rest
      end
  end.

(** The loop over the [nr] ranks in pass [pass], from zeroed sums and
    offsets. *)
Definition setupRank_pass (pass : Z) (t : RankTables) (nddims nr me : nat)
  : result RankSums :=
  rank_loop pass t nddims me
            (mkSums (repeat 0 nddims) (repeat 0 nddims)) (seq 0 nr).

End SetupRank.

(** ** Combinations (combo.hpp is not among the files at hand) *)
Module Combo.

(** Modelled from the spec: [choose(n, k)] is the number [C(n,k)] of
    combinations of [k] things out of [n]. *)
Fixpoint choose (n k : nat) : nat :=
  match k with
  | O => 1
  | S k' =>
      match n with
      | O => 0
      | S n' => (choose n' k' + choose n' k)%nat
      end
  end.

(** The [k]-element selections from [l], in lexicographic order of
    positions. *)
Fixpoint selections (l : list nat) (k : nat) : list (list nat) :=
  match l with
  | [] => match k with O => [[]] | S _ => [] end
  | x :: r =>
      match k with
      | O => [[]]
      | S k' => map (cons x) (selections r k') ++ selections r (S k')
      end
  end.

(** Modelled from the spec: [combination(c, n, p, x)] stores in [c] the
    [x]-th combination (counted from 1) of [p] of the numbers
    [1 .. n]. *)
Definition combination (n p x : nat) : list nat :=
  nth (x - 1) (selections (seq 1 n) p) [].

End Combo.

(** ** context: phases and shapes of the temporal-block tessellation *)
Module Phases.
Import Combo.

(** [bridge_mask.at(dim) = true]. *)
Fixpoint set_bit (m : list bool) (dim : nat) : list bool :=
  match m, dim with
  | [], _ => []
  | _ :: r, O => true :: r
  | b :: r, S d => b :: set_bit r d
  end.

(** "Set bits for selected dims": all bits are cleared, then bit
    [dims_to_bridge[i] - 1] is set for [i < phase]. *)
Definition make_bridge_mask (nddims : nat) (dims_to_bridge : list nat) : list bool :=
  fold_left (fun m d => set_bit m (d - 1)) dims_to_bridge (repeat false nddims).

(** One run of the block loops in [calc_block]: the arguments that
    reach [calc_mini_block] for every mini-block of the block. *)
Record ShapeRun := mkShape {
  sr_nphases : nat; sr_phase : nat;
  sr_nshapes : nat; sr_shape : nat;
  sr_bridge_mask : list bool
}.

(** [StencilContext::calc_block]: the runs of the block loops, one per
    shape.  Without temporal blocking there is one run with
    [nshapes = 1] and an empty mask. *)
Definition calc_block (tb_steps : Z) (nddims nphases phase : nat) : list ShapeRun :=
  if tb_steps =? 0 then [mkShape nphases phase 1 0 []]
  else
    let nshapes := choose nddims phase in
    map (fun shape =>
           mkShape nphases phase nshapes shape
                   (make_bridge_mask nddims (combination nddims phase (shape + 1))))
        (seq 0 nshapes).

(** The phase loop of [calc_region] for one time stride with temporal
    blocking: [calc_block] is called on every block of the region in
    every phase; [nblocks] stands for the blocks that the generated
    region loops visit. *)
Definition calc_region_phases (tb_steps : Z) (nddims nblocks : nat)
  : list (nat * list (list ShapeRun)) :=
  let nphases := (nddims + 1)%nat in
  map (fun phase =>
         (phase, map (fun _ => calc_block tb_steps nddims nphases phase)
                     (seq 0 nblocks)))
      (seq 0 nphases).

(** Number of set bits of a mask. *)
Definition count_bits (m : list bool) : nat := length (filter (fun b => b) m).

End Phases.

(** ** context: variables, dirty flags and the halo exchange *)
Module Halo.
Import Common Data.

(** The part of a variable that the halo exchange reads and writes.  A
    variable pointer ([YkVarPtr]) is its position in the context's list
    [varPtrs]. *)
Record YkVar := mkVar {
  get_name : String.string;
  is_scratch : bool;
  uses_step_dim : bool;          (* is_dim_used(step_dim) *)
  alloc_steps : Z;               (* allocation size in the step dimension *)
  get_first_valid_step_index : Z;
  dirty_steps : list bool        (* one flag per allocated step *)
}.

Definition get_last_valid_step_index (v : YkVar) : Z :=
  get_first_valid_step_index v + alloc_steps v - 1.

(** [l[i] = b]. *)
Fixpoint set_flag (l : list bool) (i : nat) (b : bool) : list bool :=
  match l, i with
  | [], _ => []
  | _ :: r, O => b :: r
  | x :: r, S i' => x :: set_flag r i' b
  end.

(** Modelled from the spec: the dirty map is "a per-live-step boolean
    [dirty[t mod alloc_size]]", with the floored modulo; a variable
    without the step dimension has the one flag of step 0. *)
Definition wrap_step (v : YkVar) (t : Z) : nat :=
  if uses_step_dim v then Z.to_nat (t mod alloc_steps v) else O.

Definition is_dirty (v : YkVar) (t : Z) : bool :=
  nth (wrap_step v t) (dirty_steps v) false.

Definition set_dirty (dirty : bool) (t : Z) (v : YkVar) : YkVar :=
  mkVar (get_name v) (is_scratch v) (uses_step_dim v) (alloc_steps v)
        (get_first_valid_step_index v)
        (set_flag (dirty_steps v) (wrap_step v t) dirty).

(** The steps [first, first + 1, ...], [n] of them. *)
Definition steps_from (first : Z) (n : nat) : list Z :=
  map (fun k => first + Z.of_nat k) (seq 0 n).

(** Modelled from the spec: "writing to any step [t] updates the
    valid-step window to [[t - alloc_size + 1, t]]", and
    "[update_valid_step(t)] advances the window and clears flags that
    fall out": the flag of every step that was valid and no longer is,
    is cleared. *)
Definition moved_first (t : Z) (v : YkVar) : Z := t - alloc_steps v + 1.

Definition drop_flags (new_first : Z) (v : YkVar) : list bool :=
  fold_left
    (fun d u => if (new_first <=? u) && (u <=? new_first + alloc_steps v - 1) then d
                else set_flag d (wrap_step v u) false)
    (steps_from (get_first_valid_step_index v) (Z.to_nat (alloc_steps v)))
    (dirty_steps v).

Definition update_valid_step (t : Z) (v : YkVar) : YkVar :=
  if uses_step_dim v then
    mkVar (get_name v) (is_scratch v) (uses_step_dim v) (alloc_steps v)
          (moved_first t v) (drop_flags (moved_first t v) v)
  else v.

(** Apply [f] to the variable behind pointer [gp]. *)
Fixpoint at_var (gp : nat) (f : YkVar -> YkVar) (vars : list YkVar) : list YkVar :=
  match vars, gp with
  | [], _ => []
  | v :: r, O => f v :: r
  | v :: r, S gp' => v :: at_var gp' f r
  end.

(** A stencil bundle, as far as [update_vars] reads it. *)
Record Bundle := mkBundle {
  get_output_step_index : Z -> option Z;
  outputVarPtrs : list nat
}.

Definition BundlePack : Type := list Bundle.

(** The values of [t] in [for (t = start; t != stop; t += stride)] with
    [stride = (start > stop) ? -1 : 1]. *)
Definition step_seq (start stop : Z) : list Z :=
  if stop <? start
  then map (fun k => start - Z.of_nat k) (seq 0 (Z.to_nat (start - stop)))
  else map (fun k => start + Z.of_nat k) (seq 0 (Z.to_nat (stop - start))).

(** State of [update_vars]: the variables and [vars_done]. *)
Definition uv_state : Type := (list YkVar * list (nat * Z))%type.

(** "Update if not already done." *)
Definition update_output_var (mark_dirty : bool) (t_out : Z)
           (st : uv_state) (gp : nat) : uv_state :=
  let (vars, vars_done) := st in
  if existsb (fun p => (fst p =? gp)%nat && (snd p =? t_out)) vars_done then st
  else
    let vars := at_var gp (update_valid_step t_out) vars in
    let vars := if mark_dirty then at_var gp (set_dirty true t_out) vars else vars in
    (vars, (gp, t_out) :: vars_done).

Definition update_bundle (mark_dirty : bool) (t : Z)
           (st : uv_state) (sb : Bundle) : uv_state :=
  match get_output_step_index sb t with
  | None => st
  | Some t_out => fold_left (update_output_var mark_dirty t_out) (outputVarPtrs sb) st
  end.

Definition update_pack (sel_bp : option nat) (start stop : Z) (mark_dirty : bool)
           (st : uv_state) (ibp : nat * BundlePack) : uv_state :=
  let (i, bp) := ibp in
  match sel_bp with
  | Some s => if (s =? i)%nat then
                fold_left (fun st t => fold_left (update_bundle mark_dirty t) bp st)
                          (step_seq start stop) st
              else st
  | None =>
      fold_left (fun st t => fold_left (update_bundle mark_dirty t) bp st)
                (step_seq start stop) st
  end.

(** [StencilContext::update_vars]; [sel_bp] is the position of the
    selected pack, if any. *)
Definition update_vars (stPacks : list BundlePack) (sel_bp : option nat)
           (start stop : Z) (mark_dirty : bool) (vars : list YkVar) : list YkVar :=
  fst (fold_left (update_pack sel_bp start stop mark_dirty)
                 (combine (seq 0 (length stPacks)) stPacks) (vars, [])).

(** A neighbour of this rank in the MPI data of a variable. *)
Record Neighbor := mkNbr {
  neighbor_rank : Z;
  ni : nat;
  recv_bytes : Z;              (* recvBuf.get_bytes() *)
  send_bytes : Z;              (* sendBuf.get_bytes() *)
  using_shm : bool
}.

(** The MPI point-to-point calls of [exchange_halos], with the name of
    the variable, the neighbour and, for the two requests, the tag. *)
Inductive MpiCall : Type :=
| MPI_Irecv (gname : String.string) (nbr : Z) (tag : Z)
| MPI_Isend (gname : String.string) (nbr : Z) (tag : Z)
| MPI_Wait_recv (gname : String.string) (nbr : Z)
| MPI_Wait_send (gname : String.string) (nbr : Z).

(** [varsToSwap[gname] = gp] on a [std::map] ordered by name. *)
Fixpoint map_insert (k : String.string) (gp : nat) (m : list (String.string * nat))
  : list (String.string * nat) :=
  match m with
  | [] => [(k, gp)]
  | (k', gp') :: r =>
      match String.compare k k' with
      | Lt => (k, gp) :: m
      | Eq => (k, gp) :: r
      | Gt => (k', gp') :: map_insert k gp r
      end
  end.

(** A map keyed by variable pointers: look-up and assignment. *)
Fixpoint ptr_find (gp : nat) (m : list (nat * Z)) : option Z :=
  match m with
  | [] => None
  | (k, x) :: r => if (k =? gp)%nat then Some x else ptr_find gp r
  end.

Fixpoint ptr_set (gp : nat) (x : Z) (m : list (nat * Z)) : list (nat * Z) :=
  match m with
  | [] => [(gp, x)]
  | (k, y) :: r => if (k =? gp)%nat then (k, x) :: r else (k, y) :: ptr_set gp x r
  end.

Record SwapMaps := mkSwap {
  varsToSwap : list (String.string * nat);
  firstStepsToSwap : list (nat * Z);
  lastStepsToSwap : list (nat * Z)
}.

(** The settings and state of the context that [exchange_halos]
    reads. *)
Record HaloCtx := mkHalo {
  enable_halo_exchange : bool;
  num_ranks : Z;
  mpiData : list (String.string * list Neighbor);
  do_mpi_interior : bool;
  do_mpi_left : bool;
  do_mpi_right : bool
}.

Fixpoint mpi_find (gname : String.string) (m : list (String.string * list Neighbor))
  : option (list Neighbor) :=
  match m with
  | [] => None
  | (k, x) :: r => if String.eqb k gname then Some x else mpi_find gname r
  end.

(** Body of "Check all allocated step indices" for step [t]. *)
Definition scan_step (gp : nat) (v : YkVar) (m : SwapMaps) (t : Z) : SwapMaps :=
  if negb (is_dirty v t) then m
  else
    mkSwap (map_insert (get_name v) gp (varsToSwap m))
           (match ptr_find gp (firstStepsToSwap m) with
            | None => ptr_set gp t (firstStepsToSwap m)
            | Some f => if t <? f then ptr_set gp t (firstStepsToSwap m)
                        else firstStepsToSwap m
            end)
           (match ptr_find gp (lastStepsToSwap m) with
            | None => ptr_set gp t (lastStepsToSwap m)
            | Some l => if l <? t then ptr_set gp t (lastStepsToSwap m)
                        else lastStepsToSwap m
            end).

(** Body of "Loop thru all vars". *)
Definition scan_var (h : HaloCtx) (m : SwapMaps) (gv : nat * YkVar) : SwapMaps :=
  let (gp, v) := gv in
  if is_scratch v then m
  else
    match mpi_find (get_name v) (mpiData h) with
    | None => m
    | Some _ =>
        let start_t := if uses_step_dim v then get_first_valid_step_index v else 0 in
        let stop_t := if uses_step_dim v then get_last_valid_step_index v + 1 else 1 in
        fold_left (scan_step gp v) (steps_from start_t (Z.to_nat (stop_t - start_t))) m
    end.

Definition vars_to_swap (h : HaloCtx) (vars : list YkVar) : SwapMaps :=
  fold_left (scan_var h) (combine (seq 0 (length vars)) vars) (mkSwap [] [] []).

Inductive halo_steps : Type := halo_irecv | halo_pack_isend | halo_unpack | halo_final.

Definition steps_to_do (h : HaloCtx) (m : SwapMaps) : list halo_steps :=
  match varsToSwap m with
  | [] => []
  | _ :: _ =>
      (if do_mpi_left h || do_mpi_right h then [halo_irecv; halo_pack_isend] else [])
        ++ (if do_mpi_interior h then [halo_unpack; halo_final] else [])
  end.

(** "Mark vars as up-to-date when done." *)
Definition mark_clean (first last : Z) (v : YkVar) : YkVar :=
  fold_left (fun v si => if is_dirty v si then set_dirty false si v else v)
            (steps_from first (Z.to_nat (last - first + 1))) v.

(** Body of the visit of one neighbour: the new variables and the MPI
    calls.  The requests are not kept here, and a wait is listed
    wherever the code looks at a request; which of these waits are made
    is told by [visit_neighbor_reqs] below, which keeps the requests. *)
Definition visit_neighbor (m : SwapMaps) (halo_step : halo_steps)
           (gi : Z) (gname : String.string) (gp : nat)
           (st : list YkVar * list MpiCall) (n : Neighbor)
  : list YkVar * list MpiCall :=
  let (vars, calls) := st in
  match halo_step with
  | halo_irecv =>
      if negb (recv_bytes n =? 0) && negb (using_shm n)
      then (vars, calls ++ [MPI_Irecv gname (neighbor_rank n) gi])
      else st
  | halo_pack_isend =>
      if negb (send_bytes n =? 0) && negb (using_shm n)
      then (vars, calls ++ [MPI_Isend gname (neighbor_rank n) gi])
      else st
  | halo_unpack =>
      if negb (recv_bytes n =? 0) && negb (using_shm n)
      then (vars, calls ++ [MPI_Wait_recv gname (neighbor_rank n)])
      else st
  | halo_final =>
      let calls :=
        if negb (send_bytes n =? 0) && negb (using_shm n)
        then calls ++ [MPI_Wait_send gname (neighbor_rank n)] else calls in
      match ptr_find gp (firstStepsToSwap m), ptr_find gp (lastStepsToSwap m) with
      | Some f, Some l => (at_var gp (mark_clean f l) vars, calls)
      | _, _ => (vars, calls)
      end
  end.

(** "Loop thru all vars to swap.  Use 'gi' as an MPI tag." *)
Fixpoint swap_loop (h : HaloCtx) (m : SwapMaps) (halo_step : halo_steps)
         (gi : Z) (to_swap : list (String.string * nat))
         (st : list YkVar * list MpiCall) : list YkVar * list MpiCall :=
  match to_swap with
  | [] => st
  | (gname, gp) :: rest =>
      let gi := gi + 1 in
      let nbrs := match mpi_find gname (mpiData h) with
                  | Some ns => ns
                  | None => []
                  end in
      swap_loop h m halo_step gi rest
                (fold_left (visit_neighbor m halo_step gi gname gp) nbrs st)
  end.

(** [StencilContext::exchange_halos] (compiled with MPI): the variables
    afterwards and the MPI calls in order. *)
Definition exchange_halos (h : HaloCtx) (vars : list YkVar)
  : list YkVar * list MpiCall :=
  if negb (enable_halo_exchange h) || (num_ranks h <? 2) then (vars, [])
  else
    let m := vars_to_swap h vars in
    fold_left (fun st halo_step => swap_loop h m halo_step 0 (varsToSwap m) st)
              (steps_to_do h m) (vars, []).

End Halo.

(** ** context: [run_solution] *)
Module Run.
Import Common Data Halo.

(** What the generated rank loops are asked to do: one entry per
    inclusion of the rank loops, which call [calc_region] on every
    region with the selected pack (or all packs) and the MPI section
    flags of the moment. *)
Record RankLoops := mkRankLoops {
  rl_sel_bp : option nat;
  rl_start_t : Z;
  rl_stop_t : Z;
  rl_interior : bool;
  rl_left : bool;
  rl_right : bool;
  rl_exterior_dim : Z
}.

(** The settings that [run_solution] reads and does not change. *)
Record RunConfig := mkRunConfig {
  wf_steps : Z;
  check_step_conds : bool;
  stPacks : list BundlePack;
  pack_is_in_valid_step : nat -> Z -> bool;
  ext_bb_size : Z;                       (* ext_bb.bb_size *)
  mpi_interior_valid : bool;             (* mpi_interior.bb_valid *)
  nddims : nat;
  does_exterior_exist : nat -> bool -> bool
}.

(** The state of the context that [run_solution], its hooks and the
    halo exchange change. *)
Record RunState := mkRunState {
  is_prepared : bool;
  halo : HaloCtx;
  mpi_exterior_dim : Z;
  vars : list YkVar;
  steps_done : Z;
  run_time_running : bool;
  rank_loops_done : list RankLoops;      (* stencil computation so far *)
  mpi_calls : list MpiCall
}.

(** A hook registered by the user: it gets the solution and the two
    step indices, may change the solution and may throw. *)
Definition hook_fn_2idx_t : Type := RunState -> Z -> Z -> RunState * option yask_exception.

(** [call_2idx_hooks]: the hooks in order, up to the first throw. *)
Fixpoint call_2idx_hooks (hooks : list hook_fn_2idx_t) (st : RunState) (first last : Z)
  : RunState * option yask_exception :=
  match hooks with
  | [] => (st, None)
  | hk :: rest =>
      match hk st first last with
      | (st', Some e) => (st', Some e)
      | (st', None) => call_2idx_hooks rest st' first last
      end
  end.

Definition set_flags (interior left right : bool) (dim : Z) (st : RunState) : RunState :=
  mkRunState (is_prepared st)
             (mkHalo (enable_halo_exchange (halo st)) (num_ranks (halo st))
                     (mpiData (halo st)) interior left right)
             dim (vars st) (steps_done st) (run_time_running st)
             (rank_loops_done st) (mpi_calls st).

Definition set_vars (vs : list YkVar) (st : RunState) : RunState :=
  mkRunState (is_prepared st) (halo st) (mpi_exterior_dim st) vs (steps_done st)
             (run_time_running st) (rank_loops_done st) (mpi_calls st).

Definition set_timer (running : bool) (st : RunState) : RunState :=
  mkRunState (is_prepared st) (halo st) (mpi_exterior_dim st) (vars st) (steps_done st)
             running (rank_loops_done st) (mpi_calls st).

Definition add_steps_done (n : Z) (st : RunState) : RunState :=
  mkRunState (is_prepared st) (halo st) (mpi_exterior_dim st) (vars st)
             (steps_done st + n) (run_time_running st) (rank_loops_done st)
             (mpi_calls st).

(** [#include "yask_rank_loops.hpp"]. *)
Definition rank_loops (sel_bp : option nat) (start_t stop_t : Z) (st : RunState)
  : RunState :=
  mkRunState (is_prepared st) (halo st) (mpi_exterior_dim st) (vars st) (steps_done st)
             (run_time_running st)
             (rank_loops_done st ++
                [mkRankLoops sel_bp start_t stop_t
                             (do_mpi_interior (halo st)) (do_mpi_left (halo st))
                             (do_mpi_right (halo st)) (mpi_exterior_dim st)])
             (mpi_calls st).

Definition do_update_vars (cfg : RunConfig) (sel_bp : option nat) (start_t stop_t : Z)
           (mark_dirty : bool) (st : RunState) : RunState :=
  set_vars (update_vars (stPacks cfg) sel_bp start_t stop_t mark_dirty (vars st)) st.

Definition do_exchange_halos (st : RunState) : RunState :=
  let (vs, calls) := exchange_halos (halo st) (vars st) in
  mkRunState (is_prepared st) (halo st) (mpi_exterior_dim st) vs (steps_done st)
             (run_time_running st) (rank_loops_done st) (mpi_calls st ++ calls).

(** One exterior pass: "Skip if no halo to calculate in this section",
    else set the flags and run the rank loops. *)
Definition exterior_pass (cfg : RunConfig) (sel_bp : option nat) (start_t stop_t : Z)
           (st : RunState) (jl : nat * bool) : RunState :=
  let (j, is_left) := jl in
  if negb (does_exterior_exist cfg j is_left) then st
  else rank_loops sel_bp start_t stop_t
         (set_flags (do_mpi_interior (halo st)) is_left (negb is_left) (Z.of_nat j) st).

(** The work for one pack (or for all packs when [sel_bp] is null) in
    the steps [start_t .. stop_t): the MPI-exterior passes when comms
    are overlapped, then the rank loops, the dirty marks and the halo
    exchange. *)
Definition pack_pass (cfg : RunConfig) (sel_bp : option nat) (start_t stop_t : Z)
           (st : RunState) : RunState :=
  let st :=
    if mpi_interior_valid cfg then
      let st := set_flags false (do_mpi_left (halo st)) (do_mpi_right (halo st)) 0 st in
      let st := fold_left (exterior_pass cfg sel_bp start_t stop_t)
                          (flat_map (fun j => [(j, true); (j, false)])
                                    (seq 0 (nddims cfg))) st in
      let st := do_update_vars cfg sel_bp start_t stop_t true st in
      let st := set_flags (do_mpi_interior (halo st)) true true (mpi_exterior_dim st) st in
      let st := do_exchange_halos st in
      set_flags true false false (mpi_exterior_dim st) st
    else st in
  let st := rank_loops sel_bp start_t stop_t st in
  let mark_dirty := do_mpi_left (halo st) || do_mpi_right (halo st) in
  let st := do_update_vars cfg sel_bp start_t stop_t mark_dirty st in
  let st := do_exchange_halos st in
  set_flags true true true (mpi_exterior_dim st) st.

(** Body of the step loop for [index_t]. *)
Definition step_body (cfg : RunConfig) (begin_t end_t stride_t : Z)
           (st : RunState) (index_t : Z) : RunState :=
  let start_t := begin_t + index_t * stride_t in
  let stop_t := if 0 <? stride_t then Z.min (start_t + stride_t) end_t
                else Z.max (start_t + stride_t) end_t in
  let this_num_t := Z.abs (stop_t - start_t) in
  let st :=
    if wf_steps cfg =? 0 then
      fold_left
        (fun st i =>
           if check_step_conds cfg && negb (pack_is_in_valid_step cfg i start_t)
           then st
           else pack_pass cfg (Some i) start_t stop_t st)
        (seq 0 (length (stPacks cfg))) st
    else pack_pass cfg None start_t stop_t st in
  add_steps_done this_num_t st.

(** [StencilContext::run_solution(first_step_index, last_step_index)]:
    the state on exit and the exception, if one is thrown.  The
    auto-tuner, the timers of the packs and the cache model are left
    out. *)
Definition run_solution (cfg : RunConfig) (before after : list hook_fn_2idx_t)
           (st : RunState) (first_step_index last_step_index : Z)
  : RunState * option yask_exception :=
  match call_2idx_hooks before st first_step_index last_step_index with
  | (st, Some e) => (st, Some e)
  | (st, None) =>
      let st := set_timer true st in
      let step_dir := if first_step_index <=? last_step_index then 1 else -1 in
      let begin_t := first_step_index in
      let stride_t := Z.max (wf_steps cfg) 1 * step_dir in
      let end_t := last_step_index + step_dir in
      if negb (is_prepared st) then (st, Some NotPrepared)
      else if ext_bb_size cfg <? 1 then (st, None)
      else
        let st := do_exchange_halos st in
        let num_t := CEIL_DIV (Z.abs (end_t - begin_t)) (Z.abs stride_t) in
        let st := fold_left (step_body cfg begin_t end_t stride_t)
                            (Tuple.range num_t) st in
        let st := set_timer false st in
        call_2idx_hooks after st first_step_index last_step_index
  end.

End Run.

(** ** setup.cpp: the bounding boxes of a bundle *)
Module BBox.
Import Common Data Tuple Shift.

(** Modelled from the spec: [contains(point)] of a bounding box, for a
    point with the dimensions of the box: every index is at or after
    [bb_begin] and before [bb_end]. *)
Fixpoint in_range (b e p : list Z) : bool :=
  match b, e, p with
  | [], [], [] => true
  | x :: b', y :: e', z :: p' => (x <=? z) && (z <? y) && in_range b' e' p'
  | _, _, _ => false
  end.

Definition is_in_bb (bb : BoundingBox) (pt : list Z) : bool :=
  in_range (bb_begin bb) (bb_end bb) pt.

(** [bb_len] and [bb_size] as [update_bb] computes them. *)
Definition bb_len (bb : BoundingBox) : list Z := subElements (bb_end bb) (bb_begin bb).
Definition bb_size (bb : BoundingBox) : Z := product (bb_len bb).

(** "Valid point must be in sub-domain and not seen before in this
    slice." *)
Definition is_new_valid (is_in_valid_domain : list Z -> bool)
           (cur_bb_list : list BoundingBox) (pt : list Z) : bool :=
  is_in_valid_domain pt && negb (existsb (fun bb => is_in_bb bb pt) cur_bb_list).

(** "Adjust 1st dim that is beyond its starting pt": the dimension and
    the new scan length. *)
Fixpoint first_beyond (iedpt ibdpt : list Z) (i : nat) : option (nat * Z) :=
  match iedpt, ibdpt with
  | x :: r, y :: s => if y <? x then Some (i, x - y) else first_beyond r s (S i)
  | _, _ => None
  end.

(** The visitor of the scan for the end of a rectangle that begins at
    [ibdpt]; its state is [scan_len] and [do_scan]. *)
Definition scan_visitor (is_in_valid_domain : list Z -> bool)
           (cur_bb_list : list BoundingBox) (ibdpt : list Z)
           (st : list Z * bool) (eofs : list Z) : (list Z * bool) * bool :=
  let (scan_len, do_scan) := st in
  let iedpt := addElements ibdpt eofs in
  if is_new_valid is_in_valid_domain cur_bb_list iedpt then (st, true)
  else
    match first_beyond iedpt ibdpt 0 with
    | Some (i, len) =>
        ((set_dim scan_len i len,
          if (i <? length ibdpt - 1)%nat then true else do_scan), false)
    | None => (st, true)
    end.

(** "Repeat scan until no adjustment is made."  [None] when the fuel is
    used up. *)
Fixpoint scan_rect (fuel : nat) (first_inner : bool)
         (is_in_valid_domain : list Z -> bool) (cur_bb_list : list BoundingBox)
         (ibdpt scan_len : list Z) : option (list Z) :=
  match fuel with
  | O => None
  | S fuel' =>
      let (scan_len', do_scan) :=
        visitAllPoints first_inner scan_len
                       (scan_visitor is_in_valid_domain cur_bb_list ibdpt)
                       (scan_len, false) in
      if do_scan
      then scan_rect fuel' first_inner is_in_valid_domain cur_bb_list ibdpt scan_len'
      else Some scan_len'
  end.

(** Sum of the lengths: every repeated scan is over a smaller box. *)
Definition scan_fuel (scan_len : list Z) : nat :=
  S (Z.to_nat (fold_left Z.add scan_len 0)).

(** The visitor of the scan of a slice for new beginning points; its
    state is [cur_bb_list]. *)
Definition slice_visitor (first_inner : bool) (is_in_valid_domain : list Z -> bool)
           (slice_begin slice_end : list Z)
           (st : option (list BoundingBox)) (ofs : list Z)
  : option (list BoundingBox) * bool :=
  match st with
  | None => (None, false)
  | Some cur_bb_list =>
      let ibdpt := addElements slice_begin ofs in
      if is_new_valid is_in_valid_domain cur_bb_list ibdpt then
        let scan_len := subElements slice_end ibdpt in
        match scan_rect (scan_fuel scan_len) first_inner is_in_valid_domain
                        cur_bb_list ibdpt scan_len with
        | None => (None, false)
        | Some scan_len =>
            (Some (cur_bb_list ++ [mkBB ibdpt (addElements ibdpt scan_len)]), true)
        end
      else (st, true)
  end.

(** The work of the thread of slice [start]: the list [bb_lists[start]]. *)
Definition find_slice_bbs (first_inner : bool) (is_in_valid_domain : list Z -> bool)
           (bundle_bb : BoundingBox) (len_per_thr start : Z)
  : option (list BoundingBox) :=
  let odim := 0%nat in
  let slice_begin :=
    set_dim (bb_begin bundle_bb) odim
            (at_dim (bb_begin bundle_bb) odim + start * len_per_thr) in
  let slice_end :=
    set_dim (bb_end bundle_bb) odim
            (Z.min (at_dim (bb_end bundle_bb) odim)
                   (at_dim slice_begin odim + len_per_thr)) in
  if at_dim slice_end odim <=? at_dim slice_begin odim then Some []
  else
    let slice_len := subElements slice_end slice_begin in
    visitAllPoints first_inner slice_len
                   (slice_visitor first_inner is_in_valid_domain slice_begin slice_end)
                   (Some []).

(** "Can 'bbn' be merged with 'bb'?": adjacent in the outer dimension,
    aligned in the others. *)
Fixpoint can_merge (i : nat) (b e bn en : list Z) : bool :=
  match b, e, bn, en with
  | x :: b', y :: e', xn :: bn', yn :: en' =>
      (if (i =? 0)%nat then y =? xn else (x =? xn) && (y =? yn))
        && can_merge (S i) b' e' bn' en'
  | _, _, _, _ => true
  end.

(** "Scan existing final BBs looking for one to merge with", else "add
    'bbn' as new". *)
Fixpoint merge_bb (bb_list : list BoundingBox) (bbn : BoundingBox) : list BoundingBox :=
  match bb_list with
  | [] => [bbn]
  | bb :: rest =>
      if can_merge 0 (bb_begin bb) (bb_end bb) (bb_begin bbn) (bb_end bbn)
      then mkBB (bb_begin bb) (set_dim (bb_end bb) 0 (at_dim (bb_end bbn) 0)) :: rest
      else bb :: merge_bb rest bbn
  end.

(** "Collect BBs in all slices": empty boxes are passed over. *)
Definition collect_bb (bb_list : list BoundingBox) (bbn : BoundingBox) : list BoundingBox :=
  if bb_size bbn =? 0 then bb_list else merge_bb bb_list bbn.

(** One round of the loop over [bb_lists[n]]: the boxes of a slice are
    collected into the final list; a slice whose scan did not end leaves
    no list. *)
Definition collect_slices (acc cur : option (list BoundingBox))
  : option (list BoundingBox) :=
  match acc, cur with
  | Some bb_list, Some cur_bb_list => Some (fold_left collect_bb cur_bb_list bb_list)
  | _, _ => None
  end.

(** [StencilBundleBase::find_bounding_box]: the list [_bb_list].
    [bundle_bb] is the extended box of the rank and [nthreads] the value
    of [yask_get_num_threads()].  [yask_for(0, nthreads, 1, ...)] hands
    every thread its slice number as [start]. *)
Definition find_bounding_box (first_inner : bool) (is_sub_domain_expr : bool)
           (is_in_valid_domain : list Z -> bool)
           (bundle_bb : BoundingBox) (nthreads : Z) : option (list BoundingBox) :=
  if bb_size bundle_bb =? 0 then Some []
  else if negb is_sub_domain_expr then Some [bundle_bb]
  else
    let odim := 0%nat in
    let outer_len := at_dim (bb_len bundle_bb) odim in
    let len_per_thr := CEIL_DIV outer_len nthreads in
    match yask_for_serial 0 nthreads 1 with
    | None => None
    | Some visits =>
        let bb_lists :=
          map (fun v => find_slice_bbs first_inner is_in_valid_domain bundle_bb
                                       len_per_thr (v_start v)) visits in
        fold_left collect_slices bb_lists (Some [])
    end.

End BBox.

(** ** Boxes of offsets and products *)
Module TupleSpec.
Import Common Data Tuple Shift.

(** The offsets of the box with side lengths [lens]. *)
Definition in_box (lens c : list Z) : Prop :=
  Forall2 (fun l x => 0 <= x < l) lens c.

(** Product of the elements, from 1. *)
Definition prod1 (t : list Z) : Z := fold_left Z.mul t 1.

End TupleSpec.

(** ** Wave-front example *)
Module WavefrontSpec.
Import Common Data Angles Shift.
Import TupleSpec.











End WavefrontSpec.

(** ** Temporal-blocking example *)
Module TrapezoidSpec.
Import Common Data Angles Shift.
Import TupleSpec.

(** A block of 16 points in a region of 64, fold 4, halo 4, one pack and
    two temporal-block steps inside a wave-front of two steps. *)
Definition c9_opts : KernelSettings :=
  mkSettings [64] [64] [64] [16] [16] 2 2 [1] [0].

End TrapezoidSpec.

(** ** Bridge masks *)
Module PhaseSpec.
Import Combo Phases.

(** The mask after the dimensions [done] have been set. *)
Definition mask_of (n : nat) (done : list nat) (m : list bool) : Prop :=
  length m = n /\ count_bits m = length done /\
  forall i, nth i m false = true <-> exists d, In d done /\ i = (d - 1)%nat.

End PhaseSpec.

(** ** Rank layouts *)
Module LayoutSpec.
Import Common Data Tuple Shift SetupRank.
Import TupleSpec.

(** A layout for [nr] ranks that keeps the specified (non-zero) counts
    and has a positive count wherever none was specified. *)
Definition valid_layout (nr : Z) (user L : list Z) : Prop :=
  Forall2 (fun u l => if u =? 0 then 0 < l else l = u) user L /\
  product L = nr.

(** [override] past the first dimension. *)
Fixpoint merge (user ms : list Z) : list Z :=
  match user, ms with
  | u :: us, m :: ms' => (if negb (u =? 0) then u else m) :: merge us ms'
  | _, _ => ms
  end.

(** The factor with index [i]. *)
Definition pick (fs : list Z) (i : Z) : Z := nth (Z.to_nat i) fs 0.

(** What the visitor has kept after the combinations [seen]. *)
Definition kept nr fs user (seen : list (list Z)) (best : list Z) : Prop :=
  (best = [] /\
   forall c, In c seen -> product (layout_of_combo nr fs user c) <> nr) \/
  (best <> [] /\
   (exists c, In c seen /\ best = layout_of_combo nr fs user c /\ product best = nr) /\
   forall c, In c seen -> product (layout_of_combo nr fs user c) = nr ->
             max best <= max (layout_of_combo nr fs user c)).

End LayoutSpec.

(** ** The tables of the ranks after their checks *)
Module RankTableSpec.
Import Common Data Tuple Shift SetupRank.
Import TupleSpec.

(** The state in which [setupRank] reaches the loop over the ranks: the
    number of ranks of the layout is the number [nr] of active ranks, an
    [int], and the row of every rank in the table of the rank indices
    passed the check of that rank. *)
Definition tables_checked (num_ranks : list Z) (t : RankTables) (nddims nr : nat) : Prop :=
  length num_ranks = nddims /\
  product num_ranks = Z.of_nat nr /\
  Z.of_nat nr < 2 ^ 31 /\
  forall rn, (rn < nr)%nat ->
             check_rank_indices num_ranks (nth rn (coords t) []) nddims = true.

(** The Manhattan distance as a number. *)
Definition manhattan (t : RankTables) (nddims me rn : nat) : Z :=
  fold_left (fun m di => m + Z.abs (rdelta t me rn di)) (seq 0 nddims) 0.

End RankTableSpec.

(** ** Errors of the rank topology *)
Module TopologySpec.
Import Common Data Tuple Shift SetupRank.
Import TupleSpec.
Import RankTableSpec.




End TopologySpec.

(** ** Hooks and an unprepared solution *)
Module RunSpec.
Import Common Data Tuple Halo Run.

(** A hook that does not prepare the solution. *)
Definition keeps_unprepared (hk : hook_fn_2idx_t) : Prop :=
  forall st first last, is_prepared st = false ->
                        is_prepared (fst (hk st first last)) = false.

(** A solution that was created and configured, but not prepared. *)
Definition c4_state : RunState :=
  mkRunState false (mkHalo true 1 [] true true true) 0 [] 0 false [] [].

(** Three domain dimensions, one empty pack, no wave-front. *)
Definition c4_config : RunConfig :=
  mkRunConfig 0 false [[]] (fun _ _ => true) 2097152 false 3 (fun _ _ => false).

End RunSpec.

(** ** Histories of the dirty flags *)
Module DirtySpec.
Import Common Data Tuple Halo Run.

(** Step [t] is held in memory by [v]. *)
Definition live (v : YkVar) (t : Z) : Prop :=
  uses_step_dim v = false \/
  get_first_valid_step_index v <= t <= get_last_valid_step_index v.


(** A call of [update_vars]. *)
Record UpdateCall := mkCall {
  uc_packs : list BundlePack;
  uc_sel : option nat;
  uc_start : Z;
  uc_stop : Z;
  uc_mark : bool
}.

(** The variables after the call. *)
Definition do_call (c : UpdateCall) (vs : list YkVar) : list YkVar :=
  update_vars (uc_packs c) (uc_sel c) (uc_start c) (uc_stop c) (uc_mark c) vs.





(** A variable with two steps in memory, 4 and 5, both dirty. *)
Definition c2_var : YkVar := mkVar "A"%string false true 2 4 [true; true].

(** A pack of one bundle that writes step [t + 1] of the first variable
    at step [t]. *)
Definition c2_pack : BundlePack := [mkBundle (fun t => Some (t + 1)) [0%nat]].

(** [update_vars] for step 5, which writes step 6, without marking. *)
Definition c2_call : UpdateCall := mkCall [c2_pack] None 5 6 false.


End DirtySpec.

(** ** Tags of the halo messages *)
Module TagSpec.
Import Common Data Halo.

(** The order of the keys of a [std::map] of names. *)
Definition name_lt : String.string -> String.string -> Prop := String_as_OT.lt.

(** The keys of a map are strictly increasing. *)
Definition sorted_keys (m : list (String.string * nat)) : Prop :=
  StronglySorted name_lt (map fst m).

(** Name and tag of a request. *)
Definition tagged (c : MpiCall) : option (String.string * Z) :=
  match c with
  | MPI_Irecv g _ tag | MPI_Isend g _ tag => Some (g, tag)
  | _ => None
  end.

(** The names of the variables that a call of [exchange_halos] swaps,
    in the order of the map. *)
Definition swap_names (h : HaloCtx) (vars : list YkVar) : list String.string :=
  map fst (varsToSwap (vars_to_swap h vars)).

(** Two variables ["A"] and ["B"] with MPI buffers towards rank 1. *)
Definition c3_nbr : Neighbor := mkNbr 1 0 8 8 false.

Definition c3_ctx : HaloCtx :=
  mkHalo true 2 [("A"%string, [c3_nbr]); ("B"%string, [c3_nbr])] true true true.

Definition c3_var (name : String.string) (dirty : bool) : YkVar :=
  mkVar name false true 2 0 [dirty; false].

(** Both variables have a dirty step. *)
Definition c3_both : list YkVar := [c3_var "A" true; c3_var "B" true].

(** Only ["B"] has a dirty step. *)
Definition c3_only_b : list YkVar := [c3_var "A" false; c3_var "B" true].

End TagSpec.

(** ** Boxes, scans and slices *)
Module BBoxSpec.
Import Common Data Tuple Shift BBox.
Import TupleSpec.

(** [p] lies in the box from [b] (inclusive) to [e] (exclusive). *)
Fixpoint within (b e p : list Z) : Prop :=
  match b, e, p with
  | [], [], [] => True
  | x :: b', y :: e', z :: p' => x <= z < y /\ within b' e' p'
  | _, _, _ => False
  end.






(** A cut keeps every length at least 1 and makes no length larger. *)
Definition shrunk (sl sl' : list Z) : Prop :=
  Forall2 (fun a b => 1 <= b <= a) sl sl'.

(** A box with a positive length in every dimension. *)
Definition proper (bb : BoundingBox) : Prop :=
  length (bb_end bb) = length (bb_begin bb) /\
  forall i, (i < length (bb_begin bb))%nat ->
            at_dim (bb_begin bb) i < at_dim (bb_end bb) i.

(** Number of boxes of a list that hold [pt]. *)
Definition hits (l : list BoundingBox) (pt : list Z) : nat :=
  length (filter (fun bb => is_in_bb bb pt) l).

(** A proper box of [n] dimensions. *)
Definition sized (n : nat) (bb : BoundingBox) : Prop :=
  length (bb_begin bb) = n /\ proper bb.



(** [m, m+1, ..., m+cnt-1]. *)
Fixpoint zrange (m : Z) (cnt : nat) : list Z :=
  match cnt with
  | O => []
  | S c => m :: zrange (m + 1) c
  end.





End BBoxSpec.

(** ** Chunks of an index range *)
Module LoopSpec.
Import Common.

(** Number of calls of the visitor whose chunk [[start, stop)] holds
    [x]. *)
Definition chunk_hits (vs : list visit) (x : Z) : nat :=
  length (filter (fun v => (v_start v <=? x) && (x <? v_stop v)) vs).

(** The call for iteration [k] of the canonical loop. *)
Definition chunk (end_ stride : Z) (tn : Z -> Z) (k : nat) : visit :=
  mkVisit (Z.of_nat k * stride)
          (Z.min (Z.of_nat k * stride + stride) end_)
          (tn (Z.of_nat k * stride)).

End LoopSpec.

(** ** common_utils: vector_set *)
Module VectorSetSpec.
Import Common.

(** [template <typename T> class vector_set : public std::vector<T>]
    with its member [std::map<T, size_t> _posn]: the vector and the map
    as a list of entries with distinct keys.  [eqb] is the equality of
    the keys. *)
Record vector_set (T : Type) := mkVectorSet {
  vs_elems : list T;
  _posn : list (T * nat)
}.
Arguments mkVectorSet {T} _ _.
Arguments vs_elems {T} _.
Arguments _posn {T} _.

(** [_posn.at(val)], when the key is there. *)
Fixpoint posn_at {T : Type} (eqb : T -> T -> bool) (val : T) (m : list (T * nat))
  : option nat :=
  match m with
  | [] => None
  | (k, p) :: r => if eqb k val then Some p else posn_at eqb val r
  end.

(** [_posn[val] = p]. *)
Fixpoint posn_set {T : Type} (eqb : T -> T -> bool) (val : T) (p : nat)
         (m : list (T * nat)) : list (T * nat) :=
  match m with
  | [] => [(val, p)]
  | (k, q) :: r => if eqb k val then (k, p) :: r else (k, q) :: posn_set eqb val p r
  end.

(** [count(val)]: [_posn.count(val)]. *)
Definition vs_count {T : Type} (eqb : T -> T -> bool) (val : T) (s : vector_set T)
  : nat :=
  match posn_at eqb val (_posn s) with
  | Some _ => 1%nat
  | None => 0%nat
  end.

(** [insert(val)]; [push_back(val)] is the same call. *)
Definition vs_insert {T : Type} (eqb : T -> T -> bool) (val : T) (s : vector_set T)
  : vector_set T :=
  if (vs_count eqb val s =? 0)%nat then
    let v := vs_elems s ++ [val] in
    mkVectorSet v (posn_set eqb val (length v - 1) (_posn s))
  else s.

(** [std::vector<T>::erase(begin() + op)]. *)
Fixpoint erase_at {T : Type} (op : nat) (v : list T) : list T :=
  match v, op with
  | [], _ => []
  | _ :: r, O => r
  | x :: r, S op' => x :: erase_at op' r
  end.

(** [for (auto pi : _posn) { auto& p = pi.second; if (p > op) p--; }]:
    [pi] is a copy of the entry, the decrement is made on the copy and
    the map stays as it is. *)
Definition erase_loop {T : Type} (op : nat) (m : list (T * nat)) : list (T * nat) :=
  fold_left
    (fun (posn : list (T * nat)) (pi : T * nat) =>
       let p := snd pi in
       let p := if (op <? p)%nat then (p - 1)%nat else p in
       posn)
    m m.

(** [erase(val)].  Erasing at a position past the end of the vector is
    undefined: [None]. *)
Definition vs_erase {T : Type} (eqb : T -> T -> bool) (val : T) (s : vector_set T)
  : option (vector_set T) :=
  if (0 <? vs_count eqb val s)%nat then
    match posn_at eqb val (_posn s) with
    | Some op =>
        if (op <? length (vs_elems s))%nat
        then Some (mkVectorSet (erase_at op (vs_elems s)) (erase_loop op (_posn s)))
        else None
    | None => Some s
    end
  else Some s.

(** [clear()], and the set after its constructor. *)
Definition vs_clear {T : Type} (s : vector_set T) : vector_set T := mkVectorSet [] [].

Definition vs_empty {T : Type} : vector_set T := mkVectorSet [] [].

(** The set after [insert] of the values of [l] in order. *)
Definition vs_of_list {T : Type} (eqb : T -> T -> bool) (l : list T) : vector_set T :=
  fold_left (fun s v => vs_insert eqb v s) l vs_empty.

(** The values of [l] without the repetitions of an earlier value. *)
Definition first_occurrences {T : Type} (eqb : T -> T -> bool) (l : list T) : list T :=
  fold_left (fun acc v => if existsb (eqb v) acc then acc else acc ++ [v]) l [].

(** The map holds the position of every element of the vector, and
    nothing else. *)
Definition vs_wf {T : Type} (eqb : T -> T -> bool) (s : vector_set T) : Prop :=
  forall v i, posn_at eqb v (_posn s) = Some i <-> nth_error (vs_elems s) i = Some v.

End VectorSetSpec.

(** ** Shifts and limits of the tiling *)
Module AnglesSpec.
Import Common Data Angles.

(** The number of wave-front shifts for [npacks] packs. *)
Definition wf_shifts_of (o : KernelSettings) (npacks : Z) : Z :=
  Z.max (npacks * Z.max (_region_steps o) (_block_steps o) - 1) 0.

(** The size that a rank needs in dimension [j] when it has a neighbour
    there: the largest halo plus the wave-front shifts. *)
Definition min_rank_size (o : KernelSettings) (fold_pts : list Z)
           (grids : list Grid) (npacks : Z) (j : nat) : Z :=
  max_halo_dim grids j
  + ROUND_UP (max_halo_dim grids j) (at_dim fold_pts j) * wf_shifts_of o npacks.

(** The rank is too small in dimension [j]. *)
Definition too_small (o : KernelSettings) (fold_pts : list Z)
           (grids : list Grid) (npacks : Z) (j : nat) : bool :=
  (1 <? at_dim (_num_ranks o) j)
  && (at_dim (_rank_sizes o) j <? min_rank_size o fold_pts grids npacks j).

(** The bound on the temporal-block steps from dimension [j]. *)
Definition tb_steps_limit (o : KernelSettings) (fold_pts mh : list Z)
           (npacks : Z) (j : nat) : Z :=
  Z.quot (at_dim (_block_sizes o) j - at_dim fold_pts j
          + tb_angle_dim o fold_pts mh j * 2)
         (tb_angle_dim o fold_pts mh j * 2 * npacks).

End AnglesSpec.

(** ** Sums over the ranks in line *)
Module RankSumsSpec.
Import Common Data Tuple Shift SetupRank.
Import TupleSpec.
Import RankTableSpec.

(** Rank [rn] has the rank indices of rank [me] in every dimension. *)
Definition at_my_coords (t : RankTables) (nddims me rn : nat) : bool :=
  forallb (fun d => tab (coords t) rn d =? tab (coords t) me d) (seq 0 nddims).

(** The sizes in dimension [di] of the ranks below [nr] that are in-line
    with [me] in [di] and satisfy [p], added up. *)
Definition inline_sum (t : RankTables) (nddims nr me di : nat) (p : nat -> bool) : Z :=
  fold_right Z.add 0
    (map (fun rn => tab (rsizes t) rn di)
         (filter (fun rn => is_inline t nddims me rn di && p rn) (seq 0 nr))).

(** [setupRank], end of the first pass, for one dimension: the local
    size and the global size afterwards.  [None] stands for the two
    throws (a size given on another rank only, and a global size that is
    too small to split). *)
Definition derive_sizes_dim (rank_size gsz nranks cpts rank_domain_sum : Z)
           (is_last : bool) : option (Z * Z) :=
  if rank_size =? 0 then
    if negb (rank_domain_sum =? 0) then None
    else
      let rsz := CEIL_DIV gsz nranks in
      let rsz := ROUND_UP rsz cpts in
      let rem := gsz - rsz * (nranks - 1) in
      if rem <=? 0 then None
      else Some (if is_last then rem else rsz, gsz)
  else if gsz =? 0 then Some (rank_size, rank_domain_sum)
  else Some (rank_size, gsz).

(** The sums over a list of ranks. *)
Definition partial_sum (t : RankTables) (nddims me di : nat) (p : nat -> bool)
           (rns : list nat) : Z :=
  fold_right Z.add 0
    (map (fun rn => tab (rsizes t) rn di)
         (filter (fun rn => is_inline t nddims me rn di && p rn) rns)).

(** Three ranks in a layout of three by one, the third with the rank
    indices of the first. *)
Definition x10_tables : RankTables :=
  mkTables [[0; 0]; [1; 0]; [0; 0]] [[8; 8]; [8; 8]; [8; 8]].

(** Three ranks in a row, of sizes 8, 6 and 5 in the first dimension. *)
Definition x11_tables : RankTables :=
  mkTables [[0; 0]; [1; 0]; [2; 0]] [[8; 4]; [6; 4]; [5; 4]].

End RankSumsSpec.

(** ** stencil_calc: adjust_span *)
Module AdjustSpanSpec.
Import Common Data Shift.
Import TupleSpec.

(** [begin], [end] and [stride] of a [ScanIndices], over the domain
    dimensions. *)
Record SpanIndices := mkSpan {
  span_begin : list Z;
  span_end : list Z;
  span_stride : list Z
}.

(** A scratch variable, as far as [adjust_span] reads it:
    [get_dim_posn] of the name of domain dimension [j], and the halo
    sizes by position. *)
Record ScratchVar := mkScratchVar {
  get_dim_posn : nat -> option nat;
  get_left_halo_size : nat -> Z;
  get_right_halo_size : nat -> Z
}.

(** Body of the loop over the domain dimensions. *)
Definition adjust_span_dim (fold_pts : list Z) (gp : ScratchVar) (idxs : SpanIndices)
           (adj_idxs : SpanIndices) (j : nat) : SpanIndices :=
  match get_dim_posn gp j with
  | None => adj_idxs
  | Some posn =>
      let lh := ROUND_UP (get_left_halo_size gp posn) (at_dim fold_pts j) in
      let rh := ROUND_UP (get_right_halo_size gp posn) (at_dim fold_pts j) in
      let adj_begin := at_dim (span_begin idxs) j - lh in
      let adj_end := at_dim (span_end idxs) j + rh in
      let width := at_dim (span_end idxs) j - at_dim (span_begin idxs) j in
      mkSpan (set_dim (span_begin adj_idxs) j adj_begin)
             (set_dim (span_end adj_idxs) j adj_end)
             (if width <=? at_dim (span_stride idxs) j
              then set_dim (span_stride adj_idxs) j (adj_end - adj_begin)
              else span_stride adj_idxs)
  end.

(** [StencilBundleBase::adjust_span]: only the first vector of output
    scratch variables is looked at; [None] stands for the exception of
    [at] when the vector has no variable for the thread. *)
Definition adjust_span (nddims : nat) (fold_pts : list Z)
           (outputScratchVecs : list (list ScratchVar)) (region_thread_idx : nat)
           (idxs : SpanIndices) : option SpanIndices :=
  match outputScratchVecs with
  | [] => Some idxs
  | sv :: _ =>
      match nth_error sv region_thread_idx with
      | None => None
      | Some gp => Some (fold_left (adjust_span_dim fold_pts gp idxs) (seq 0 nddims) idxs)
      end
  end.

(** A scratch variable over one dimension with halos 1 and 5. *)
Definition halo_var : ScratchVar :=
  mkScratchVar (fun j => Some j) (fun _ => 1) (fun _ => 5).

End AdjustSpanSpec.

(** ** stencil_calc: calc_mini_block *)
Module SubBoxSpec.
Import Common Data Tuple Shift BBox.
Import TupleSpec.
Import BBoxSpec.
Import AdjustSpanSpec.

(** The final list after the slices [0 .. m-1] of a box in which every
    point is valid. *)
Definition merged_upto (x y : Z) (b e : list Z) (len : Z) (m : nat)
  : list BoundingBox :=
  match m with
  | O => []
  | S _ => [mkBB (x :: b) (Z.min y (x + Z.of_nat m * len) :: e)]
  end.

(** [StencilBundleBase::calc_mini_block]: "Trim the mini-block indices
    based on the bounding box(es) for this bundle", over the domain
    dimensions: [None] stands for [bb_ok = false] after the first empty
    dimension. *)
Fixpoint trim_loop (mb_begin mb_end bb_b bb_e : list Z) : option (list Z * list Z) :=
  match mb_begin, mb_end, bb_b, bb_e with
  | mbb :: mbs, mbe :: mes, b :: bs, e :: es =>
      let bbegin := Z.max mbb b in
      let bend := Z.min mbe e in
      if bend <=? bbegin then None
      else
        match trim_loop mbs mes bs es with
        | None => None
        | Some (bg, en) => Some (bbegin :: bg, bend :: en)
        end
  | _, _, _, _ => Some ([], [])
  end.

(** The trimmed indices [mb_idxs] for one box of [_bb_list], if there is
    anything to do in it; [bb_num_points] is the field of the box. *)
Definition trim_to_bb (mini_block_idxs : SpanIndices) (bb : BoundingBox)
           (bb_num_points : Z) : option SpanIndices :=
  if bb_num_points =? 0 then None
  else
    match trim_loop (span_begin mini_block_idxs) (span_end mini_block_idxs)
                    (bb_begin bb) (bb_end bb) with
    | None => None
    | Some (bg, en) => Some (mkSpan bg en (span_stride mini_block_idxs))
    end.

(** The settings that [calc_mini_block] reads, over the domain
    dimensions; [_bind_posn] is the position of the binding dimension
    among them. *)
Record BlockSettings := mkBlockSettings {
  bind_block_threads : bool;
  _bind_posn : nat;
  _sub_block_sizes : list Z;
  _mini_block_sizes : list Z
}.

(** A bundle, as far as [calc_mini_block] reads it: its
    [outputScratchVecs]. *)
Definition ReqdBundle : Type := list (list ScratchVar).

(** [get_reqd_bundles]: "scratch children plus self". *)
Definition get_reqd_bundles (scratch_children : list ReqdBundle) (self : ReqdBundle)
  : list ReqdBundle :=
  scratch_children ++ [self].

(** "Tweak settings for adjusted indices", in dimension [j]; the
    alignment is not part of the indices kept here. *)
Definition tweak_stride (settings : BlockSettings) (bind_threads : bool)
           (bind_slab_pts : Z) (adj : SpanIndices) (j : nat) : SpanIndices :=
  if bind_threads && (j =? _bind_posn settings)%nat then
    mkSpan (span_begin adj) (span_end adj)
           (set_dim (span_stride adj) j bind_slab_pts)
  else if (at_dim (_mini_block_sizes settings) j <=? at_dim (_sub_block_sizes settings) j)
          || bind_threads then
    mkSpan (span_begin adj) (span_end adj)
           (set_dim (span_stride adj) j
                    (at_dim (span_end adj) j - at_dim (span_begin adj) j))
  else adj.

(** The indices [adj_mb_idxs] with which the mini-block loops of the
    needed bundle [sg] run; [nbt] is the number of block threads.
    [None] stands for the exception of [adjust_span]. *)
Definition reqd_bundle_span (nddims : nat) (fold_pts : list Z)
           (settings : BlockSettings) (nbt : Z) (region_thread_idx : nat)
           (mb_idxs : SpanIndices) (sg : ReqdBundle) : option SpanIndices :=
  let bind_slab_pts :=
    if bind_block_threads settings
    then at_dim (_sub_block_sizes settings) (_bind_posn settings) else 1 in
  let bind_threads := (1 <? nbt) && bind_block_threads settings in
  match adjust_span nddims fold_pts sg region_thread_idx mb_idxs with
  | None => None
  | Some adj =>
      Some (fold_left (tweak_stride settings bind_threads bind_slab_pts)
                      (seq 0 nddims) adj)
  end.

(** "Loop through all the needed bundles", from the [k]-th on: the
    position of each bundle in the list and the indices of its
    mini-block loops. *)
Fixpoint bundle_loop (nddims : nat) (fold_pts : list Z) (settings : BlockSettings)
         (nbt : Z) (region_thread_idx : nat) (mb_idxs : SpanIndices)
         (k : nat) (sg_list : list ReqdBundle) : option (list (nat * SpanIndices)) :=
  match sg_list with
  | [] => Some []
  | sg :: rest =>
      match reqd_bundle_span nddims fold_pts settings nbt region_thread_idx mb_idxs sg
      with
      | None => None
      | Some adj =>
          match bundle_loop nddims fold_pts settings nbt region_thread_idx mb_idxs
                            (S k) rest with
          | None => None
          | Some l => Some ((k, adj) :: l)
          end
      end
  end.

(** "Loop through each solid BB for this bundle." *)
Fixpoint bb_loop (nddims : nat) (fold_pts : list Z) (settings : BlockSettings)
         (nbt : Z) (region_thread_idx : nat) (mini_block_idxs : SpanIndices)
         (sg_list : list ReqdBundle) (bb_list : list (BoundingBox * Z))
  : option (list (nat * SpanIndices)) :=
  match bb_list with
  | [] => Some []
  | (bb, n) :: rest =>
      match trim_to_bb mini_block_idxs bb n with
      | None =>
          bb_loop nddims fold_pts settings nbt region_thread_idx mini_block_idxs
                  sg_list rest
      | Some mb_idxs =>
          match bundle_loop nddims fold_pts settings nbt region_thread_idx mb_idxs
                            0 sg_list with
          | None => None
          | Some l =>
              match bb_loop nddims fold_pts settings nbt region_thread_idx
                            mini_block_idxs sg_list rest with
              | None => None
              | Some l' => Some (l ++ l')
              end
          end
      end
  end.

(** [StencilBundleBase::calc_mini_block]: the runs of the mini-block
    loops in order, each with the position of its bundle among the
    needed bundles and with its indices; [bundle_num_points] is
    [_bundle_bb.bb_num_points], and every box of [_bb_list] comes with
    its [bb_num_points]. *)
Definition calc_mini_block (nddims : nat) (fold_pts : list Z) (settings : BlockSettings)
           (nbt : Z) (region_thread_idx : nat) (bundle_num_points : Z)
           (bb_list : list (BoundingBox * Z))
           (scratch_children : list ReqdBundle) (self : ReqdBundle)
           (mini_block_idxs : SpanIndices) : option (list (nat * SpanIndices)) :=
  if bundle_num_points =? 0 then Some []
  else bb_loop nddims fold_pts settings nbt region_thread_idx mini_block_idxs
               (get_reqd_bundles scratch_children self) bb_list.

(** The indices of the runs of the [k]-th needed bundle. *)
Definition spans_of (k : nat) (runs : list (nat * SpanIndices)) : list SpanIndices :=
  map snd (filter (fun p => (fst p =? k)%nat) runs).

(** Number of spans that hold [pt]. *)
Definition span_hits (spans : list SpanIndices) (pt : list Z) : nat :=
  length (filter (fun s => in_range (span_begin s) (span_end s) pt) spans).

(** The mini-block and the box [bb] have points in common. *)
Definition meets (nddims : nat) (mini_block_idxs : SpanIndices) (bb : BoundingBox)
  : Prop :=
  forall j, (j < nddims)%nat ->
    Z.max (at_dim (span_begin mini_block_idxs) j) (at_dim (bb_begin bb) j)
    < Z.min (at_dim (span_end mini_block_idxs) j) (at_dim (bb_end bb) j).

(** The variable that [adjust_span] of the bundle [sg] looks at. *)
Definition first_output_var (sg : ReqdBundle) (region_thread_idx : nat)
  : option ScratchVar :=
  match sg with
  | [] => None
  | sv :: _ => nth_error sv region_thread_idx
  end.

(** [s] is the part of the mini-block in the box [bb], grown in the
    dimensions of the scratch variable [gp], if any, by its halos rounded
    up to the fold lengths. *)
Definition grown_part (nddims : nat) (fold_pts : list Z) (gp : option ScratchVar)
           (mini_block_idxs : SpanIndices) (bb : BoundingBox) (s : SpanIndices)
  : Prop :=
  forall j, (j < nddims)%nat ->
    let ib := Z.max (at_dim (span_begin mini_block_idxs) j) (at_dim (bb_begin bb) j) in
    let ie := Z.min (at_dim (span_end mini_block_idxs) j) (at_dim (bb_end bb) j) in
    match gp with
    | Some g =>
        match get_dim_posn g j with
        | Some posn =>
            at_dim (span_begin s) j
            = ib - ROUND_UP (get_left_halo_size g posn) (at_dim fold_pts j) /\
            at_dim (span_end s) j
            = ie + ROUND_UP (get_right_halo_size g posn) (at_dim fold_pts j)
        | None => at_dim (span_begin s) j = ib /\ at_dim (span_end s) j = ie
        end
    | None => at_dim (span_begin s) j = ib /\ at_dim (span_end s) j = ie
    end.

(** A scratch variable over two dimensions with halos of 1 on both
    sides. *)
Definition x14_scratch : ScratchVar :=
  mkScratchVar (fun j => Some j) (fun _ => 1) (fun _ => 1).

(** Sub-blocks of 4 by 4 in mini-blocks of 8 by 8, no binding. *)
Definition x14_settings : BlockSettings := mkBlockSettings false 0 [4; 4] [8; 8].

End SubBoxSpec.

(** ** Calls and flags of the halo exchange *)
Module HaloSpec.
Import Common Data Halo.
Import TagSpec.

(** The MPI call that a step of the exchange makes for one neighbour of
    one variable, if it makes one. *)
Definition neighbor_call (halo_step : halo_steps) (gi : Z) (gname : String.string)
           (n : Neighbor) : list MpiCall :=
  match halo_step with
  | halo_irecv =>
      if negb (recv_bytes n =? 0) && negb (using_shm n)
      then [MPI_Irecv gname (neighbor_rank n) gi] else []
  | halo_pack_isend =>
      if negb (send_bytes n =? 0) && negb (using_shm n)
      then [MPI_Isend gname (neighbor_rank n) gi] else []
  | halo_unpack =>
      if negb (recv_bytes n =? 0) && negb (using_shm n)
      then [MPI_Wait_recv gname (neighbor_rank n)] else []
  | halo_final =>
      if negb (send_bytes n =? 0) && negb (using_shm n)
      then [MPI_Wait_send gname (neighbor_rank n)] else []
  end.

(** The MPI calls of one step of the exchange over the variables to
    swap, the first of which gets the tag [gi + 1]. *)
Fixpoint step_calls (h : HaloCtx) (halo_step : halo_steps) (gi : Z)
         (to_swap : list (String.string * nat)) : list MpiCall :=
  match to_swap with
  | [] => []
  | (gname, gp) :: rest =>
      let nbrs := match mpi_find gname (mpiData h) with
                  | Some ns => ns
                  | None => []
                  end in
      flat_map (neighbor_call halo_step (gi + 1) gname) nbrs
               ++ step_calls h halo_step (gi + 1) rest
  end.

(** The wait that completes a request. *)
Definition completion (c : MpiCall) : option MpiCall :=
  match c with
  | MPI_Irecv g n _ => Some (MPI_Wait_recv g n)
  | MPI_Isend g n _ => Some (MPI_Wait_send g n)
  | _ => None
  end.

Definition is_request (recv : bool) (c : MpiCall) : Prop :=
  match c with
  | MPI_Irecv _ _ _ => recv = true
  | MPI_Isend _ _ _ => recv = false
  | _ => False
  end.

(** The step indices that [exchange_halos] checks for a variable. *)
Definition checked_steps (v : YkVar) : list Z :=
  let start_t := if uses_step_dim v then get_first_valid_step_index v else 0 in
  let stop_t := if uses_step_dim v then get_last_valid_step_index v + 1 else 1 in
  steps_from start_t (Z.to_nat (stop_t - start_t)).

(** [v'] is [v] with some dirty flags cleared. *)
Definition cleared (v v' : YkVar) : Prop :=
  get_name v' = get_name v /\ is_scratch v' = is_scratch v /\
  uses_step_dim v' = uses_step_dim v /\ alloc_steps v' = alloc_steps v /\
  get_first_valid_step_index v' = get_first_valid_step_index v /\
  forall t, is_dirty v' t = true -> is_dirty v t = true.

(** A dirty step [t] of the variable behind [gp] is inside the span of
    steps recorded for it. *)
Definition spans (m : SwapMaps) (gp : nat) (t : Z) : Prop :=
  exists f l, ptr_find gp (firstStepsToSwap m) = Some f /\
              ptr_find gp (lastStepsToSwap m) = Some l /\ f <= t <= l.

(** The variable behind [gp] is one that [exchange_halos] looks at, and
    step [t] of it is dirty. *)
Definition needs_swap (h : HaloCtx) (v : YkVar) (t : Z) : Prop :=
  is_scratch v = false /\ mpi_find (get_name v) (mpiData h) <> None /\
  In t (checked_steps v) /\ is_dirty v t = true.

(** No step of the variable in [first .. last] is dirty. *)
Definition clean_in (m : SwapMaps) (gp : nat) (v : YkVar) : Prop :=
  forall f l t, ptr_find gp (firstStepsToSwap m) = Some f ->
                ptr_find gp (lastStepsToSwap m) = Some l ->
                f <= t <= l -> is_dirty v t = false.

Definition nbrs_of (h : HaloCtx) (g : String.string) : list Neighbor :=
  match mpi_find g (mpiData h) with
  | Some ns => ns
  | None => []
  end.

(** A rank with one neighbour for variable A and none for variable B;
    both variables have a dirty step. *)
Definition two_var_ctx : HaloCtx :=
  mkHalo true 2 [("A"%string, [mkNbr 1 0 8 8 false]); ("B"%string, [])] true true true.

Definition two_vars : list YkVar :=
  [mkVar "A"%string false true 2 0 [true; false];
   mkVar "B"%string false true 2 0 [false; true]].

(** Pack [bp] has a bundle that writes the variable behind [p] at one of
    the input steps. *)
Definition writes_to (bp : BundlePack) (steps : list Z) (p : nat) : Prop :=
  exists sb t, In sb bp /\ In t steps /\
               get_output_step_index sb t <> None /\ In p (outputVarPtrs sb).

(** The pack at position [i] is one that [update_vars] goes through. *)
Definition selected (sel_bp : option nat) (i : nat) : Prop :=
  match sel_bp with
  | Some s => s = i
  | None => True
  end.

(** What [update_vars] never changes in a variable. *)
Definition same_storage (v v' : YkVar) : Prop :=
  get_name v' = get_name v /\ is_scratch v' = is_scratch v /\
  uses_step_dim v' = uses_step_dim v /\ alloc_steps v' = alloc_steps v.

(** The variable behind [p] in [vars'] is the one of [vars], perhaps
    with another window of valid steps and other dirty flags; it is the
    same when [changed] does not hold. *)
Definition updated (changed : Prop) (p : nat) (vars vars' : list YkVar) : Prop :=
  length vars' = length vars /\
  (forall v, nth_error vars p = Some v ->
             exists v', nth_error vars' p = Some v' /\ same_storage v v') /\
  (~ changed -> nth_error vars' p = nth_error vars p).

(** One pack with one bundle that writes variable 0 at step [t + 1]. *)
Definition one_bundle_pack : list BundlePack :=
  [[mkBundle (fun t => Some (t + 1)) [0%nat]]].

(** The arrays [recv_reqs] and [send_reqs] of the MPI data of the
    variables, by the name of the variable and the index [ni] of the
    neighbour: [true] for a request that is pending, [false] for
    [MPI_REQUEST_NULL]. *)
Record Requests := mkReqs {
  recv_reqs : String.string -> nat -> bool;
  send_reqs : String.string -> nat -> bool
}.

(** [reqs[ni] = r] in the MPI data of the variable [gname]. *)
Definition set_req (reqs : String.string -> nat -> bool) (gname : String.string)
           (ni : nat) (r : bool) : String.string -> nat -> bool :=
  fun g i => if String.eqb g gname && (i =? ni)%nat then r else reqs g i.

(** The state of the exchange: the variables, the requests and the MPI
    calls made so far. *)
Definition HaloState : Type := (list YkVar * Requests * list MpiCall)%type.

(** Body of the visit of one neighbour, with the requests:
    [MPI_Irecv] and [MPI_Isend] leave a pending request in [r]; the
    two waits are made [if (r != MPI_REQUEST_NULL)], and
    [r = MPI_REQUEST_NULL] follows in either case. *)
Definition visit_neighbor_reqs (m : SwapMaps) (halo_step : halo_steps)
           (gi : Z) (gname : String.string) (gp : nat)
           (st : HaloState) (n : Neighbor) : HaloState :=
  let '(vars, rq, calls) := st in
  match halo_step with
  | halo_irecv =>
      if negb (recv_bytes n =? 0) && negb (using_shm n)
      then (vars, mkReqs (set_req (recv_reqs rq) gname (ni n) true) (send_reqs rq),
            calls ++ [MPI_Irecv gname (neighbor_rank n) gi])
      else st
  | halo_pack_isend =>
      if negb (send_bytes n =? 0) && negb (using_shm n)
      then (vars, mkReqs (recv_reqs rq) (set_req (send_reqs rq) gname (ni n) true),
            calls ++ [MPI_Isend gname (neighbor_rank n) gi])
      else st
  | halo_unpack =>
      if negb (recv_bytes n =? 0) && negb (using_shm n)
      then (vars, mkReqs (set_req (recv_reqs rq) gname (ni n) false) (send_reqs rq),
            if recv_reqs rq gname (ni n)
            then calls ++ [MPI_Wait_recv gname (neighbor_rank n)] else calls)
      else st
  | halo_final =>
      let '(rq', calls') :=
        if negb (send_bytes n =? 0) && negb (using_shm n)
        then (mkReqs (recv_reqs rq) (set_req (send_reqs rq) gname (ni n) false),
              if send_reqs rq gname (ni n)
              then calls ++ [MPI_Wait_send gname (neighbor_rank n)] else calls)
        else (rq, calls) in
      match ptr_find gp (firstStepsToSwap m), ptr_find gp (lastStepsToSwap m) with
      | Some f, Some l => (at_var gp (mark_clean f l) vars, rq', calls')
      | _, _ => (vars, rq', calls')
      end
  end.

(** "Loop thru all vars to swap.  Use 'gi' as an MPI tag." *)
Fixpoint swap_loop_reqs (h : HaloCtx) (m : SwapMaps) (halo_step : halo_steps)
         (gi : Z) (to_swap : list (String.string * nat)) (st : HaloState) : HaloState :=
  match to_swap with
  | [] => st
  | (gname, gp) :: rest =>
      let gi := gi + 1 in
      swap_loop_reqs h m halo_step gi rest
                     (fold_left (visit_neighbor_reqs m halo_step gi gname gp)
                                (nbrs_of h gname) st)
  end.

(** [StencilContext::exchange_halos] (compiled with MPI) with the
    requests [rq] of the MPI data on entry: the variables and the
    requests afterwards, and the MPI calls in order. *)
Definition exchange_halos_reqs (h : HaloCtx) (rq : Requests) (vars : list YkVar)
  : HaloState :=
  if negb (enable_halo_exchange h) || (num_ranks h <? 2) then (vars, rq, [])
  else
    let m := vars_to_swap h vars in
    fold_left (fun st halo_step => swap_loop_reqs h m halo_step 0 (varsToSwap m) st)
              (steps_to_do h m) (vars, rq, []).

(** [StencilContext::poke_halo_exchange] (compiled with MPI):
    [MPI_Testsome] on the requests of every variable with MPI data;
    [completed] tells which pending requests the MPI library finds
    complete, and these become [MPI_REQUEST_NULL]. *)
Definition poke_halo_exchange (h : HaloCtx) (completed : Requests) (rq : Requests)
  : Requests :=
  if negb (enable_halo_exchange h) || (num_ranks h <? 2) then rq
  else
    mkReqs (fun g i => match mpi_find g (mpiData h) with
                       | Some _ => recv_reqs rq g i && negb (recv_reqs completed g i)
                       | None => recv_reqs rq g i
                       end)
           (fun g i => match mpi_find g (mpiData h) with
                       | Some _ => send_reqs rq g i && negb (send_reqs completed g i)
                       | None => send_reqs rq g i
                       end).

(** Every request is pending. *)
Definition all_pending : Requests := mkReqs (fun _ _ => true) (fun _ _ => true).

(** No request is pending. *)
Definition none_pending : Requests := mkReqs (fun _ _ => false) (fun _ _ => false).

(** The MPI call that a step of the exchange makes for one neighbour of
    one variable when the requests are [rq]: a wait is made for a
    pending request only. *)
Definition pending_call (rq : Requests) (halo_step : halo_steps) (gi : Z)
           (gname : String.string) (n : Neighbor) : list MpiCall :=
  match halo_step with
  | halo_unpack =>
      if recv_reqs rq gname (ni n) then neighbor_call halo_step gi gname n else []
  | halo_final =>
      if send_reqs rq gname (ni n) then neighbor_call halo_step gi gname n else []
  | _ => neighbor_call halo_step gi gname n
  end.

(** The MPI calls of one step of the exchange over the variables to
    swap, the first of which gets the tag [gi + 1], when the requests
    are [rq] at the start of the step. *)
Fixpoint step_calls_reqs (h : HaloCtx) (rq : Requests) (halo_step : halo_steps)
         (gi : Z) (to_swap : list (String.string * nat)) : list MpiCall :=
  match to_swap with
  | [] => []
  | (gname, gp) :: rest =>
      flat_map (pending_call rq halo_step (gi + 1) gname) (nbrs_of h gname)
               ++ step_calls_reqs h rq halo_step (gi + 1) rest
  end.

(** The requests after the visit of one neighbour. *)
Definition after_visit (halo_step : halo_steps) (gname : String.string)
           (n : Neighbor) (rq : Requests) : Requests :=
  match halo_step with
  | halo_irecv =>
      if negb (recv_bytes n =? 0) && negb (using_shm n)
      then mkReqs (set_req (recv_reqs rq) gname (ni n) true) (send_reqs rq) else rq
  | halo_pack_isend =>
      if negb (send_bytes n =? 0) && negb (using_shm n)
      then mkReqs (recv_reqs rq) (set_req (send_reqs rq) gname (ni n) true) else rq
  | halo_unpack =>
      if negb (recv_bytes n =? 0) && negb (using_shm n)
      then mkReqs (set_req (recv_reqs rq) gname (ni n) false) (send_reqs rq) else rq
  | halo_final =>
      if negb (send_bytes n =? 0) && negb (using_shm n)
      then mkReqs (recv_reqs rq) (set_req (send_reqs rq) gname (ni n) false) else rq
  end.

(** What a step writes into the receive and into the send requests that
    it visits. *)
Definition writes_recv (halo_step : halo_steps) : option bool :=
  match halo_step with
  | halo_irecv => Some true
  | halo_unpack => Some false
  | _ => None
  end.

Definition writes_send (halo_step : halo_steps) : option bool :=
  match halo_step with
  | halo_pack_isend => Some true
  | halo_final => Some false
  | _ => None
  end.

(** The neighbour [n] has a receive buffer, or a send buffer, and is
    not reached through shared memory. *)
Definition has_recv (n : Neighbor) : bool :=
  negb (recv_bytes n =? 0) && negb (using_shm n).

Definition has_send (n : Neighbor) : bool :=
  negb (send_bytes n =? 0) && negb (using_shm n).

(** The step visits the request with index [i] of the variable [g]. *)
Definition visited (h : HaloCtx) (to_swap : list (String.string * nat))
           (has : Neighbor -> bool) (g : String.string) (i : nat) : bool :=
  existsb (fun e => String.eqb g (fst e)
                    && existsb (fun n => (i =? ni n)%nat && has n) (nbrs_of h (fst e)))
          to_swap.

(** The requests after a step. *)
Definition written (w : option bool) (hit : bool) (old : bool) : bool :=
  match w with
  | Some b => if hit then b else old
  | None => old
  end.

(** One variable with one neighbour; the exterior parts have just been
    computed. *)
Definition x15_exterior : HaloCtx :=
  mkHalo true 2 [("A"%string, [mkNbr 1 0 8 8 false])] false true true.

(** The same after the interior. *)
Definition x15_interior : HaloCtx :=
  mkHalo true 2 [("A"%string, [mkNbr 1 0 8 8 false])] true false false.

Definition x15_vars : list YkVar := [mkVar "A"%string false true 2 0 [true; false]].

End HaloSpec.

(** ** The chunks of the step loop *)
Module StepLoopSpec.
Import Common Data Tuple Halo Run.

(** [start_t] and [stop_t] of the iteration [index_t] of the step loop. *)
Definition step_chunk (wf first_step_index last_step_index index_t : Z) : Z * Z :=
  let step_dir := if first_step_index <=? last_step_index then 1 else -1 in
  let stride_t := Z.max wf 1 * step_dir in
  let end_t := last_step_index + step_dir in
  let start_t := first_step_index + index_t * stride_t in
  let stop_t := if 0 <? stride_t then Z.min (start_t + stride_t) end_t
                else Z.max (start_t + stride_t) end_t in
  (start_t, stop_t).

(** Number of iterations of the step loop. *)
Definition step_chunks (wf first_step_index last_step_index : Z) : Z :=
  let step_dir := if first_step_index <=? last_step_index then 1 else -1 in
  CEIL_DIV (Z.abs (last_step_index + step_dir - first_step_index))
           (Z.abs (Z.max wf 1 * step_dir)).

Definition rl_span (r : RankLoops) : Z * Z := (rl_start_t r, rl_stop_t r).

(** The parts of the state that the work on the packs leaves alone. *)
Definition same_run (st st' : RunState) : Prop :=
  is_prepared st' = is_prepared st /\ steps_done st' = steps_done st /\
  run_time_running st' = run_time_running st.

(** The calls of the rank loops added from [st] to [st']. *)
Definition adds_loops (st st' : RunState) (new : list RankLoops) : Prop :=
  rank_loops_done st' = rank_loops_done st ++ new.

(** The calls of the rank loops that are for the steps [s .. e) and the
    pack selection [sel]. *)
Definition loops_for (sel : option nat) (s e : Z) (new : list RankLoops) : Prop :=
  Forall (fun r => rl_span r = (s, e) /\ rl_sel_bp r = sel) new.

(** [start_t] and [stop_t] in [step_body]. *)
Definition body_chunk (begin_t end_t stride_t index_t : Z) : Z * Z :=
  let start_t := begin_t + index_t * stride_t in
  (start_t, if 0 <? stride_t then Z.min (start_t + stride_t) end_t
            else Z.max (start_t + stride_t) end_t).

(** What one iteration of the step loop adds to the calls of the rank
    loops: calls for its own steps only, and with wave-fronts at least
    one call, for all the packs at once. *)
Definition chunk_loops (cfg : RunConfig) (span : Z * Z) (new : list RankLoops) : Prop :=
  Forall (fun r => rl_span r = span) new /\
  (wf_steps cfg <> 0 -> new <> [] /\ Forall (fun r => rl_sel_bp r = None) new).

(** A prepared solution without packs on one rank, with wave-fronts of
    two steps. *)
Definition wf2_config : RunConfig :=
  mkRunConfig 2 false [] (fun _ _ => true) 8 false 1 (fun _ _ => false).

Definition prepared_state : RunState :=
  mkRunState true (mkHalo false 1 [] true true true) 0 [] 0 false [] [].

End StepLoopSpec.

(** ** context: shift_mini_block *)
Module ShiftMiniBlockSpec.
Import Common Data Angles Shift.
Import TupleSpec.

(** The arguments of [shift_mini_block], over the domain dimensions;
    [nshapes] and [shape] are only printed. *)
Record MiniBlockArgs := mkMbArgs {
  mb_base_start : list Z;
  mb_base_stop : list Z;
  adj_block_base_start : list Z;
  adj_block_base_stop : list Z;
  block_base_start : list Z;
  block_base_stop : list Z;
  region_base_start : list Z;
  region_base_stop : list Z;
  mb_shift_num : Z;
  nphases : Z;
  phase : Z;
  bridge_mask : list bool
}.

(** [blk_start], [blk_stop] and [next_blk_start] of dimension [j] after
    the adjustments for the current shift. *)
Definition block_sides (tb : TbInfo) (a : MiniBlockArgs) (idxs : ScanIndices) (j : nat)
  : Z * Z * Z :=
  let tb_angle := at_dim (tb_angles tb) j in
  let is_first_blk := at_dim (block_base_start a) j <=? at_dim (region_base_start a) j in
  let is_last_blk := at_dim (region_base_stop a) j <=? at_dim (block_base_stop a) j in
  let is_one_blk := is_first_blk && is_last_blk in
  let blk_start := at_dim (block_base_start a) j in
  let blk_stop := at_dim (block_base_stop a) j in
  let blk_stop := if (1 <? nphases a) && negb is_one_blk
                  then Z.min (blk_start + at_dim (tb_widths tb) j)
                             (at_dim (block_base_stop a) j)
                  else blk_stop in
  let next_blk_start := at_dim (block_base_stop a) j in
  let blk_start := blk_start + tb_angle * mb_shift_num a in
  let blk_start := if is_first_blk then at_dim (idx_begin idxs) j else blk_start in
  let blk_stop := blk_stop - tb_angle * mb_shift_num a in
  let blk_stop := if ((nphases a =? 1) || is_one_blk) && is_last_blk
                  then at_dim (idx_end idxs) j else blk_stop in
  let next_blk_start := next_blk_start + tb_angle * mb_shift_num a in
  let next_blk_start := if is_last_blk then at_dim (idx_end idxs) j
                        else next_blk_start in
  (blk_start, blk_stop, next_blk_start).

(** [shape_start] and [shape_stop] of dimension [j]. *)
Definition shape_sides (tb : TbInfo) (a : MiniBlockArgs) (idxs : ScanIndices) (j : nat)
  : Z * Z :=
  let '(blk_start, blk_stop, next_blk_start) := block_sides tb a idxs j in
  if (0 <? phase a) && nth j (bridge_mask a) false
  then (Z.max blk_stop blk_start, next_blk_start)
  else (blk_start, blk_stop).

(** Body of the dimension loop of [shift_mini_block]: the value of [ok]
    and the updated [idxs]. *)
Definition shift_mini_block_dim (tb : TbInfo) (a : MiniBlockArgs)
           (idxs : ScanIndices) (j : nat) : bool * ScanIndices :=
  let (shape_start, shape_stop) := shape_sides tb a idxs j in
  if shape_stop <=? shape_start then (false, idxs)
  else
    let is_first_mb := at_dim (mb_base_start a) j <=? at_dim (adj_block_base_start a) j in
    let is_last_mb := at_dim (adj_block_base_stop a) j <=? at_dim (mb_base_stop a) j in
    let is_one_mb := is_first_mb && is_last_mb in
    let mb_start := at_dim (mb_base_start a) j in
    let mb_stop := at_dim (mb_base_stop a) j in
    let mb_start := if negb is_one_mb
                    then mb_start - at_dim (mb_angles tb) j * mb_shift_num a
                    else mb_start in
    let mb_stop := if negb is_one_mb
                   then mb_stop - at_dim (mb_angles tb) j * mb_shift_num a
                   else mb_stop in
    let mb_start := if is_first_mb then shape_start else mb_start in
    let mb_stop := if is_last_mb then shape_stop else mb_stop in
    let mb_start := Z.max mb_start (at_dim (idx_begin idxs) j) in
    let mb_stop := Z.min mb_stop (at_dim (idx_end idxs) j) in
    let mb_start := Z.max mb_start shape_start in
    let mb_stop := Z.min mb_stop shape_stop in
    (negb (mb_stop <=? mb_start),
     mkScan (set_dim (idx_begin idxs) j mb_start) (set_dim (idx_end idxs) j mb_stop)).

(** The loop over the domain dimensions from [j], [cnt] of them, left
    at the first dimension without work. *)
Fixpoint shift_mini_block_loop (tb : TbInfo) (a : MiniBlockArgs)
         (j cnt : nat) (idxs : ScanIndices) : bool * ScanIndices :=
  match cnt with
  | O => (true, idxs)
  | S cnt' =>
      let (ok, idxs') := shift_mini_block_dim tb a idxs j in
      if ok then shift_mini_block_loop tb a (S j) cnt' idxs' else (false, idxs')
  end.

(** [StencilContext::shift_mini_block]: the result [ok] and the updated
    [idxs]. *)
Definition shift_mini_block (nddims : nat) (tb : TbInfo) (a : MiniBlockArgs)
           (idxs : ScanIndices) : bool * ScanIndices :=
  shift_mini_block_loop tb a 0 nddims idxs.

(** The same call for another phase and bridge mask. *)
Definition in_phase (a : MiniBlockArgs) (ph : Z) (mask : list bool) : MiniBlockArgs :=
  mkMbArgs (mb_base_start a) (mb_base_stop a) (adj_block_base_start a)
           (adj_block_base_stop a) (block_base_start a) (block_base_stop a)
           (region_base_start a) (region_base_stop a) (mb_shift_num a) (nphases a)
           ph mask.

(** One dimension, blocks of 16 points from 0 and 16 in a region of 32,
    trapezoids with base 12 and angle 2. *)
Definition tb_1d : TbInfo := mkTb 2 1 [2] [12] [8] [0].

Definition first_block (ph : Z) (mask : list bool) : MiniBlockArgs :=
  mkMbArgs [0] [16] [0] [16] [0] [16] [0] [32] 1 2 ph mask.

Definition second_block (ph : Z) (mask : list bool) : MiniBlockArgs :=
  mkMbArgs [16] [32] [16] [32] [16] [32] [0] [32] 1 2 ph mask.

End ShiftMiniBlockSpec.

(** ** alloc.cpp: allocVarData *)
Module AllocSpec.
Import Common.

(** [size_t] arithmetic: 64 bits, wrapping. *)
Definition size_t_wrap (x : Z) : Z := x mod 2 ^ 64.

(** [#define CACHELINE_BYTES (64)] *)
Definition CACHELINE_BYTES : Z := 64.

(** [ROUND_UP(nbytes + _data_buf_pad, CACHELINE_BYTES)] on [size_t]. *)
Definition padded_bytes (_data_buf_pad nbytes : Z) : Z :=
  let n := size_t_wrap (nbytes + _data_buf_pad) in
  let numer := size_t_wrap (size_t_wrap (n + CACHELINE_BYTES) - 1) in
  size_t_wrap (Z.quot numer CACHELINE_BYTES * CACHELINE_BYTES).

(** Modelled from the spec: pass 2 is to "distribute offsets into that
    block".  The variable class is not among the files at hand;
    [set_storage(base, offset)] gives the variable the bytes from
    [offset] on in the buffer [base], named here by its key, and the
    variable has storage from then on. *)
Record VarStorage := mkVarStorage {
  get_numa_preferred : Z;
  get_num_storage_bytes : Z;
  storage : option (Z * Z)
}.

Definition is_storage_allocated (gp : VarStorage) : bool :=
  match storage gp with
  | Some _ => true
  | None => false
  end.

Definition set_storage (key offset : Z) (gp : VarStorage) : VarStorage :=
  mkVarStorage (get_numa_preferred gp) (get_num_storage_bytes gp) (Some (key, offset)).

(** [npbytes[key] += n] on a [std::map<int, size_t>], whose missing
    entries count as zero. *)
Definition map_add (m : Z -> Z) (key n : Z) : Z -> Z :=
  fun k => if k =? key then size_t_wrap (m k + n) else m k.

(** Apply [f] to the variable behind pointer [gp]. *)
Fixpoint at_ptr (gp : nat) (f : VarStorage -> VarStorage) (vars : list VarStorage)
  : list VarStorage :=
  match vars, gp with
  | [], _ => []
  | v :: r, O => f v :: r
  | v :: r, S gp' => v :: at_ptr gp' f r
  end.

(** "Allocate I/O vars before read-only vars." *)
Definition sortedVarPtrs (outputVarPtrs varPtrs : list nat) : list nat :=
  outputVarPtrs
    ++ filter (fun gp => negb (existsb (Nat.eqb gp) outputVarPtrs)) varPtrs.

(** Body of the loop over the variables in pass [pass]: the variables
    and [npbytes]. *)
Definition alloc_var (_data_buf_pad : Z) (pass : Z)
           (st : list VarStorage * (Z -> Z)) (ptr : nat)
  : list VarStorage * (Z -> Z) :=
  let (vars, npbytes) := st in
  match nth_error vars ptr with
  | None => st
  | Some gp =>
      if negb (is_storage_allocated gp) then
        let numa_pref := get_numa_preferred gp in
        let vars := if pass =? 2
                    then at_ptr ptr (set_storage numa_pref (npbytes numa_pref)) vars
                    else vars in
        let nbytes := get_num_storage_bytes gp in
        (vars, map_add npbytes numa_pref (padded_bytes _data_buf_pad nbytes))
      else st
  end.

(** One pass: the variables afterwards and the bytes counted for each
    key. *)
Definition alloc_pass (_data_buf_pad : Z) (pass : Z) (sorted : list nat)
           (vars : list VarStorage) : list VarStorage * (Z -> Z) :=
  fold_left (alloc_var _data_buf_pad pass) sorted (vars, fun _ => 0).

(** [StencilContext::allocVarData] without PMEM: the variables
    afterwards and the size of the buffer allocated for each key in
    pass 1. *)
Definition allocVarData (_data_buf_pad : Z) (outputVarPtrs varPtrs : list nat)
           (vars : list VarStorage) : list VarStorage * (Z -> Z) :=
  let sorted := sortedVarPtrs outputVarPtrs varPtrs in
  let (vars, _) := alloc_pass _data_buf_pad 0 sorted vars in
  let (vars, _var_data_buf) := alloc_pass _data_buf_pad 1 sorted vars in
  let (vars, _) := alloc_pass _data_buf_pad 2 sorted vars in
  (vars, _var_data_buf).

(** The bytes that the variables behind [ptrs] ask for at most, pads and
    rounding included. *)
Definition demand (_data_buf_pad : Z) (vars : list VarStorage) (ptrs : list nat) : Z :=
  fold_right
    (fun p acc =>
       match nth_error vars p with
       | Some gp => get_num_storage_bytes gp + _data_buf_pad + CACHELINE_BYTES
       | None => 0
       end + acc) 0 ptrs.

(** The bytes [offset .. offset + nbytes + pad) of two variables in the
    same buffer do not overlap. *)
Definition apart (_data_buf_pad : Z) (vp vq : VarStorage) : Prop :=
  forall key op oq,
    storage vp = Some (key, op) -> storage vq = Some (key, oq) ->
    op + get_num_storage_bytes vp + _data_buf_pad <= oq \/
    oq + get_num_storage_bytes vq + _data_buf_pad <= op.

(** The variable [v] got its place in the buffer of its key, of
    [size] bytes. *)
Definition placed (_data_buf_pad : Z) (size : Z) (v v' : VarStorage) : Prop :=
  exists ofs,
    storage v' = Some (get_numa_preferred v, ofs) /\
    0 <= ofs /\ ofs mod CACHELINE_BYTES = 0 /\
    ofs + get_num_storage_bytes v + _data_buf_pad <= size.

(** The state of pass 2 after the variables behind [processed]: [cur]
    are the variables, [c2] the bytes given out for each key, and [c1]
    the bytes that pass 1 counted for the same variables. *)
Definition layout_inv (pad : Z) (orig : list VarStorage) (processed : list nat)
           (cur : list VarStorage) (c1 c2 : Z -> Z) : Prop :=
  length cur = length orig /\
  (forall p v, nth_error orig p = Some v ->
     exists v', nth_error cur p = Some v' /\
                get_numa_preferred v' = get_numa_preferred v /\
                get_num_storage_bytes v' = get_num_storage_bytes v /\
                (storage v <> None \/ ~ In p processed -> v' = v) /\
                (storage v = None -> In p processed ->
                 placed pad (c2 (get_numa_preferred v)) v v')) /\
  (forall key, 0 <= c2 key <= c1 key /\ c2 key mod CACHELINE_BYTES = 0) /\
  (forall p q vp vq vp' vq',
     p <> q -> nth_error orig p = Some vp -> nth_error orig q = Some vq ->
     storage vp = None -> storage vq = None -> In p processed -> In q processed ->
     nth_error cur p = Some vp' -> nth_error cur q = Some vq' -> apart pad vp' vq').

(** Two variables without storage and one with its own; the second
    variable is an output. *)
Definition three_vars : list VarStorage :=
  [mkVarStorage 0 100 None; mkVarStorage 0 200 None; mkVarStorage 0 50 (Some (7, 0))].

End AllocSpec.

(** ** new_grid: the check of the dimensions *)
Module NewGridSpec.

(** The exceptions of the loop "Check dims". *)
Inductive new_grid_error : Type :=
| DimUsedTwice (gdim : String.string)
| StepDimNotFirst (gdim : String.string).

(** Modelled from the spec: a variable is "parameterised by an ordered
    dim list".  The tuple class is not among the files at hand; a tuple
    of dimensions is the list of their names, [lookup] tells whether a
    name is in it and [addDimBack] puts a name at its end. *)
Definition lookup (dims : list String.string) (gdim : String.string) : bool :=
  existsb (String.eqb gdim) dims.

(** The loop "Check dims" of [newGrid] from position [i], taken when no
    grid of the stencil matches and new grids are allowed: the names in
    [misc_dims] afterwards and the exception thrown, if any.  The set
    [seenDims] is only read. *)
Fixpoint check_dims (step_dim : String.string) (domain_dims : list String.string)
         (seenDims : list String.string) (i : nat) (gdims : list String.string)
         (misc_dims : list String.string)
  : list String.string * option new_grid_error :=
  match gdims with
  | [] => (misc_dims, None)
  | gdim :: rest =>
      if lookup seenDims gdim then (misc_dims, Some (DimUsedTwice gdim))
      else if String.eqb gdim step_dim then
        if negb (i =? 0)%nat then (misc_dims, Some (StepDimNotFirst gdim))
        else check_dims step_dim domain_dims seenDims (S i) rest misc_dims
      else if lookup domain_dims gdim then
        check_dims step_dim domain_dims seenDims (S i) rest misc_dims
      else if lookup misc_dims gdim then
        check_dims step_dim domain_dims seenDims (S i) rest misc_dims
      else
        check_dims step_dim domain_dims seenDims (S i) rest (misc_dims ++ [gdim])
  end.

(** The loop as [newGrid] runs it: [seenDims] starts empty. *)
Definition check_new_grid_dims (step_dim : String.string)
           (domain_dims misc_dims gdims : list String.string)
  : list String.string * option new_grid_error :=
  check_dims step_dim domain_dims [] 0 gdims misc_dims.

End NewGridSpec.

(** ** context: the shifts of calc_region *)
Module RegionSpec.
Import Common Data Angles Tuple.

(** A call of [shift_region] in [calc_region]: the pack (none with
    temporal blocking), the steps and [region_shift_num]. *)
Record ShiftCall := mkShiftCall {
  sc_pack : option nat;
  sc_start_t : Z;
  sc_stop_t : Z;
  sc_shift_num : Z
}.

(** What [calc_region] reads of the context. *)
Record RegionConfig := mkRegionConfig {
  rc_tb_steps : Z;
  rc_check_step_conds : bool;
  rc_npacks : nat;                               (* stPacks.size() *)
  rc_is_in_valid_step : nat -> Z -> bool
}.

(** Without temporal blocking: the loop over the packs for the steps
    [start_t .. stop_t); a pack that is not selected or not in a valid
    step is passed over without a shift. *)
Definition region_pack (cfg : RegionConfig) (sel_bp : option nat) (start_t stop_t : Z)
           (st : Z * list ShiftCall) (bp : nat) : Z * list ShiftCall :=
  let (region_shift_num, calls) := st in
  if match sel_bp with Some s => negb (s =? bp)%nat | None => false end then st
  else if rc_check_step_conds cfg && negb (rc_is_in_valid_step cfg bp start_t) then st
  else (region_shift_num + 1,
        calls ++ [mkShiftCall (Some bp) start_t stop_t region_shift_num]).

(** With temporal blocking: "One shift for each pack in each TB step",
    in the step [t]. *)
Definition tb_step_shifts (cfg : RegionConfig) (t : Z) (region_shift_num : Z) : Z :=
  fold_left
    (fun n bp =>
       if rc_check_step_conds cfg && negb (rc_is_in_valid_step cfg bp t) then n
       else n + 1)
    (seq 0 (rc_npacks cfg)) region_shift_num.

(** [for (t = start_t; t != stop_t; t += step_dir)]; [None] when the
    loop is still running after [fuel] iterations. *)
Fixpoint tb_shifts (fuel : nat) (cfg : RegionConfig) (t stop_t step_dir : Z)
         (region_shift_num : Z) : option Z :=
  if t =? stop_t then Some region_shift_num
  else
    match fuel with
    | O => None
    | S fuel' =>
        tb_shifts fuel' cfg (t + step_dir) stop_t step_dir
                  (tb_step_shifts cfg t region_shift_num)
    end.

(** Body of the time loop. *)
Definition region_step (cfg : RegionConfig) (sel_bp : option nat)
           (begin_t end_t : Z) (st : option (Z * list ShiftCall)) (index_t : Z)
  : option (Z * list ShiftCall) :=
  match st with
  | None => None
  | Some (region_shift_num, calls) =>
      let step_dir := if begin_t <=? end_t then 1 else -1 in
      let stride_t := Z.max (rc_tb_steps cfg) 1 * step_dir in
      let start_t := begin_t + index_t * stride_t in
      let stop_t := if 0 <? stride_t then Z.min (start_t + stride_t) end_t
                    else Z.max (start_t + stride_t) end_t in
      if rc_tb_steps cfg =? 0 then
        Some (fold_left (region_pack cfg sel_bp start_t stop_t)
                        (seq 0 (rc_npacks cfg)) (region_shift_num, calls))
      else
        let calls := calls ++ [mkShiftCall None start_t stop_t region_shift_num] in
        match tb_shifts (Z.to_nat (Z.abs (stop_t - start_t))) cfg start_t stop_t
                        step_dir region_shift_num with
        | None => None
        | Some n => Some (n, calls)
        end
  end.

(** [StencilContext::calc_region] for the steps [begin_t .. end_t) of
    the region: the calls of [shift_region] in order. *)
Definition calc_region (cfg : RegionConfig) (sel_bp : option nat) (begin_t end_t : Z)
  : option (list ShiftCall) :=
  let step_dir := if begin_t <=? end_t then 1 else -1 in
  let stride_t := Z.max (rc_tb_steps cfg) 1 * step_dir in
  let num_t := CEIL_DIV (Z.abs (end_t - begin_t)) (Z.abs stride_t) in
  match fold_left (region_step cfg sel_bp begin_t end_t) (range num_t) (Some (0, [])) with
  | None => None
  | Some (_, calls) => Some calls
  end.

(** The packs that take a shift in a step: the selected one, or all
    of them. *)
Definition active_packs (cfg : RegionConfig) (sel_bp : option nat) : Z :=
  if rc_tb_steps cfg =? 0 then
    match sel_bp with
    | Some _ => Z.min 1 (Z.of_nat (rc_npacks cfg))
    | None => Z.of_nat (rc_npacks cfg)
    end
  else Z.of_nat (rc_npacks cfg).

(** The steps covered by the first [j] iterations of a time loop over
    [n] steps with [w] steps each. *)
Definition steps_covered (n w : Z) (j : nat) : Z := Z.min (Z.of_nat j * w) n.

(** Two packs and three steps, without and with temporal blocking. *)
Definition two_packs (tb_steps : Z) : RegionConfig :=
  mkRegionConfig tb_steps false 2 (fun _ _ => true).

End RegionSpec.

(* ===================================================================== *)
(** * Part II: properties                                                 *)
(* ===================================================================== *)

(** ** Tuples, boxes and products *)
Module TupleFacts.
Import Common Data Tuple Shift.
Import TupleSpec.

(** *** Tuples *)

Lemma at_dim_map_seq (f : nat -> Z) (n d : nat) :
  (d < n)%nat -> at_dim (map f (seq 0 n)) d = f d.
Proof.
  intros Hd. unfold at_dim.
  rewrite (nth_indep _ 0 (f 0%nat)) by (rewrite length_map, length_seq; exact Hd).
  rewrite (map_nth f (seq 0 n) 0%nat d), seq_nth by exact Hd. reflexivity.
Qed.

Lemma length_set_dim (t : list Z) (j : nat) (v : Z) :
  length (set_dim t j v) = length t.
Proof.
  revert j; induction t as [|x t IH]; intros [|j]; simpl; auto.
Qed.

Lemma at_dim_set_dim_same (t : list Z) (j : nat) (v : Z) :
  (j < length t)%nat -> at_dim (set_dim t j v) j = v.
Proof.
  unfold at_dim; revert j; induction t as [|x t IH]; intros [|j]; simpl; intros H;
    try lia; auto. apply IH; lia.
Qed.

Lemma at_dim_set_dim_other (t : list Z) (j d : nat) (v : Z) :
  j <> d -> at_dim (set_dim t j v) d = at_dim t d.
Proof.
  unfold at_dim; revert j d; induction t as [|x t IH]; intros [|j] [|d]; simpl;
    intros H; try congruence; auto.
Qed.

(** *** Enumeration of a box *)

Lemma In_range (l x : Z) : In x (range l) <-> 0 <= x < l.
Proof.
  unfold range. rewrite in_map_iff. split.
  - intros (k & <- & Hk). apply in_seq in Hk. lia.
  - intros Hx. exists (Z.to_nat x). split; [lia | apply in_seq; lia].
Qed.

Lemma in_points_first_inner (lens c : list Z) :
  In c (points_first_inner lens) <-> in_box lens c.
Proof.
  revert c; induction lens as [|l ls IH]; intros c; simpl.
  - split.
    + intros [<- | []]. constructor.
    + intros H; inversion H; auto.
  - rewrite in_flat_map. split.
    + intros (rest & Hr & Hc). apply in_map_iff in Hc as (x & <- & Hx).
      constructor; [apply In_range, Hx | apply IH, Hr].
    + intros H; inversion H as [|? x ? rest Hx Hrest]; subst.
      exists rest. split; [apply IH, Hrest |].
      apply in_map_iff. exists x. split; [reflexivity | apply In_range, Hx].
Qed.

Lemma in_points_last_inner (lens c : list Z) :
  In c (points_last_inner lens) <-> in_box lens c.
Proof.
  revert c; induction lens as [|l ls IH]; intros c; simpl.
  - split.
    + intros [<- | []]. constructor.
    + intros H; inversion H; auto.
  - rewrite in_flat_map. split.
    + intros (x & Hx & Hc). apply in_map_iff in Hc as (rest & <- & Hr).
      constructor; [apply In_range, Hx | apply IH, Hr].
    + intros H; inversion H as [|? x ? rest Hx Hrest]; subst.
      exists x. split; [apply In_range, Hx |].
      apply in_map_iff. exists rest. split; [reflexivity | apply IH, Hrest].
Qed.

Lemma in_all_points (fi : bool) (lens c : list Z) :
  In c (all_points fi lens) <-> in_box lens c.
Proof.
  destruct fi; [apply in_points_first_inner | apply in_points_last_inner].
Qed.


(** *** Products *)

Lemma fold_mul (t : list Z) (x : Z) : fold_left Z.mul t x = x * prod1 t.
Proof.
  unfold prod1. revert x; induction t as [|y t IH]; intros x; cbn [fold_left]; [lia |].
  rewrite IH, (IH (1 * y)). lia.
Qed.

Lemma product_cons (x : Z) (t : list Z) : product (x :: t) = x * prod1 t.
Proof. unfold product, reduce. apply fold_mul. Qed.

Lemma prod1_cons (x : Z) (t : list Z) : prod1 (x :: t) = x * prod1 t.
Proof. unfold prod1; cbn [fold_left]. rewrite fold_mul. unfold prod1. lia. Qed.

Lemma prod1_pos (t : list Z) : Forall (fun x => 0 < x) t -> 0 < prod1 t.
Proof.
  induction 1 as [|x t Hx Ht IH]; [reflexivity |]. rewrite prod1_cons. nia.
Qed.

Lemma prod1_divide (t : list Z) (x : Z) : In x t -> (x | prod1 t).
Proof.
  induction t as [|y t IH]; intros []; rewrite prod1_cons.
  - subst. apply Z.divide_factor_l.
  - apply Z.divide_mul_r; auto.
Qed.

End TupleFacts.

(** ** yask_for: the loop over an index range *)
Module YaskForProofs.
Import Common.

Section YaskFor.

Lemma for_loop_enough (end_ stride : Z) (tn : Z -> Z) :
  0 < stride ->
  forall fuel i tend, (Z.to_nat (tend - i) <= fuel)%nat ->
  exists vs, for_loop fuel i tend end_ stride tn = Some vs.
Proof.
  intros Hs fuel; induction fuel as [|fuel IH]; intros i tend Hf; simpl.
  - destruct (Z.ltb_spec i tend); [lia | eauto].
  - destruct (Z.ltb_spec i tend); [| eauto].
    destruct (IH (i + stride) tend) as [vs Hvs]; [lia |].
    rewrite Hvs; eauto.
Qed.

Lemma for_loop_nonpositive_stride (end_ stride : Z) (tn : Z -> Z) :
  stride <= 0 ->
  forall fuel i tend, i < tend -> for_loop fuel i tend end_ stride tn = None.
Proof.
  intros Hs fuel; induction fuel as [|fuel IH]; intros i tend Hlt; simpl;
    destruct (Z.ltb_spec i tend); try lia; auto.
  rewrite IH by lia. reflexivity.
Qed.

Lemma for_loop_head (end_ stride : Z) (tn : Z -> Z) fuel i tend vs :
  i < tend ->
  for_loop fuel i tend end_ stride tn = Some vs ->
  exists rest, vs = mkVisit i (Z.min (i + stride) end_) (tn i) :: rest.
Proof.
  intros Hlt; destruct fuel; simpl; destruct (Z.ltb_spec i tend); try lia;
    try discriminate.
  destruct (for_loop fuel (i + stride) tend end_ stride tn); try discriminate.
  intros [= <-]; eauto.
Qed.

(** Every visit of a loop that runs up to [end_] itself. *)
Lemma for_loop_covered (end_ stride : Z) (tn : Z -> Z) :
  0 < stride ->
  forall fuel i vs,
    for_loop fuel i end_ end_ stride tn = Some vs ->
    forall x, covered vs x <-> i <= x < end_.
Proof.
  intros Hs fuel; induction fuel as [|fuel IH]; intros i vs; simpl;
    destruct (Z.ltb_spec i end_) as [Hlt|Hge]; try discriminate.
  - intros [= <-] x; split; [intros (v & [] & _) | lia].
  - destruct (for_loop fuel (i + stride) end_ end_ stride tn) as [ws|] eqn:E;
      try discriminate.
    intros [= <-] x. specialize (IH _ _ E x). unfold covered in *. split.
    + intros (v & [<- | Hin] & Hx); simpl in *; [lia |].
      assert (i + stride <= x < end_) by (apply IH; eauto). lia.
    + intros Hx. destruct (Z.lt_ge_cases x (i + stride)).
      * exists (mkVisit i (Z.min (i + stride) end_) (tn i)); simpl; split; [auto | lia].
      * destruct IH as [_ IH]. destruct IH as (v & Hin & Hv); [lia |].
        exists v; simpl; auto.
  - intros [= <-] x; split; [intros (v & [] & _) | lia].
Qed.

End YaskFor.

(** C10: for [0 < begin < end] (and a positive stride, without which the
    loop never ends) the serial path and the non-nested OpenMP path of
    [yask_for] make exactly the calls they make for [begin = 0]: the
    first call starts at index 0, not at [begin], and the chunks cover
    [[0, end)], which contains points below [begin].  [begin] only
    decides the emptiness test, and, on the nested path, the iteration
    count [niter]. *)
Theorem yask_for_ignores_begin :
  forall (begin end_ stride : Z) (sched : Z -> Z),
    0 < begin < end_ -> 0 < stride ->
    (exists vs rest,
        yask_for_serial begin end_ stride = Some vs /\
        yask_for_serial 0 end_ stride = Some vs /\
        vs = mkVisit 0 (Z.min stride end_) 0 :: rest /\
        (forall x, covered vs x <-> 0 <= x < end_) /\
        covered vs 0 /\ ~ begin <= 0 < end_) /\
    (exists vs rest,
        yask_for_omp sched begin end_ stride = Some vs /\
        yask_for_omp sched 0 end_ stride = Some vs /\
        vs = mkVisit 0 (Z.min stride end_) (sched 0) :: rest /\
        (forall x, covered vs x <-> 0 <= x < end_)) /\
    (forall b', end_ <= b' -> yask_for_serial b' end_ stride = Some [] /\
                         yask_for_omp sched b' end_ stride = Some []) /\
    (forall sched2 nthr tnthr b',
        b' < end_ ->
        CEIL_DIV (end_ - b') stride = CEIL_DIV (end_ - begin) stride ->
        yask_for_nested sched2 nthr tnthr b' end_ stride =
        yask_for_nested sched2 nthr tnthr begin end_ stride).
Proof.
  intros begin end_ stride sched [Hb Hbe] Hs.
  assert (Hnb : (end_ <=? begin) = false) by (apply Z.leb_gt; lia).
  assert (Hn0 : (end_ <=? 0) = false) by (apply Z.leb_gt; lia).
  repeat split.
  - unfold yask_for_serial. rewrite Hnb, Hn0.
    destruct (for_loop_enough end_ stride (fun _ => 0) Hs (loop_fuel 0 end_) 0 end_)
      as [vs Hvs]; [unfold loop_fuel; lia |].
    assert (H0e : 0 < end_) by lia.
    destruct (for_loop_head _ _ _ _ _ _ _ H0e Hvs) as [rest ->].
    exists (mkVisit 0 (Z.min (0 + stride) end_) 0 :: rest), rest.
    pose proof (for_loop_covered _ _ _ Hs _ _ _ Hvs) as Hc.
    repeat split; auto; try (apply Hc; assumption); try lia.
    apply Hc; lia.
  - unfold yask_for_omp. rewrite Hnb, Hn0.
    destruct (for_loop_enough end_ stride sched Hs (loop_fuel 0 end_) 0 end_)
      as [vs Hvs]; [unfold loop_fuel; lia |].
    assert (H0e : 0 < end_) by lia.
    destruct (for_loop_head _ _ _ _ _ _ _ H0e Hvs) as [rest ->].
    exists (mkVisit 0 (Z.min (0 + stride) end_) (sched 0) :: rest), rest.
    pose proof (for_loop_covered _ _ _ Hs _ _ _ Hvs) as Hc.
    repeat split; auto; try (apply Hc; assumption).
  - unfold yask_for_serial. assert ((end_ <=? b') = true) as -> by (apply Z.leb_le; lia).
    reflexivity.
  - unfold yask_for_omp. assert ((end_ <=? b') = true) as -> by (apply Z.leb_le; lia).
    reflexivity.
  - intros sched2 nthr tnthr b' Hb' Hn. unfold yask_for_nested.
    assert ((end_ <=? b') = false) as -> by (apply Z.leb_gt; lia).
    rewrite Hnb, Hn. reflexivity.
Qed.

Lemma yask_for_ignores_begin_witness :
  exists vs, yask_for_serial 2 5 2 = Some vs /\ covered vs 0.
Proof.
  destruct (yask_for_ignores_begin 2 5 2 (fun _ => 0)) as [(vs & rest & H1 & _ & _ & _ & Hc & _) _];
    [lia | lia |].
  exists vs; split; assumption.
Defined.

End YaskForProofs.

(** ** Wave-front angles and the shift of a region *)
Module WavefrontProofs.
Import Common Data Angles Shift.
Import TupleSpec TupleFacts.
Import WavefrontSpec.

(** *** The span that is left of a region after a shift *)

(** *** Rounding *)

Lemma ROUND_UP_spec (n m : Z) :
  0 <= n -> 0 < m ->
  n <= ROUND_UP n m < n + m /\ ROUND_UP n m mod m = 0.
Proof.
  intros Hn Hm. unfold ROUND_UP, CEIL_DIV.
  rewrite Z.quot_div_nonneg by lia.
  pose proof (Z.div_mod (n + m - 1) m ltac:(lia)) as Hdm.
  pose proof (Z.mod_pos_bound (n + m - 1) m Hm) as Hb.
  split; [nia | apply Z.mod_mul; lia].
Qed.

(** *** update_grid_info *)



(** *** shift_region *)











End WavefrontProofs.

(** ** Temporal blocking: base and top of a trapezoid *)
Module TrapezoidProofs.
Import Common Data Angles Shift.
Import TupleSpec TupleFacts.
Import TrapezoidSpec.

Lemma at_dim_map_fst_seq (f : nat -> Z * Z) (n d : nat) :
  (d < n)%nat ->
  at_dim (map fst (map f (seq 0 n))) d = fst (f d) /\
  at_dim (map snd (map f (seq 0 n))) d = snd (f d).
Proof.
  intros Hd. rewrite !map_map. split.
  - exact (at_dim_map_seq (fun x => fst (f x)) n d Hd).
  - exact (at_dim_map_seq (fun x => snd (f x)) n d Hd).
Qed.

(** C9, as stated, fails: with one shift of angle 4 on a block of 16 the
    base is 12 and the top is [12 - 2*4 = 4], not [16 - 2*4 = 8]. *)
Lemma tb_top_is_not_block_minus_shift :
  ~ (forall o nddims fold_pts mh wf_steps npacks,
       let tb := update_tb_info o nddims fold_pts mh wf_steps npacks in
       0 < tb_steps tb ->
       (exists d, (d < nddims)%nat /\ at_dim (tb_angles tb) d <> 0) ->
       forall d, (d < nddims)%nat ->
         at_dim (tb_widths tb) d =
           ROUND_UP (Z.quot (at_dim (_block_sizes o) d) 2
                     + num_tb_shifts tb * at_dim (tb_angles tb) d)
                    (at_dim fold_pts d) /\
         at_dim (tb_tops tb) d =
           at_dim (_block_sizes o) d
           - 2 * num_tb_shifts tb * at_dim (tb_angles tb) d).
Proof.
  intros H.
  specialize (H c9_opts 1%nat [4] [4] 2 1). cbv zeta in H.
  assert (H0 : 0 < tb_steps (update_tb_info c9_opts 1 [4] [4] 2 1))
    by (vm_compute; reflexivity).
  assert (H1 : exists d, (d < 1)%nat /\
                 at_dim (tb_angles (update_tb_info c9_opts 1 [4] [4] 2 1)) d <> 0)
    by (exists 0%nat; split; [lia | vm_compute; discriminate]).
  destruct (H H0 H1 0%nat ltac:(lia)) as [_ Htop].
  vm_compute in Htop. discriminate.
Qed.

(** C9, amended: in every domain dimension [d] with a shift to make
    ([num_tb_shifts > 0] and [tb_angles[d] > 0]) the trapezoid base is
    [max(ROUND_UP(CEIL_DIV(block_size, 2) + sa, fold), fold + 2*sa)] with
    [sa = num_tb_shifts * tb_angles[d]], and the top is the base minus
    [2*sa] (not below 0); in every other dimension base and top are the
    block size. *)
Theorem tb_trapezoid_base_and_top :
  forall o nddims fold_pts mh wf_steps npacks d,
    (d < nddims)%nat ->
    let tb := update_tb_info o nddims fold_pts mh wf_steps npacks in
    let blk := at_dim (_block_sizes o) d in
    let sa := num_tb_shifts tb * at_dim (tb_angles tb) d in
    if (0 <? num_tb_shifts tb) && (0 <? at_dim (tb_angles tb) d) then
      at_dim (tb_widths tb) d =
        Z.max (ROUND_UP (CEIL_DIV blk 2 + sa) (at_dim fold_pts d))
              (at_dim fold_pts d + 2 * sa) /\
      at_dim (tb_tops tb) d = Z.max (at_dim (tb_widths tb) d - 2 * sa) 0
    else
      at_dim (tb_widths tb) d = blk /\ at_dim (tb_tops tb) d = blk.
Proof.
  intros o nddims fold_pts mh wf_steps npacks d Hd tb blk sa.
  subst tb sa blk. unfold update_tb_info.
  destruct (0 <? _block_steps o); cbv zeta;
    cbn [tb_steps num_tb_shifts tb_angles tb_widths tb_tops];
    match goal with
    | |- context [map fst (map ?f (seq 0 nddims))] =>
        destruct (at_dim_map_fst_seq f nddims d Hd) as [-> ->]
    end;
    unfold tb_width_top_dim;
    match goal with
    | |- (if ?b then _ else _) => destruct b; simpl; auto
    end.
Qed.

Lemma tb_trapezoid_base_and_top_witness :
  at_dim (tb_widths (update_tb_info c9_opts 1 [4] [4] 2 1)) 0 = 12 /\
  at_dim (tb_tops (update_tb_info c9_opts 1 [4] [4] 2 1)) 0 = 4.
Proof.
  exact (tb_trapezoid_base_and_top c9_opts 1%nat [4] [4] 2 1 0%nat (Nat.lt_0_1)).
Defined.

End TrapezoidProofs.

(** ** Phases and shapes of temporal blocking *)
Module PhaseProofs.
Import Combo Phases.
Import PhaseSpec.

(** *** Binomial coefficients and selections *)

Lemma choose_n_0 (n : nat) : choose n 0 = 1%nat.
Proof. destruct n; reflexivity. Qed.

Lemma choose_gt (n : nat) : forall k, (n < k)%nat -> choose n k = 0%nat.
Proof.
  induction n as [|n IH]; intros [|k] H; simpl; try lia.
  rewrite !IH by lia. reflexivity.
Qed.

Lemma choose_n_n (n : nat) : choose n n = 1%nat.
Proof.
  induction n as [|n IH]; simpl; [reflexivity |].
  rewrite IH, choose_gt by lia. reflexivity.
Qed.

Lemma length_selections (l : list nat) :
  forall k, length (selections l k) = choose (length l) k.
Proof.
  induction l as [|x r IH]; intros [|k]; simpl; auto.
  rewrite length_app, length_map, !IH. reflexivity.
Qed.

Lemma selections_length (l : list nat) :
  forall k c, In c (selections l k) -> length c = k.
Proof.
  induction l as [|x r IH]; intros [|k] c; simpl; try tauto.
  - intros [<- | []]; reflexivity.
  - intros [<- | []]; reflexivity.
  - rewrite in_app_iff, in_map_iff. intros [(c' & <- & Hc') | Hc]; simpl.
    + f_equal. eapply IH, Hc'.
    + eapply IH in Hc. exact Hc.
Qed.

Lemma selections_incl (l : list nat) :
  forall k c, In c (selections l k) -> incl c l.
Proof.
  induction l as [|x r IH]; intros [|k] c; simpl; try tauto.
  - intros [<- | []]; apply incl_refl.
  - intros [<- | []]; apply incl_nil_l.
  - rewrite in_app_iff, in_map_iff. intros [(c' & <- & Hc') | Hc].
    + apply incl_cons; [left; reflexivity |].
      apply incl_tl. eapply IH, Hc'.
    + apply incl_tl. eapply IH, Hc.
Qed.

Lemma selections_sorted (l : list nat) :
  StronglySorted lt l ->
  forall k c, In c (selections l k) -> StronglySorted lt c.
Proof.
  induction 1 as [|x r Hr IH Hx]; intros [|k] c; simpl; try tauto.
  - intros [<- | []]; constructor.
  - intros [<- | []]; constructor.
  - rewrite in_app_iff, in_map_iff. intros [(c' & <- & Hc') | Hc].
    + constructor; [eapply IH, Hc' |].
      rewrite Forall_forall in *. intros y Hy.
      apply Hx. eapply selections_incl; eassumption.
    + eapply IH, Hc.
Qed.

Lemma selections_NoDup (l : list nat) :
  NoDup l -> forall k, NoDup (selections l k).
Proof.
  induction 1 as [|x r Hx Hr IH]; intros [|k]; simpl;
    try (constructor; [intros [] | constructor]); try constructor.
  apply NoDup_app.
  - apply NoDup_map_NoDup_ForallPairs; [| apply IH].
    intros a b _ _ [=]; assumption.
  - apply IH.
  - intros c Hc Hc'. apply in_map_iff in Hc as (c' & <- & _).
    apply selections_incl in Hc'. apply Hx, Hc'. left; reflexivity.
Qed.

Lemma sorted_seq (a n : nat) : StronglySorted lt (seq a n).
Proof.
  revert a; induction n as [|n IH]; intros a; simpl; constructor; [apply IH |].
  apply Forall_forall. intros y Hy. apply in_seq in Hy. lia.
Qed.

(** Two increasing lists with the same elements are equal. *)
Lemma sorted_ext (c1 : list nat) :
  forall c2, StronglySorted lt c1 -> StronglySorted lt c2 ->
             (forall x, In x c1 <-> In x c2) -> c1 = c2.
Proof.
  induction c1 as [|x1 c1 IH]; intros [|x2 c2] H1 H2 Hext.
  - reflexivity.
  - exfalso. apply (Hext x2). left; reflexivity.
  - exfalso. apply (Hext x1). left; reflexivity.
  - apply StronglySorted_inv in H1 as [H1 Hx1].
    apply StronglySorted_inv in H2 as [H2 Hx2].
    rewrite Forall_forall in Hx1, Hx2.
    assert (x1 = x2) as ->.
    { destruct (proj1 (Hext x1) (or_introl eq_refl)) as [E | Hin]; [congruence |].
      destruct (proj2 (Hext x2) (or_introl eq_refl)) as [E | Hin']; [congruence |].
      specialize (Hx1 _ Hin'). specialize (Hx2 _ Hin). lia. }
    f_equal. apply IH; auto. intros x. split; intros Hin.
    + destruct (proj1 (Hext x) (or_intror Hin)) as [E | ?]; [| assumption].
      specialize (Hx1 _ Hin). lia.
    + destruct (proj2 (Hext x) (or_intror Hin)) as [E | ?]; [| assumption].
      specialize (Hx2 _ Hin). lia.
Qed.

(** *** Bridge masks *)

Lemma length_set_bit (m : list bool) : forall j, length (set_bit m j) = length m.
Proof. induction m as [|b m IH]; intros [|j]; simpl; auto. Qed.

Lemma nth_set_bit_same (m : list bool) :
  forall j, (j < length m)%nat -> nth j (set_bit m j) false = true.
Proof.
  induction m as [|b m IH]; intros [|j]; simpl; intros H; try lia; auto.
  apply IH; lia.
Qed.

Lemma nth_set_bit_other (m : list bool) :
  forall i j, i <> j -> nth i (set_bit m j) false = nth i m false.
Proof.
  induction m as [|b m IH]; intros [|i] [|j]; simpl; intros H; try congruence; auto.
Qed.

Lemma count_set_bit (m : list bool) :
  forall j, (j < length m)%nat -> nth j m false = false ->
            count_bits (set_bit m j) = S (count_bits m).
Proof.
  unfold count_bits.
  induction m as [|b m IH]; intros [|j]; simpl; intros H Hn; try lia.
  - subst b. reflexivity.
  - destruct b; simpl; rewrite IH by (auto; lia); reflexivity.
Qed.

Lemma count_repeat_false (n : nat) : count_bits (repeat false n) = 0%nat.
Proof. unfold count_bits. induction n; simpl; auto. Qed.

Lemma nth_repeat_false (n i : nat) : nth i (repeat false n) false = false.
Proof. revert i; induction n; intros [|i]; simpl; auto. Qed.

Lemma mask_of_fold (n : nat) (c : list nat) :
  forall done m,
    NoDup (done ++ c) -> (forall d, In d (done ++ c) -> (1 <= d <= n)%nat) ->
    mask_of n done m ->
    mask_of n (done ++ c) (fold_left (fun m d => set_bit m (d - 1)) c m).
Proof.
  induction c as [|d c IH]; intros done m Hnd Hr Hm; simpl.
  - rewrite app_nil_r. exact Hm.
  - replace (done ++ d :: c) with ((done ++ [d]) ++ c) in *
      by (rewrite <- app_assoc; reflexivity).
    apply IH; auto. destruct Hm as (Hlen & Hcnt & Hset).
    assert (Hd : (1 <= d <= n)%nat)
      by (apply Hr; rewrite !in_app_iff; left; right; left; reflexivity).
    assert (Hnot : ~ In d done).
    { apply NoDup_app_remove_r in Hnd. apply NoDup_remove_2 in Hnd.
      rewrite app_nil_r in Hnd. exact Hnd. }
    assert (Hfalse : nth (d - 1) m false = false).
    { destruct (nth (d - 1) m false) eqn:E; [| reflexivity].
      apply Hset in E as (d' & Hd' & E).
      assert (1 <= d' <= n)%nat by (apply Hr; rewrite !in_app_iff; auto).
      assert (d' = d) by lia. subst. contradiction. }
    split; [rewrite length_set_bit; exact Hlen |]. split.
    + rewrite count_set_bit, Hcnt, length_app by (auto; lia). simpl. lia.
    + intros i. destruct (Nat.eq_dec i (d - 1)) as [-> | Hne].
      * rewrite nth_set_bit_same by lia. split; [| reflexivity].
        intros _. exists d. rewrite in_app_iff. simpl. auto.
      * rewrite nth_set_bit_other by exact Hne. rewrite Hset. split.
        -- intros (d' & Hd' & ->). exists d'. rewrite in_app_iff. auto.
        -- intros (d' & Hd' & ->). apply in_app_iff in Hd' as [Hd' | [<- | []]];
             [eauto | congruence].
Qed.

Lemma make_bridge_mask_spec (n : nat) (c : list nat) :
  NoDup c -> (forall d, In d c -> (1 <= d <= n)%nat) ->
  mask_of n c (make_bridge_mask n c).
Proof.
  intros Hnd Hr. unfold make_bridge_mask.
  apply (mask_of_fold n c [] (repeat false n)); auto.
  split; [apply repeat_length |]. split; [apply count_repeat_false |].
  intros i. rewrite nth_repeat_false. split; [discriminate | intros (d & [] & _)].
Qed.

Lemma selection_props (n k : nat) (c : list nat) :
  In c (selections (seq 1 n) k) ->
  length c = k /\ StronglySorted lt c /\ NoDup c /\
  (forall d, In d c -> (1 <= d <= n)%nat).
Proof.
  intros Hc. split; [eapply selections_length, Hc |].
  assert (Hs : StronglySorted lt c) by (eapply selections_sorted, Hc; apply sorted_seq).
  split; [exact Hs |]. split.
  - clear Hc. induction Hs as [|x c Hs IH Hx]; constructor; auto.
    rewrite Forall_forall in Hx. intros Hin. specialize (Hx _ Hin). lia.
  - intros d Hd. apply (selections_incl _ _ _ Hc) in Hd. apply in_seq in Hd. lia.
Qed.

Lemma make_bridge_mask_inj (n k : nat) (c1 c2 : list nat) :
  In c1 (selections (seq 1 n) k) -> In c2 (selections (seq 1 n) k) ->
  make_bridge_mask n c1 = make_bridge_mask n c2 -> c1 = c2.
Proof.
  intros H1 H2 E.
  destruct (selection_props _ _ _ H1) as (_ & Hs1 & Hn1 & Hr1).
  destruct (selection_props _ _ _ H2) as (_ & Hs2 & Hn2 & Hr2).
  destruct (make_bridge_mask_spec n c1 Hn1 Hr1) as (_ & _ & Hm1).
  destruct (make_bridge_mask_spec n c2 Hn2 Hr2) as (_ & _ & Hm2).
  apply sorted_ext; auto. intros x. split; intros Hx.
  - assert (Hb : nth (x - 1) (make_bridge_mask n c1) false = true)
      by (apply Hm1; eauto).
    rewrite E in Hb. apply Hm2 in Hb as (d & Hd & Hxd).
    specialize (Hr1 _ Hx). specialize (Hr2 _ Hd).
    assert (x = d) by lia. subst; assumption.
  - assert (Hb : nth (x - 1) (make_bridge_mask n c2) false = true)
      by (apply Hm2; eauto).
    rewrite <- E in Hb. apply Hm1 in Hb as (d & Hd & Hxd).
    specialize (Hr1 _ Hd). specialize (Hr2 _ Hx).
    assert (x = d) by lia. subst; assumption.
Qed.

(** The combinations used by the shapes of a phase are the selections,
    in order. *)
Lemma shape_combinations (n k : nat) :
  map (fun shape => combination n k (shape + 1)) (seq 0 (choose n k)) =
  selections (seq 1 n) k.
Proof.
  unfold combination.
  assert (Hl : choose n k = length (selections (seq 1 n) k))
    by (rewrite length_selections, length_seq; reflexivity).
  rewrite Hl. clear Hl.
  generalize (selections (seq 1 n) k). intros l.
  apply nth_ext with (d := []) (d' := []); [rewrite length_map, length_seq; reflexivity |].
  intros i Hi. rewrite length_map, length_seq in Hi.
  rewrite (nth_indep _ [] (nth (0 + 1 - 1) l [])) by (rewrite length_map, length_seq; exact Hi).
  rewrite (map_nth (fun shape => nth (shape + 1 - 1) l []) (seq 0 (length l)) 0%nat i).
  rewrite seq_nth by exact Hi. f_equal. lia.
Qed.

Lemma combine_fst {A B : Type} (l : list A) :
  forall l' : list B, length l = length l' -> map fst (combine l l') = l.
Proof.
  induction l as [|x l IH]; intros [|y l']; simpl; try discriminate; auto.
  intros [= H]. rewrite IH by exact H. reflexivity.
Qed.

Lemma combine_snd {A B : Type} (l : list A) :
  forall l' : list B, length l = length l' -> map snd (combine l l') = l'.
Proof.
  induction l as [|x l IH]; intros [|y l']; simpl; try discriminate; auto.
  intros [= H]. rewrite IH by exact H. reflexivity.
Qed.

Lemma calc_block_tb (tb_steps : Z) (n nphases k : nat) :
  tb_steps <> 0 ->
  calc_block tb_steps n nphases k =
  map (fun sc => mkShape nphases k (choose n k) (fst sc)
                         (make_bridge_mask n (snd sc)))
      (combine (seq 0 (choose n k)) (selections (seq 1 n) k)).
Proof.
  intros Htb. unfold calc_block.
  destruct (Z.eqb_spec tb_steps 0); [contradiction |].
  rewrite <- shape_combinations.
  generalize (seq 0 (choose n k)). intros l.
  induction l as [|s l IH]; simpl; [reflexivity | rewrite IH; reflexivity].
Qed.

(** C8: with temporal blocking active, the phase loop of [calc_region]
    runs the phases [0, 1, ..., n] of an [n]-dimensional domain, that is
    [n + 1] phases, and in phase [k] every call of [calc_block] runs
    [choose(n, k)] shapes, numbered from 0.  The bridge mask of each
    shape selects exactly [k] of the [n] dimensions, no two shapes of a
    phase have the same mask, and the first and the last phase have one
    shape. *)
Theorem tb_phases_and_shapes :
  forall (tb_steps : Z) (nddims nblocks : nat),
    0 < tb_steps ->
    let phases := calc_region_phases tb_steps nddims nblocks in
    length phases = (nddims + 1)%nat /\
    map fst phases = seq 0 (nddims + 1) /\
    (forall phase blocks,
        In (phase, blocks) phases ->
        (phase <= nddims)%nat /\ length blocks = nblocks /\
        forall shapes,
          In shapes blocks ->
          shapes = calc_block tb_steps nddims (nddims + 1) phase /\
          length shapes = choose nddims phase /\
          map sr_shape shapes = seq 0 (choose nddims phase) /\
          (forall s, In s shapes ->
                     sr_nshapes s = choose nddims phase /\
                     length (sr_bridge_mask s) = nddims /\
                     count_bits (sr_bridge_mask s) = phase) /\
          NoDup (map sr_bridge_mask shapes)) /\
    choose nddims 0 = 1%nat /\ choose nddims nddims = 1%nat.
Proof.
  intros tb_steps n nblocks Htb phases. subst phases. unfold calc_region_phases.
  split; [rewrite length_map, length_seq; reflexivity |].
  split; [rewrite map_map; simpl; apply map_id |].
  split; [| split; [apply choose_n_0 | apply choose_n_n]].
  intros phase blocks Hin. apply in_map_iff in Hin as (k & [= <- <-] & Hk).
  apply in_seq in Hk. split; [lia |].
  split; [rewrite length_map, length_seq; reflexivity |].
  intros shapes Hs. apply in_map_iff in Hs as (b & <- & _).
  split; [reflexivity |].
  rewrite calc_block_tb by lia.
  set (sel := selections (seq 1 n) k).
  assert (Hlen : length (seq 0 (choose n k)) = length sel)
    by (unfold sel; rewrite length_seq, length_selections, length_seq; reflexivity).
  split; [rewrite length_map, length_combine, Hlen, Nat.min_id; unfold sel;
          rewrite length_selections, length_seq; reflexivity |].
  split.
  { rewrite map_map.
    change (map fst (combine (seq 0 (choose n k)) sel) = seq 0 (choose n k)).
    apply combine_fst, Hlen. }
  split.
  { intros s Hs. apply in_map_iff in Hs as ([i c] & <- & Hic).
    cbn [sr_nshapes sr_bridge_mask fst snd].
    apply in_combine_r in Hic.
    destruct (selection_props _ _ _ Hic) as (Hl & _ & Hnd & Hr).
    destruct (make_bridge_mask_spec n c Hnd Hr) as (Hml & Hcnt & _).
    repeat split; [exact Hml | rewrite Hcnt; exact Hl]. }
  rewrite map_map.
  change (NoDup (map (fun x => make_bridge_mask n (snd x))
                     (combine (seq 0 (choose n k)) sel))).
  rewrite <- (map_map snd (make_bridge_mask n)).
  assert (Hsnd : map snd (combine (seq 0 (choose n k)) sel) = sel).
  { apply combine_snd, Hlen. }
  rewrite Hsnd. apply NoDup_map_NoDup_ForallPairs.
  - intros c1 c2 H1 H2. apply (make_bridge_mask_inj n k c1 c2 H1 H2).
  - apply selections_NoDup, seq_NoDup.
Qed.

Lemma tb_phases_and_shapes_witness :
  map (fun p => length (calc_block 2 3 4 p)) [0; 1; 2; 3]%nat = [1; 3; 3; 1]%nat /\
  length (calc_region_phases 2 3 1) = 4%nat.
Proof.
  split; [vm_compute; reflexivity |].
  exact (proj1 (tb_phases_and_shapes 2 3 1 ltac:(lia))).
Defined.

End PhaseProofs.

(** ** The layout of the ranks *)
Module LayoutProofs.
Import Common Data Tuple Shift SetupRank.
Import TupleSpec TupleFacts.
Import LayoutSpec.

(** *** The factors *)

Lemma in_facts (nr f : Z) :
  In f (facts nr) <-> 1 <= f <= nr /\ (f | nr).
Proof.
  unfold facts. rewrite filter_In, in_map_iff, Z.eqb_eq. split.
  - intros [(k & <- & Hk) Hrem]. apply in_seq in Hk.
    split; [lia |]. apply Z.rem_divide; [lia | exact Hrem].
  - intros [Hf Hd]. split.
    + exists (Z.to_nat (f - 1)). split; [lia | apply in_seq; lia].
    + apply Z.rem_divide; [lia | exact Hd].
Qed.

(** *** The search over the rank layouts *)

Lemma override_S (j : nat) (us ms : list Z) : override (S j) us ms = merge us ms.
Proof.
  revert j ms; induction us as [|u us IH]; intros j [|m ms]; simpl; auto.
  rewrite IH. reflexivity.
Qed.

Lemma layout_of_combo_cons nr fs u0 us c0 cs :
  0 <= u0 ->
  layout_of_combo nr fs (u0 :: us) (c0 :: cs) =
  (if u0 =? 0 then Z.quot nr (prod1 (merge us (map (pick fs) cs))) else u0)
    :: merge us (map (pick fs) cs).
Proof.
  intros Hu. unfold layout_of_combo. cbn [map override Nat.eqb].
  rewrite override_S. fold (pick fs).
  destruct (Z.eqb_spec u0 0) as [-> | Hne]; cbn [negb at_dim nth].
  - cbn [Z.eqb Pos.eqb set_dim]. rewrite product_cons. f_equal. f_equal. lia.
  - destruct (Z.eqb_spec u0 (-1)); [lia | reflexivity].
Qed.

(** The tail of a tried layout keeps the specified counts and takes
    factors elsewhere. *)
Lemma merge_in_box fs j us cs :
  Forall (fun f => 0 < f) fs ->
  in_box (combo_sizes (Z.of_nat (length fs)) (S j) us) cs ->
  Forall2 (fun u l => if u =? 0 then 0 < l else l = u) us (merge us (map (pick fs) cs)).
Proof.
  intros Hfs. revert j cs; induction us as [|u us IH]; intros j cs Hb;
    inversion Hb as [|? c ? cs' Hc Hcs]; subst; cbn [map merge].
  - constructor.
  - constructor; [| eapply IH; eassumption].
    cbn [Nat.eqb orb] in Hc.
    destruct (Z.eqb_spec u 0) as [-> | Hne]; cbn [negb] in *; [| reflexivity].
    unfold pick. rewrite Forall_forall in Hfs. apply Hfs, nth_In. lia.
Qed.

Lemma in_box_merge fs j us LT :
  Forall2 (fun u l => if u =? 0 then In l fs else l = u) us LT ->
  exists cs, in_box (combo_sizes (Z.of_nat (length fs)) (S j) us) cs /\
             merge us (map (pick fs) cs) = LT.
Proof.
  intros H; revert j; induction H as [|u l us LT Hul _ IH]; intros j.
  - exists []. split; constructor.
  - destruct (IH (S j)) as (cs & Hb & Hm).
    destruct (Z.eqb_spec u 0) as [-> | Hne].
    + destruct (In_nth _ _ 0 Hul) as (k & Hk & Hnth).
      exists (Z.of_nat k :: cs). split.
      * constructor; [simpl; lia | exact Hb].
      * cbn [map merge Z.eqb negb]. unfold pick at 1.
        rewrite Nat2Z.id, Hnth, Hm. reflexivity.
    + exists (0 :: cs). split.
      * constructor; [| exact Hb]. cbn [Nat.eqb orb].
        destruct (Z.eqb_spec u 0); [contradiction | simpl; lia].
      * cbn [map merge]. destruct (Z.eqb_spec u 0); [contradiction |].
        cbn [negb]. rewrite Hm, Hul. reflexivity.
Qed.

Lemma valid_tail_pos us LT :
  Forall (fun u => 0 <= u) us ->
  Forall2 (fun u l => if u =? 0 then 0 < l else l = u) us LT ->
  Forall (fun l => 0 < l) LT.
Proof.
  intros Hus H; induction H as [|u l us LT Hul _ IH]; constructor;
    inversion Hus; subst; auto.
  destruct (Z.eqb_spec u 0); lia.
Qed.

(** Every layout tried from the box that has the right product is a
    valid layout. *)
Lemma tried_layout_valid nr user c :
  0 < nr -> Forall (fun u => 0 <= u) user -> user <> [] ->
  in_box (combo_sizes (Z.of_nat (length (facts nr))) 0 user) c ->
  product (layout_of_combo nr (facts nr) user c) = nr ->
  valid_layout nr user (layout_of_combo nr (facts nr) user c).
Proof.
  intros Hnr Hu Hne Hb Hp. destruct user as [|u0 us]; [congruence |].
  destruct c as [|c0 cs]; [inversion Hb |].
  apply Forall2_cons_iff in Hb as [Hc0 Hcs]. apply Forall_cons_iff in Hu as [Hu0 Hus].
  rewrite layout_of_combo_cons in * by exact Hu0.
  assert (Hfs : Forall (fun f => 0 < f) (facts nr))
    by (apply Forall_forall; intros f Hf; apply in_facts in Hf; lia).
  pose proof (merge_in_box _ _ _ _ Hfs Hcs) as Ht.
  pose proof (prod1_pos _ (valid_tail_pos _ _ Hus Ht)) as Hpos.
  split; [| exact Hp]. constructor; [| exact Ht].
  rewrite product_cons in Hp.
  destruct (Z.eqb_spec u0 0); [nia | reflexivity].
Qed.

Lemma tail_in_facts nr us LT :
  0 < nr ->
  Forall2 (fun u l => if u =? 0 then 0 < l else l = u) us LT ->
  (forall l, In l LT -> (l | nr)) ->
  Forall2 (fun u l => if u =? 0 then In l (facts nr) else l = u) us LT.
Proof.
  intros Hnr H; induction H as [|u l us LT Hul _ IH]; intros Hdiv; constructor.
  - destruct (Z.eqb_spec u 0); [| exact Hul]. apply in_facts.
    assert (Hd : (l | nr)) by (apply Hdiv; left; reflexivity).
    split; [| exact Hd]. apply Z.divide_pos_le in Hd; lia.
  - apply IH. intros l' Hl'. apply Hdiv. right; exact Hl'.
Qed.

(** Every valid layout is tried. *)
Lemma valid_layout_tried nr user L :
  0 < nr -> Forall (fun u => 0 <= u) user -> user <> [] ->
  valid_layout nr user L ->
  exists c, in_box (combo_sizes (Z.of_nat (length (facts nr))) 0 user) c /\
            layout_of_combo nr (facts nr) user c = L.
Proof.
  intros Hnr Hu Hne [Hv Hp]. destruct user as [|u0 us]; [congruence |].
  destruct L as [|l0 LT]; [inversion Hv |].
  apply Forall2_cons_iff in Hv as [Hl0 HLT]. apply Forall_cons_iff in Hu as [Hu0 Hus].
  pose proof (valid_tail_pos _ _ Hus HLT) as Hpos.
  pose proof (prod1_pos _ Hpos) as Hppos.
  rewrite product_cons in Hp.
  assert (Hl0pos : 0 < l0) by (destruct (Z.eqb_spec u0 0); lia).
  assert (HLT' : Forall2 (fun u l => if u =? 0 then In l (facts nr) else l = u) us LT).
  { apply tail_in_facts; [exact Hnr | exact HLT |].
    intros l Hl. rewrite <- Hp. apply Z.divide_mul_r, prod1_divide, Hl. }
  destruct (in_box_merge (facts nr) 0%nat us LT HLT') as (cs & Hb & Hm).
  exists (0 :: cs). split.
  - constructor; [simpl; lia | exact Hb].
  - rewrite layout_of_combo_cons by exact Hu0. rewrite Hm. f_equal.
    destruct (Z.eqb_spec u0 0); [| congruence].
    rewrite <- Hp. apply Z.quot_mul. lia.
Qed.

Lemma visit_layouts_kept nr fs user :
  forall pts seen best,
    (forall c, In c pts -> layout_of_combo nr fs user c <> []) ->
    kept nr fs user seen best ->
    kept nr fs user (seen ++ pts) (visit_until (layout_visitor nr fs user) best pts).
Proof.
  induction pts as [|p pts IH]; intros seen best Hne Hk; cbn [visit_until].
  - rewrite app_nil_r. exact Hk.
  - unfold layout_visitor at 2.
    replace (seen ++ p :: pts) with ((seen ++ [p]) ++ pts)
      by (rewrite <- app_assoc; reflexivity).
    apply IH; [intros c Hc; apply Hne; right; exact Hc |].
    assert (Hp : layout_of_combo nr fs user p <> []) by (apply Hne; left; reflexivity).
    destruct (Z.eqb_spec (product (layout_of_combo nr fs user p)) nr) as [Hok | Hno].
    + destruct Hk as [[-> Hnone] | (Hbne & (c & Hc & Hbc & Hbp) & Hmin)].
      * cbn [length Nat.eqb orb]. right. split; [exact Hp |]. split.
        -- exists p. split; [apply in_or_app; right; left; reflexivity | auto].
        -- intros c Hc Hcp. apply in_app_or in Hc as [Hc | [<- | []]]; [| lia].
           exfalso. exact (Hnone c Hc Hcp).
      * assert ((length best =? 0)%nat = false) as ->
            by (destruct best; [congruence | reflexivity]).
        cbn [orb].
        destruct (Z.ltb_spec (max (layout_of_combo nr fs user p)) (max best))
          as [Hlt | Hge]; right.
        -- split; [exact Hp |]. split.
           ++ exists p. split; [apply in_or_app; right; left; reflexivity | auto].
           ++ intros c' Hc' Hcp. apply in_app_or in Hc' as [Hc' | [<- | []]]; [| lia].
              specialize (Hmin c' Hc' Hcp). lia.
        -- split; [exact Hbne |]. split.
           ++ exists c. split; [apply in_or_app; left; exact Hc | auto].
           ++ intros c' Hc' Hcp. apply in_app_or in Hc' as [Hc' | [<- | []]]; [| lia].
              exact (Hmin c' Hc' Hcp).
    + destruct Hk as [[-> Hnone] | (Hbne & (c & Hc & Hbc & Hbp) & Hmin)].
      * left. split; [reflexivity |].
        intros c Hc. apply in_app_or in Hc as [Hc | [<- | []]]; auto.
      * right. split; [exact Hbne |]. split.
        -- exists c. split; [apply in_or_app; left; exact Hc | auto].
        -- intros c' Hc' Hcp. apply in_app_or in Hc' as [Hc' | [<- | []]];
             [exact (Hmin c' Hc' Hcp) | congruence].
Qed.

Lemma product_zero (user : list Z) : In 0 user -> product user = 0.
Proof.
  destruct user as [|u us]; [intros [] |]. intros Hin. rewrite product_cons.
  destruct Hin as [-> | Hin]; [lia |].
  destruct (prod1_divide us 0 Hin) as [k Hk]. nia.
Qed.

(** C5: when some per-dimension rank count is zero, the search is
    entered ([product] of the counts is 0) and the layout it keeps is a
    factorisation of the number of active ranks: its product is [nr], it
    keeps every specified non-zero count, its other counts are positive,
    and no layout with these properties has a smaller maximum.  Nothing
    is kept (the tuple stays empty) exactly when no such layout exists. *)
Theorem rank_layout_most_compact :
  forall (first_inner : bool) (nr : Z) (user : list Z),
    0 < nr -> Forall (fun u => 0 <= u) user -> In 0 user ->
    product user = 0 /\
    let best := find_rank_layout first_inner nr user in
    (best = [] /\ forall L, ~ valid_layout nr user L) \/
    (valid_layout nr user best /\
     forall L, valid_layout nr user L -> max best <= max L).
Proof.
  intros fi nr user Hnr Hu H0. split; [apply product_zero, H0 |].
  assert (Hne : user <> []) by (intros ->; destruct H0).
  cbv zeta. unfold find_rank_layout, visitAllPoints.
  set (fs := facts nr). set (sizes := combo_sizes (Z.of_nat (length fs)) 0 user).
  assert (Hcne : forall c, In c (all_points fi sizes) ->
                           layout_of_combo nr fs user c <> []).
  { intros c Hc. apply in_all_points in Hc.
    destruct user as [|u0 us]; [congruence |].
    inversion Hc; subst. inversion Hu; subst.
    rewrite layout_of_combo_cons by assumption. discriminate. }
  pose proof (visit_layouts_kept nr fs user (all_points fi sizes) [] [] Hcne) as Hk.
  cbn [app] in Hk. subst fs sizes.
  destruct Hk as [[Hb Hnone] | (Hbne & (c & Hc & Hbc & Hbp) & Hmin)].
  - left. split; [reflexivity |]. intros c [].
  - left. split; [exact Hb |]. intros L HL.
    destruct (valid_layout_tried nr user L Hnr Hu Hne HL) as (c & Hc & <-).
    apply (Hnone c); [apply in_all_points, Hc | apply HL].
  - right. split.
    + rewrite Hbc. apply tried_layout_valid; auto.
      * apply in_all_points in Hc. exact Hc.
      * rewrite <- Hbc. exact Hbp.
    + intros L HL.
      destruct (valid_layout_tried nr user L Hnr Hu Hne HL) as (c' & Hc' & <-).
      apply Hmin; [apply in_all_points, Hc' | apply HL].
Qed.

Lemma rank_layout_most_compact_witness :
  find_rank_layout true 12 [0; 0; 2] = [3; 2; 2] /\
  valid_layout 12 [0; 0; 2] (find_rank_layout true 12 [0; 0; 2]).
Proof.
  split; [vm_compute; reflexivity |].
  destruct (rank_layout_most_compact true 12 [0; 0; 2]) as [_ [[Hb _] | [Hv _]]].
  - lia.
  - repeat constructor; lia.
  - simpl; auto.
  - vm_compute in Hb. discriminate.
  - exact Hv.
Defined.

End LayoutProofs.

(** ** The distance between two ranks *)
Module RankTableFacts.
Import Common Data Tuple Shift SetupRank.
Import TupleSpec TupleFacts.
Import RankTableSpec.

(** *** The [int] distance between checked ranks *)

Lemma to_int_small (x : Z) : - 2 ^ 31 <= x < 2 ^ 31 -> to_int x = x.
Proof. intros H. unfold to_int. rewrite Z.mod_small; lia. Qed.

Lemma checked_index num_ranks t nddims nr rn d :
  tables_checked num_ranks t nddims nr -> (rn < nr)%nat -> (d < nddims)%nat ->
  0 <= tab (coords t) rn d < at_dim num_ranks d.
Proof.
  intros (_ & _ & _ & H) Hrn Hd. specialize (H rn Hrn).
  unfold check_rank_indices in H. rewrite forallb_forall in H.
  specialize (H d ltac:(apply in_seq; lia)). apply andb_true_iff in H as [H1 H2].
  unfold tab. lia.
Qed.

(** The sum of [n - 1] over positive numbers is below their product. *)
Lemma sum_below_product (l : list Z) :
  Forall (fun n => 1 <= n) l ->
  fold_right (fun n s => n - 1 + s) 0 l <= prod1 l - 1.
Proof.
  induction 1 as [|n l Hn Hl IH]; cbn [fold_right]; [reflexivity |].
  rewrite prod1_cons.
  assert (1 <= prod1 l) by (pose proof (prod1_pos l ltac:(eapply Forall_impl; [| exact Hl];
                                                             intros; cbv beta in *; lia)); lia).
  nia.
Qed.

Lemma manhattan_fold (f : nat -> Z) (l : list nat) :
  forall a, fold_left (fun m di => m + Z.abs (f di)) l a
            = a + fold_right (fun di s => Z.abs (f di) + s) 0 l.
Proof.
  induction l as [|d l IH]; intros a; cbn [fold_left fold_right]; [lia |].
  rewrite IH. lia.
Qed.

Lemma manhattan_bound num_ranks t nddims nr me rn :
  tables_checked num_ranks t nddims nr -> (me < nr)%nat -> (rn < nr)%nat ->
  0 <= manhattan t nddims me rn < 2 ^ 31.
Proof.
  intros Hc Hme Hrn. pose proof Hc as (Hlen & Hprod & Hnr & _).
  assert (Hidx : forall r d, (r < nr)%nat -> (d < nddims)%nat ->
                             0 <= tab (coords t) r d < at_dim num_ranks d)
    by (intros; eapply checked_index; eassumption).
  unfold manhattan. rewrite manhattan_fold.
  assert (Hsum : forall k, (k <= nddims)%nat ->
             0 <= fold_right (fun di s => Z.abs (rdelta t me rn di) + s) 0
                             (seq (nddims - k) k)
             <= fold_right (fun n s => n - 1 + s) 0 (skipn (nddims - k) num_ranks)).
  { induction k as [|k IH]; intros Hk.
    - cbn [seq fold_right]. rewrite Nat.sub_0_r, skipn_all2 by lia. cbn. lia.
    - replace (nddims - k)%nat with (S (nddims - S k)) in IH by lia.
      specialize (IH ltac:(lia)). cbn [seq fold_right].
      assert (Hd : (nddims - S k < nddims)%nat) by lia.
      destruct (skipn (nddims - S k) num_ranks) as [|n rest] eqn:E.
      + apply (f_equal (@length Z)) in E. rewrite length_skipn in E. cbn in E. lia.
      + assert (En : n = at_dim num_ranks (nddims - S k)).
        { unfold at_dim. rewrite <- (firstn_skipn (nddims - S k) num_ranks) at 1.
          rewrite app_nth2 by (rewrite length_firstn; lia).
          rewrite length_firstn, E. replace (_ - _)%nat with 0%nat by lia. reflexivity. }
        assert (Er : skipn (S (nddims - S k)) num_ranks = rest).
        { replace (S (nddims - S k)) with (1 + (nddims - S k))%nat by lia.
          rewrite <- skipn_skipn, E. reflexivity. }
        rewrite Er in IH. cbn [fold_right].
        pose proof (Hidx me _ Hme Hd). pose proof (Hidx rn _ Hrn Hd).
        subst n. unfold rdelta in *. lia. }
  specialize (Hsum nddims (Nat.le_refl _)). rewrite Nat.sub_diag in Hsum.
  cbn [skipn] in Hsum.
  assert (Hall : Forall (fun n => 1 <= n) num_ranks).
  { apply Forall_forall. intros n Hn. apply In_nth with (d := 0) in Hn as (d & Hd & <-).
    pose proof (Hidx me d Hme ltac:(lia)). unfold at_dim in *. lia. }
  pose proof (sum_below_product num_ranks Hall) as Hsp.
  assert (Hp : prod1 num_ranks <= Z.of_nat nr \/ num_ranks = []).
  { destruct num_ranks as [|n r]; [right; reflexivity | left].
    rewrite <- Hprod, product_cons, prod1_cons. lia. }
  destruct Hp as [Hp | ->]; [lia |]. cbn in *. lia.
Qed.

(** Between checked ranks the [int] distance is the Manhattan
    distance. *)
Lemma mandist_checked num_ranks t nddims nr me rn :
  tables_checked num_ranks t nddims nr -> (me < nr)%nat -> (rn < nr)%nat ->
  mandist t nddims me rn = manhattan t nddims me rn.
Proof.
  intros Hc Hme Hrn. pose proof (manhattan_bound _ _ _ _ _ _ Hc Hme Hrn) as Hb.
  unfold mandist, manhattan in *.
  assert (H : forall l a,
             0 <= a ->
             fold_left (fun m di => m + Z.abs (rdelta t me rn di)) l a < 2 ^ 31 ->
             fold_left (fun m di => to_int (m + Z.abs (rdelta t me rn di))) l a
             = fold_left (fun m di => m + Z.abs (rdelta t me rn di)) l a).
  { induction l as [|d l IH]; intros a Ha Hlt; cbn [fold_left] in *; [reflexivity |].
    assert (Hge : a + Z.abs (rdelta t me rn d)
                  <= fold_left (fun m di => m + Z.abs (rdelta t me rn di)) l
                               (a + Z.abs (rdelta t me rn d))).
    { rewrite manhattan_fold.
      assert (0 <= fold_right (fun di s => Z.abs (rdelta t me rn di) + s) 0 l)
        by (clear; induction l; cbn [fold_right]; lia).
      lia. }
    rewrite to_int_small by lia. apply IH; lia. }
  apply H; lia.
Qed.

(** A rank is at distance 0 of itself, whatever its indices. *)
Lemma mandist_of_self t nddims me : mandist t nddims me me = 0.
Proof.
  unfold mandist.
  assert (H : forall l, fold_left (fun m di => to_int (m + Z.abs (rdelta t me me di))) l 0
                        = 0).
  { induction l as [|d l IH]; cbn [fold_left]; [reflexivity |].
    replace (rdelta t me me d) with 0 by (unfold rdelta; lia).
    change (to_int (0 + Z.abs 0)) with 0. exact IH. }
  apply H.
Qed.

Lemma manhattan_zero_iff t nddims me rn :
  manhattan t nddims me rn = 0 <->
  forall d, (d < nddims)%nat -> tab (coords t) rn d = tab (coords t) me d.
Proof.
  unfold manhattan. rewrite manhattan_fold.
  assert (H : forall l,
             0 <= fold_right (fun di s => Z.abs (rdelta t me rn di) + s) 0 l /\
             (fold_right (fun di s => Z.abs (rdelta t me rn di) + s) 0 l = 0 <->
              forall d, In d l -> rdelta t me rn d = 0)).
  { induction l as [|d l [IH0 IH]]; cbn [fold_right].
    - split; [lia |]. split; [intros _ d [] | reflexivity].
    - split; [lia |]. split.
      + intros H d' [<- | Hd']; [lia | apply IH; [lia | exact Hd']].
      + intros H. rewrite (H d (or_introl eq_refl)).
        destruct IH as [_ IH]. rewrite IH by (intros; apply H; right; assumption).
        reflexivity. }
  destruct (H (seq 0 nddims)) as [_ ->]. cbn [Z.add]. split.
  - intros Hz d Hd. specialize (Hz d ltac:(apply in_seq; lia)). unfold rdelta in Hz. lia.
  - intros Hz d Hd. apply in_seq in Hd. unfold rdelta. rewrite Hz by lia. lia.
Qed.

(** Between checked ranks the [int] distance is 0 exactly for ranks with
    the same rank indices. *)
Lemma mandist_zero_iff num_ranks t nddims nr me rn :
  tables_checked num_ranks t nddims nr -> (me < nr)%nat -> (rn < nr)%nat ->
  (mandist t nddims me rn = 0 <->
   forall d, (d < nddims)%nat -> tab (coords t) rn d = tab (coords t) me d).
Proof.
  intros Hc Hme Hrn. rewrite (mandist_checked _ _ _ _ _ _ Hc Hme Hrn).
  apply manhattan_zero_iff.
Qed.

(** Three ranks of which the second has index [2 ^ 32] in the first
    dimension: its distance to the first rank is 0 in an [int], and the
    loop over the ranks reports it at the coordinates of the first. *)
Lemma mandist_is_an_int :
  mandist (mkTables [[0; 0]; [2 ^ 32; 0]; [1; 0]] [[8; 8]; [8; 8]; [8; 6]]) 2 0 1 = 0 /\
  setupRank_pass 1 (mkTables [[0; 0]; [2 ^ 32; 0]; [1; 0]] [[8; 8]; [8; 8]; [8; 6]])
                 2 3 0
  = inl (SameCoordinates 0 1).
Proof. split; vm_compute; reflexivity. Qed.

End RankTableFacts.

(** ** The neighbours of a rank *)
Module TopologyProofs.
Import Common Data Tuple Shift SetupRank.
Import TupleSpec TupleFacts.
Import RankTableSpec RankTableFacts.
Import TopologySpec.

(** *** The alignment check of the second pass *)













End TopologyProofs.

(** ** run_solution before prepare_solution *)
Module RunProofs.
Import Common Data Tuple Halo Run.
Import RunSpec.

(** *** [run_solution] before [prepare_solution] *)

Lemma hooks_keep_unprepared hooks :
  Forall keeps_unprepared hooks ->
  forall st first last,
    is_prepared st = false ->
    is_prepared (fst (call_2idx_hooks hooks st first last)) = false.
Proof.
  induction 1 as [|hk hooks Hk _ IH]; intros st first last Hst; simpl; [exact Hst |].
  specialize (Hk st first last Hst).
  destruct (hk st first last) as [st' [e|]]; simpl in *; [exact Hk |].
  apply IH, Hk.
Qed.

(** C4: [run_solution] on a solution that is not prepared (and that the
    registered before-hooks leave unprepared) throws: it ends with an
    exception, which is the one of the check of [is_prepared] unless a
    hook threw first.  The rank loops are never entered, no halo is
    exchanged and no variable is touched: apart from the run timer, the
    state is the one that the hooks left. *)
Theorem run_solution_unprepared_throws :
  forall cfg before after st first last,
    is_prepared st = false ->
    Forall keeps_unprepared before ->
    let hooked := call_2idx_hooks before st first last in
    let out := run_solution cfg before after st first last in
    (exists e, snd out = Some e /\ (snd hooked = None -> e = NotPrepared)) /\
    rank_loops_done (fst out) = rank_loops_done (fst hooked) /\
    mpi_calls (fst out) = mpi_calls (fst hooked) /\
    vars (fst out) = vars (fst hooked) /\
    steps_done (fst out) = steps_done (fst hooked) /\
    (before = [] ->
     out = (set_timer true st, Some NotPrepared) /\
     rank_loops_done (fst out) = rank_loops_done st).
Proof.
  intros cfg before after st first last Hst Hk hooked out.
  pose proof (hooks_keep_unprepared before Hk st first last Hst) as Hh.
  subst hooked out. unfold run_solution.
  destruct (call_2idx_hooks before st first last) as [sh [e|]] eqn:E; simpl in Hh.
  - split; [exists e; split; [reflexivity | discriminate] |].
    do 4 (split; [reflexivity |]).
    intros ->. simpl in E. discriminate.
  - cbn [set_timer is_prepared]. rewrite Hh. cbn [negb fst snd].
    split; [exists NotPrepared; split; reflexivity |].
    do 4 (split; [reflexivity |]).
    intros ->. simpl in E. injection E as <-. split; reflexivity.
Qed.

Lemma run_solution_unprepared_throws_witness :
  snd (run_solution c4_config [] [] c4_state 0 0) = Some NotPrepared /\
  rank_loops_done (fst (run_solution c4_config [] [] c4_state 0 0)) = [].
Proof.
  destruct (run_solution_unprepared_throws c4_config [] [] c4_state 0 0 eq_refl
              (Forall_nil _)) as (_ & _ & _ & _ & _ & H).
  destruct (H eq_refl) as [-> _]. split; reflexivity.
Defined.

End RunProofs.

(** ** The dirty flags of the variables *)
Module DirtyProofs.
Import Common Data Tuple Halo Run.
Import DirtySpec.

(** *** Dirty flags between halo exchanges *)









(** *** A step that stays valid stays dirty *)







(** *** [run_solution] changes the variables by calls of [update_vars]
    and of [exchange_halos] only *)








(** A write that moves the window of the valid steps past a step takes
    the flag of that step with it: step 4 is not held in memory after
    the write of step 6, and the flag in its place is the one of step 6,
    which is clean. *)
Lemma step_falling_out_is_cleared :
  is_dirty c2_var 4 = true /\
  exists v', nth_error (do_call c2_call [c2_var]) 0 = Some v' /\
             ~ live v' 4 /\ live v' 6 /\ is_dirty v' 6 = false.
Proof.
  split; [reflexivity |]. eexists. split; [reflexivity |].
  split; [| split; [right; vm_compute; split; discriminate | reflexivity]].
  intros [H | [H1 H2]]; [discriminate | vm_compute in H1; apply H1; reflexivity].
Qed.



End DirtyProofs.

(** ** The tags of the halo messages *)
Module TagProofs.
Import Common Data Halo.
Import TagSpec.

(** *** The name-ordered map of the variables to swap *)

Lemma compare_lt (a b : String.string) : String.compare a b = Lt <-> name_lt a b.
Proof. apply String_as_OT.cmp_lt. Qed.

Lemma compare_gt (a b : String.string) : String.compare a b = Gt <-> name_lt b a.
Proof.
  rewrite <- compare_lt. pose proof (String_as_OT.cmp_antisym a b) as H.
  unfold String_as_OT.cmp in H. rewrite H.
  destruct (String.compare b a); simpl; split; congruence.
Qed.

Lemma name_lt_irrefl (a : String.string) : ~ name_lt a a.
Proof. intros H. exact (String_as_OT.lt_not_eq _ _ H eq_refl). Qed.

Lemma ltb_lt (a b : String.string) : String.ltb a b = true <-> name_lt a b.
Proof.
  unfold String.ltb. rewrite <- compare_lt.
  destruct (String.compare a b); split; congruence.
Qed.

Lemma map_insert_keys k gp m x :
  In x (map fst (map_insert k gp m)) <-> x = k \/ In x (map fst m).
Proof.
  induction m as [|[k' gp'] r IH]; simpl; [intuition congruence |].
  destruct (String.compare k k') eqn:E; simpl.
  - apply String_as_OT.cmp_eq in E. subst. intuition congruence.
  - intuition congruence.
  - rewrite IH. intuition congruence.
Qed.

Lemma map_insert_sorted k gp m : sorted_keys m -> sorted_keys (map_insert k gp m).
Proof.
  unfold sorted_keys. induction m as [|[k' gp'] r IH]; simpl; intros Hs.
  - constructor; constructor.
  - apply StronglySorted_inv in Hs as [Hr Hk'].
    destruct (String.compare k k') eqn:E; simpl.
    + apply String_as_OT.cmp_eq in E. subst. constructor; assumption.
    + apply compare_lt in E. constructor; [constructor; assumption |].
      constructor; [exact E |]. rewrite Forall_forall in *. intros y Hy.
      eapply String_as_OT.lt_trans; [exact E | apply Hk', Hy].
    + apply compare_gt in E. constructor; [apply IH, Hr |].
      rewrite Forall_forall in *. intros y Hy.
      apply map_insert_keys in Hy as [-> | Hy]; [exact E | apply Hk', Hy].
Qed.

Lemma scan_step_sorted gp v m t :
  sorted_keys (varsToSwap m) -> sorted_keys (varsToSwap (scan_step gp v m t)).
Proof.
  unfold scan_step. destruct (negb (is_dirty v t)); simpl; auto.
  apply map_insert_sorted.
Qed.

Lemma scan_var_sorted h m gv :
  sorted_keys (varsToSwap m) -> sorted_keys (varsToSwap (scan_var h m gv)).
Proof.
  destruct gv as [gp v]. unfold scan_var.
  destruct (is_scratch v); auto. destruct (mpi_find _ _) as [ns|]; auto.
  generalize (steps_from (if uses_step_dim v then get_first_valid_step_index v else 0)
     (Z.to_nat ((if uses_step_dim v then get_last_valid_step_index v + 1 else 1)
                - (if uses_step_dim v then get_first_valid_step_index v else 0)))).
  intros l; revert m; induction l as [|t l IH]; intros m Hs; simpl; auto.
  apply IH, scan_step_sorted, Hs.
Qed.

Lemma vars_to_swap_sorted h vars : sorted_keys (varsToSwap (vars_to_swap h vars)).
Proof.
  unfold vars_to_swap.
  assert (H0 : sorted_keys (varsToSwap (mkSwap [] [] []))) by constructor.
  revert H0. generalize (mkSwap [] [] []).
  generalize (combine (seq 0 (length vars)) vars).
  intros l; induction l as [|gv l IH]; intros m Hs; simpl; auto.
  apply IH, scan_var_sorted, Hs.
Qed.

(** In an increasing list the position of a name is the number of
    names before it in the order. *)
Lemma position_is_rank (keys : list String.string) :
  StronglySorted name_lt keys ->
  forall i g, nth_error keys i = Some g ->
    length (filter (fun k => String.ltb k g) keys) = i.
Proof.
  induction 1 as [|k keys Hs IH Hk]; intros [|i] g; simpl; try discriminate.
  - intros [= ->].
    assert (String.ltb g g = false) as ->.
    { destruct (String.ltb g g) eqn:E; [| reflexivity].
      apply ltb_lt in E. destruct (name_lt_irrefl _ E). }
    rewrite Forall_forall in Hk.
    assert (Hnone : filter (fun k => String.ltb k g) keys = []).
    { clear IH Hs. induction keys as [|y keys IHk]; simpl; [reflexivity |].
      assert (String.ltb y g = false) as ->.
      { destruct (String.ltb y g) eqn:E; [| reflexivity].
        apply ltb_lt in E. exfalso.
        apply (name_lt_irrefl g).
        eapply String_as_OT.lt_trans; [apply Hk; left; reflexivity | exact E]. }
      apply IHk. intros z Hz. apply Hk. right; exact Hz. }
    rewrite Hnone. reflexivity.
  - intros Hn. rewrite Forall_forall in Hk.
    assert (String.ltb k g = true) as ->
        by (apply ltb_lt, Hk; eapply nth_error_In, Hn).
    simpl. f_equal. apply IH, Hn.
Qed.

Lemma sorted_names_ext (c1 : list String.string) :
  forall c2, StronglySorted name_lt c1 -> StronglySorted name_lt c2 ->
             (forall x, In x c1 <-> In x c2) -> c1 = c2.
Proof.
  induction c1 as [|x1 c1 IH]; intros [|x2 c2] H1 H2 Hext.
  - reflexivity.
  - exfalso. apply (Hext x2). left; reflexivity.
  - exfalso. apply (Hext x1). left; reflexivity.
  - apply StronglySorted_inv in H1 as [H1 Hx1].
    apply StronglySorted_inv in H2 as [H2 Hx2].
    rewrite Forall_forall in Hx1, Hx2.
    assert (Hasym : forall a b, name_lt a b -> name_lt b a -> False)
      by (intros a b Hab Hba; exact (name_lt_irrefl a (String_as_OT.lt_trans _ _ _ Hab Hba))).
    assert (x1 = x2) as ->.
    { destruct (proj1 (Hext x1) (or_introl eq_refl)) as [E | Hin]; [congruence |].
      destruct (proj2 (Hext x2) (or_introl eq_refl)) as [E | Hin']; [congruence |].
      destruct (Hasym _ _ (Hx1 _ Hin') (Hx2 _ Hin)). }
    f_equal. apply IH; auto. intros x. split; intros Hin.
    + destruct (proj1 (Hext x) (or_intror Hin)) as [E | ?]; [| assumption].
      subst. destruct (name_lt_irrefl _ (Hx1 _ Hin)).
    + destruct (proj2 (Hext x) (or_intror Hin)) as [E | ?]; [| assumption].
      subst. destruct (name_lt_irrefl _ (Hx2 _ Hin)).
Qed.

(** *** The tags of the requests *)

Lemma visit_neighbor_calls m hs gi g gp vars calls n :
  exists cs, snd (visit_neighbor m hs gi g gp (vars, calls) n) = calls ++ cs /\
             forall c x, In c cs -> tagged c = Some x -> x = (g, gi).
Proof.
  unfold visit_neighbor. destruct hs.
  - destruct (_ && _); simpl.
    + eexists; split; [reflexivity |]. intros c x [<- | []] [= <-]; reflexivity.
    + exists []. rewrite app_nil_r. split; [reflexivity | intros c x []].
  - destruct (_ && _); simpl.
    + eexists; split; [reflexivity |]. intros c x [<- | []] [= <-]; reflexivity.
    + exists []. rewrite app_nil_r. split; [reflexivity | intros c x []].
  - destruct (_ && _); simpl.
    + eexists; split; [reflexivity |]. intros c x [<- | []]; discriminate.
    + exists []. rewrite app_nil_r. split; [reflexivity | intros c x []].
  - destruct (_ && _); destruct (ptr_find gp (firstStepsToSwap m));
      destruct (ptr_find gp (lastStepsToSwap m)); simpl;
      try (eexists; split; [reflexivity |]; intros c x [<- | []]; discriminate);
      exists []; rewrite app_nil_r; (split; [reflexivity | intros c x []]).
Qed.

Lemma visit_neighbors_calls m hs gi g gp nbrs :
  forall vars calls,
  exists cs, snd (fold_left (visit_neighbor m hs gi g gp) nbrs (vars, calls)) = calls ++ cs /\
             forall c x, In c cs -> tagged c = Some x -> x = (g, gi).
Proof.
  induction nbrs as [|n nbrs IH]; intros vars calls; cbn [fold_left].
  - exists []. rewrite app_nil_r. split; [reflexivity | intros c x []].
  - destruct (visit_neighbor_calls m hs gi g gp vars calls n) as (cs1 & E1 & H1).
    destruct (visit_neighbor m hs gi g gp (vars, calls) n) as [vars1 calls1].
    simpl in E1. subst calls1.
    destruct (IH vars1 (calls ++ cs1)) as (cs2 & E2 & H2).
    exists (cs1 ++ cs2). rewrite app_assoc. split; [exact E2 |].
    intros c x Hc. apply in_app_or in Hc as [Hc | Hc]; eauto.
Qed.

Lemma swap_loop_calls h m hs to_swap :
  forall gi vars calls,
  exists cs, snd (swap_loop h m hs gi to_swap (vars, calls)) = calls ++ cs /\
             forall c g tag, In c cs -> tagged c = Some (g, tag) ->
               exists i, nth_error (map fst to_swap) i = Some g /\
                         tag = gi + 1 + Z.of_nat i.
Proof.
  induction to_swap as [|[g gp] rest IH]; intros gi vars calls;
    cbn [swap_loop map fst].
  - exists []. rewrite app_nil_r. split; [reflexivity | intros c g tag []].
  - set (nbrs := match mpi_find g (mpiData h) with Some ns => ns | None => [] end).
    destruct (visit_neighbors_calls m hs (gi + 1) g gp nbrs vars calls) as (cs1 & E1 & H1).
    destruct (fold_left (visit_neighbor m hs (gi + 1) g gp) nbrs (vars, calls))
      as [vars1 calls1].
    simpl in E1. subst calls1.
    destruct (IH (gi + 1) vars1 (calls ++ cs1)) as (cs2 & E2 & H2).
    exists (cs1 ++ cs2). rewrite app_assoc. split; [exact E2 |].
    intros c g' tag Hc Ht. apply in_app_or in Hc as [Hc | Hc].
    + specialize (H1 _ _ Hc Ht). injection H1 as -> ->.
      exists 0%nat. split; [reflexivity | lia].
    + destruct (H2 _ _ _ Hc Ht) as (i & Hi & ->).
      exists (S i). split; [exact Hi | lia].
Qed.

Lemma exchange_halos_calls h vars c g tag :
  In c (snd (exchange_halos h vars)) -> tagged c = Some (g, tag) ->
  exists i, nth_error (swap_names h vars) i = Some g /\ tag = 1 + Z.of_nat i.
Proof.
  unfold exchange_halos, swap_names.
  destruct (negb (enable_halo_exchange h) || (num_ranks h <? 2)); [intros [] |].
  set (m := vars_to_swap h vars).
  assert (Hgen : forall steps vars0 calls0,
             (forall c, In c calls0 -> tagged c = Some (g, tag) ->
                exists i, nth_error (map fst (varsToSwap m)) i = Some g /\
                          tag = 1 + Z.of_nat i) ->
             In c (snd (fold_left
                          (fun st hs => swap_loop h m hs 0 (varsToSwap m) st)
                          steps (vars0, calls0))) ->
             tagged c = Some (g, tag) ->
             exists i, nth_error (map fst (varsToSwap m)) i = Some g /\
                       tag = 1 + Z.of_nat i).
  { induction steps as [|hs steps IH]; intros vars0 calls0 H0; cbn [fold_left].
    - intros Hc Ht. apply (H0 c Hc Ht).
    - destruct (swap_loop_calls h m hs (varsToSwap m) 0 vars0 calls0) as (cs & E & Hcs).
      destruct (swap_loop h m hs 0 (varsToSwap m) (vars0, calls0)) as [vars1 calls1].
      simpl in E. subst calls1. apply IH.
      intros c' Hc' Ht'. apply in_app_or in Hc' as [Hc' | Hc']; [apply (H0 _ Hc' Ht') |].
      destruct (Hcs _ _ _ Hc' Ht') as (i & Hi & ->). exists i. split; [exact Hi | lia]. }
  apply Hgen. intros c' [].
Qed.

(** C3, as stated, fails: the tag is not an ordinal that the variable
    has in the map of all variables.  With the same two variables, ["B"]
    is sent with tag 2 when ["A"] is dirty too and with tag 1 when it is
    not. *)
Lemma halo_tag_is_not_a_stable_ordinal :
  ~ (exists ord : list String.string -> String.string -> Z,
       forall h vars g nbr tag,
         In (MPI_Isend g nbr tag) (snd (exchange_halos h vars)) ->
         tag = ord (map get_name vars) g).
Proof.
  intros [ord H].
  assert (H2 : 2 = ord ["A"%string; "B"%string] "B"%string).
  { apply (H c3_ctx c3_both "B"%string 1 2). vm_compute. tauto. }
  assert (H1 : 1 = ord ["A"%string; "B"%string] "B"%string).
  { apply (H c3_ctx c3_only_b "B"%string 1 1). vm_compute. tauto. }
  lia.
Qed.

(** C3, amended: the tag of every [MPI_Isend] and [MPI_Irecv] of a call
    of [exchange_halos] is the position, counted from 1, of the variable
    among the variables swapped by this call (those with MPI buffers and
    a dirty step) in the order of their names, that is one more than the
    number of swapped variables with a smaller name.  A request of
    another rank for the same variable carries the same tag whenever
    that rank swaps the same set of variables. *)
Theorem halo_tag_is_position_among_swapped :
  forall h vars c g tag,
    In c (snd (exchange_halos h vars)) -> tagged c = Some (g, tag) ->
    In g (swap_names h vars) /\
    tag = 1 + Z.of_nat (length (filter (fun k => String.ltb k g) (swap_names h vars))) /\
    forall h2 vars2 c2 tag2,
      (forall k, In k (swap_names h vars) <-> In k (swap_names h2 vars2)) ->
      In c2 (snd (exchange_halos h2 vars2)) -> tagged c2 = Some (g, tag2) ->
      tag2 = tag.
Proof.
  intros h vars c g tag Hc Ht.
  destruct (exchange_halos_calls h vars c g tag Hc Ht) as (i & Hi & Htag).
  pose proof (vars_to_swap_sorted h vars) as Hs.
  change (StronglySorted name_lt (swap_names h vars)) in Hs.
  split; [eapply nth_error_In, Hi |]. split.
  - rewrite (position_is_rank _ Hs i g Hi). exact Htag.
  - intros h2 vars2 c2 tag2 Hsame Hc2 Ht2.
    destruct (exchange_halos_calls h2 vars2 c2 g tag2 Hc2 Ht2) as (i2 & Hi2 & ->).
    pose proof (vars_to_swap_sorted h2 vars2) as Hs2.
    change (StronglySorted name_lt (swap_names h2 vars2)) in Hs2.
    rewrite <- (sorted_names_ext _ _ Hs Hs2 Hsame) in Hi2.
    rewrite <- (position_is_rank _ Hs i g Hi), <- (position_is_rank _ Hs i2 g Hi2) in *.
    lia.
Qed.

Lemma halo_tag_is_position_among_swapped_witness :
  In (MPI_Isend "B"%string 1 1) (snd (exchange_halos c3_ctx c3_only_b)) /\
  swap_names c3_ctx c3_only_b = ["B"%string].
Proof.
  assert (Hin : In (MPI_Isend "B"%string 1 1) (snd (exchange_halos c3_ctx c3_only_b)))
    by (vm_compute; tauto).
  split; [exact Hin |].
  destruct (halo_tag_is_position_among_swapped c3_ctx c3_only_b _ "B"%string 1 Hin eq_refl)
    as (_ & _ & _).
  vm_compute. reflexivity.
Defined.

End TagProofs.

(** ** The bounding boxes of a bundle *)
Module BBoxProofs.
Import Common Data Tuple Shift BBox.
Import TupleSpec TupleFacts.
Import BBoxSpec.

(** *** Points and boxes *)

Lemma in_range_within (b e p : list Z) : in_range b e p = true <-> within b e p.
Proof.
  revert e p; induction b as [|x b IH]; intros [|y e] [|z p]; simpl;
    try (split; [discriminate | tauto]); try tauto.
  rewrite !andb_true_iff, IH, Z.leb_le, Z.ltb_lt. tauto.
Qed.

Lemma within_length (b e p : list Z) :
  within b e p -> length b = length p /\ length e = length p.
Proof.
  revert e p; induction b as [|x b IH]; intros [|y e] [|z p]; simpl; try tauto.
  intros [_ H]. apply IH in H. lia.
Qed.


Lemma length_subElements (a b : list Z) :
  length a = length b -> length (subElements a b) = length a.
Proof.
  revert b; induction a as [|x a IH]; intros [|y b]; simpl; try discriminate; auto.
Qed.

(** The points of the box that begins at [b] with side lengths [len]
    are [b] plus the offsets of the box. *)
Lemma within_offsets (b len p : list Z) :
  length b = length len ->
  within b (addElements b len) p <->
  exists c, in_box len c /\ p = addElements b c.
Proof.
  revert len p; induction b as [|x b IH]; intros [|l len] [|z p] Hl; simpl in *;
    try discriminate.
  - split; [intros _; exists []; split; [constructor | reflexivity] | tauto].
  - split; [tauto |]. intros (c & Hc & E). inversion Hc; subst; discriminate.
  - split; [tauto |]. intros (c & Hc & E). inversion Hc; subst; discriminate.
  - rewrite IH by lia. split.
    + intros [Hz (c & Hc & ->)]. exists (z - x :: c). split.
      * constructor; [lia | exact Hc].
      * simpl. f_equal. lia.
    + intros (c & Hc & E). inversion Hc as [|? y ? c' Hy Hc']; subst. simpl in E.
      injection E as -> ->. split; [lia |]. exists c'. auto.
Qed.

Lemma addElements_zeros (p : list Z) : addElements p (repeat 0 (length p)) = p.
Proof. induction p as [|x p IH]; simpl; [reflexivity |]. rewrite IH. f_equal. lia. Qed.

Lemma in_box_zeros (lens : list Z) :
  Forall (fun l => 1 <= l) lens -> in_box lens (repeat 0 (length lens)).
Proof. induction 1; simpl; constructor; auto. lia. Qed.

(** *** Enumeration with the first dimension innermost *)

Lemma range_split (l c : Z) :
  0 <= c < l -> exists r, range l = range c ++ c :: r.
Proof.
  intros Hc. unfold range.
  replace (Z.to_nat l) with (Z.to_nat c + S (Z.to_nat (l - c - 1)))%nat by lia.
  rewrite seq_app, map_app. simpl. eexists. f_equal. f_equal. lia.
Qed.

Lemma range_head (l : Z) : 1 <= l -> exists r, range l = 0 :: r.
Proof.
  intros Hl. destruct (range_split l 0 ltac:(lia)) as [r Hr].
  exists r. rewrite Hr. reflexivity.
Qed.


(** *** One scan for the end of a rectangle *)

















Lemma shrunk_length (sl sl' : list Z) : shrunk sl sl' -> length sl' = length sl.
Proof. intros H. symmetry. eapply Forall2_length, H. Qed.



(** *** Coordinates *)


Lemma at_dim_subElements (a : list Z) :
  forall b i, length a = length b -> (i < length a)%nat ->
              at_dim (subElements a b) i = at_dim a i - at_dim b i.
Proof.
  unfold at_dim.
  induction a as [|x a IH]; intros [|y b] [|i] Hl Hi; simpl in *; try lia.
  apply IH; lia.
Qed.




Lemma Forall_ge1_nth (l : list Z) :
  Forall (fun x => 1 <= x) l <-> forall i, (i < length l)%nat -> 1 <= at_dim l i.
Proof.
  unfold at_dim. induction l as [|x l IH]; simpl.
  - split; [intros _ i Hi; lia | constructor].
  - rewrite Forall_cons_iff, IH. split.
    + intros [Hx Hn] [|i] Hi; [lia | apply Hn; lia].
    + intros Hn. split; [apply (Hn 0%nat); lia | intros i Hi; apply (Hn (S i)); lia].
Qed.

(** *** Boxes that hold a point *)


Lemma hits_cons bb l pt :
  hits (bb :: l) pt = ((if is_in_bb bb pt then 1 else 0) + hits l pt)%nat.
Proof. unfold hits. simpl. destruct (is_in_bb bb pt); reflexivity. Qed.



Lemma is_in_new_bb (pt sl x : list Z) :
  length pt = length sl ->
  is_in_bb (mkBB pt (addElements pt sl)) x = true <->
  exists e, in_box sl e /\ x = addElements pt e.
Proof.
  intros Hl. unfold is_in_bb. simpl. rewrite in_range_within.
  apply within_offsets, Hl.
Qed.

(** *** The scan of a slice *)




Lemma add_sub_elements (a : list Z) :
  forall p, length p = length a -> addElements a (subElements p a) = p.
Proof.
  induction a as [|x a IH]; intros [|z p] Hl; simpl in *; try discriminate; auto.
  f_equal; [lia | apply IH; lia].
Qed.


(** *** Merging the lists of the slices *)


Lemma sized_in_range n bb pt :
  sized n bb -> is_in_bb bb pt = true -> length pt = n.
Proof.
  intros [Hn _] Hin. apply in_range_within, within_length in Hin. lia.
Qed.


Lemma sized_size n bb : (1 <= n)%nat -> sized n bb -> 0 < bb_size bb.
Proof.
  intros Hn (Hl & Hel & Hp). unfold bb_size, bb_len.
  destruct bb as [b e]. simpl in *.
  assert (Hall : Forall (fun x => 0 < x) (subElements e b)).
  { apply Forall_forall. intros x Hx. apply (In_nth _ _ 0) in Hx as (i & Hi & <-).
    rewrite length_subElements in Hi by lia.
    change (0 < at_dim (subElements e b) i).
    rewrite at_dim_subElements by lia. specialize (Hp i ltac:(lia)). lia. }
  destruct (subElements e b) as [|x t] eqn:E.
  - apply (f_equal (@length Z)) in E. rewrite length_subElements in E by lia.
    simpl in E. lia.
  - rewrite product_cons. apply Forall_cons_iff in Hall as [Hx Ht].
    apply prod1_pos in Ht. nia.
Qed.


(** *** The slices of the threads *)

Lemma for_loop_unit_starts (end_ : Z) (tn : Z -> Z) :
  forall fuel i tend,
    (Z.to_nat (tend - i) <= fuel)%nat ->
    exists vs, for_loop fuel i tend end_ 1 tn = Some vs /\
               map v_start vs = zrange i (Z.to_nat (tend - i)).
Proof.
  induction fuel as [|fuel IH]; intros i tend Hf; simpl.
  - destruct (Z.ltb_spec i tend); [lia |]. exists []. split; [reflexivity |].
    replace (Z.to_nat (tend - i)) with 0%nat by lia. reflexivity.
  - destruct (Z.ltb_spec i tend).
    + destruct (IH (i + 1) tend) as (vs & -> & Hvs); [lia |].
      eexists. split; [reflexivity |]. simpl. rewrite Hvs.
      replace (Z.to_nat (tend - i)) with (S (Z.to_nat (tend - (i + 1)))) by lia.
      reflexivity.
    + exists []. split; [reflexivity |].
      replace (Z.to_nat (tend - i)) with 0%nat by lia. reflexivity.
Qed.

Lemma CEIL_DIV_covers (a b : Z) :
  0 < a -> 1 <= b -> 0 <= CEIL_DIV a b /\ a <= b * CEIL_DIV a b.
Proof.
  intros Ha Hb. unfold CEIL_DIV. rewrite Z.quot_div_nonneg by lia.
  pose proof (Z.div_mod (a + b - 1) b ltac:(lia)) as Hdm.
  pose proof (Z.mod_pos_bound (a + b - 1) b ltac:(lia)) as Hm.
  split; [apply Z.div_pos; lia | lia].
Qed.







End BBoxProofs.

(** ** The rounding macros and the chunks of yask_for *)
Module LoopProofs.
Import Common.
Import LoopSpec.

(** *** The rounding macros *)

Lemma CEIL_DIV_nonneg (n m : Z) :
  0 <= n -> 0 < m -> CEIL_DIV n m = (n + m - 1) / m.
Proof. intros Hn Hm. unfold CEIL_DIV. apply Z.quot_div_nonneg; lia. Qed.

(** X1: for a positive multiple [m] and [n >= 0], [ROUND_DOWN(n, m)] is
    the largest multiple of [m] that is at most [n] and [ROUND_UP(n, m)]
    the smallest one that is at least [n]; both are [n] exactly when [n]
    is a multiple.  For [n < 0] that is not a multiple, [ROUND_DOWN]
    rounds towards zero and is above [n]. *)
Theorem rounding_macros_bounds :
  forall n m : Z,
    0 < m ->
    (0 <= n ->
     (m | ROUND_DOWN n m) /\ ROUND_DOWN n m <= n < ROUND_DOWN n m + m /\
     (m | ROUND_UP n m) /\ n <= ROUND_UP n m < n + m /\
     (ROUND_UP n m = ROUND_DOWN n m <-> (m | n))) /\
    (n < 0 -> ~ (m | n) -> n < ROUND_DOWN n m <= 0).
Proof.
  intros n m Hm. split.
  - intros Hn. unfold ROUND_UP, ROUND_DOWN. rewrite CEIL_DIV_nonneg by lia.
    rewrite Z.quot_div_nonneg by lia.
    pose proof (Z.div_mod n m ltac:(lia)) as Hd.
    pose proof (Z.mod_pos_bound n m Hm) as Hr.
    pose proof (Z.div_mod (n + m - 1) m ltac:(lia)) as Hd'.
    pose proof (Z.mod_pos_bound (n + m - 1) m Hm) as Hr'.
    split; [apply Z.divide_factor_r |]. split; [lia |].
    split; [apply Z.divide_factor_r |]. split; [lia |].
    split.
    + intros He. apply Z.mod_divide; [lia |].
      assert ((n + m - 1) / m = n / m) by nia. nia.
    + intros Hdiv. apply Z.mod_divide in Hdiv; [| lia].
      assert (Hn' : n = m * (n / m)) by lia.
      assert ((n + m - 1) / m = n / m); [| nia].
      symmetry. apply (Z.div_unique_pos _ _ _ (m - 1)); lia.
  - intros Hn Hnd. unfold ROUND_DOWN.
    pose proof (Z.quot_rem' n m) as Hq.
    pose proof (Z.rem_bound_pos_neg n m Hm ltac:(lia)) as Hr.
    assert (Z.rem n m <> 0).
    { intros H0. apply Hnd. exists (Z.quot n m). lia. }
    assert (Z.quot n m <= 0) by (apply Z.quot_le_upper_bound; lia).
    nia.
Qed.

Lemma rounding_macros_bounds_witness :
  ROUND_DOWN 10 4 <= 10 < ROUND_DOWN 10 4 + 4 /\ -5 < ROUND_DOWN (-5) 4 <= 0.
Proof.
  destruct (rounding_macros_bounds 10 4 ltac:(lia)) as [H _].
  destruct (H ltac:(lia)) as (_ & H1 & _).
  destruct (rounding_macros_bounds (-5) 4 ltac:(lia)) as [_ H2].
  split; [exact H1 | apply H2; [lia |]].
  intros [q Hq]. lia.
Defined.

(** *** The calls of the non-nested loop *)

(** The number of iterations of [for (i = 0; i < end; i += stride)]. *)
Lemma iteration_count (end_ stride : Z) (k : nat) :
  0 < stride ->
  (Z.of_nat k * stride < end_ <-> (k < Z.to_nat (CEIL_DIV end_ stride))%nat).
Proof.
  intros Hs. unfold CEIL_DIV.
  destruct (Z.le_gt_cases end_ 0) as [He | He].
  - assert (Z.quot (end_ + stride - 1) stride <= 0).
    { destruct (Z.le_gt_cases 0 (end_ + stride - 1)).
      - rewrite Z.quot_small; lia.
      - apply Z.quot_le_upper_bound; lia. }
    split; [nia | lia].
  - rewrite Z.quot_div_nonneg by lia.
    pose proof (Z.div_mod (end_ + stride - 1) stride ltac:(lia)) as Hd.
    pose proof (Z.mod_pos_bound (end_ + stride - 1) stride Hs) as Hr.
    assert (0 <= (end_ + stride - 1) / stride) by (apply Z.div_pos; lia).
    split; intros Hk; [| nia].
    assert (Z.of_nat k < (end_ + stride - 1) / stride) by nia. lia.
Qed.

Lemma for_loop_chunks (end_ stride : Z) (tn : Z -> Z) :
  0 < stride ->
  forall d k fuel,
    (Z.to_nat (CEIL_DIV end_ stride) - k = d)%nat -> (d <= fuel)%nat ->
    for_loop fuel (Z.of_nat k * stride) end_ end_ stride tn
    = Some (map (chunk end_ stride tn) (seq k d)).
Proof.
  intros Hs. induction d as [|d IH]; intros k fuel Hd Hf.
  - assert (Hk : ~ Z.of_nat k * stride < end_)
      by (rewrite iteration_count by exact Hs; lia).
    destruct fuel; simpl; destruct (Z.ltb_spec (Z.of_nat k * stride) end_);
      try lia; reflexivity.
  - assert (Hk : Z.of_nat k * stride < end_)
      by (rewrite iteration_count by exact Hs; lia).
    destruct fuel as [|fuel]; [lia |]. cbn [for_loop].
    destruct (Z.ltb_spec (Z.of_nat k * stride) end_); [| lia].
    replace (Z.of_nat k * stride + stride) with (Z.of_nat (S k) * stride) by lia.
    rewrite (IH (S k) fuel) by lia. cbn [seq map]. unfold chunk at 2.
    replace (Z.of_nat (S k) * stride) with (Z.of_nat k * stride + stride) by lia.
    reflexivity.
Qed.

Lemma chunk_hits_cons v vs x :
  chunk_hits (v :: vs) x
  = ((if ((v_start v <=? x) && (x <? v_stop v))%Z then 1 else 0)
     + chunk_hits vs x)%nat.
Proof.
  unfold chunk_hits. simpl. destruct ((v_start v <=? x) && (x <? v_stop v)); reflexivity.
Qed.

Lemma chunk_hits_app vs ws x :
  chunk_hits (vs ++ ws) x = (chunk_hits vs x + chunk_hits ws x)%nat.
Proof. unfold chunk_hits. rewrite filter_app, length_app. reflexivity. Qed.

(** The chunks of a loop that runs from [i] up to [min(end, T)], where
    [T] is [i] plus a whole number of strides: every index of the span
    is in one chunk, and no other index is in any. *)
Lemma for_loop_hits (end_ stride : Z) (tn : Z -> Z) (T : Z) :
  0 < stride ->
  forall fuel i vs,
    (stride | T - i) -> i <= T ->
    for_loop fuel i (Z.min end_ T) end_ stride tn = Some vs ->
    (forall x, chunk_hits vs x
               = if (i <=? x) && (x <? Z.min end_ T) then 1%nat else 0%nat) /\
    (forall v, In v vs ->
               i <= v_start v < Z.min end_ T /\ (stride | T - v_start v) /\
               v_stop v = Z.min (v_start v + stride) end_ /\
               v_thread v = tn (v_start v)).
Proof.
  intros Hs. induction fuel as [|fuel IH]; intros i vs Hdiv HiT; cbn [for_loop];
    destruct (Z.ltb_spec i (Z.min end_ T)) as [Hlt | Hge]; try discriminate.
  - intros [= <-]. split; [| intros v []]. intros x. unfold chunk_hits. simpl.
    destruct (Z.leb_spec i x), (Z.ltb_spec x (Z.min end_ T)); simpl; lia.
  - destruct (for_loop fuel (i + stride) (Z.min end_ T) end_ stride tn) as [ws|] eqn:E;
      [| discriminate].
    intros [= <-].
    assert (Hstep : i + stride <= T).
    { destruct Hdiv as [q Hq]. assert (0 < q) by nia. nia. }
    assert (Hdiv' : (stride | T - (i + stride))).
    { destruct Hdiv as [q Hq]. exists (q - 1). lia. }
    destruct (IH (i + stride) ws Hdiv' Hstep E) as [Hh Hv]. split.
    + intros x. rewrite chunk_hits_cons, Hh. cbn [v_start v_stop].
      destruct (Z.leb_spec i x), (Z.ltb_spec x (Z.min (i + stride) end_)),
        (Z.leb_spec (i + stride) x), (Z.ltb_spec x (Z.min end_ T)); simpl; lia.
    + intros v [<- | Hin]; cbn [v_start v_stop v_thread].
      * split; [lia |]. split; [exact Hdiv |]. split; reflexivity.
      * destruct (Hv v Hin) as (H1 & H2 & H3 & H4). repeat split; auto; lia.
  - intros [= <-]. split; [| intros v []]. intros x. unfold chunk_hits. simpl.
    destruct (Z.leb_spec i x), (Z.ltb_spec x (Z.min end_ T)); simpl; lia.
Qed.

(** X2: for [begin < end] and a positive stride, the serial path and the
    non-nested OpenMP path of [yask_for] call the visitor
    [max(CEIL_DIV(end, stride), 0)] times, call [k] with
    [start = k * stride] and [stop = min(start + stride, end)]; every
    index of [[0, end)] is in the chunk of exactly one call and no other
    index is in any chunk. *)
Theorem yask_for_chunks :
  forall (sched : Z -> Z) (begin end_ stride : Z),
    begin < end_ -> 0 < stride ->
    let calls tn :=
      map (chunk end_ stride tn) (seq 0 (Z.to_nat (CEIL_DIV end_ stride))) in
    yask_for_serial begin end_ stride = Some (calls (fun _ => 0)) /\
    yask_for_omp sched begin end_ stride = Some (calls sched) /\
    forall tn x,
      chunk_hits (calls tn) x
      = if (0 <=? x) && (x <? end_) then 1%nat else 0%nat.
Proof.
  intros sched begin end_ stride Hb Hs calls.
  assert (Hfuel : (Z.to_nat (CEIL_DIV end_ stride) <= loop_fuel 0 end_)%nat).
  { unfold loop_fuel.
    destruct (Nat.le_gt_cases (Z.to_nat (CEIL_DIV end_ stride)) (Z.to_nat (end_ - 0)))
      as [H | H]; [exact H |].
    assert (Hk : (Z.to_nat (end_ - 0) < Z.to_nat (CEIL_DIV end_ stride))%nat) by lia.
    apply iteration_count in Hk; [| exact Hs]. nia. }
  assert (Hloop : forall tn,
             for_loop (loop_fuel 0 end_) 0 end_ end_ stride tn = Some (calls tn)).
  { intros tn.
    exact (for_loop_chunks end_ stride tn Hs _ 0%nat _ (Nat.sub_0_r _) Hfuel). }
  assert (Hne : (end_ <=? begin) = false) by (apply Z.leb_gt; lia).
  unfold yask_for_serial, yask_for_omp. rewrite Hne.
  split; [apply Hloop |]. split; [apply Hloop |].
  intros tn x.
  destruct (Z.le_gt_cases end_ 0) as [He | He].
  - assert (Z.to_nat (CEIL_DIV end_ stride) = 0%nat) as Hn.
    { destruct (Z.to_nat (CEIL_DIV end_ stride)) eqn:En; [reflexivity |].
      assert (Hk : (0 < Z.to_nat (CEIL_DIV end_ stride))%nat) by lia.
      apply iteration_count in Hk; [| exact Hs]. lia. }
    subst calls. cbv beta. rewrite Hn. unfold chunk_hits. simpl.
    destruct (Z.leb_spec 0 x), (Z.ltb_spec x end_); simpl; lia.
  - pose proof (Hloop tn) as Hl.
    assert (Hdiv : (stride | stride * end_ - 0)) by (exists end_; lia).
    assert (Hmin : Z.min end_ (stride * end_) = end_) by nia.
    rewrite <- Hmin in Hl at 2.
    destruct (for_loop_hits end_ stride tn (stride * end_) Hs _ 0 _ Hdiv ltac:(nia) Hl)
      as [Hh _].
    rewrite Hh, Hmin. reflexivity.
Qed.

Lemma yask_for_chunks_witness :
  yask_for_serial 2 10 4
  = Some [mkVisit 0 4 0; mkVisit 4 8 0; mkVisit 8 10 0].
Proof.
  destruct (yask_for_chunks (fun _ => 0) 2 10 4) as [H _]; [lia | lia |].
  exact H.
Defined.

(** *** The calls of the nested loop *)

Lemma for_loop_ends (end_ stride : Z) (tn : Z -> Z) :
  0 < stride ->
  forall fuel i tend, (Z.to_nat (tend - i) <= fuel)%nat ->
  exists vs, for_loop fuel i tend end_ stride tn = Some vs.
Proof.
  intros Hs. induction fuel as [|fuel IH]; intros i tend Hf; simpl;
    destruct (Z.ltb_spec i tend); try lia; eauto.
  destruct (IH (i + stride) tend) as [vs ->]; [lia | eauto].
Qed.

Lemma nested_outer_hits (sched : Z -> Z -> Z) (tnthr npt end_ stride : Z) :
  0 < stride -> 0 < npt ->
  let W := npt * stride in
  forall cnt n,
    0 <= n ->
    exists vs,
      nested_outer cnt n (nested_inner sched tnthr npt end_ stride) = Some vs /\
      (forall x, chunk_hits vs x
                 = if (n * W <=? x) && (x <? Z.min end_ ((n + Z.of_nat cnt) * W))
                   then 1%nat else 0%nat) /\
      (forall v, In v vs ->
                 exists m, n <= m < n + Z.of_nat cnt /\
                           m * W <= v_start v < (m + 1) * W /\
                           v_start v < end_ /\
                           v_stop v = Z.min (v_start v + stride) end_ /\
                           v_thread v = m * tnthr + sched m (v_start v)).
Proof.
  intros Hs Hnpt W. assert (HW : 0 < W) by (unfold W; nia).
  induction cnt as [|cnt IH]; intros n Hn.
  - exists []. split; [reflexivity |]. split; [| intros v []].
    intros x. unfold chunk_hits. cbn [filter length].
    replace ((n + Z.of_nat 0) * W) with (n * W) by (f_equal; lia).
    destruct (Z.leb_spec (n * W) x), (Z.ltb_spec x (Z.min end_ (n * W)));
      simpl; lia.
  - cbn [nested_outer]. unfold nested_inner at 1. cbv zeta. fold W.
    replace (n * npt * stride) with (n * W) by (unfold W; lia).
    set (tn := fun i => n * tnthr + sched n i).
    destruct (for_loop_ends end_ stride tn Hs
                (loop_fuel (n * W) (Z.min end_ (n * W + W)))
                (n * W) (Z.min end_ (n * W + W))) as [vs Hvs];
      [unfold loop_fuel; lia |].
    rewrite Hvs.
    assert (Hdiv : (stride | n * W + W - n * W)) by (exists npt; unfold W; lia).
    destruct (for_loop_hits end_ stride tn (n * W + W) Hs _ _ _ Hdiv ltac:(lia) Hvs)
      as [Hh Hv].
    destruct (IH (n + 1) ltac:(lia)) as (ws & Hws & Hhw & Hvw).
    rewrite Hws. exists (vs ++ ws). split; [reflexivity |]. split.
    + intros x. rewrite chunk_hits_app, Hh, Hhw.
      assert (n * W + W = (n + 1) * W) by lia.
      assert ((n + 1) * W <= (n + 1 + Z.of_nat cnt) * W) by nia.
      replace ((n + Z.of_nat (S cnt)) * W) with ((n + 1 + Z.of_nat cnt) * W)
        by (f_equal; lia).
      destruct (Z.leb_spec (n * W) x), (Z.ltb_spec x (Z.min end_ (n * W + W))),
        (Z.leb_spec ((n + 1) * W) x),
        (Z.ltb_spec x (Z.min end_ ((n + 1 + Z.of_nat cnt) * W))); simpl; lia.
    + intros v Hin. apply in_app_or in Hin as [Hin | Hin].
      * destruct (Hv v Hin) as (H1 & _ & H3 & H4). exists n.
        split; [lia |]. split; [lia |]. split; [lia |]. split; [exact H3 | exact H4].
      * destruct (Hvw v Hin) as (m & H1 & H2). exists m. split; [lia | exact H2].
Qed.

(** X3: on the nested path of [yask_for], for [begin < end], a positive
    stride and [nthr > 0] outer threads, outer thread [n] gets the span
    [[n * W, (n+1) * W)] with [W = CEIL_DIV(niter, nthr) * stride] and
    [niter = CEIL_DIV(end - begin, stride)].  Every index of
    [[0, min(end, nthr * W))] is in the chunk of exactly one call, no
    other index is in any, and that span is the whole of [[0, end)] when
    [begin <= 0].  A call that starts in the span of thread [n] gets the
    thread number [n * tnthr] plus the number of the inner thread, which
    is below [nthr * tnthr] when the inner numbers are below [tnthr]. *)
Theorem yask_for_nested_chunks :
  forall (sched : Z -> Z -> Z) (nthr tnthr begin end_ stride : Z),
    begin < end_ -> 0 < stride -> 0 < nthr ->
    let W := CEIL_DIV (CEIL_DIV (end_ - begin) stride) nthr * stride in
    exists vs,
      yask_for_nested sched nthr tnthr begin end_ stride = Some vs /\
      (forall x, chunk_hits vs x
                 = if (0 <=? x) && (x <? Z.min end_ (nthr * W))
                   then 1%nat else 0%nat) /\
      (begin <= 0 -> end_ <= nthr * W) /\
      (forall v, In v vs ->
         exists n, 0 <= n < nthr /\ n * W <= v_start v < (n + 1) * W /\
                   v_stop v = Z.min (v_start v + stride) end_ /\
                   v_thread v = n * tnthr + sched n (v_start v) /\
                   ((forall m i, 0 <= sched m i < tnthr) ->
                    0 <= v_thread v < nthr * tnthr)).
Proof.
  intros sched nthr tnthr begin end_ stride Hb Hs Hn W.
  set (niter := CEIL_DIV (end_ - begin) stride) in *.
  set (npt := CEIL_DIV niter nthr) in *.
  assert (Hniter : 0 < niter /\ end_ - begin <= niter * stride).
  { unfold niter. rewrite CEIL_DIV_nonneg by lia.
    pose proof (Z.div_mod (end_ - begin + stride - 1) stride ltac:(lia)) as Hd.
    pose proof (Z.mod_pos_bound (end_ - begin + stride - 1) stride Hs) as Hr.
    split; [apply Z.div_str_pos; lia | nia]. }
  assert (Hnpt : 0 < npt /\ niter <= npt * nthr).
  { unfold npt. rewrite CEIL_DIV_nonneg by lia.
    pose proof (Z.div_mod (niter + nthr - 1) nthr ltac:(lia)) as Hd.
    pose proof (Z.mod_pos_bound (niter + nthr - 1) nthr Hn) as Hr.
    split; [apply Z.div_str_pos; lia | nia]. }
  unfold yask_for_nested.
  assert ((end_ <=? begin) = false) as -> by (apply Z.leb_gt; lia).
  cbv zeta. fold niter. fold npt.
  destruct (nested_outer_hits sched tnthr npt end_ stride Hs (proj1 Hnpt)
                              (Z.to_nat nthr) 0 ltac:(lia))
    as (vs & Hvs & Hh & Hv).
  exists vs. split; [exact Hvs |]. fold W in Hh, Hv.
  rewrite Z2Nat.id in Hh, Hv by lia. split; [| split].
  - intros x. rewrite Hh. replace (0 * W) with 0 by lia.
    replace ((0 + nthr) * W) with (nthr * W) by lia. reflexivity.
  - intros Hb0. unfold W. nia.
  - intros v Hin. destruct (Hv v Hin) as (n & H1 & H2 & H3 & H4 & H5).
    exists n. split; [lia |]. split; [exact H2 |]. split; [exact H4 |].
    split; [exact H5 |]. intros Hsched. rewrite H5.
    specialize (Hsched n (v_start v)). nia.
Qed.

Lemma yask_for_nested_chunks_witness :
  exists vs,
    yask_for_nested (fun _ _ => 0) 2 1 0 10 2 = Some vs /\ chunk_hits vs 9 = 1%nat.
Proof.
  destruct (yask_for_nested_chunks (fun _ _ => 0) 2 1 0 10 2)
    as (vs & Hvs & Hh & _); [lia | lia | lia |].
  exists vs. split; [exact Hvs |]. rewrite Hh. reflexivity.
Defined.

(** X4: compiled without OpenMP, a stride that is not positive does not
    end the loop of [yask_for]: for [begin < end] and [0 < end] the loop
    [for (i = 0; i < end; i += stride)] is still running after [n]
    iterations, for every [n] as long as [i] has not left the range of
    [idx_t] ([n * -stride <= 2^63]), which is every [n] when the stride
    is 0; the model of the serial [yask_for] returns no list of calls
    then.  ([end <= 0] is the one case in which such a call returns,
    with no call of the visitor.) *)
Theorem yask_for_serial_nonpositive_stride_keeps_running :
  forall (begin end_ stride : Z),
    begin < end_ -> stride <= 0 ->
    (0 < end_ ->
     (forall n tn, Z.of_nat n * - stride <= 2 ^ 63 ->
                   for_loop n 0 end_ end_ stride tn = None) /\
     (stride = 0 -> forall n tn, for_loop n 0 end_ end_ stride tn = None) /\
     (end_ * - stride <= 2 ^ 63 -> yask_for_serial begin end_ stride = None)) /\
    (end_ <= 0 -> yask_for_serial begin end_ stride = Some []).
Proof.
  intros begin end_ stride Hb Hs.
  assert (Hne : (end_ <=? begin) = false) by (apply Z.leb_gt; lia).
  assert (Hloop : 0 < end_ -> forall fuel tn i,
               i <= 0 -> for_loop fuel i end_ end_ stride tn = None).
  { intros He fuel tn. induction fuel as [|fuel IH]; intros i Hi; simpl;
      destruct (Z.ltb_spec i end_); try lia; [reflexivity |].
    rewrite IH by lia. reflexivity. }
  unfold yask_for_serial. rewrite Hne. split.
  - intros He. split; [intros n tn _; apply Hloop; lia |].
    split; [intros _ n tn; apply Hloop; lia | intros _; apply Hloop; lia].
  - intros He. unfold loop_fuel. replace (Z.to_nat (end_ - 0)) with 0%nat by lia.
    simpl. destruct (Z.ltb_spec 0 end_); [lia |]. reflexivity.
Qed.

Lemma yask_for_serial_nonpositive_stride_keeps_running_witness :
  yask_for_serial 0 4 0 = None /\
  for_loop 1000 0 4 4 (-1) (fun _ => 0) = None.
Proof.
  destruct (yask_for_serial_nonpositive_stride_keeps_running 0 4 0) as [H _];
    [lia | lia |].
  destruct (H ltac:(lia)) as (_ & _ & H1).
  split; [apply H1; lia |].
  destruct (yask_for_serial_nonpositive_stride_keeps_running 0 4 (-1)) as [H' _];
    [lia | lia |].
  destruct (H' ltac:(lia)) as (H2 & _). apply H2. lia.
Defined.

End LoopProofs.

(** ** vector_set: a set that keeps the order of insertion *)
Module VectorSetProofs.
Import Common.
Import VectorSetSpec.

Section VectorSet.
Context {T : Type} (eqb : T -> T -> bool).
Hypothesis eqb_eq : forall x y, eqb x y = true <-> x = y.

Lemma eqb_refl x : eqb x x = true.
Proof. apply eqb_eq. reflexivity. Qed.

Lemma eqb_neq x y : x <> y -> eqb x y = false.
Proof.
  intros H. destruct (eqb x y) eqn:E; [| reflexivity]. apply eqb_eq in E. contradiction.
Qed.

Lemma posn_at_set_same v p m : posn_at eqb v (posn_set eqb v p m) = Some p.
Proof.
  induction m as [|[k q] m IH]; simpl.
  - rewrite eqb_refl. reflexivity.
  - destruct (eqb k v) eqn:E; simpl; rewrite E; auto.
Qed.

Lemma posn_at_set_other v w p m :
  v <> w -> posn_at eqb w (posn_set eqb v p m) = posn_at eqb w m.
Proof.
  intros Hne. induction m as [|[k q] m IH]; simpl.
  - rewrite (eqb_neq v w Hne). reflexivity.
  - destruct (eqb k v) eqn:E; simpl.
    + apply eqb_eq in E. subst k. rewrite (eqb_neq v w Hne). reflexivity.
    + destruct (eqb k w); auto.
Qed.

Lemma erase_loop_id (op : nat) (m : list (T * nat)) : erase_loop op m = m.
Proof.
  unfold erase_loop.
  assert (H : forall (l acc : list (T * nat)),
             fold_left
               (fun (posn : list (T * nat)) (pi : T * nat) =>
                  let p := snd pi in
                  let p := if (op <? p)%nat then (p - 1)%nat else p in
                  posn) l acc = acc)
    by (induction l as [|pi l IH]; intros acc; simpl; auto).
  apply H.
Qed.

Lemma wf_count s v :
  vs_wf eqb s -> (vs_count eqb v s = 1%nat <-> In v (vs_elems s)).
Proof.
  intros Hwf. unfold vs_count. split.
  - destruct (posn_at eqb v (_posn s)) as [i|] eqn:E; [| discriminate].
    intros _. apply Hwf in E. eapply nth_error_In, E.
  - intros Hin. apply In_nth_error in Hin as [i Hi]. apply Hwf in Hi. rewrite Hi.
    reflexivity.
Qed.

Lemma wf_NoDup s : vs_wf eqb s -> NoDup (vs_elems s).
Proof.
  intros Hwf. apply NoDup_nth_error. intros i j Hi Hij.
  destruct (nth_error (vs_elems s) i) as [v|] eqn:E.
  - symmetry in Hij. apply Hwf in E, Hij. congruence.
  - apply nth_error_None in E. lia.
Qed.

Lemma insert_wf s v : vs_wf eqb s -> vs_wf eqb (vs_insert eqb v s).
Proof.
  intros Hwf. unfold vs_insert.
  destruct (vs_count eqb v s =? 0)%nat eqn:Ec; [| exact Hwf].
  apply Nat.eqb_eq in Ec.
  assert (Hnin : ~ In v (vs_elems s)).
  { intros Hin. apply (wf_count s v Hwf) in Hin. lia. }
  intros w i. cbn [vs_elems _posn]. rewrite length_app. cbn [length].
  replace (length (vs_elems s) + 1 - 1)%nat with (length (vs_elems s)) by lia.
  destruct (Nat.lt_ge_cases i (length (vs_elems s))) as [Hi | Hi].
  - rewrite nth_error_app1 by exact Hi. split.
    + intros Hp. destruct (eqb v w) eqn:E.
      * apply eqb_eq in E. subst w. rewrite posn_at_set_same in Hp.
        injection Hp as <-. lia.
      * rewrite posn_at_set_other in Hp; [apply Hwf, Hp |].
        intros ->. rewrite eqb_refl in E. discriminate.
    + intros Hn. assert (v <> w) by (intros ->; eapply Hnin, nth_error_In, Hn).
      rewrite posn_at_set_other by assumption. apply Hwf, Hn.
  - rewrite nth_error_app2 by exact Hi. split.
    + intros Hp. destruct (eqb v w) eqn:E.
      * apply eqb_eq in E. subst w. rewrite posn_at_set_same in Hp.
        injection Hp as <-. rewrite Nat.sub_diag. reflexivity.
      * rewrite posn_at_set_other in Hp
          by (intros ->; rewrite eqb_refl in E; discriminate).
        apply Hwf in Hp. assert (i < length (vs_elems s))%nat; [| lia].
        apply nth_error_Some. congruence.
    + intros Hn. destruct (i - length (vs_elems s))%nat as [|k] eqn:Ek.
      * simpl in Hn. injection Hn as <-. rewrite posn_at_set_same. f_equal. lia.
      * simpl in Hn. destruct k; discriminate.
Qed.

Lemma vs_of_list_snoc l v :
  vs_of_list eqb (l ++ [v]) = vs_insert eqb v (vs_of_list eqb l).
Proof. unfold vs_of_list. rewrite fold_left_app. reflexivity. Qed.

Lemma first_occurrences_snoc l v :
  first_occurrences eqb (l ++ [v])
  = if existsb (eqb v) (first_occurrences eqb l)
    then first_occurrences eqb l else first_occurrences eqb l ++ [v].
Proof. unfold first_occurrences. rewrite fold_left_app. reflexivity. Qed.

Lemma existsb_eqb v l : existsb (eqb v) l = true <-> In v l.
Proof.
  rewrite existsb_exists. split.
  - intros (x & Hx & E). apply eqb_eq in E. subst. exact Hx.
  - intros H. exists v. split; [exact H | apply eqb_refl].
Qed.

Lemma vs_of_list_spec l :
  vs_wf eqb (vs_of_list eqb l) /\
  vs_elems (vs_of_list eqb l) = first_occurrences eqb l /\
  forall v, In v (vs_elems (vs_of_list eqb l)) <-> In v l.
Proof.
  induction l as [|v l IH] using rev_ind.
  - split; [| split; [reflexivity | tauto]].
    intros v i. simpl. split; [discriminate | destruct i; discriminate].
  - destruct IH as (Hwf & Hel & Hin).
    rewrite vs_of_list_snoc, first_occurrences_snoc.
    split; [apply insert_wf, Hwf |].
    unfold vs_insert.
    pose proof (wf_count _ v Hwf) as Hc. rewrite <- Hel.
    destruct (existsb (eqb v) (vs_elems (vs_of_list eqb l))) eqn:Ex.
    + apply existsb_eqb in Ex. pose proof Ex as Ex'. apply Hc in Ex'. rewrite Ex'.
      cbn [Nat.eqb]. split; [reflexivity |]. intros w. rewrite Hin, in_app_iff.
      simpl. split; [tauto |]. intros [H | [<- | []]]; [exact H | apply Hin, Ex].
    + assert (Hn : vs_count eqb v (vs_of_list eqb l) = 0%nat).
      { unfold vs_count in *. destruct (posn_at eqb v (_posn (vs_of_list eqb l)));
          [| reflexivity].
        destruct Hc as [Hc _]. specialize (Hc eq_refl). apply existsb_eqb in Hc.
        congruence. }
      rewrite Hn. cbn [Nat.eqb vs_elems]. split; [reflexivity |].
      intros w. rewrite !in_app_iff, Hin. reflexivity.
Qed.

End VectorSet.

(** X5: a [vector_set] filled by [insert] (or [push_back]) holds the
    inserted values once each, in the order of their first insertion;
    [count(v)] is 1 for the inserted values and 0 for the others, the
    map [_posn] gives for every element its index in the vector, and
    inserting a value again changes nothing. *)
Theorem vector_set_insert_keeps_first_order :
  forall (T : Type) (eqb : T -> T -> bool) (l : list T),
    (forall x y, eqb x y = true <-> x = y) ->
    let s := vs_of_list eqb l in
    vs_elems s = first_occurrences eqb l /\
    NoDup (vs_elems s) /\
    (forall v, In v (vs_elems s) <-> In v l) /\
    (forall v, vs_count eqb v s = 1%nat <-> In v l) /\
    (forall v, vs_count eqb v s = 0%nat <-> ~ In v l) /\
    (forall v i, posn_at eqb v (_posn s) = Some i <-> nth_error (vs_elems s) i = Some v) /\
    (forall v, In v l -> vs_insert eqb v s = s) /\
    (forall v, ~ In v l -> vs_elems (vs_insert eqb v s) = vs_elems s ++ [v]).
Proof.
  intros T eqb l Heq s.
  destruct (vs_of_list_spec eqb Heq l) as (Hwf & Hel & Hin). fold s in Hwf, Hel, Hin.
  pose proof (wf_count eqb s) as Hc.
  assert (Hc0 : forall v, vs_count eqb v s = 0%nat <-> ~ In v l).
  { intros v. rewrite <- Hin, <- (Hc v Hwf). unfold vs_count.
    destruct (posn_at eqb v (_posn s)); split; intros; try lia; try discriminate. }
  split; [exact Hel |]. split; [apply (wf_NoDup eqb), Hwf |].
  split; [exact Hin |]. split; [intros v; rewrite (Hc v Hwf); apply Hin |].
  split; [exact Hc0 |]. split; [exact Hwf |]. split.
  - intros v Hv. apply Hin, (Hc v Hwf) in Hv. unfold vs_insert. rewrite Hv.
    reflexivity.
  - intros v Hv. apply Hc0 in Hv. unfold vs_insert. rewrite Hv. reflexivity.
Qed.

Lemma vector_set_insert_keeps_first_order_witness :
  vs_elems (vs_of_list Z.eqb [3; 1; 3; 2; 1]) = [3; 1; 2].
Proof.
  destruct (vector_set_insert_keeps_first_order Z Z.eqb [3; 1; 3; 2; 1] Z.eqb_eq)
    as [H _].
  rewrite H. reflexivity.
Defined.

Lemma erase_at_spec {T : Type} (v : list T) :
  forall op, erase_at op v = firstn op v ++ skipn (S op) v.
Proof.
  induction v as [|x v IH]; intros [|op]; simpl; auto.
  f_equal. apply IH.
Qed.

Lemma nth_error_erase_at {T : Type} (v : list T) :
  forall op i,
    nth_error (erase_at op v) i
    = if (i <? op)%nat then nth_error v i else nth_error v (S i).
Proof.
  induction v as [|x v IH]; intros op i.
  - destruct op, i; cbn [erase_at nth_error]; destruct (_ <? _)%nat; reflexivity.
  - destruct op as [|op], i as [|i]; cbn [erase_at nth_error]; try reflexivity.
    rewrite IH. change (S i <? S op)%nat with (i <? op)%nat. reflexivity.
Qed.

(** X6: [erase(val)] on a [vector_set] filled by [insert] takes [val]
    out of the vector and leaves the map [_posn] as it was (the loop
    that should lower the positions works on copies of the entries, and
    the entry of [val] is not removed).  So [count(val)] is still 1, a
    later [insert(val)] does not put [val] back, the elements behind
    [val] are one place below their recorded positions, and [erase] of
    the last element then reaches past the end of the vector. *)
Theorem vector_set_erase_keeps_positions :
  forall (T : Type) (eqb : T -> T -> bool) (l : list T) (val : T),
    (forall x y, eqb x y = true <-> x = y) ->
    In val l ->
    let s := vs_of_list eqb l in
    exists s' op,
      vs_erase eqb val s = Some s' /\
      nth_error (vs_elems s) op = Some val /\
      vs_elems s' = firstn op (vs_elems s) ++ skipn (S op) (vs_elems s) /\
      ~ In val (vs_elems s') /\
      _posn s' = _posn s /\
      vs_count eqb val s' = 1%nat /\
      vs_insert eqb val s' = s' /\
      (forall w i, nth_error (vs_elems s) i = Some w -> (op < i)%nat ->
                   nth_error (vs_elems s') (i - 1) = Some w /\
                   posn_at eqb w (_posn s') = Some i) /\
      (forall w, nth_error (vs_elems s) (length (vs_elems s) - 1) = Some w ->
                 w <> val -> vs_erase eqb w s' = None).
Proof.
  intros T eqb l val Heq Hval s.
  destruct (vs_of_list_spec eqb Heq l) as (Hwf & _ & Hin). fold s in Hwf, Hin.
  pose proof (wf_NoDup eqb s Hwf) as Hnd.
  assert (Hc : vs_count eqb val s = 1%nat) by (apply (wf_count eqb), Hin; auto).
  unfold vs_erase. rewrite Hc. change (0 <? 1)%nat with true. cbv iota.
  unfold vs_count in Hc.
  destruct (posn_at eqb val (_posn s)) as [op|] eqn:Eop; [| discriminate].
  pose proof Eop as Hop. apply Hwf in Hop.
  assert (Hlt : (op < length (vs_elems s))%nat) by (apply nth_error_Some; congruence).
  apply Nat.ltb_lt in Hlt as Hltb. rewrite Hltb. rewrite erase_loop_id.
  eexists. exists op. split; [reflexivity |]. cbn [vs_elems _posn].
  split; [exact Hop |]. split; [apply erase_at_spec |].
  assert (Hnin : ~ In val (erase_at op (vs_elems s))).
  { intros H. apply In_nth_error in H as [i Hi]. rewrite nth_error_erase_at in Hi.
    rewrite NoDup_nth_error in Hnd.
    destruct (Nat.ltb_spec i op).
    - assert (i = op); [| lia].
      apply Hnd; [apply nth_error_Some; congruence | congruence].
    - assert (S i = op); [| lia].
      apply Hnd; [apply nth_error_Some; congruence | congruence]. }
  split; [exact Hnin |]. split; [reflexivity |].
  assert (Hc' : vs_count eqb val (mkVectorSet (erase_at op (vs_elems s)) (_posn s)) = 1%nat)
    by (unfold vs_count; cbn [_posn]; rewrite Eop; reflexivity).
  split; [exact Hc' |]. split; [unfold vs_insert; rewrite Hc'; reflexivity |]. split.
  - intros w i Hi Hoi. split; [| apply Hwf, Hi].
    rewrite nth_error_erase_at.
    destruct (Nat.ltb_spec (i - 1) op); [lia |].
    replace (S (i - 1)) with i by lia. exact Hi.
  - intros w Hw Hne. unfold vs_count. cbn [_posn vs_elems].
    pose proof Hw as Hp. apply Hwf in Hp. rewrite Hp.
    change (0 <? 1)%nat with true. cbv iota.
    assert (Hlen : length (erase_at op (vs_elems s)) = (length (vs_elems s) - 1)%nat).
    { rewrite erase_at_spec, length_app, length_firstn, length_skipn. lia. }
    rewrite Hlen. rewrite Nat.ltb_irrefl. reflexivity.
Qed.

Lemma vector_set_erase_keeps_positions_witness :
  exists s',
    vs_erase Z.eqb 1 (vs_of_list Z.eqb [1; 2]) = Some s' /\
    vs_elems s' = [2] /\ vs_count Z.eqb 1 s' = 1%nat /\ vs_erase Z.eqb 2 s' = None.
Proof.
  destruct (vector_set_erase_keeps_positions Z Z.eqb [1; 2] 1 Z.eqb_eq)
    as (s' & op & He & Hop & Hel & _ & _ & Hc & _ & _ & Hlast);
    [simpl; auto |].
  exists s'. split; [exact He |].
  assert (op = 0%nat) as ->.
  { destruct op as [|[|op]]; [reflexivity | discriminate Hop |].
    vm_compute in Hop. destruct op; discriminate. }
  split; [rewrite Hel; reflexivity |]. split; [exact Hc |].
  apply Hlast; [reflexivity | lia].
Defined.

End VectorSetProofs.

(** ** update_grid_info and update_tb_info *)
Module AnglesProofs.
Import Common Data Angles.
Import AnglesSpec.

(** *** update_grid_info *)

Lemma at_dim_map_seq0 (f : nat -> Z) (n d : nat) :
  (d < n)%nat -> at_dim (map f (seq 0 n)) d = f d.
Proof.
  intros Hd. unfold at_dim.
  rewrite (nth_indep _ 0 (f 0%nat)) by (rewrite length_map, length_seq; exact Hd).
  rewrite (map_nth f (seq 0 n) 0%nat d), seq_nth by exact Hd. reflexivity.
Qed.

Lemma at_dim_map_field {A : Type} (g : A -> Z) (l : list A) (a : A) (d : nat) :
  (d < length l)%nat -> at_dim (map g l) d = g (nth d l a).
Proof.
  intros Hd. unfold at_dim.
  rewrite (nth_indep _ 0 (g a)) by (rewrite length_map; exact Hd).
  apply map_nth.
Qed.

Lemma max_halo_dim_nonneg (grids : list Grid) (j : nat) : 0 <= max_halo_dim grids j.
Proof.
  unfold max_halo_dim.
  assert (H : forall l m, 0 <= m ->
             0 <= fold_left
                    (fun m gp =>
                       if is_dim_used gp j then
                         if negb (is_user_grid gp)
                         then Z.max (Z.max m (get_left_halo_size gp j))
                                    (get_right_halo_size gp j)
                         else m
                       else m) l m).
  { induction l as [|gp l IH]; intros m Hm; simpl; [exact Hm |].
    apply IH. destruct (is_dim_used gp j), (negb (is_user_grid gp)); lia. }
  apply H. lia.
Qed.

Lemma rounding_up (n m : Z) :
  0 <= n -> 0 < m -> (m | ROUND_UP n m) /\ n <= ROUND_UP n m.
Proof.
  intros Hn Hm. unfold ROUND_UP, CEIL_DIV. rewrite Z.quot_div_nonneg by lia.
  pose proof (Z.div_mod (n + m - 1) m ltac:(lia)) as Hd.
  pose proof (Z.mod_pos_bound (n + m - 1) m Hm) as Hr.
  split; [apply Z.divide_factor_r | nia].
Qed.

(** Either every dimension of the loop passes, or the first one that
    does not throws. *)
Lemma angle_loop_cases o fold_pts mh nshifts :
  forall cnt j,
    match angle_loop o fold_pts mh nshifts j cnt with
    | inr ds =>
        length ds = cnt /\
        forall k, (k < cnt)%nat ->
                  angle_dim o fold_pts mh nshifts (j + k)
                  = inr (nth k ds (mkDimAngles 0 0 0 0))
    | inl e =>
        exists k, (k < cnt)%nat /\
                  angle_dim o fold_pts mh nshifts (j + k) = inl e /\
                  forall k', (k' < k)%nat ->
                             exists d, angle_dim o fold_pts mh nshifts (j + k') = inr d
    end.
Proof.
  induction cnt as [|cnt IH]; intros j; cbn [angle_loop].
  - split; [reflexivity | intros k Hk; lia].
  - destruct (angle_dim o fold_pts mh nshifts j) as [e|d] eqn:Ed.
    + exists 0%nat. rewrite Nat.add_0_r. split; [lia |]. split; [exact Ed |].
      intros k' Hk'. lia.
    + specialize (IH (S j)).
      destruct (angle_loop o fold_pts mh nshifts (S j) cnt) as [e|ds].
      * destruct IH as (k & Hk & He & Hbefore). exists (S k). split; [lia |].
        replace (j + S k)%nat with (S j + k)%nat by lia. split; [exact He |].
        intros [|k'] Hk'; [rewrite Nat.add_0_r; eauto |].
        replace (j + S k')%nat with (S j + k')%nat by lia. apply Hbefore. lia.
      * destruct IH as [Hlen Hk]. split; [simpl; lia |].
        intros [|k] Hlt; cbn [nth]; [rewrite Nat.add_0_r; exact Ed |].
        replace (j + S k)%nat with (S j + k)%nat by lia. apply Hk. lia.
Qed.

Lemma wf_shifts_of_spec (o : KernelSettings) (npacks : Z) :
  0 < npacks ->
  (if 0 <? Z.max (_region_steps o) (_block_steps o)
   then if 0 <? npacks * Z.max (_region_steps o) (_block_steps o)
        then npacks * Z.max (_region_steps o) (_block_steps o) - 1
        else npacks * Z.max (_region_steps o) (_block_steps o)
   else 0) = wf_shifts_of o npacks.
Proof.
  intros Hn. unfold wf_shifts_of. set (wf := Z.max _ _).
  destruct (Z.ltb_spec 0 wf).
  - destruct (Z.ltb_spec 0 (npacks * wf)); nia.
  - nia.
Qed.

(** X7: when [update_grid_info] succeeds (with at least one pack), the
    number of wave-front shifts is [max(npacks * wf_steps - 1, 0)] with
    [wf_steps = max(region steps, block steps)]; in every dimension the
    shift is the angle times that number, the extension on a side is
    the shift unless the rank is the first (left) or last (right) one,
    the angle is a multiple of the fold length that is 0 or at least
    the largest halo, and a rank with neighbours in the dimension is at
    least as large as the largest halo plus the shift. *)
Theorem update_grid_info_shifts :
  forall o nddims fold_pts grids npacks wf,
    0 < npacks ->
    update_grid_info o nddims fold_pts grids npacks = inr wf ->
    wf_steps wf = Z.max (_region_steps o) (_block_steps o) /\
    num_wf_shifts wf = Z.max (npacks * wf_steps wf - 1) 0 /\
    forall d, (d < nddims)%nat ->
      at_dim (max_halos wf) d = max_halo_dim grids d /\
      0 <= at_dim (max_halos wf) d /\
      at_dim (wf_shift_pts wf) d = at_dim (wf_angles wf) d * num_wf_shifts wf /\
      at_dim (left_wf_exts wf) d
      = (if is_first_rank o d then 0 else at_dim (wf_shift_pts wf) d) /\
      at_dim (right_wf_exts wf) d
      = (if is_last_rank o d then 0 else at_dim (wf_shift_pts wf) d) /\
      (1 < at_dim (_num_ranks o) d ->
       at_dim (max_halos wf) d + at_dim (wf_shift_pts wf) d
       <= at_dim (_rank_sizes o) d) /\
      (0 < at_dim fold_pts d ->
       (at_dim fold_pts d | at_dim (wf_angles wf) d) /\
       (at_dim (wf_angles wf) d = 0 \/
        at_dim (max_halos wf) d <= at_dim (wf_angles wf) d)).
Proof.
  intros o nddims fold_pts grids npacks wf Hnp. unfold update_grid_info.
  cbv zeta. rewrite (wf_shifts_of_spec o npacks Hnp).
  set (mh := map (max_halo_dim grids) (seq 0 nddims)).
  set (ns := wf_shifts_of o npacks).
  pose proof (angle_loop_cases o fold_pts mh ns nddims 0) as Hc.
  destruct (angle_loop o fold_pts mh ns 0 nddims) as [e|ds]; [discriminate |].
  destruct Hc as [Hlen Hk]. intros [= <-]. cbn [wf_steps num_wf_shifts].
  split; [reflexivity |]. split; [reflexivity |].
  intros d Hd. cbn [max_halos wf_shift_pts wf_angles left_wf_exts right_wf_exts].
  specialize (Hk d Hd). cbn [Nat.add] in Hk.
  rewrite !(at_dim_map_field _ ds (mkDimAngles 0 0 0 0)) by lia.
  assert (Hmh : at_dim mh d = max_halo_dim grids d)
    by (apply at_dim_map_seq0, Hd).
  pose proof (max_halo_dim_nonneg grids d) as Hnn.
  unfold angle_dim in Hk. rewrite Hmh in *.
  destruct ((1 <? at_dim (_num_ranks o) d) && _) eqn:Esmall in Hk; [discriminate |].
  injection Hk as Hk. rewrite <- Hk. cbn [da_wf_angle da_shifts da_left_ext da_right_ext].
  split; [reflexivity |]. split; [exact Hnn |]. split; [reflexivity |].
  split; [reflexivity |]. split; [reflexivity |]. split.
  - intros Hr. apply andb_false_iff in Esmall as [E | E].
    + apply Z.ltb_ge in E. lia.
    + apply Z.ltb_ge in E. lia.
  - intros Hf.
    destruct ((at_dim (_region_sizes o) d <? at_dim (_rank_sizes o) d)
              || (1 <? at_dim (_num_ranks o) d)).
    + destruct (rounding_up (max_halo_dim grids d) (at_dim fold_pts d) Hnn Hf)
        as [Hdiv Hge].
      split; [exact Hdiv | right; lia].
    + split; [apply Z.divide_0_r | left; reflexivity].
Qed.

Lemma update_grid_info_shifts_witness :
  let wf := mkWf [3] 2 1 [4] [4] [0] [4] in
  update_grid_info (mkSettings [64] [32] [16] [8] [8] 2 0 [2] [0]) 1 [4]
                   [mkGrid (fun _ => true) false (fun _ => 3) (fun _ => 2)] 1
  = inr wf /\
  at_dim (max_halos wf) 0 + at_dim (wf_shift_pts wf) 0 <= 32.
Proof.
  intros wf.
  assert (H : update_grid_info (mkSettings [64] [32] [16] [8] [8] 2 0 [2] [0]) 1 [4]
                [mkGrid (fun _ => true) false (fun _ => 3) (fun _ => 2)] 1
              = inr wf) by reflexivity.
  assert (Hnp : 0 < 1) by lia.
  destruct (update_grid_info_shifts _ _ _ _ _ _ Hnp H) as (_ & _ & Hd).
  destruct (Hd 0%nat ltac:(lia)) as (_ & _ & _ & _ & _ & Hsz & _).
  split; [exact H | apply Hsz; reflexivity].
Defined.

Lemma angle_dim_cases o fold_pts grids npacks nddims j :
  0 < npacks -> (j < nddims)%nat ->
  let mh := map (max_halo_dim grids) (seq 0 nddims) in
  (too_small o fold_pts grids npacks j = true ->
   angle_dim o fold_pts mh (wf_shifts_of o npacks) j
   = inl (DomainTooSmall j (at_dim (_rank_sizes o) j)
                         (min_rank_size o fold_pts grids npacks j))) /\
  (too_small o fold_pts grids npacks j = false ->
   exists d, angle_dim o fold_pts mh (wf_shifts_of o npacks) j = inr d).
Proof.
  intros Hnp Hj mh.
  assert (Hmh : at_dim mh j = max_halo_dim grids j) by (apply at_dim_map_seq0, Hj).
  unfold too_small, min_rank_size, angle_dim. rewrite Hmh.
  destruct (Z.ltb_spec 1 (at_dim (_num_ranks o) j)) as [Hr | Hr].
  - rewrite orb_true_r. cbn [andb]. split; intros E; rewrite E; eauto.
  - cbn [andb]. split; [discriminate | eauto].
Qed.

(** X8: [update_grid_info] (with at least one pack) throws exactly when
    some dimension has more than one rank and a rank size below the
    largest halo plus [ROUND_UP(halo, fold)] times the number of
    wave-front shifts; the exception is the one of the first such
    dimension and reports the rank size and the size needed. *)
Theorem update_grid_info_domain_too_small :
  forall o nddims fold_pts grids npacks e,
    0 < npacks ->
    (update_grid_info o nddims fold_pts grids npacks = inl e <->
     exists j, (j < nddims)%nat /\
               too_small o fold_pts grids npacks j = true /\
               (forall k, (k < j)%nat -> too_small o fold_pts grids npacks k = false) /\
               e = DomainTooSmall j (at_dim (_rank_sizes o) j)
                                  (min_rank_size o fold_pts grids npacks j)).
Proof.
  intros o nddims fold_pts grids npacks e Hnp. unfold update_grid_info.
  cbv zeta. rewrite (wf_shifts_of_spec o npacks Hnp).
  set (mh := map (max_halo_dim grids) (seq 0 nddims)).
  set (ns := wf_shifts_of o npacks).
  pose proof (angle_loop_cases o fold_pts mh ns nddims 0) as Hc.
  pose proof (fun j Hj => angle_dim_cases o fold_pts grids npacks nddims j Hnp Hj)
    as Hdim. cbv zeta in Hdim. fold mh ns in Hdim.
  destruct (angle_loop o fold_pts mh ns 0 nddims) as [e'|ds].
  - destruct Hc as (k & Hk & He & Hbefore). cbn [Nat.add] in He, Hbefore.
    assert (Hsmall : too_small o fold_pts grids npacks k = true).
    { destruct (too_small o fold_pts grids npacks k) eqn:E; [reflexivity |].
      destruct (proj2 (Hdim k Hk) E) as [d Hd]. congruence. }
    assert (Hfirst : forall k', (k' < k)%nat ->
                                too_small o fold_pts grids npacks k' = false).
    { intros k' Hk'. destruct (too_small o fold_pts grids npacks k') eqn:E;
        [| reflexivity].
      destruct (Hbefore k' Hk') as [d Hd].
      rewrite (proj1 (Hdim k' ltac:(lia)) E) in Hd. discriminate. }
    rewrite (proj1 (Hdim k Hk) Hsmall) in He. injection He as He. split.
    + intros [= <-]. exists k. auto.
    + intros (j & Hj & Hs & Hf & ->). f_equal.
      destruct (Nat.lt_trichotomy j k) as [Hlt | [-> | Hgt]].
      * rewrite (Hfirst j Hlt) in Hs. discriminate.
      * symmetry. exact He.
      * rewrite (Hf k Hgt) in Hsmall. discriminate.
  - destruct Hc as [_ Hk]. split; [discriminate |].
    intros (j & Hj & Hs & _). specialize (Hk j Hj). cbn [Nat.add] in Hk.
    rewrite (proj1 (Hdim j Hj) Hs) in Hk. discriminate.
Qed.

Lemma update_grid_info_domain_too_small_witness :
  update_grid_info (mkSettings [64] [4] [16] [8] [8] 2 0 [2] [0]) 1 [4]
                   [mkGrid (fun _ => true) false (fun _ => 3) (fun _ => 2)] 1
  = inl (DomainTooSmall 0 4 7).
Proof.
  apply update_grid_info_domain_too_small; [lia |].
  exists 0%nat. split; [lia |]. split; [reflexivity |].
  split; [intros k Hk; lia | reflexivity].
Defined.

(** *** update_tb_info *)

Lemma fold_tb_max_steps o fold_pts mh npacks :
  forall dims m,
    let r := fold_left (tb_max_steps_dim o fold_pts mh npacks) dims m in
    r <= m /\
    (forall j, In j dims -> (0 <? tb_angle_dim o fold_pts mh j) = true ->
               r <= tb_steps_limit o fold_pts mh npacks j) /\
    (r = m \/
     exists j, In j dims /\ (0 <? tb_angle_dim o fold_pts mh j) = true /\
               r = tb_steps_limit o fold_pts mh npacks j).
Proof.
  induction dims as [|j dims IH]; intros m; cbn [fold_left].
  - split; [lia |]. split; [intros j [] | left; reflexivity].
  - specialize (IH (tb_max_steps_dim o fold_pts mh npacks m j)).
    cbv zeta in IH |- *. destruct IH as (H1 & H2 & H3).
    assert (Hstep :
              tb_max_steps_dim o fold_pts mh npacks m j
              = if 0 <? tb_angle_dim o fold_pts mh j
                then Z.min m (tb_steps_limit o fold_pts mh npacks j) else m)
      by reflexivity.
    assert (Hle : tb_max_steps_dim o fold_pts mh npacks m j <= m)
      by (rewrite Hstep; destruct (0 <? tb_angle_dim o fold_pts mh j); lia).
    split; [lia |]. split.
    + intros k [<- | Hk] Ha; [| apply H2; assumption].
      assert (tb_max_steps_dim o fold_pts mh npacks m j
              <= tb_steps_limit o fold_pts mh npacks j)
        by (rewrite Hstep, Ha; lia).
      lia.
    + destruct H3 as [H3 | (k & Hk & Ha & H3)].
      * destruct (0 <? tb_angle_dim o fold_pts mh j) eqn:Ea.
        -- destruct (Z.min_spec m (tb_steps_limit o fold_pts mh npacks j))
             as [[_ E] | [_ E]]; rewrite E in Hstep.
           ++ left. congruence.
           ++ right. exists j. split; [left; reflexivity |].
              split; [exact Ea | congruence].
        -- left. congruence.
      * right. exists k. split; [right; exact Hk | split; assumption].
Qed.

(** X9: with temporal blocking asked for ([block steps > 0]) and at
    least one pack, [update_tb_info] sets [tb_steps] to the smallest of
    the block steps, the wave-front steps and, over the dimensions with
    a TB angle, [(block size - fold + 2 * angle) / (2 * angle * npacks)];
    the number of shifts is [max(npacks * tb_steps - 1, 0)]; and in
    every dimension with an angle and a shift the block is large enough
    for a trapezoid whose top is one vector:
    [fold + 2 * shifts * angle <= block size]. *)
Theorem update_tb_info_steps_limit :
  forall o nddims fold_pts mh wf_steps npacks,
    0 < _block_steps o -> 0 < npacks ->
    let tb := update_tb_info o nddims fold_pts mh wf_steps npacks in
    tb_steps tb <= _block_steps o /\
    tb_steps tb <= wf_steps /\
    (tb_steps tb = _block_steps o \/ tb_steps tb = wf_steps \/
     exists j, (j < nddims)%nat /\ 0 < at_dim (tb_angles tb) j /\
               tb_steps tb = tb_steps_limit o fold_pts mh npacks j) /\
    num_tb_shifts tb = Z.max (npacks * tb_steps tb - 1) 0 /\
    forall j, (j < nddims)%nat ->
      at_dim (tb_angles tb) j = tb_angle_dim o fold_pts mh j /\
      (0 < at_dim (tb_angles tb) j ->
       tb_steps tb <= tb_steps_limit o fold_pts mh npacks j) /\
      (0 < at_dim (tb_angles tb) j -> 0 < num_tb_shifts tb ->
       at_dim fold_pts j + 2 * num_tb_shifts tb * at_dim (tb_angles tb) j
       <= at_dim (_block_sizes o) j).
Proof.
  intros o nddims fold_pts mh wf_steps npacks Hb Hnp tb.
  subst tb. unfold update_tb_info. cbv zeta.
  assert ((0 <? _block_steps o) = true) as -> by (apply Z.ltb_lt; exact Hb).
  set (m0 := Z.min (_block_steps o) wf_steps).
  pose proof (fold_tb_max_steps o fold_pts mh npacks (seq 0 nddims) m0) as Hf.
  cbv zeta in Hf.
  set (ms := fold_left (tb_max_steps_dim o fold_pts mh npacks) (seq 0 nddims) m0) in *.
  destruct Hf as (H1 & H2 & H3).
  cbn [tb_steps num_tb_shifts tb_angles].
  set (tb := Z.min (_block_steps o) ms).
  assert (Hangle : forall j, (j < nddims)%nat ->
             at_dim (map (tb_angle_dim o fold_pts mh) (seq 0 nddims)) j
             = tb_angle_dim o fold_pts mh j)
    by (intros j Hj; apply at_dim_map_seq0, Hj).
  assert (Hshifts : (if 0 <? tb
                     then if 0 <? npacks * tb then npacks * tb - 1 else npacks * tb
                     else 0) = Z.max (npacks * tb - 1) 0).
  { destruct (Z.ltb_spec 0 tb); [destruct (Z.ltb_spec 0 (npacks * tb)) |]; nia. }
  rewrite Hshifts.
  split; [unfold tb; lia |]. split; [unfold tb, m0 in *; lia |]. split; [| split].
  - destruct H3 as [H3 | (j & Hj & Ha & H3)].
    + unfold tb, m0 in *. lia.
    + destruct (Z.min_spec (_block_steps o) ms) as [[_ E] | [_ E]]; fold tb in E.
      * left. exact E.
      * right. right. exists j. apply in_seq in Hj.
        split; [lia |]. rewrite Hangle by lia.
        split; [apply Z.ltb_lt, Ha | congruence].
  - reflexivity.
  - intros j Hj. rewrite Hangle by exact Hj.
    split; [reflexivity |].
    assert (Hlim : 0 < tb_angle_dim o fold_pts mh j ->
                   tb <= tb_steps_limit o fold_pts mh npacks j).
    { intros Ha. apply Z.ltb_lt in Ha.
      specialize (H2 j ltac:(apply in_seq; lia) Ha). unfold tb. lia. }
    split; [exact Hlim |].
    intros Ha Hs. specialize (Hlim Ha). unfold tb_steps_limit in Hlim.
    set (a := tb_angle_dim o fold_pts mh j) in *.
    set (num := at_dim (_block_sizes o) j - at_dim fold_pts j + a * 2) in *.
    assert (Htb : 1 <= tb) by nia.
    assert (Hden : 0 < a * 2 * npacks) by nia.
    assert (Hnum : 0 <= num).
    { destruct (Z.lt_ge_cases num 0) as [Hneg | Hpos]; [| exact Hpos].
      assert (Z.quot num (a * 2 * npacks) <= 0)
        by (apply Z.quot_le_upper_bound; lia).
      lia. }
    rewrite Z.quot_div_nonneg in Hlim by lia.
    assert (tb * (a * 2 * npacks) <= num).
    { pose proof (Z.div_mod num (a * 2 * npacks) ltac:(lia)) as Hd.
      pose proof (Z.mod_pos_bound num (a * 2 * npacks) Hden) as Hr. nia. }
    unfold num in *. nia.
Qed.

Lemma update_tb_info_steps_limit_witness :
  let tb := update_tb_info (mkSettings [64] [64] [64] [16] [16] 4 4 [1] [0])
                           1 [4] [4] 4 1 in
  tb_steps tb = 2 /\ num_tb_shifts tb = 1.
Proof.
  destruct (update_tb_info_steps_limit
              (mkSettings [64] [64] [64] [16] [16] 4 4 [1] [0]) 1 [4] [4] 4 1)
    as (_ & _ & _ & Hs & _); [reflexivity | reflexivity |].
  intros tb. split; [reflexivity | exact Hs].
Defined.

End AnglesProofs.

(** ** setupRank: coordinates, sums and offsets *)
Module RankSumsProofs.
Import Common Data Tuple Shift SetupRank.
Import TupleSpec TupleFacts.
Import RankTableSpec RankTableFacts.
Import RankSumsSpec.

(** *** Distances *)

Lemma at_my_coords_iff t nddims me rn :
  at_my_coords t nddims me rn = true <->
  forall d, (d < nddims)%nat -> tab (coords t) rn d = tab (coords t) me d.
Proof.
  unfold at_my_coords. rewrite forallb_forall. split.
  - intros H d Hd. apply Z.eqb_eq, H, in_seq. lia.
  - intros H d Hd. apply in_seq in Hd. apply Z.eqb_eq, H. lia.
Qed.

Lemma mandist_at_my_coords num_ranks t nddims nr me rn :
  tables_checked num_ranks t nddims nr -> (me < nr)%nat -> (rn < nr)%nat ->
  (mandist t nddims me rn = 0 <-> at_my_coords t nddims me rn = true).
Proof.
  intros Hck Hme Hrn. rewrite at_my_coords_iff.
  exact (mandist_zero_iff _ _ _ _ _ _ Hck Hme Hrn).
Qed.

Lemma at_my_coords_self t nddims me : at_my_coords t nddims me me = true.
Proof. unfold at_my_coords. apply forallb_forall. intros d _. apply Z.eqb_refl. Qed.

(** *** The loops of a pass that does not throw *)

Lemma check_aligned_ok t me rn di djs :
  (forall dj, In dj djs -> di <> dj -> tab (rsizes t) rn dj = tab (rsizes t) me dj) ->
  check_aligned t me rn di djs = inr tt.
Proof.
  induction djs as [|dj djs IH]; intros H; cbn [check_aligned]; [reflexivity |].
  destruct (Nat.eqb_spec di dj) as [-> | Hne]; cbn [negb andb].
  - apply IH. intros; apply H; [right |]; assumption.
  - rewrite (H dj (or_introl eq_refl) Hne), Z.eqb_refl. cbn [negb].
    apply IH. intros; apply H; [right |]; assumption.
Qed.

Lemma dim_body_ok (pass : Z) t nddims me rn st di :
  (pass = 1 -> is_inline t nddims me rn di = true ->
   forall dj, (dj < nddims)%nat -> di <> dj ->
              tab (rsizes t) rn dj = tab (rsizes t) me dj) ->
  dim_body pass t nddims me rn st di
  = inr (mkSums
           (if is_inline t nddims me rn di
            then set_dim (rank_domain_sums st) di
                         (at_dim (rank_domain_sums st) di + tab (rsizes t) rn di)
            else rank_domain_sums st)
           (if is_inline t nddims me rn di && (pass =? 1)
               && (rdelta t me rn di <? 0)
            then set_dim (rank_domain_offsets st) di
                         (at_dim (rank_domain_offsets st) di + tab (rsizes t) rn di)
            else rank_domain_offsets st)).
Proof.
  intros Hal. unfold dim_body. cbv zeta.
  destruct (is_inline t nddims me rn di) eqn:Eil; [| destruct st; reflexivity].
  destruct (Z.eqb_spec pass 1) as [Hp | Hp]; cbn [andb]; [| reflexivity].
  rewrite check_aligned_ok; [reflexivity |].
  intros dj Hdj Hne. apply in_seq in Hdj. apply (Hal Hp eq_refl); [lia | exact Hne].
Qed.

(** What rank [rn] adds in dimension [d]. *)
Lemma dim_loop_adds (pass : Z) t nddims me rn :
  (pass = 1 ->
   forall di dj, (di < nddims)%nat -> (dj < nddims)%nat -> di <> dj ->
                 is_inline t nddims me rn di = true ->
                 tab (rsizes t) rn dj = tab (rsizes t) me dj) ->
  forall dis st,
    NoDup dis -> (forall d, In d dis -> (d < nddims)%nat) ->
    length (rank_domain_sums st) = nddims ->
    length (rank_domain_offsets st) = nddims ->
    exists st',
      dim_loop pass t nddims me rn st dis = inr st' /\
      length (rank_domain_sums st') = nddims /\
      length (rank_domain_offsets st') = nddims /\
      forall d, (d < nddims)%nat ->
        at_dim (rank_domain_sums st') d
        = at_dim (rank_domain_sums st) d
          + (if existsb (Nat.eqb d) dis && is_inline t nddims me rn d
             then tab (rsizes t) rn d else 0) /\
        at_dim (rank_domain_offsets st') d
        = at_dim (rank_domain_offsets st) d
          + (if existsb (Nat.eqb d) dis && is_inline t nddims me rn d
                && (pass =? 1) && (rdelta t me rn d <? 0)
             then tab (rsizes t) rn d else 0).
Proof.
  intros Hal. induction dis as [|di dis IH]; intros st Hnd Hlt Hls Hlo.
  - exists st. split; [reflexivity |]. split; [exact Hls |]. split; [exact Hlo |].
    intros d Hd. cbn [existsb andb]. lia.
  - apply NoDup_cons_iff in Hnd as [Hnin Hnd].
    assert (Hdi : (di < nddims)%nat) by (apply Hlt; left; reflexivity).
    cbn [dim_loop].
    rewrite dim_body_ok
      by (intros Hp Hil dj Hdj Hne; apply (Hal Hp di dj); auto).
    match goal with
    | |- context [dim_loop _ _ _ _ _ ?s dis] => set (st1 := s)
    end.
    destruct (IH st1) as (st' & Hst' & Hls' & Hlo' & Hd');
      [exact Hnd | intros; apply Hlt; right; assumption
       | unfold st1; cbn [rank_domain_sums];
         destruct (is_inline t nddims me rn di); rewrite ?length_set_dim; exact Hls
       | unfold st1; cbn [rank_domain_offsets];
         destruct (is_inline t nddims me rn di && (pass =? 1)
                   && (rdelta t me rn di <? 0));
         rewrite ?length_set_dim; exact Hlo |].
    exists st'. split; [exact Hst' |]. split; [exact Hls' |]. split; [exact Hlo' |].
    intros d Hd. destruct (Hd' d Hd) as [Hs Ho]. rewrite Hs, Ho.
    unfold st1. cbn [rank_domain_sums rank_domain_offsets existsb].
    destruct (Nat.eqb_spec d di) as [-> | Hne].
    + assert (existsb (Nat.eqb di) dis = false) as ->.
      { destruct (existsb (Nat.eqb di) dis) eqn:E; [| reflexivity].
        apply existsb_exists in E as (x & Hx & E). apply Nat.eqb_eq in E. subst x.
        contradiction. }
      cbn [orb andb].
      destruct (is_inline t nddims me rn di), (pass =? 1), (rdelta t me rn di <? 0);
        cbn [andb]; rewrite ?at_dim_set_dim_same by lia; lia.
    + cbn [orb].
      destruct (is_inline t nddims me rn di), (pass =? 1), (rdelta t me rn di <? 0);
        cbn [andb]; rewrite ?at_dim_set_dim_other by auto; lia.
Qed.

Lemma existsb_seq (d n : nat) : (d < n)%nat -> existsb (Nat.eqb d) (seq 0 n) = true.
Proof.
  intros Hd. apply existsb_exists. exists d. split; [apply in_seq; lia |].
  apply Nat.eqb_refl.
Qed.

Lemma partial_sum_cons t nddims me di p rn rns :
  partial_sum t nddims me di p (rn :: rns)
  = (if is_inline t nddims me rn di && p rn then tab (rsizes t) rn di else 0)
    + partial_sum t nddims me di p rns.
Proof.
  unfold partial_sum. cbn [filter].
  destruct (is_inline t nddims me rn di && p rn); cbn [map fold_right]; lia.
Qed.

Lemma rank_loop_adds (pass : Z) num_ranks t nddims nr me :
  tables_checked num_ranks t nddims nr -> (me < nr)%nat ->
  forall rns st,
    (forall rn, In rn rns -> (rn < nr)%nat) ->
    (forall rn, In rn rns -> rn <> me -> at_my_coords t nddims me rn = false) ->
    (pass = 1 ->
     forall rn di dj, In rn rns -> (di < nddims)%nat -> (dj < nddims)%nat -> di <> dj ->
                      is_inline t nddims me rn di = true ->
                      tab (rsizes t) rn dj = tab (rsizes t) me dj) ->
    length (rank_domain_sums st) = nddims ->
    length (rank_domain_offsets st) = nddims ->
    exists st',
      rank_loop pass t nddims me st rns = inr st' /\
      forall d, (d < nddims)%nat ->
        at_dim (rank_domain_sums st') d
        = at_dim (rank_domain_sums st) d
          + partial_sum t nddims me d (fun _ => true) rns /\
        at_dim (rank_domain_offsets st') d
        = at_dim (rank_domain_offsets st) d
          + partial_sum t nddims me d
                        (fun rn => (pass =? 1) && (rdelta t me rn d <? 0)) rns.
Proof.
  intros Hck Hme.
  induction rns as [|rn rns IH]; intros st Hlt Hco Hal Hls Hlo.
  - exists st. split; [reflexivity |]. intros d Hd. unfold partial_sum. simpl. lia.
  - cbn [rank_loop]. unfold rank_body.
    assert (Hmd : (rn =? me)%nat && negb (mandist t nddims me rn =? 0) = false).
    { destruct (Nat.eqb_spec rn me) as [-> | Hne]; [| reflexivity].
      cbn [andb]. rewrite mandist_of_self. reflexivity. }
    rewrite Hmd.
    assert (Hsc : negb (rn =? me)%nat && (mandist t nddims me rn =? 0) = false).
    { destruct (Nat.eqb_spec rn me) as [-> | Hne]; [reflexivity |]. cbn [negb andb].
      apply Z.eqb_neq. intros H0.
      pose proof (proj1 (mandist_at_my_coords _ _ _ _ _ _ Hck Hme
                           (Hlt rn (or_introl eq_refl))) H0) as H1.
      rewrite (Hco rn (or_introl eq_refl) Hne) in H1. discriminate. }
    rewrite Hsc.
    destruct (dim_loop_adds pass t nddims me rn
                (fun Hp di dj Hdi Hdj Hne Hil =>
                   Hal Hp rn di dj (or_introl eq_refl) Hdi Hdj Hne Hil)
                (seq 0 nddims) st (seq_NoDup _ _)
                ltac:(intros d Hd; apply in_seq in Hd; lia) Hls Hlo)
      as (st1 & Hst1 & Hls1 & Hlo1 & Hd1).
    rewrite Hst1.
    destruct (IH st1) as (st' & Hst' & Hd');
      [intros; apply Hlt; right; assumption
      | intros; apply Hco; [right |]; assumption
      | intros Hp r di dj Hr; apply (Hal Hp); right; assumption
      | exact Hls1 | exact Hlo1 |].
    exists st'. split; [exact Hst' |]. intros d Hd.
    destruct (Hd' d Hd) as [Hs Ho]. destruct (Hd1 d Hd) as [Hs1 Ho1].
    rewrite Hs, Ho, Hs1, Ho1, !partial_sum_cons, existsb_seq by exact Hd.
    cbn [andb]. rewrite andb_true_r.
    destruct (is_inline t nddims me rn d), (pass =? 1), (rdelta t me rn d <? 0);
      cbn [andb]; lia.
Qed.

Lemma dim_loop_first_pass t nddims me rn :
  forall dis st, exists st', dim_loop 0 t nddims me rn st dis = inr st'.
Proof.
  induction dis as [|di dis IH]; intros st; cbn [dim_loop]; [eauto |].
  unfold dim_body. destruct (is_inline t nddims me rn di); cbn [Z.eqb]; apply IH.
Qed.

Lemma rank_loop_first_pass num_ranks t nddims nr me :
  tables_checked num_ranks t nddims nr -> (me < nr)%nat ->
  forall rns st,
    (forall rn, In rn rns -> (rn < nr)%nat) ->
    match rank_loop 0 t nddims me st rns with
    | inl e =>
        exists l1 r l2,
          rns = l1 ++ r :: l2 /\ r <> me /\ at_my_coords t nddims me r = true /\
          (forall r', In r' l1 -> r' <> me -> at_my_coords t nddims me r' = false) /\
          e = SameCoordinates me r
    | inr _ =>
        forall r, In r rns -> r <> me -> at_my_coords t nddims me r = false
    end.
Proof.
  intros Hck Hme.
  induction rns as [|rn rns IH]; intros st Hlt; cbn [rank_loop].
  - intros r [].
  - assert (Hlt' : forall r, In r rns -> (r < nr)%nat)
      by (intros; apply Hlt; right; assumption).
    pose proof (mandist_at_my_coords _ _ _ _ _ rn Hck Hme (Hlt rn (or_introl eq_refl)))
      as Hmz.
    unfold rank_body.
    destruct (Nat.eqb_spec rn me) as [-> | Hne]; cbn [andb negb].
    + rewrite mandist_of_self. cbn [Z.eqb negb].
      destruct (dim_loop_first_pass t nddims me me (seq 0 nddims) st) as [st' ->].
      specialize (IH st' Hlt'). destruct (rank_loop 0 t nddims me st' rns) as [e2|st2].
      * destruct IH as (l1 & r & l2 & -> & H1 & H2 & H3 & H4).
        exists (me :: l1), r, l2. split; [reflexivity |]. split; [exact H1 |].
        split; [exact H2 |]. split; [| exact H4].
        intros r' [<- | Hr'] Hne; [contradiction | auto].
      * intros r [<- | Hr] Hne; [contradiction | auto].
    + destruct (Z.eqb_spec (mandist t nddims me rn) 0) as [H0 | H0].
      * exists [], rn, rns. split; [reflexivity |]. split; [exact Hne |].
        split; [apply Hmz, H0 |]. split; [intros r' [] | reflexivity].
      * assert (Hrn : at_my_coords t nddims me rn = false).
        { destruct (at_my_coords t nddims me rn) eqn:E; [| reflexivity].
          exfalso. apply H0, Hmz. reflexivity. }
        destruct (dim_loop_first_pass t nddims me rn (seq 0 nddims) st) as [st' ->].
        specialize (IH st' Hlt'). destruct (rank_loop 0 t nddims me st' rns) as [e2|st2].
        -- destruct IH as (l1 & r & l2 & -> & H1 & H2 & H3 & H4).
           exists (rn :: l1), r, l2. split; [reflexivity |]. split; [exact H1 |].
           split; [exact H2 |]. split; [| exact H4].
           intros r' [<- | Hr'] Hne'; [exact Hrn | auto].
        -- intros r [<- | Hr] Hne'; [exact Hrn | auto].
Qed.

Lemma seq_split_at (nr : nat) (l1 : list nat) (r : nat) (l2 : list nat) :
  seq 0 nr = l1 ++ r :: l2 -> l1 = seq 0 r /\ (r < nr)%nat.
Proof.
  intros H.
  assert (Hlen : (length l1 < nr)%nat).
  { apply (f_equal (@length nat)) in H. rewrite length_seq, length_app in H.
    simpl in H. lia. }
  assert (Hr : r = length l1).
  { pose proof (f_equal (fun l => nth (length l1) l 0%nat) H) as E. cbv beta in E.
    rewrite seq_nth in E by lia. rewrite app_nth2, Nat.sub_diag in E by lia.
    simpl in E. lia. }
  split; [| lia]. subst r.
  replace nr with (length l1 + (nr - length l1))%nat in H by lia.
  rewrite seq_app in H.
  pose proof (f_equal (firstn (length l1)) H) as E.
  rewrite !firstn_app, length_seq, Nat.sub_diag, !firstn_O, !app_nil_r in E.
  rewrite firstn_all in E.
  rewrite firstn_all2 in E by (rewrite length_seq; lia).
  symmetry. exact E.
Qed.

(** X10: where the rank indices of all [nr] ranks passed their check
    against the layout [num_ranks] (every index within the layout, the
    layout of [nr] ranks, [nr] an [int]), the first pass of [setupRank]
    over the ranks throws exactly when another rank has the rank indices
    of this rank in every dimension; the exception is "ranks me and r at
    same coordinates" for the lowest such rank [r]. *)
Theorem setupRank_same_coordinates :
  forall (num_ranks : list Z) (t : RankTables) (nddims nr me : nat)
         (e : yask_exception),
    tables_checked num_ranks t nddims nr -> (me < nr)%nat ->
    (setupRank_pass 0 t nddims nr me = inl e <->
     exists r, (r < nr)%nat /\ r <> me /\ at_my_coords t nddims me r = true /\
               (forall r', (r' < r)%nat -> r' <> me ->
                           at_my_coords t nddims me r' = false) /\
               e = SameCoordinates me r).
Proof.
  intros num_ranks t nddims nr me e Hck Hme. unfold setupRank_pass.
  pose proof (rank_loop_first_pass num_ranks t nddims nr me Hck Hme (seq 0 nr)
                (mkSums (repeat 0 nddims) (repeat 0 nddims))
                ltac:(intros rn Hrn; apply in_seq in Hrn; lia)) as H.
  destruct (rank_loop 0 t nddims me _ (seq 0 nr)) as [e'|st].
  - destruct H as (l1 & r & l2 & Hseq & H1 & H2 & H3 & ->).
    pose proof (seq_split_at nr l1 r l2 Hseq) as Hl1.
    destruct Hl1 as [-> Hr]. split.
    + intros [= <-]. exists r. split; [exact Hr |]. split; [exact H1 |].
      split; [exact H2 |]. split; [| reflexivity].
      intros r' Hr' Hne. apply H3; [apply in_seq; lia | exact Hne].
    + intros (r2 & Hr2 & Hne2 & Hc2 & Hf2 & ->). f_equal. f_equal.
      destruct (Nat.lt_trichotomy r r2) as [Hlt | [-> | Hgt]]; [| reflexivity |].
      * rewrite (Hf2 r Hlt H1) in H2. discriminate.
      * rewrite (H3 r2 ltac:(apply in_seq; lia) Hne2) in Hc2. discriminate.
  - split; [discriminate |]. intros (r & Hr & Hne & Hc & _).
    rewrite (H r ltac:(apply in_seq; lia) Hne) in Hc. discriminate.
Qed.

Lemma setupRank_same_coordinates_witness :
  tables_checked [3; 1] x10_tables 2 3 /\
  setupRank_pass 0 x10_tables 2 3 0 = inl (SameCoordinates 0 2).
Proof.
  assert (Hck : tables_checked [3; 1] x10_tables 2 3).
  { split; [reflexivity |]. split; [reflexivity |]. split; [reflexivity |].
    intros [|[|[|rn]]] Hrn; try reflexivity. lia. }
  split; [exact Hck |].
  apply (setupRank_same_coordinates [3; 1] x10_tables 2 3 0 _ Hck ltac:(lia)).
  exists 2%nat.
  split; [lia |]. split; [lia |]. split; [reflexivity |]. split; [| reflexivity].
  intros [|[|r']] Hr' Hne; try lia. reflexivity.
Defined.

(** X11: where the rank indices of all [nr] ranks passed their check
    against the layout [num_ranks], and no other rank is at the
    coordinates of this rank (and, in the second pass, the ranks in-line
    with it have its sizes in the other dimensions), a pass of
    [setupRank] over the ranks does not throw; [rank_domain_sums[d]] is
    then the sum of the sizes in [d] of the ranks in-line with this rank
    in [d], itself included, and, in the second pass,
    [rank_domain_offsets[d]] is the sum of the sizes of those of them
    that have a lower rank index in [d]. *)
Theorem setupRank_sums_and_offsets :
  forall (num_ranks : list Z) (t : RankTables) (nddims nr me : nat) (pass : Z),
    tables_checked num_ranks t nddims nr -> (me < nr)%nat ->
    (forall rn, (rn < nr)%nat -> rn <> me -> at_my_coords t nddims me rn = false) ->
    (pass = 1 ->
     forall rn di dj, (rn < nr)%nat -> (di < nddims)%nat -> (dj < nddims)%nat ->
                      di <> dj -> is_inline t nddims me rn di = true ->
                      tab (rsizes t) rn dj = tab (rsizes t) me dj) ->
    exists st,
      setupRank_pass pass t nddims nr me = inr st /\
      forall d, (d < nddims)%nat ->
        at_dim (rank_domain_sums st) d = inline_sum t nddims nr me d (fun _ => true) /\
        at_dim (rank_domain_offsets st) d
        = if pass =? 1
          then inline_sum t nddims nr me d (fun rn => rdelta t me rn d <? 0)
          else 0.
Proof.
  intros num_ranks t nddims nr me pass Hck Hme Hco Hal. unfold setupRank_pass.
  destruct (rank_loop_adds pass num_ranks t nddims nr me Hck Hme (seq 0 nr)
              (mkSums (repeat 0 nddims) (repeat 0 nddims)))
    as (st & Hst & Hd).
  - intros rn Hrn. apply in_seq in Hrn. lia.
  - intros rn Hrn. apply in_seq in Hrn. apply Hco. lia.
  - intros Hp rn di dj Hrn. apply in_seq in Hrn. apply (Hal Hp). lia.
  - apply repeat_length.
  - apply repeat_length.
  - exists st. split; [exact Hst |]. intros d Hd'.
    destruct (Hd d Hd') as [Hs Ho]. cbn [rank_domain_sums rank_domain_offsets] in Hs, Ho.
    assert (Hz : at_dim (repeat 0 nddims) d = 0).
    { unfold at_dim. destruct (nth_in_or_default d (repeat 0 nddims) 0) as [H | H].
      - apply repeat_spec in H. exact H.
      - exact H. }
    rewrite Hz in Hs, Ho. rewrite Hs, Ho. unfold inline_sum, partial_sum.
    split; [lia |].
    destruct (pass =? 1).
    + cbn [andb Z.add]. reflexivity.
    + cbn [andb]. rewrite Z.add_0_l.
      assert (Hnone : forall l,
                 filter (fun rn => is_inline t nddims me rn d && false) l = []).
      { induction l as [|x l IHl]; cbn [filter]; [reflexivity |].
        rewrite andb_false_r. exact IHl. }
      rewrite Hnone. reflexivity.
Qed.

Lemma setupRank_sums_and_offsets_witness :
  tables_checked [3; 1] x11_tables 2 3 /\
  exists st,
    setupRank_pass 1 x11_tables 2 3 1 = inr st /\
    at_dim (rank_domain_sums st) 0 = 19 /\ at_dim (rank_domain_offsets st) 0 = 8.
Proof.
  assert (Hck : tables_checked [3; 1] x11_tables 2 3).
  { split; [reflexivity |]. split; [reflexivity |]. split; [reflexivity |].
    intros [|[|[|rn]]] Hrn; try reflexivity. lia. }
  split; [exact Hck |].
  destruct (setupRank_sums_and_offsets [3; 1] x11_tables 2 3 1 1 Hck ltac:(lia))
    as (st & Hst & Hd).
  - intros [|[|[|rn]]] Hrn Hne; try lia; reflexivity.
  - intros _ [|[|[|rn]]] [|[|di]] [|[|dj]] Hrn Hdi Hdj Hne Hil; try lia;
      try reflexivity; vm_compute in Hil; discriminate.
  - exists st. split; [exact Hst |]. destruct (Hd 0%nat ltac:(lia)) as [Hs Ho].
    rewrite Hs, Ho. split; reflexivity.
Defined.

(** X12: where the local size of a dimension is not given on any rank,
    the first pass of [setupRank] derives it from the global size [gsz]
    (positive), the number of ranks [nranks] of the dimension and the
    cluster length [cpts] (positive): every rank but the last gets
    [ROUND_UP(CEIL_DIV(gsz, nranks), cpts)] points and the last one the
    rest.  The code throws exactly when that rest is not positive;
    otherwise every size is positive, the last is not larger than the
    others, and the sizes of the [nranks] ranks add up to [gsz]. *)
Theorem derived_rank_sizes_add_up :
  forall gsz nranks cpts : Z,
    0 < gsz -> 0 < nranks -> 0 < cpts ->
    let rsz := ROUND_UP (CEIL_DIV gsz nranks) cpts in
    (gsz <= rsz * (nranks - 1) <->
     forall is_last, derive_sizes_dim 0 gsz nranks cpts 0 is_last = None) /\
    (rsz * (nranks - 1) < gsz ->
     exists last,
       derive_sizes_dim 0 gsz nranks cpts 0 true = Some (last, gsz) /\
       derive_sizes_dim 0 gsz nranks cpts 0 false = Some (rsz, gsz) /\
       0 < last <= rsz /\ (cpts | rsz) /\
       (nranks - 1) * rsz + last = gsz).
Proof.
  intros gsz nranks cpts Hg Hn Hc rsz. unfold derive_sizes_dim.
  cbn [Z.eqb negb]. cbv zeta. fold rsz.
  assert (Hrsz : gsz <= rsz * nranks /\ (cpts | rsz)).
  { unfold rsz, ROUND_UP. split; [| apply Z.divide_factor_r].
    assert (Hcd : gsz <= CEIL_DIV gsz nranks * nranks /\ 0 <= CEIL_DIV gsz nranks).
    { unfold CEIL_DIV. rewrite Z.quot_div_nonneg by lia.
      pose proof (Z.div_mod (gsz + nranks - 1) nranks ltac:(lia)) as Hd.
      pose proof (Z.mod_pos_bound (gsz + nranks - 1) nranks Hn) as Hr.
      split; [nia | apply Z.div_pos; lia]. }
    destruct Hcd as [Hcd Hnn].
    set (q := CEIL_DIV gsz nranks) in *.
    assert (q <= CEIL_DIV q cpts * cpts); [| nia].
    unfold CEIL_DIV at 1. rewrite Z.quot_div_nonneg by lia.
    pose proof (Z.div_mod (q + cpts - 1) cpts ltac:(lia)) as Hd.
    pose proof (Z.mod_pos_bound (q + cpts - 1) cpts Hc) as Hr. nia. }
  destruct Hrsz as [Hcover Hdiv]. split.
  - split.
    + intros Hle is_last.
      destruct (Z.leb_spec (gsz - rsz * (nranks - 1)) 0); [reflexivity | lia].
    + intros H. specialize (H true).
      destruct (Z.leb_spec (gsz - rsz * (nranks - 1)) 0); [lia | discriminate].
  - intros Hlt.
    destruct (Z.leb_spec (gsz - rsz * (nranks - 1)) 0); [lia |].
    exists (gsz - rsz * (nranks - 1)). split; [reflexivity |]. split; [reflexivity |].
    split; [lia |]. split; [exact Hdiv | lia].
Qed.

Lemma derived_rank_sizes_add_up_witness :
  derive_sizes_dim 0 100 3 8 0 false = Some (40, 100) /\
  derive_sizes_dim 0 100 3 8 0 true = Some (20, 100).
Proof.
  destruct (derived_rank_sizes_add_up 100 3 8) as [_ H]; [lia | lia | lia |].
  destruct H as (last & H1 & H2 & _); [vm_compute; reflexivity |].
  split; [exact H2 |]. rewrite H1. vm_compute in H1. symmetry. exact H1.
Defined.

End RankSumsProofs.

(** ** adjust_span: the span of a scratch bundle *)
Module AdjustSpanProofs.
Import Common Data Shift.
Import TupleSpec TupleFacts.
Import AdjustSpanSpec.

(** *** stencil_calc: [adjust_span] *)

(** How far [ROUND_UP] moves a halo size. *)
Lemma ROUND_UP_halo (h m : Z) :
  0 <= h -> 0 < m ->
  h <= ROUND_UP h m < h + m /\ ROUND_UP h m mod m = 0.
Proof.
  intros Hh Hm. unfold ROUND_UP, CEIL_DIV. rewrite Z.quot_div_nonneg by lia.
  pose proof (Z.div_mod (h + m - 1) m ltac:(lia)).
  pose proof (Z.mod_pos_bound (h + m - 1) m Hm).
  split; [nia |]. apply Z.mod_mul. lia.
Qed.

Lemma adjust_span_dims fold_pts gp idxs dims :
  forall adj,
    let adj' := fold_left (adjust_span_dim fold_pts gp idxs) dims adj in
    length (span_begin adj') = length (span_begin adj) /\
    length (span_end adj') = length (span_end adj) /\
    length (span_stride adj') = length (span_stride adj) /\
    forall k, ~ In k dims ->
              at_dim (span_begin adj') k = at_dim (span_begin adj) k /\
              at_dim (span_end adj') k = at_dim (span_end adj) k /\
              at_dim (span_stride adj') k = at_dim (span_stride adj) k.
Proof.
  induction dims as [|j dims IH]; intros adj; cbn [fold_left].
  - cbv zeta. repeat split; reflexivity.
  - cbv zeta. destruct (IH (adjust_span_dim fold_pts gp idxs adj j)) as (L1 & L2 & L3 & F).
    cbv zeta in *. rewrite L1, L2, L3.
    assert (Hd : length (span_begin (adjust_span_dim fold_pts gp idxs adj j))
                 = length (span_begin adj) /\
                 length (span_end (adjust_span_dim fold_pts gp idxs adj j))
                 = length (span_end adj) /\
                 length (span_stride (adjust_span_dim fold_pts gp idxs adj j))
                 = length (span_stride adj) /\
                 forall k, k <> j ->
                   at_dim (span_begin (adjust_span_dim fold_pts gp idxs adj j)) k
                   = at_dim (span_begin adj) k /\
                   at_dim (span_end (adjust_span_dim fold_pts gp idxs adj j)) k
                   = at_dim (span_end adj) k /\
                   at_dim (span_stride (adjust_span_dim fold_pts gp idxs adj j)) k
                   = at_dim (span_stride adj) k).
    { unfold adjust_span_dim. destruct (get_dim_posn gp j) as [posn|]; [| repeat split; reflexivity].
      cbv zeta. cbn [span_begin span_end span_stride].
      destruct (_ <=? _); rewrite ?length_set_dim;
        (repeat split; try reflexivity;
         rewrite ?at_dim_set_dim_other by congruence; reflexivity). }
    destruct Hd as (D1 & D2 & D3 & G).
    split; [exact D1 |]. split; [exact D2 |]. split; [exact D3 |].
    intros k Hk. destruct (F k ltac:(intros H; apply Hk; right; exact H)) as (-> & -> & ->).
    apply G. intros ->. apply Hk. left; reflexivity.
Qed.

Lemma adjust_span_at fold_pts gp idxs dims :
  NoDup dims ->
  forall adj j,
    In j dims ->
    (j < length (span_begin adj))%nat -> (j < length (span_end adj))%nat ->
    (j < length (span_stride adj))%nat ->
    at_dim (span_begin adj) j = at_dim (span_begin idxs) j ->
    at_dim (span_end adj) j = at_dim (span_end idxs) j ->
    at_dim (span_stride adj) j = at_dim (span_stride idxs) j ->
    let adj' := fold_left (adjust_span_dim fold_pts gp idxs) dims adj in
    match get_dim_posn gp j with
    | None =>
        at_dim (span_begin adj') j = at_dim (span_begin idxs) j /\
        at_dim (span_end adj') j = at_dim (span_end idxs) j /\
        at_dim (span_stride adj') j = at_dim (span_stride idxs) j
    | Some posn =>
        at_dim (span_begin adj') j
        = at_dim (span_begin idxs) j
          - ROUND_UP (get_left_halo_size gp posn) (at_dim fold_pts j) /\
        at_dim (span_end adj') j
        = at_dim (span_end idxs) j
          + ROUND_UP (get_right_halo_size gp posn) (at_dim fold_pts j) /\
        at_dim (span_stride adj') j
        = if at_dim (span_end idxs) j - at_dim (span_begin idxs) j
             <=? at_dim (span_stride idxs) j
          then at_dim (span_end adj') j - at_dim (span_begin adj') j
          else at_dim (span_stride idxs) j
    end.
Proof.
  intros Hnd. induction dims as [|d dims IH]; intros adj j Hin Hlb Hle Hls Hb He Hs;
    [destruct Hin |].
  apply NoDup_cons_iff in Hnd as [Hnotin Hnd]. cbn [fold_left]. cbv zeta.
  destruct (Nat.eq_dec d j) as [-> | Hne].
  - destruct (adjust_span_dims fold_pts gp idxs dims (adjust_span_dim fold_pts gp idxs adj j))
      as (_ & _ & _ & F).
    cbv zeta in F. destruct (F j Hnotin) as (-> & -> & ->).
    unfold adjust_span_dim. destruct (get_dim_posn gp j) as [posn|]; [| auto].
    cbv zeta. cbn [span_begin span_end span_stride].
    rewrite !at_dim_set_dim_same by assumption.
    split; [reflexivity |]. split; [reflexivity |].
    destruct (_ <=? _); [apply at_dim_set_dim_same; assumption | exact Hs].
  - destruct Hin as [E | Hin]; [contradiction |].
    assert (Hd : length (span_begin (adjust_span_dim fold_pts gp idxs adj d))
                 = length (span_begin adj) /\
                 length (span_end (adjust_span_dim fold_pts gp idxs adj d))
                 = length (span_end adj) /\
                 length (span_stride (adjust_span_dim fold_pts gp idxs adj d))
                 = length (span_stride adj) /\
                 at_dim (span_begin (adjust_span_dim fold_pts gp idxs adj d)) j
                 = at_dim (span_begin adj) j /\
                 at_dim (span_end (adjust_span_dim fold_pts gp idxs adj d)) j
                 = at_dim (span_end adj) j /\
                 at_dim (span_stride (adjust_span_dim fold_pts gp idxs adj d)) j
                 = at_dim (span_stride adj) j).
    { destruct (adjust_span_dims fold_pts gp idxs [d] adj) as (L1 & L2 & L3 & F).
      cbn [fold_left] in *. cbv zeta in *.
      split; [exact L1 |]. split; [exact L2 |]. split; [exact L3 |].
      apply F. intros [E | []]. contradiction. }
    destruct Hd as (L1 & L2 & L3 & A1 & A2 & A3).
    apply (IH Hnd); try congruence; try lia.
Qed.

(** X23: [adjust_span] with an output scratch variable for the thread,
    fold lengths that are positive and halos that are not negative.  In
    a domain dimension that the variable does not use, the span and the
    stride stay as they are.  In one that it uses, the span grows on the
    left by the left halo and on the right by the right halo, each
    rounded up to a multiple of the fold length, so by less than one
    fold length more than the halo; and a stride that covered the whole
    span before covers the whole new span, any other stride stays. *)
Theorem adjust_span_grows_by_halos :
  forall (nddims : nat) (fold_pts : list Z) (sv : list ScratchVar)
         (rest : list (list ScratchVar)) (region_thread_idx : nat)
         (idxs : SpanIndices) (gp : ScratchVar),
    nth_error sv region_thread_idx = Some gp ->
    (nddims <= length (span_begin idxs))%nat ->
    (nddims <= length (span_end idxs))%nat ->
    (nddims <= length (span_stride idxs))%nat ->
    (forall j posn, (j < nddims)%nat -> get_dim_posn gp j = Some posn ->
                    0 < at_dim fold_pts j /\ 0 <= get_left_halo_size gp posn /\
                    0 <= get_right_halo_size gp posn) ->
    exists adj,
      adjust_span nddims fold_pts (sv :: rest) region_thread_idx idxs = Some adj /\
      forall j, (j < nddims)%nat ->
        let lo := at_dim (span_begin idxs) j - at_dim (span_begin adj) j in
        let hi := at_dim (span_end adj) j - at_dim (span_end idxs) j in
        match get_dim_posn gp j with
        | None => lo = 0 /\ hi = 0 /\
                  at_dim (span_stride adj) j = at_dim (span_stride idxs) j
        | Some posn =>
            get_left_halo_size gp posn <= lo < get_left_halo_size gp posn
                                              + at_dim fold_pts j /\
            lo mod at_dim fold_pts j = 0 /\
            get_right_halo_size gp posn <= hi < get_right_halo_size gp posn
                                               + at_dim fold_pts j /\
            hi mod at_dim fold_pts j = 0 /\
            at_dim (span_stride adj) j
            = if at_dim (span_end idxs) j - at_dim (span_begin idxs) j
                 <=? at_dim (span_stride idxs) j
              then at_dim (span_end adj) j - at_dim (span_begin adj) j
              else at_dim (span_stride idxs) j
        end.
Proof.
  intros nddims fold_pts sv rest thr idxs gp Hgp Hlb Hle Hls Hpos.
  unfold adjust_span. rewrite Hgp. eexists. split; [reflexivity |].
  intros j Hj. cbv zeta.
  pose proof (adjust_span_at fold_pts gp idxs (seq 0 nddims) (seq_NoDup nddims 0) idxs j
                ltac:(apply in_seq; lia) ltac:(lia) ltac:(lia) ltac:(lia)
                eq_refl eq_refl eq_refl) as H.
  cbv zeta in H. destruct (get_dim_posn gp j) as [posn|] eqn:E.
  - destruct H as (Hb & He & Hs). destruct (Hpos j posn Hj E) as (Hf & Hl & Hr).
    destruct (ROUND_UP_halo (get_left_halo_size gp posn) (at_dim fold_pts j) Hl Hf)
      as [L1 L2].
    destruct (ROUND_UP_halo (get_right_halo_size gp posn) (at_dim fold_pts j) Hr Hf)
      as [R1 R2].
    rewrite Hs, Hb, He.
    replace (at_dim (span_begin idxs) j
             - (at_dim (span_begin idxs) j
                - ROUND_UP (get_left_halo_size gp posn) (at_dim fold_pts j)))
      with (ROUND_UP (get_left_halo_size gp posn) (at_dim fold_pts j)) by lia.
    replace (at_dim (span_end idxs) j
             + ROUND_UP (get_right_halo_size gp posn) (at_dim fold_pts j)
             - at_dim (span_end idxs) j)
      with (ROUND_UP (get_right_halo_size gp posn) (at_dim fold_pts j)) by lia.
    repeat split; try lia; assumption.
  - destruct H as (-> & -> & ->). repeat split; lia.
Qed.

Lemma adjust_span_grows_by_halos_witness :
  adjust_span 1 [4] [[halo_var]] 0 (mkSpan [8] [24] [16])
  = Some (mkSpan [4] [32] [28]).
Proof.
  destruct (adjust_span_grows_by_halos 1 [4] [halo_var] [] 0 (mkSpan [8] [24] [16])
              halo_var eq_refl ltac:(simpl; lia) ltac:(simpl; lia) ltac:(simpl; lia))
    as (adj & H & _).
  - intros j posn Hj _. assert (j = 0%nat) as -> by lia. cbn. lia.
  - reflexivity.
Defined.

End AdjustSpanProofs.

(** ** Full domains and the runs of calc_mini_block *)
Module SubBoxProofs.
Import Common Data Tuple Shift BBox.
Import TupleSpec TupleFacts.
Import BBoxSpec BBoxProofs.
Import AdjustSpanSpec AdjustSpanProofs.
Import SubBoxSpec.

(** *** A slice without invalid points *)

Lemma points_first_inner_head (lens : list Z) :
  Forall (fun l => 1 <= l) lens ->
  exists rest, points_first_inner lens = repeat 0 (length lens) :: rest.
Proof.
  induction 1 as [|l ls Hl Hls IH]; cbn [points_first_inner length repeat].
  - exists []. reflexivity.
  - destruct IH as [rest ->]. destruct (range_head l Hl) as [r ->].
    cbn [flat_map map]. eexists. reflexivity.
Qed.

(** The scan for the end of a rectangle keeps the whole span when every
    point of it is new and valid. *)
Lemma scan_all_valid dom cur ibdpt scan_len :
  (forall e, in_box scan_len e ->
             is_new_valid dom cur (addElements ibdpt e) = true) ->
  scan_rect (scan_fuel scan_len) true dom cur ibdpt scan_len = Some scan_len.
Proof.
  intros Hv. unfold scan_fuel. cbn [scan_rect]. unfold visitAllPoints, all_points.
  assert (H : forall pts,
             (forall e, In e pts -> in_box scan_len e) ->
             visit_until (scan_visitor dom cur ibdpt) (scan_len, false) pts
             = (scan_len, false)).
  { induction pts as [|e pts IH]; intros Hpts; cbn [visit_until]; [reflexivity |].
    unfold scan_visitor at 1. rewrite (Hv e) by (apply Hpts; left; reflexivity).
    apply IH. intros; apply Hpts; right; assumption. }
  rewrite H; [reflexivity |]. intros e. apply in_points_first_inner.
Qed.

(** The points of the slice are passed over once its box is in the
    list. *)
Lemma slice_all_seen dom sb se :
  length se = length sb ->
  forall pts,
    (forall q, In q pts -> in_box (subElements se sb) q) ->
    visit_until (slice_visitor true dom sb se) (Some [mkBB sb se]) pts
    = Some [mkBB sb se].
Proof.
  intros Hl. induction pts as [|q pts IH]; intros Hpts; cbn [visit_until];
    [reflexivity |].
  unfold slice_visitor at 1.
  assert (Hin : is_in_bb (mkBB sb se) (addElements sb q) = true).
  { rewrite <- (add_sub_elements sb se Hl) at 1.
    apply is_in_new_bb; [rewrite length_subElements; lia |].
    exists q. split; [apply Hpts; left; reflexivity | reflexivity]. }
  unfold is_new_valid. cbn [existsb]. rewrite Hin. cbn [orb negb].
  rewrite andb_false_r. apply IH. intros; apply Hpts; right; assumption.
Qed.

Lemma slice_without_holes dom sb se :
  length se = length sb ->
  (forall i, (i < length sb)%nat -> at_dim sb i < at_dim se i) ->
  (forall pt, within sb se pt -> dom pt = true) ->
  visit_until (slice_visitor true dom sb se) (Some [])
              (points_first_inner (subElements se sb))
  = Some [mkBB sb se].
Proof.
  intros Hl Hpos Hdom.
  assert (Hlens : Forall (fun l => 1 <= l) (subElements se sb)).
  { apply Forall_ge1_nth. rewrite length_subElements by exact Hl.
    intros i Hi. rewrite at_dim_subElements by lia. specialize (Hpos i ltac:(lia)). lia. }
  assert (Hpts : forall q, In q (points_first_inner (subElements se sb)) ->
                           in_box (subElements se sb) q)
    by (intros q; apply in_points_first_inner).
  destruct (points_first_inner_head _ Hlens) as [rest Hrest].
  rewrite Hrest in Hpts |- *. cbn [visit_until]. unfold slice_visitor at 1.
  rewrite length_subElements by exact Hl.
  rewrite Hl, addElements_zeros.
  assert (Hvalid : forall e, in_box (subElements se sb) e ->
                             is_new_valid dom [] (addElements sb e) = true).
  { intros e He. unfold is_new_valid. cbn [existsb negb]. rewrite andb_true_r.
    apply Hdom. rewrite <- (add_sub_elements sb se Hl) at 1.
    apply within_offsets; [rewrite length_subElements; lia |]. eauto. }
  assert (Hfirst : is_new_valid dom [] sb = true).
  { rewrite <- (addElements_zeros sb). rewrite <- Hl.
    rewrite <- (length_subElements se sb Hl). apply Hvalid, in_box_zeros, Hlens. }
  rewrite Hfirst, (scan_all_valid dom [] sb _ Hvalid).
  rewrite (add_sub_elements sb se Hl). cbn [app].
  apply slice_all_seen; [exact Hl |]. intros q Hq. apply Hpts. right. exact Hq.
Qed.

(** *** Merging the slices of a box without invalid points *)

Lemma can_merge_same (b e : list Z) :
  forall i, (1 <= i)%nat -> can_merge i b e b e = true.
Proof.
  revert e. induction b as [|x b IH]; intros [|y e] i Hi; cbn [can_merge];
    try reflexivity.
  destruct i as [|i]; [lia |]. cbn [Nat.eqb]. rewrite !Z.eqb_refl. cbn [andb].
  apply IH. lia.
Qed.

Lemma whole_slice dom x y b e len (k : nat) :
  length e = length b -> x < y ->
  (forall i, (i < length b)%nat -> at_dim b i < at_dim e i) ->
  1 <= len ->
  (forall pt, is_in_bb (mkBB (x :: b) (y :: e)) pt = true -> dom pt = true) ->
  find_slice_bbs true dom (mkBB (x :: b) (y :: e)) len (Z.of_nat k)
  = Some (if Z.min y (x + Z.of_nat k * len + len) <=? x + Z.of_nat k * len
          then []
          else [mkBB (x + Z.of_nat k * len :: b)
                     (Z.min y (x + Z.of_nat k * len + len) :: e)]).
Proof.
  intros Hl Hxy Hpos Hlen Hdom. unfold find_slice_bbs. cbv zeta.
  cbn [bb_begin bb_end set_dim]. unfold at_dim. cbn [nth].
  destruct (Z.leb_spec (Z.min y (x + Z.of_nat k * len + len)) (x + Z.of_nat k * len))
    as [Hle | Hgt]; [reflexivity |].
  unfold visitAllPoints, all_points. apply slice_without_holes.
  - simpl. lia.
  - intros [|i] Hi; [unfold at_dim; simpl; lia |].
    simpl in Hi. apply (Hpos i). lia.
  - intros pt Hw. apply Hdom. unfold is_in_bb. cbn [bb_begin bb_end].
    apply in_range_within. destruct pt as [|z pt]; [destruct Hw |].
    cbn [within] in Hw |- *. destruct Hw as [Hz Hw]. split; [nia | exact Hw].
Qed.

Lemma collect_whole_slices dom x y b e len :
  length e = length b -> x < y ->
  (forall i, (i < length b)%nat -> at_dim b i < at_dim e i) ->
  1 <= len ->
  (forall pt, is_in_bb (mkBB (x :: b) (y :: e)) pt = true -> dom pt = true) ->
  forall cnt m,
    fold_left collect_slices
              (map (find_slice_bbs true dom (mkBB (x :: b) (y :: e)) len)
                   (zrange (Z.of_nat m) cnt))
              (Some (merged_upto x y b e len m))
    = Some (merged_upto x y b e len (m + cnt)).
Proof.
  intros Hl Hxy Hpos Hlen Hdom. induction cnt as [|cnt IH]; intros m.
  - rewrite Nat.add_0_r. reflexivity.
  - cbn [zrange map fold_left].
    rewrite (whole_slice dom x y b e len m Hl Hxy Hpos Hlen Hdom).
    replace (Z.of_nat m + 1) with (Z.of_nat (S m)) by lia.
    replace (m + S cnt)%nat with (S m + cnt)%nat by lia.
    rewrite <- IH. f_equal. cbn [collect_slices]. f_equal.
    destruct (Z.leb_spec (Z.min y (x + Z.of_nat m * len + len)) (x + Z.of_nat m * len))
      as [Hle | Hgt]; cbn [fold_left].
    + destruct m as [|m]; [lia |]. cbn [merged_upto].
      replace (Z.of_nat (S (S m)) * len) with (Z.of_nat (S m) * len + len)
        by (rewrite !Nat2Z.inj_succ; ring).
      set (A := Z.of_nat (S m) * len) in *.
      assert (Hy : y <= x + A) by lia.
      rewrite !Z.min_l by lia. reflexivity.
    + set (bbn := mkBB (x + Z.of_nat m * len :: b)
                       (Z.min y (x + Z.of_nat m * len + len) :: e)).
      assert (Hsz : sized (S (length b)) bbn).
      { unfold bbn. split; [reflexivity |]. split; [simpl; lia |].
        cbn [bb_begin bb_end length].
        intros [|i] Hi; [unfold at_dim; cbn [nth]; lia |]. apply (Hpos i). lia. }
      pose proof (sized_size (S (length b)) bbn ltac:(lia) Hsz) as Hpos'.
      unfold collect_bb.
      destruct (Z.eqb_spec (bb_size bbn) 0) as [H0 | _]; [lia |].
      destruct m as [|m]; cbn [merged_upto merge_bb].
      * unfold bbn. replace (x + Z.of_nat 0 * len) with x by lia.
        replace (Z.of_nat 1 * len) with len by lia. reflexivity.
      * unfold bbn. cbn [bb_begin bb_end can_merge Nat.eqb].
        assert ((Z.min y (x + Z.of_nat (S m) * len) =? x + Z.of_nat (S m) * len) = true)
          as -> by (apply Z.eqb_eq; lia).
        rewrite can_merge_same by lia. cbn [andb set_dim].
        unfold at_dim. cbn [nth].
        replace (Z.of_nat (S (S m)) * len) with (Z.of_nat (S m) * len + len)
        by (rewrite !Nat2Z.inj_succ; ring).
        rewrite Z.add_assoc. reflexivity.
Qed.

(** X13: when the sub-domain expression of a bundle holds at every point
    of the (non-empty) extended box of the rank, [find_bounding_box]
    ends, for any number of threads, with the one box of the rank in
    [_bb_list]: the rectangles of the slices are merged back. *)
Theorem bb_list_of_whole_domain :
  forall (is_in_valid_domain : list Z -> bool) (bundle_bb : BoundingBox)
         (nthreads : Z),
    proper bundle_bb -> (1 <= length (bb_begin bundle_bb))%nat ->
    1 <= nthreads ->
    (forall pt, is_in_bb bundle_bb pt = true -> is_in_valid_domain pt = true) ->
    find_bounding_box true true is_in_valid_domain bundle_bb nthreads
    = Some [bundle_bb].
Proof.
  intros dom [B E] nthreads [Hel Hpos] Hn Hthr Hdom. cbn [bb_begin bb_end] in *.
  destruct B as [|x b]; [simpl in Hn; lia |].
  destruct E as [|y e]; [discriminate |].
  assert (Hxy : x < y) by (apply (Hpos 0%nat); simpl; lia).
  assert (Hpos' : forall i, (i < length b)%nat -> at_dim b i < at_dim e i)
    by (intros i Hi; apply (Hpos (S i)); simpl; lia).
  assert (Hl : length e = length b) by (simpl in Hel; lia).
  unfold find_bounding_box.
  pose proof (sized_size (S (length b)) (mkBB (x :: b) (y :: e)) ltac:(lia)
                         (conj eq_refl (conj Hel Hpos))) as Hsize.
  destruct (Z.eqb_spec (bb_size (mkBB (x :: b) (y :: e))) 0) as [H0 | _]; [lia |].
  cbn [negb]. unfold bb_len. cbn [bb_begin bb_end subElements].
  unfold at_dim at 1. cbn [nth].
  destruct (CEIL_DIV_covers (y - x) nthreads ltac:(lia) Hthr) as [Hlen Hcov].
  set (len := CEIL_DIV (y - x) nthreads) in *.
  assert (Hlen1 : 1 <= len) by nia.
  unfold yask_for_serial.
  destruct (Z.leb_spec nthreads 0) as [Hle | _]; [lia |].
  destruct (for_loop_unit_starts nthreads (fun _ => 0) (loop_fuel 0 nthreads) 0 nthreads)
    as (vs & -> & Hvs); [unfold loop_fuel; lia |].
  rewrite <- (map_map v_start (find_slice_bbs true dom (mkBB (x :: b) (y :: e)) len)), Hvs.
  pose proof (collect_whole_slices dom x y b e len Hl Hxy Hpos' Hlen1 Hdom
                (Z.to_nat (nthreads - 0)) 0) as Hc.
  cbn [merged_upto Z.of_nat] in Hc. rewrite Hc. f_equal.
  destruct (0 + Z.to_nat (nthreads - 0))%nat as [|m] eqn:Em; [lia |].
  cbn [merged_upto]. rewrite <- Em.
  replace (Z.min y (x + Z.of_nat (0 + Z.to_nat (nthreads - 0)) * len)) with y by nia.
  reflexivity.
Qed.

Lemma bb_list_of_whole_domain_witness :
  find_bounding_box true true (fun _ => true) (mkBB [0; 0] [5; 3]) 2
  = Some [mkBB [0; 0] [5; 3]].
Proof.
  apply bb_list_of_whole_domain.
  - split; [reflexivity |]. intros [|[|i]] Hi; simpl in Hi; try lia; reflexivity.
  - simpl; lia.
  - lia.
  - reflexivity.
Defined.

(** *** The bundle's boxes in a mini-block *)

Lemma trim_loop_spec (mb_b : list Z) :
  forall mb_e bb_b bb_e,
    length mb_e = length mb_b -> length bb_b = length mb_b ->
    length bb_e = length mb_b ->
    match trim_loop mb_b mb_e bb_b bb_e with
    | Some (bg, en) =>
        length bg = length mb_b /\ length en = length mb_b /\
        (forall i, (i < length mb_b)%nat ->
           at_dim bg i = Z.max (at_dim mb_b i) (at_dim bb_b i) /\
           at_dim en i = Z.min (at_dim mb_e i) (at_dim bb_e i) /\
           at_dim bg i < at_dim en i) /\
        forall pt, in_range bg en pt
                   = in_range mb_b mb_e pt && in_range bb_b bb_e pt
    | None =>
        (exists i, (i < length mb_b)%nat /\
                   Z.min (at_dim mb_e i) (at_dim bb_e i)
                   <= Z.max (at_dim mb_b i) (at_dim bb_b i)) /\
        forall pt, in_range mb_b mb_e pt && in_range bb_b bb_e pt = false
    end.
Proof.
  induction mb_b as [|mbb mbs IH]; intros [|mbe mes] [|b bs] [|e es] H1 H2 H3;
    try discriminate; cbn [trim_loop].
  - split; [reflexivity |]. split; [reflexivity |]. split; [intros i Hi; simpl in Hi; lia |].
    intros [|z pt]; reflexivity.
  - cbv zeta. simpl in H1, H2, H3.
    destruct (Z.leb_spec (Z.min mbe e) (Z.max mbb b)) as [Hle | Hgt].
    + split; [exists 0%nat; split; [simpl; lia | unfold at_dim; cbn [nth]; exact Hle] |].
      intros [|z pt]; cbn [in_range]; [reflexivity |].
      destruct (Z.leb_spec mbb z), (Z.ltb_spec z mbe), (Z.leb_spec b z),
        (Z.ltb_spec z e); cbn [andb]; try reflexivity; try lia;
        rewrite ?andb_false_r; reflexivity.
    + specialize (IH mes bs es ltac:(lia) ltac:(lia) ltac:(lia)).
      destruct (trim_loop mbs mes bs es) as [[bg en]|].
      * destruct IH as (Hb & He & Hi & Hpt).
        split; [simpl; lia |]. split; [simpl; lia |]. split.
        -- intros [|i] Hlt; [unfold at_dim; cbn [nth]; lia |].
           apply (Hi i). simpl in Hlt. lia.
        -- intros [|z pt]; cbn [in_range]; [reflexivity |]. rewrite Hpt.
           destruct (Z.leb_spec (Z.max mbb b) z), (Z.ltb_spec z (Z.min mbe e)),
             (Z.leb_spec mbb z), (Z.ltb_spec z mbe), (Z.leb_spec b z),
             (Z.ltb_spec z e); cbn [andb]; try lia;
             destruct (in_range mbs mes pt), (in_range bs es pt); reflexivity.
      * destruct IH as [(i & Hi & Hle) IH]. split.
        -- exists (S i). split; [simpl; lia | exact Hle].
        -- intros [|z pt]; cbn [in_range]; [reflexivity |].
           specialize (IH pt).
           destruct (in_range mbs mes pt), (in_range bs es pt);
             rewrite ?andb_false_r; cbn [andb]; try reflexivity; try discriminate;
             rewrite ?andb_false_r; reflexivity.
Qed.

(** The trimmed indices, when the box is not empty. *)
Lemma trim_to_bb_spec nddims (mb : SpanIndices) (bb : BoundingBox) (n : Z) :
  n <> 0 ->
  length (span_begin mb) = nddims -> length (span_end mb) = nddims ->
  length (bb_begin bb) = nddims -> length (bb_end bb) = nddims ->
  match trim_to_bb mb bb n with
  | Some mbi =>
      meets nddims mb bb /\
      length (span_begin mbi) = nddims /\ length (span_end mbi) = nddims /\
      span_stride mbi = span_stride mb /\
      (forall j, (j < nddims)%nat ->
         at_dim (span_begin mbi) j
         = Z.max (at_dim (span_begin mb) j) (at_dim (bb_begin bb) j) /\
         at_dim (span_end mbi) j
         = Z.min (at_dim (span_end mb) j) (at_dim (bb_end bb) j)) /\
      forall pt, in_range (span_begin mbi) (span_end mbi) pt
                 = in_range (span_begin mb) (span_end mb) pt && is_in_bb bb pt
  | None =>
      ~ meets nddims mb bb /\
      forall pt, in_range (span_begin mb) (span_end mb) pt && is_in_bb bb pt = false
  end.
Proof.
  intros Hn Hb He Hbb Hbe. unfold trim_to_bb.
  destruct (Z.eqb_spec n 0) as [H0 | _]; [contradiction |].
  pose proof (trim_loop_spec (span_begin mb) (span_end mb) (bb_begin bb) (bb_end bb)
                ltac:(lia) ltac:(lia) ltac:(lia)) as Ht.
  destruct (trim_loop (span_begin mb) (span_end mb) (bb_begin bb) (bb_end bb))
    as [[bg en]|].
  - destruct Ht as (Lb & Le & Hi & Hpt). cbn [span_begin span_end span_stride].
    split; [intros j Hj; destruct (Hi j ltac:(lia)) as (E1 & E2 & E3); lia |].
    split; [lia |]. split; [lia |]. split; [reflexivity |]. split.
    + intros j Hj. destruct (Hi j ltac:(lia)) as (E1 & E2 & _). auto.
    + exact Hpt.
  - destruct Ht as [(i & Hi & Hle) Hpt]. split; [| exact Hpt].
    intros Hm. specialize (Hm i ltac:(lia)). lia.
Qed.

Lemma tweak_strides_keep_span settings bt slab dims :
  forall adj,
    span_begin (fold_left (tweak_stride settings bt slab) dims adj) = span_begin adj /\
    span_end (fold_left (tweak_stride settings bt slab) dims adj) = span_end adj.
Proof.
  induction dims as [|j dims IH]; intros adj; cbn [fold_left]; [auto |].
  destruct (IH (tweak_stride settings bt slab adj j)) as [-> ->].
  unfold tweak_stride.
  destruct (bt && _); [auto |]. destruct (_ || bt); auto.
Qed.

(** The indices of the loops of one needed bundle. *)
Lemma reqd_bundle_span_spec nddims fold_pts settings nbt thr mbi (sg : ReqdBundle) :
  (sg <> [] -> first_output_var sg thr <> None) ->
  length (span_begin mbi) = nddims -> length (span_end mbi) = nddims ->
  (nddims <= length (span_stride mbi))%nat ->
  exists s,
    reqd_bundle_span nddims fold_pts settings nbt thr mbi sg = Some s /\
    (first_output_var sg thr = None ->
     span_begin s = span_begin mbi /\ span_end s = span_end mbi) /\
    forall j, (j < nddims)%nat ->
      match first_output_var sg thr with
      | Some g =>
          match get_dim_posn g j with
          | Some posn =>
              at_dim (span_begin s) j
              = at_dim (span_begin mbi) j
                - ROUND_UP (get_left_halo_size g posn) (at_dim fold_pts j) /\
              at_dim (span_end s) j
              = at_dim (span_end mbi) j
                + ROUND_UP (get_right_halo_size g posn) (at_dim fold_pts j)
          | None =>
              at_dim (span_begin s) j = at_dim (span_begin mbi) j /\
              at_dim (span_end s) j = at_dim (span_end mbi) j
          end
      | None =>
          at_dim (span_begin s) j = at_dim (span_begin mbi) j /\
          at_dim (span_end s) j = at_dim (span_end mbi) j
      end.
Proof.
  intros Hgp Hb He Hs. unfold reqd_bundle_span, adjust_span, first_output_var in *.
  cbv zeta.
  destruct sg as [|sv rest].
  - eexists. split; [reflexivity |].
    match goal with
    | |- context [fold_left ?f ?l ?a] =>
        destruct (tweak_strides_keep_span settings
                    ((1 <? nbt) && bind_block_threads settings)
                    (if bind_block_threads settings
                     then at_dim (_sub_block_sizes settings) (_bind_posn settings)
                     else 1) l a) as [E1 E2]
    end.
    rewrite E1, E2. split; [auto |]. intros j Hj. auto.
  - destruct (nth_error sv thr) as [g|] eqn:Eg;
      [| exfalso; apply Hgp; [discriminate | reflexivity]].
    eexists. split; [reflexivity |].
    match goal with
    | |- context [fold_left (tweak_stride ?a ?b ?c) ?l ?x] =>
        destruct (tweak_strides_keep_span a b c l x) as [E1 E2]
    end.
    rewrite E1, E2. split; [discriminate |]. intros j Hj.
    pose proof (adjust_span_at fold_pts g mbi (seq 0 nddims) (seq_NoDup nddims 0) mbi j
                  ltac:(apply in_seq; lia) ltac:(lia) ltac:(lia) ltac:(lia)
                  eq_refl eq_refl eq_refl) as H.
    cbv zeta in H. destruct (get_dim_posn g j) as [posn|].
    + destruct H as (H1 & H2 & _). auto.
    + destruct H as (H1 & H2 & _). auto.
Qed.

(** The runs of the loop over the needed bundles. *)
Lemma bundle_loop_spec nddims fold_pts settings nbt thr mbi :
  length (span_begin mbi) = nddims -> length (span_end mbi) = nddims ->
  (nddims <= length (span_stride mbi))%nat ->
  forall sgs k0,
    (forall sg, In sg sgs -> sg <> [] -> first_output_var sg thr <> None) ->
    exists l,
      bundle_loop nddims fold_pts settings nbt thr mbi k0 sgs = Some l /\
      (forall k, spans_of k l
                 = if (k0 <=? k)%nat
                   then match nth_error sgs (k - k0) with
                        | Some sg =>
                            match reqd_bundle_span nddims fold_pts settings nbt thr mbi sg
                            with
                            | Some s => [s]
                            | None => []
                            end
                        | None => []
                        end
                   else []) /\
      (forall k s, In (k, s) l -> (k0 <= k)%nat /\ In s (spans_of k l)).
Proof.
  intros Hb He Hs. induction sgs as [|sg sgs IH]; intros k0 Hgp; cbn [bundle_loop].
  - exists []. split; [reflexivity |]. split; [| intros k s []].
    intros k. cbn. destruct (k0 <=? k)%nat; [| reflexivity].
    destruct (k - k0)%nat; reflexivity.
  - destruct (reqd_bundle_span_spec nddims fold_pts settings nbt thr mbi sg
                (Hgp sg (or_introl eq_refl)) Hb He Hs) as (s0 & Hs0 & _).
    rewrite Hs0.
    destruct (IH (S k0) ltac:(intros; apply Hgp; [right |]; assumption))
      as (l & Hl & Hof & Hin).
    rewrite Hl. eexists. split; [reflexivity |].
    assert (Hof' : forall k,
               spans_of k ((k0, s0) :: l)
               = if (k0 <=? k)%nat
                 then match nth_error (sg :: sgs) (k - k0) with
                      | Some sg' =>
                          match reqd_bundle_span nddims fold_pts settings nbt thr mbi sg'
                          with
                          | Some s => [s]
                          | None => []
                          end
                      | None => []
                      end
                 else []).
    { intros k. unfold spans_of in *. cbn [filter fst].
      destruct (Nat.eqb_spec k0 k) as [<- | Hne].
      - cbn [map snd]. rewrite Hof, Nat.leb_refl, Nat.sub_diag. cbn [nth_error].
        rewrite Hs0. destruct (Nat.leb_spec (S k0) k0); [lia | reflexivity].
      - rewrite Hof. destruct (Nat.leb_spec (S k0) k), (Nat.leb_spec k0 k);
          try lia; try reflexivity.
        replace (k - k0)%nat with (S (k - S k0)) by lia. reflexivity. }
    split; [exact Hof' |].
    intros k s [[= <- <-] | Hks].
    + split; [lia |]. unfold spans_of. cbn [filter fst]. rewrite Nat.eqb_refl.
      left. reflexivity.
    + destruct (Hin k s Hks) as [Hle Hsp]. split; [lia |].
      unfold spans_of in *. cbn [filter fst].
      destruct (Nat.eqb_spec k0 k); [right |]; exact Hsp.
Qed.

Lemma spans_of_app k l1 l2 : spans_of k (l1 ++ l2) = spans_of k l1 ++ spans_of k l2.
Proof. unfold spans_of. rewrite filter_app, map_app. reflexivity. Qed.

Lemma span_hits_app l1 l2 pt :
  span_hits (l1 ++ l2) pt = (span_hits l1 pt + span_hits l2 pt)%nat.
Proof. unfold span_hits. rewrite filter_app, length_app. reflexivity. Qed.

(** X14: [calc_mini_block] of a bundle runs the mini-block loops once
    for every box of [_bb_list] that has points in common with the
    mini-block and every needed bundle (the scratch children first, the
    bundle itself last), with the indices that [adjust_span] of the
    needed bundle makes of the part of the mini-block in the box: that
    part itself for a bundle without output scratch variables, and for a
    scratch bundle that part grown, in the dimensions of its scratch
    variable, by the halos rounded up to the fold lengths.  So for a
    bundle without output scratch variables a point is in as many of
    its spans as there are boxes of the list that hold it when it is in
    the mini-block, and in none when it is not; the spans of a scratch
    bundle reach beyond the mini-block by its halos. *)
Theorem calc_mini_block_runs :
  forall (nddims : nat) (fold_pts : list Z) (settings : BlockSettings) (nbt : Z)
         (region_thread_idx : nat) (bundle_num_points : Z)
         (bb_list : list (BoundingBox * Z))
         (scratch_children : list ReqdBundle) (self : ReqdBundle)
         (mini_block_idxs : SpanIndices),
    bundle_num_points <> 0 ->
    length (span_begin mini_block_idxs) = nddims ->
    length (span_end mini_block_idxs) = nddims ->
    (nddims <= length (span_stride mini_block_idxs))%nat ->
    (forall bb n, In (bb, n) bb_list ->
                  n <> 0 /\ length (bb_begin bb) = nddims /\
                  length (bb_end bb) = nddims) ->
    (forall sg, In sg (get_reqd_bundles scratch_children self) -> sg <> [] ->
                first_output_var sg region_thread_idx <> None) ->
    exists runs,
      calc_mini_block nddims fold_pts settings nbt region_thread_idx
                      bundle_num_points bb_list scratch_children self mini_block_idxs
      = Some runs /\
      (forall k s, In (k, s) runs ->
         exists sg bb n,
           nth_error (get_reqd_bundles scratch_children self) k = Some sg /\
           In (bb, n) bb_list /\ meets nddims mini_block_idxs bb /\
           grown_part nddims fold_pts (first_output_var sg region_thread_idx)
                      mini_block_idxs bb s) /\
      (forall k sg bb n,
         nth_error (get_reqd_bundles scratch_children self) k = Some sg ->
         In (bb, n) bb_list -> meets nddims mini_block_idxs bb ->
         exists s, In (k, s) runs /\
                   grown_part nddims fold_pts (first_output_var sg region_thread_idx)
                              mini_block_idxs bb s) /\
      (forall k sg pt,
         nth_error (get_reqd_bundles scratch_children self) k = Some sg ->
         first_output_var sg region_thread_idx = None ->
         span_hits (spans_of k runs) pt
         = if in_range (span_begin mini_block_idxs) (span_end mini_block_idxs) pt
           then hits (map fst bb_list) pt else 0%nat).
Proof.
  intros nddims fold_pts settings nbt thr npts bb_list children self mb
         Hn Hb He Hs Hall Hgp.
  unfold calc_mini_block. destruct (Z.eqb_spec npts 0) as [H0 | _]; [contradiction |].
  set (sgs := get_reqd_bundles children self) in *.
  unfold ReqdBundle in *.
  induction bb_list as [|[bb n] rest IH]; cbn [bb_loop].
  - exists []. split; [reflexivity |]. split; [intros k s [] |].
    split; [intros k sg bb n _ [] |].
    intros k sg pt _ _. cbn. destruct (in_range _ _ pt); reflexivity.
  - destruct IH as (runs & Hruns & Hsound & Hcompl & Hhits);
      [intros bb' n' Hin; apply Hall; right; exact Hin |].
    destruct (Hall bb n (or_introl eq_refl)) as (Hnz & Hbb & Hbe).
    pose proof (trim_to_bb_spec nddims mb bb n Hnz Hb He Hbb Hbe) as Ht.
    destruct (trim_to_bb mb bb n) as [mbi|].
    + destruct Ht as (Hmeets & Lb & Le & Est & Hdim & Hpt).
      destruct (bundle_loop_spec nddims fold_pts settings nbt thr mbi Lb Le
                  ltac:(rewrite Est; exact Hs) sgs 0%nat Hgp)
        as (l & Hl & Hof & Hin).
      rewrite Hl, Hruns. eexists. split; [reflexivity |].
      assert (Hone : forall k sg,
                 nth_error sgs k = Some sg ->
                 exists s,
                   spans_of k l = [s] /\
                   reqd_bundle_span nddims fold_pts settings nbt thr mbi sg = Some s /\
                   grown_part nddims fold_pts (first_output_var sg thr) mb bb s).
      { intros k sg Hk.
        destruct (reqd_bundle_span_spec nddims fold_pts settings nbt thr mbi sg
                    (Hgp sg (nth_error_In _ _ Hk)) Lb Le
                    ltac:(rewrite Est; exact Hs)) as (s & Hsp & _ & Hj).
        exists s. split; [| split; [exact Hsp |]].
        - rewrite Hof. cbn [Nat.leb]. replace (k - 0)%nat with k by lia.
          rewrite Hk, Hsp. reflexivity.
        - intros j Hlt. cbv zeta. specialize (Hj j Hlt).
          destruct (Hdim j Hlt) as [<- <-]. exact Hj. }
      split; [| split].
      * intros k s Hks. apply in_app_or in Hks as [Hks | Hks].
        -- destruct (Hin k s Hks) as [_ Hsp].
           rewrite Hof in Hsp. cbn [Nat.leb] in Hsp.
           replace (k - 0)%nat with k in Hsp by lia.
           destruct (nth_error sgs k) as [sg|] eqn:Ek; [| destruct Hsp].
           destruct (Hone k sg Ek) as (s' & _ & Hsp' & Hg). rewrite Hsp' in Hsp.
           destruct Hsp as [<- | []].
           exists sg, bb, n. split; [reflexivity |]. split; [left; reflexivity |].
           split; [exact Hmeets | exact Hg].
        -- destruct (Hsound k s Hks) as (sg & bb' & n' & H1 & H2 & H3 & H4).
           exists sg, bb', n'. split; [exact H1 |]. split; [right; exact H2 |]. auto.
      * intros k sg bb' n' Hk [[= <- <-] | Hin'] Hm.
        -- destruct (Hone k sg Hk) as (s & Hsp & _ & Hg). exists s.
           split; [| exact Hg]. apply in_or_app. left.
           assert (Hs_in : In s (spans_of k l)) by (rewrite Hsp; left; reflexivity).
           unfold spans_of in Hs_in. apply in_map_iff in Hs_in as ([k' s'] & E & Hf).
           apply filter_In in Hf as [Hf Hk']. cbn in E, Hk'. subst s'.
           apply Nat.eqb_eq in Hk'. subst k'. exact Hf.
        -- destruct (Hcompl k sg bb' n' Hk Hin' Hm) as (s & Hs1 & Hs2).
           exists s. split; [apply in_or_app; right; exact Hs1 | exact Hs2].
      * intros k sg pt Hk Hnone. rewrite spans_of_app, span_hits_app.
        rewrite (Hhits k sg pt Hk Hnone). cbn [map fst]. rewrite hits_cons.
        destruct (Hone k sg Hk) as (s & Hsp & Hrs & _). rewrite Hsp.
        destruct (reqd_bundle_span_spec nddims fold_pts settings nbt thr mbi sg
                    (Hgp sg (nth_error_In _ _ Hk)) Lb Le
                    ltac:(rewrite Est; exact Hs)) as (s' & Hsp' & Hsame & _).
        rewrite Hrs in Hsp'. injection Hsp' as <-.
        destruct (Hsame Hnone) as [E1 E2].
        unfold span_hits at 1. cbn [filter]. rewrite E1, E2, Hpt.
        destruct (in_range (span_begin mb) (span_end mb) pt), (is_in_bb bb pt);
          cbn [andb length]; lia.
    + destruct Ht as [Hno Hpt]. exists runs. split; [exact Hruns |].
      split; [| split].
      * intros k s Hks.
        destruct (Hsound k s Hks) as (sg & bb' & n' & H1 & H2 & H3 & H4).
        exists sg, bb', n'. split; [exact H1 |]. split; [right; exact H2 |]. auto.
      * intros k sg bb' n' Hk [[= <- <-] | Hin'] Hm; [contradiction |].
        exact (Hcompl k sg bb' n' Hk Hin' Hm).
      * intros k sg pt Hk Hnone. rewrite (Hhits k sg pt Hk Hnone).
        cbn [map fst]. rewrite hits_cons. specialize (Hpt pt).
        destruct (in_range (span_begin mb) (span_end mb) pt), (is_in_bb bb pt);
          cbn [andb] in Hpt; try discriminate; reflexivity.
Qed.

Lemma calc_mini_block_runs_witness :
  calc_mini_block 2 [1; 1] x14_settings 1 0 8
                  [(mkBB [0; 0] [2; 2], 4); (mkBB [4; 0] [6; 2], 4)]
                  [[[x14_scratch]]] [] (mkSpan [1; 0] [5; 2] [4; 4])
  = Some [(0%nat, mkSpan [0; -1] [3; 3] [3; 4]); (1%nat, mkSpan [1; 0] [2; 2] [4; 4]);
          (0%nat, mkSpan [3; -1] [6; 3] [3; 4]); (1%nat, mkSpan [4; 0] [5; 2] [4; 4])] /\
  (forall pt,
      span_hits [mkSpan [1; 0] [2; 2] [4; 4]; mkSpan [4; 0] [5; 2] [4; 4]] pt
      = if in_range [1; 0] [5; 2] pt
        then hits [mkBB [0; 0] [2; 2]; mkBB [4; 0] [6; 2]] pt else 0%nat).
Proof.
  split; [reflexivity |].
  destruct (calc_mini_block_runs 2 [1; 1] x14_settings 1 0 8
              [(mkBB [0; 0] [2; 2], 4); (mkBB [4; 0] [6; 2], 4)]
              [[[x14_scratch]]] [] (mkSpan [1; 0] [5; 2] [4; 4]))
    as (runs & Hruns & _ & _ & Hhits).
  - lia.
  - reflexivity.
  - reflexivity.
  - simpl; lia.
  - intros bb n [[= <- <-] | [[= <- <-] | []]]; repeat split; lia.
  - intros sg [<- | [<- | []]] Hne; [discriminate | contradiction].
  - vm_compute in Hruns. injection Hruns as <-.
    intros pt. exact (Hhits 1%nat [] pt eq_refl eq_refl).
Defined.

End SubBoxProofs.

(** ** exchange_halos and update_vars *)
Module HaloProofs.
Import Common Data Halo.
Import TagSpec TagProofs.
Import HaloSpec.

(** *** The calls of the four steps *)

Lemma visit_neighbor_snd m hs gi g gp vars calls n :
  snd (visit_neighbor m hs gi g gp (vars, calls) n)
  = calls ++ neighbor_call hs gi g n.
Proof.
  unfold visit_neighbor, neighbor_call. destruct hs.
  - destruct (_ && _); cbn [snd]; [reflexivity | rewrite app_nil_r; reflexivity].
  - destruct (_ && _); cbn [snd]; [reflexivity | rewrite app_nil_r; reflexivity].
  - destruct (_ && _); cbn [snd]; [reflexivity | rewrite app_nil_r; reflexivity].
  - destruct (_ && _); destruct (ptr_find gp (firstStepsToSwap m));
      destruct (ptr_find gp (lastStepsToSwap m)); cbn [snd];
      rewrite ?app_nil_r; reflexivity.
Qed.

Lemma visit_neighbors_snd m hs gi g gp nbrs :
  forall vars calls,
    snd (fold_left (visit_neighbor m hs gi g gp) nbrs (vars, calls))
    = calls ++ flat_map (neighbor_call hs gi g) nbrs.
Proof.
  induction nbrs as [|n nbrs IH]; intros vars calls; cbn [fold_left flat_map].
  - rewrite app_nil_r. reflexivity.
  - pose proof (visit_neighbor_snd m hs gi g gp vars calls n) as E.
    destruct (visit_neighbor m hs gi g gp (vars, calls) n) as [vars1 calls1].
    cbn [snd] in E. subst calls1. rewrite IH, app_assoc. reflexivity.
Qed.

Lemma swap_loop_snd h m hs to_swap :
  forall gi vars calls,
    snd (swap_loop h m hs gi to_swap (vars, calls))
    = calls ++ step_calls h hs gi to_swap.
Proof.
  induction to_swap as [|[g gp] rest IH]; intros gi vars calls;
    cbn [swap_loop step_calls].
  - rewrite app_nil_r. reflexivity.
  - cbv zeta.
    pose proof (visit_neighbors_snd m hs (gi + 1) g gp
                  match mpi_find g (mpiData h) with Some ns => ns | None => [] end
                  vars calls) as E.
    destruct (fold_left (visit_neighbor m hs (gi + 1) g gp) _ (vars, calls))
      as [vars1 calls1].
    cbn [snd] in E. subst calls1. rewrite IH, app_assoc. reflexivity.
Qed.

Lemma steps_snd h m steps :
  forall vars calls,
    snd (fold_left (fun st hs => swap_loop h m hs 0 (varsToSwap m) st) steps
                   (vars, calls))
    = calls ++ flat_map (fun hs => step_calls h hs 0 (varsToSwap m)) steps.
Proof.
  induction steps as [|hs steps IH]; intros vars calls; cbn [fold_left flat_map].
  - rewrite app_nil_r. reflexivity.
  - pose proof (swap_loop_snd h m hs (varsToSwap m) 0 vars calls) as E.
    destruct (swap_loop h m hs 0 (varsToSwap m) (vars, calls)) as [vars1 calls1].
    cbn [snd] in E. subst calls1. rewrite IH, app_assoc. reflexivity.
Qed.

Lemma neighbor_call_waits gi g n :
  map completion (neighbor_call halo_irecv gi g n)
  = map Some (neighbor_call halo_unpack gi g n) /\
  map completion (neighbor_call halo_pack_isend gi g n)
  = map Some (neighbor_call halo_final gi g n) /\
  Forall (is_request true) (neighbor_call halo_irecv gi g n) /\
  Forall (is_request false) (neighbor_call halo_pack_isend gi g n).
Proof.
  unfold neighbor_call.
  destruct (negb (recv_bytes n =? 0) && negb (using_shm n)),
    (negb (send_bytes n =? 0) && negb (using_shm n)); cbn [map completion];
    repeat split; repeat constructor.
Qed.

Lemma neighbors_calls_waits gi g nbrs :
  map completion (flat_map (neighbor_call halo_irecv gi g) nbrs)
  = map Some (flat_map (neighbor_call halo_unpack gi g) nbrs) /\
  map completion (flat_map (neighbor_call halo_pack_isend gi g) nbrs)
  = map Some (flat_map (neighbor_call halo_final gi g) nbrs) /\
  Forall (is_request true) (flat_map (neighbor_call halo_irecv gi g) nbrs) /\
  Forall (is_request false) (flat_map (neighbor_call halo_pack_isend gi g) nbrs).
Proof.
  induction nbrs as [|n nbrs IH]; cbn [flat_map]; [repeat split; constructor |].
  destruct IH as (I1 & I2 & I3 & I4).
  destruct (neighbor_call_waits gi g n) as (N1 & N2 & N3 & N4).
  rewrite !map_app, I1, I2, N1, N2.
  split; [reflexivity |]. split; [reflexivity |]. split; apply Forall_app; auto.
Qed.

Lemma step_calls_waits h to_swap :
  forall gi,
    map completion (step_calls h halo_irecv gi to_swap)
    = map Some (step_calls h halo_unpack gi to_swap) /\
    map completion (step_calls h halo_pack_isend gi to_swap)
    = map Some (step_calls h halo_final gi to_swap) /\
    Forall (is_request true) (step_calls h halo_irecv gi to_swap) /\
    Forall (is_request false) (step_calls h halo_pack_isend gi to_swap).
Proof.
  induction to_swap as [|[g gp] rest IH]; intros gi; cbn [step_calls].
  - repeat split; constructor.
  - cbv zeta. destruct (IH (gi + 1)) as (H1 & H2 & H3 & H4).
    set (nbrs := match mpi_find g (mpiData h) with Some ns => ns | None => [] end).
    destruct (neighbors_calls_waits (gi + 1) g nbrs) as (N1 & N2 & N3 & N4).
    rewrite !map_app, H1, H2, N1, N2.
    split; [reflexivity |]. split; [reflexivity |].
    split; apply Forall_app; auto.
Qed.

(** *** The dirty flags after the exchange *)

Lemma nth_set_flag (l : list bool) :
  forall i j b,
    nth j (set_flag l i b) false
    = if (i =? j)%nat && (i <? length l)%nat then b else nth j l false.
Proof.
  induction l as [|x l IH]; intros i j b.
  - destruct i, j; cbn [set_flag nth length]; rewrite andb_false_r; reflexivity.
  - destruct i as [|i], j as [|j]; cbn [set_flag nth length]; try reflexivity.
    rewrite IH. reflexivity.
Qed.

Lemma is_dirty_set_clean (v : YkVar) (si t : Z) :
  is_dirty (set_dirty false si v) t
  = is_dirty v t && negb (wrap_step v si =? wrap_step v t)%nat.
Proof.
  unfold is_dirty, set_dirty. cbn [dirty_steps].
  change (wrap_step (mkVar _ _ _ _ _ _) t) with (wrap_step v t).
  rewrite nth_set_flag.
  destruct (Nat.eqb_spec (wrap_step v si) (wrap_step v t)) as [E | E]; cbn [andb negb].
  - destruct (Nat.ltb_spec (wrap_step v si) (length (dirty_steps v))) as [Hl | Hl].
    + rewrite andb_false_r. reflexivity.
    + rewrite <- E, nth_overflow by lia. reflexivity.
  - rewrite andb_true_r. reflexivity.
Qed.

Lemma cleared_refl v : cleared v v.
Proof. unfold cleared. tauto. Qed.

Lemma cleared_trans a b c : cleared a b -> cleared b c -> cleared a c.
Proof.
  unfold cleared. intros (A1 & A2 & A3 & A4 & A5 & A6) (B1 & B2 & B3 & B4 & B5 & B6).
  repeat split; try congruence. auto.
Qed.

Lemma set_clean_cleared v si : cleared v (set_dirty false si v).
Proof.
  unfold cleared. repeat split; try reflexivity.
  intros t. rewrite is_dirty_set_clean. intros H. apply andb_true_iff in H. tauto.
Qed.

Lemma mark_clean_steps (steps : list Z) :
  forall v,
    let v' := fold_left (fun v si => if is_dirty v si then set_dirty false si v else v)
                        steps v in
    cleared v v' /\ forall si, In si steps -> is_dirty v' si = false.
Proof.
  induction steps as [|s steps IH]; intros v; cbn [fold_left].
  - split; [apply cleared_refl | intros si []].
  - cbv zeta.
    set (v1 := if is_dirty v s then set_dirty false s v else v).
    assert (Hc1 : cleared v v1)
      by (unfold v1; destruct (is_dirty v s); [apply set_clean_cleared | apply cleared_refl]).
    assert (Hs1 : is_dirty v1 s = false).
    { unfold v1. destruct (is_dirty v s) eqn:E; [| exact E].
      rewrite is_dirty_set_clean, Nat.eqb_refl, andb_false_r. reflexivity. }
    destruct (IH v1) as [Hc Hs]. split; [eapply cleared_trans; eassumption |].
    intros si [<- | Hin]; [| apply Hs, Hin].
    destruct Hc as (_ & _ & _ & _ & _ & Hmono).
    destruct (is_dirty (fold_left _ steps v1) s) eqn:E; [| reflexivity].
    apply Hmono in E. congruence.
Qed.

Lemma in_steps_from_iff (first : Z) (n : nat) (t : Z) :
  In t (steps_from first n) <-> first <= t < first + Z.of_nat n.
Proof.
  unfold steps_from. rewrite in_map_iff. split.
  - intros (k & <- & Hk). apply in_seq in Hk. lia.
  - intros H. exists (Z.to_nat (t - first)). split; [lia | apply in_seq; lia].
Qed.

Lemma mark_clean_spec (f l : Z) (v : YkVar) :
  cleared v (mark_clean f l v) /\
  forall t, f <= t <= l -> is_dirty (mark_clean f l v) t = false.
Proof.
  unfold mark_clean.
  destruct (mark_clean_steps (steps_from f (Z.to_nat (l - f + 1))) v) as [Hc Hs].
  split; [exact Hc |]. intros t Ht. apply Hs, in_steps_from_iff. lia.
Qed.

(** *** The variables to swap *)

Lemma ptr_find_set_same gp x m : ptr_find gp (ptr_set gp x m) = Some x.
Proof.
  induction m as [|[k y] m IH]; cbn [ptr_set ptr_find].
  - rewrite Nat.eqb_refl. reflexivity.
  - destruct (Nat.eqb_spec k gp) as [-> | Hne]; cbn [ptr_find].
    + rewrite Nat.eqb_refl. reflexivity.
    + destruct (Nat.eqb_spec k gp); [contradiction | exact IH].
Qed.

Lemma ptr_find_set_other gp gp' x m :
  gp <> gp' -> ptr_find gp' (ptr_set gp x m) = ptr_find gp' m.
Proof.
  intros Hne. induction m as [|[k y] m IH]; cbn [ptr_set ptr_find].
  - destruct (Nat.eqb_spec gp gp'); [contradiction | reflexivity].
  - destruct (Nat.eqb_spec k gp) as [-> | Hk]; cbn [ptr_find].
    + destruct (Nat.eqb_spec gp gp'); [contradiction | reflexivity].
    + destruct (Nat.eqb_spec k gp'); [reflexivity | exact IH].
Qed.

Lemma map_insert_in k gp m g p :
  In (g, p) (map_insert k gp m) -> (g, p) = (k, gp) \/ In (g, p) m.
Proof.
  induction m as [|[k' gp'] m IH]; cbn [map_insert].
  - intros [H | []]. left. congruence.
  - destruct (String.compare k k').
    + intros [H | H]; [left; congruence | right; right; exact H].
    + intros [H | H]; [left; congruence | right; exact H].
    + intros [H | H]; [right; left; exact H |].
      destruct (IH H) as [E | Hin]; [left; exact E | right; right; exact Hin].
Qed.

Lemma map_insert_new k gp m : In (k, gp) (map_insert k gp m).
Proof.
  induction m as [|[k' gp'] m IH]; cbn [map_insert]; [left; reflexivity |].
  destruct (String.compare k k'); [left; reflexivity | left; reflexivity |].
  right. exact IH.
Qed.

Lemma map_insert_keeps k gp m g p :
  g <> k -> In (g, p) m -> In (g, p) (map_insert k gp m).
Proof.
  intros Hne. induction m as [|[k' gp'] m IH]; cbn [map_insert]; [intros [] |].
  destruct (String.compare k k') eqn:E.
  - apply String_as_OT.cmp_eq in E. subst k'.
    intros [H | H]; [congruence | right; exact H].
  - intros H. right. exact H.
  - intros [H | H]; [left; exact H | right; apply IH, H].
Qed.

Lemma scan_step_spans gp v m t :
  (forall gp' u, spans m gp' u -> spans (scan_step gp v m t) gp' u) /\
  (is_dirty v t = true -> spans (scan_step gp v m t) gp t) /\
  (forall g p, In (g, p) (varsToSwap (scan_step gp v m t)) ->
               (g, p) = (get_name v, gp) /\ is_dirty v t = true
               \/ In (g, p) (varsToSwap m)) /\
  (is_dirty v t = true -> In (get_name v, gp) (varsToSwap (scan_step gp v m t))) /\
  (forall g p, g <> get_name v -> In (g, p) (varsToSwap m) ->
               In (g, p) (varsToSwap (scan_step gp v m t))) /\
  (In (get_name v, gp) (varsToSwap m) ->
   In (get_name v, gp) (varsToSwap (scan_step gp v m t))).
Proof.
  unfold scan_step. destruct (is_dirty v t) eqn:Ed; cbn [negb].
  2:{ repeat split; auto; try discriminate. }
  set (first' := match ptr_find gp (firstStepsToSwap m) with
                 | None => ptr_set gp t (firstStepsToSwap m)
                 | Some f => if t <? f then ptr_set gp t (firstStepsToSwap m)
                             else firstStepsToSwap m
                 end).
  set (last' := match ptr_find gp (lastStepsToSwap m) with
                | None => ptr_set gp t (lastStepsToSwap m)
                | Some l => if l <? t then ptr_set gp t (lastStepsToSwap m)
                            else lastStepsToSwap m
                end).
  assert (Hf : exists f', ptr_find gp first' = Some f' /\ f' <= t /\
                          forall f, ptr_find gp (firstStepsToSwap m) = Some f -> f' <= f).
  { unfold first'. destruct (ptr_find gp (firstStepsToSwap m)) as [f|] eqn:E.
    - destruct (Z.ltb_spec t f).
      + exists t. rewrite ptr_find_set_same. split; [reflexivity |]. split; [lia |].
        intros f0 [= <-]. lia.
      + exists f. split; [exact E |]. split; [lia |]. intros f0 [= <-]. lia.
    - exists t. rewrite ptr_find_set_same. split; [reflexivity |]. split; [lia |].
      intros f0 H. discriminate. }
  assert (Hl : exists l', ptr_find gp last' = Some l' /\ t <= l' /\
                          forall l, ptr_find gp (lastStepsToSwap m) = Some l -> l <= l').
  { unfold last'. destruct (ptr_find gp (lastStepsToSwap m)) as [l|] eqn:E.
    - destruct (Z.ltb_spec l t).
      + exists t. rewrite ptr_find_set_same. split; [reflexivity |]. split; [lia |].
        intros l0 [= <-]. lia.
      + exists l. split; [exact E |]. split; [lia |]. intros l0 [= <-]. lia.
    - exists t. rewrite ptr_find_set_same. split; [reflexivity |]. split; [lia |].
      intros l0 H. discriminate. }
  assert (Hfo : forall gp', gp' <> gp ->
                            ptr_find gp' first' = ptr_find gp' (firstStepsToSwap m)).
  { intros gp' Hne. unfold first'.
    destruct (ptr_find gp (firstStepsToSwap m)) as [f|];
      [destruct (t <? f) |]; rewrite ?ptr_find_set_other by auto; reflexivity. }
  assert (Hlo : forall gp', gp' <> gp ->
                            ptr_find gp' last' = ptr_find gp' (lastStepsToSwap m)).
  { intros gp' Hne. unfold last'.
    destruct (ptr_find gp (lastStepsToSwap m)) as [l|];
      [destruct (l <? t) |]; rewrite ?ptr_find_set_other by auto; reflexivity. }
  destruct Hf as (f' & Hf1 & Hf2 & Hf3). destruct Hl as (l' & Hl1 & Hl2 & Hl3).
  unfold spans. cbn [firstStepsToSwap lastStepsToSwap varsToSwap].
  split; [| split; [| split; [| split; [| split]]]].
  - intros gp' u (f & l & Hf & Hl & Hu).
    destruct (Nat.eq_dec gp' gp) as [-> | Hne].
    + exists f', l'. specialize (Hf3 f Hf). specialize (Hl3 l Hl).
      split; [exact Hf1 |]. split; [exact Hl1 | lia].
    + exists f, l. rewrite Hfo, Hlo by exact Hne. auto.
  - intros _. exists f', l'. auto.
  - intros g p Hin. apply map_insert_in in Hin as [E | Hin]; [left | right]; auto.
  - intros _. apply map_insert_new.
  - intros g p Hne Hin. apply map_insert_keeps; assumption.
  - intros _. apply map_insert_new.
Qed.

Lemma scan_steps_spec gp v ts :
  forall m,
    let m' := fold_left (scan_step gp v) ts m in
    (forall gp' u, spans m gp' u -> spans m' gp' u) /\
    (forall t, In t ts -> is_dirty v t = true ->
               spans m' gp t /\ In (get_name v, gp) (varsToSwap m')) /\
    (forall g p, In (g, p) (varsToSwap m') ->
                 (g, p) = (get_name v, gp) /\ (exists t, In t ts /\ is_dirty v t = true)
                 \/ In (g, p) (varsToSwap m)) /\
    (forall g p, g <> get_name v -> In (g, p) (varsToSwap m) ->
                 In (g, p) (varsToSwap m')) /\
    (In (get_name v, gp) (varsToSwap m) -> In (get_name v, gp) (varsToSwap m')).
Proof.
  induction ts as [|t ts IH]; intros m; cbn [fold_left].
  - cbv zeta. repeat split; auto;
      match goal with H : In _ [] |- _ => destruct H end.
  - cbv zeta.
    destruct (scan_step_spans gp v m t) as (S1 & S2 & S3 & S4 & S5 & S6).
    destruct (IH (scan_step gp v m t)) as (I1 & I2 & I3 & I4 & I5).
    split; [| split; [| split; [| split]]].
    + intros gp' u H. apply I1, S1, H.
    + intros u [<- | Hin] Hd; [| apply I2; assumption].
      split; [apply I1, S2, Hd | apply I5, S4, Hd].
    + intros g p Hin. destruct (I3 g p Hin) as [(E & u & Hu & Hd) | Hin'].
      * left. split; [exact E |]. exists u. split; [right; exact Hu | exact Hd].
      * destruct (S3 g p Hin') as [(E & Hd) | Hin'']; [left | right; exact Hin''].
        split; [exact E |]. exists t. split; [left; reflexivity | exact Hd].
    + intros g p Hne Hin. apply I4; [exact Hne |]. apply S5; assumption.
    + intros Hin. apply I5, S6, Hin.
Qed.

Lemma scan_var_spec h gp v m :
  let m' := scan_var h m (gp, v) in
  (forall gp' u, spans m gp' u -> spans m' gp' u) /\
  (forall t, needs_swap h v t ->
             spans m' gp t /\ In (get_name v, gp) (varsToSwap m')) /\
  (forall g p, In (g, p) (varsToSwap m') ->
               (g, p) = (get_name v, gp) /\ (exists t, needs_swap h v t)
               \/ In (g, p) (varsToSwap m)) /\
  (forall g p, g <> get_name v -> In (g, p) (varsToSwap m) ->
               In (g, p) (varsToSwap m')).
Proof.
  unfold scan_var, needs_swap. cbv zeta.
  destruct (is_scratch v) eqn:Es.
  { split; [auto |]. split; [intros t (H & _); discriminate |]. split; auto. }
  destruct (mpi_find (get_name v) (mpiData h)) as [ns|] eqn:Em.
  2:{ split; [auto |]. split; [intros t (_ & H & _); congruence |]. split; auto. }
  fold (checked_steps v).
  destruct (scan_steps_spec gp v (checked_steps v) m) as (I1 & I2 & I3 & I4 & I5).
  split; [exact I1 |]. split; [| split; [| exact I4]].
  - intros t (_ & _ & Hin & Hd). apply I2; assumption.
  - intros g p Hin. destruct (I3 g p Hin) as [(E & u & Hu & Hd) | Hin'];
      [left | right; exact Hin'].
    split; [exact E |]. exists u. repeat split; auto. discriminate.
Qed.

Lemma scan_vars_spec h gvs :
  forall m,
    let m' := fold_left (scan_var h) gvs m in
    (forall gp' u, spans m gp' u -> spans m' gp' u) /\
    (forall g p, In (g, p) (varsToSwap m') ->
                 (exists v t, In (p, v) gvs /\ g = get_name v /\ needs_swap h v t)
                 \/ In (g, p) (varsToSwap m)) /\
    (forall gp v t, In (gp, v) gvs -> needs_swap h v t -> spans m' gp t) /\
    (NoDup (map (fun gv => get_name (snd gv)) gvs) ->
     (forall g p, ~ In g (map (fun gv => get_name (snd gv)) gvs) ->
                  In (g, p) (varsToSwap m) -> In (g, p) (varsToSwap m')) /\
     (forall gp v t, In (gp, v) gvs -> needs_swap h v t ->
                     In (get_name v, gp) (varsToSwap m'))).
Proof.
  induction gvs as [|[gp0 v0] gvs IH]; intros m; cbn [fold_left].
  - cbv zeta. split; [auto |]. split; [auto |]. split; [intros gp v t [] |].
    intros _. split; [auto | intros gp v t []].
  - cbv zeta.
    destruct (scan_var_spec h gp0 v0 m) as (S1 & S2 & S3 & S4).
    destruct (IH (scan_var h m (gp0, v0))) as (I1 & I2 & I3 & I4).
    split; [| split; [| split]].
    + intros gp' u H. apply I1, S1, H.
    + intros g p Hin. destruct (I2 g p Hin) as [(v & t & Hv & E & Hn) | Hin'].
      * left. exists v, t. split; [right; exact Hv | auto].
      * destruct (S3 g p Hin') as [(E & t & Hn) | Hin'']; [left | right; exact Hin''].
        injection E as -> ->. exists v0, t. split; [left; reflexivity | auto].
    + intros gp v t [E | Hin] Hn.
      * injection E as -> ->. apply I1. apply (S2 t Hn).
      * eapply I3; eassumption.
    + intros Hnd. cbn [map snd] in Hnd. apply NoDup_cons_iff in Hnd as [Hnotin Hnd].
      destruct (I4 Hnd) as [I5 I6]. split.
      * intros g p Hg Hin. cbn [map snd] in Hg. apply I5; [intros Hx; apply Hg; right; exact Hx |].
        apply S4; [| exact Hin]. intros ->. apply Hg. left; reflexivity.
      * intros gp v t [E | Hin] Hn.
        -- injection E as -> ->. apply I5; [exact Hnotin |]. apply (S2 t Hn).
        -- eapply I6; eassumption.
Qed.

Lemma in_combine_seq {A} (l : list A) :
  forall s p x, In (p, x) (combine (seq s (length l)) l) <->
                (s <= p)%nat /\ nth_error l (p - s) = Some x.
Proof.
  induction l as [|a l IH]; intros s p x; cbn [length seq combine In].
  - split; [intros [] | intros [_ H]; destruct (p - s)%nat; discriminate].
  - rewrite IH. split.
    + intros [E | [Hle Hn]].
      * injection E as -> ->. rewrite Nat.sub_diag. split; [lia | reflexivity].
      * split; [lia |]. replace (p - s)%nat with (S (p - S s)) by lia. exact Hn.
    + intros [Hle Hn]. destruct (Nat.eq_dec p s) as [-> | Hne].
      * rewrite Nat.sub_diag in Hn. injection Hn as ->. left; reflexivity.
      * right. split; [lia |]. replace (p - s)%nat with (S (p - S s)) in Hn by lia.
        exact Hn.
Qed.

Lemma map_snd_combine_seq {A B} (f : A -> B) (l : list A) :
  forall s, map (fun gv : nat * A => f (snd gv)) (combine (seq s (length l)) l) = map f l.
Proof.
  induction l as [|a l IH]; intros s; cbn [length seq combine map snd]; [reflexivity |].
  rewrite IH. reflexivity.
Qed.

Lemma vars_to_swap_spec h vars :
  let m := vars_to_swap h vars in
  (forall g p, In (g, p) (varsToSwap m) ->
               exists v t, nth_error vars p = Some v /\ g = get_name v /\
                           needs_swap h v t) /\
  (forall p v t, nth_error vars p = Some v -> needs_swap h v t -> spans m p t) /\
  (NoDup (map get_name vars) ->
   forall p v t, nth_error vars p = Some v -> needs_swap h v t ->
                 In (get_name v, p) (varsToSwap m)).
Proof.
  unfold vars_to_swap. cbv zeta.
  destruct (scan_vars_spec h (combine (seq 0 (length vars)) vars) (mkSwap [] [] []))
    as (_ & I2 & I3 & I4).
  split; [| split].
  - intros g p Hin. destruct (I2 g p Hin) as [(v & t & Hv & E & Hn) | []].
    apply in_combine_seq in Hv as [_ Hv]. rewrite Nat.sub_0_r in Hv. eauto.
  - intros p v t Hv Hn. apply (I3 p v t); [| exact Hn].
    apply in_combine_seq. rewrite Nat.sub_0_r. split; [lia | exact Hv].
  - intros Hnd. rewrite <- (map_snd_combine_seq get_name vars 0) in Hnd.
    destruct (I4 Hnd) as [_ I6]. intros p v t Hv Hn. apply (I6 p v t); [| exact Hn].
    apply in_combine_seq. rewrite Nat.sub_0_r. split; [lia | exact Hv].
Qed.

(** *** The last step of the exchange *)

Lemma nth_error_at_var_pos gp f vars :
  forall p, nth_error (at_var gp f vars) p
            = if (gp =? p)%nat then option_map f (nth_error vars p)
              else nth_error vars p.
Proof.
  revert gp. induction vars as [|v vars IH]; intros [|gp] [|p];
    cbn [at_var nth_error Nat.eqb option_map]; try reflexivity.
  - destruct (_ =? _)%nat; reflexivity.
  - apply IH.
Qed.

Lemma cleared_clean_in m gp v v' : cleared v v' -> clean_in m gp v -> clean_in m gp v'.
Proof.
  intros (_ & _ & _ & _ & _ & Hmono) Hc f l t Hf Hl Ht.
  destruct (is_dirty v' t) eqn:E; [| reflexivity].
  apply Hmono in E. rewrite (Hc f l t Hf Hl Ht) in E. discriminate.
Qed.

Lemma visit_neighbor_fst m hs gi g gp st n :
  hs <> halo_final -> fst (visit_neighbor m hs gi g gp st n) = fst st.
Proof.
  intros Hne. destruct st as [vars calls]. destruct hs; cbn [visit_neighbor];
    try contradiction; destruct (_ && _); reflexivity.
Qed.

Lemma visit_neighbors_fst m hs gi g gp ns :
  hs <> halo_final ->
  forall st, fst (fold_left (visit_neighbor m hs gi g gp) ns st) = fst st.
Proof.
  intros Hne. induction ns as [|n ns IH]; intros st; cbn [fold_left]; [reflexivity |].
  rewrite IH. apply visit_neighbor_fst, Hne.
Qed.

Lemma swap_loop_fst h m hs entries :
  hs <> halo_final ->
  forall gi st, fst (swap_loop h m hs gi entries st) = fst st.
Proof.
  intros Hne. induction entries as [|[g gp] entries IH]; intros gi st;
    cbn [swap_loop]; [reflexivity |].
  cbv zeta. rewrite IH. apply visit_neighbors_fst, Hne.
Qed.

Lemma visit_final m gi g gp st n p v1 :
  nth_error (fst st) p = Some v1 ->
  exists v2,
    nth_error (fst (visit_neighbor m halo_final gi g gp st n)) p = Some v2 /\
    cleared v1 v2 /\ (p <> gp -> v2 = v1) /\ (p = gp -> clean_in m gp v2).
Proof.
  destruct st as [vars calls]. cbn [fst visit_neighbor]. intros Hp.
  destruct (ptr_find gp (firstStepsToSwap m)) as [f|] eqn:Ef.
  2:{ exists v1. cbn [fst]. split; [exact Hp |]. split; [apply cleared_refl |].
      split; [reflexivity |]. intros _ f l t Hf. congruence. }
  destruct (ptr_find gp (lastStepsToSwap m)) as [l|] eqn:El.
  2:{ exists v1. cbn [fst]. split; [exact Hp |]. split; [apply cleared_refl |].
      split; [reflexivity |]. intros _ f' l t Hf Hl. congruence. }
  cbn [fst]. rewrite nth_error_at_var_pos.
  destruct (Nat.eqb_spec gp p) as [-> | Hne].
  - rewrite Hp. cbn [option_map]. exists (mark_clean f l v1).
    destruct (mark_clean_spec f l v1) as [Hc Hs].
    split; [reflexivity |]. split; [exact Hc |]. split; [congruence |].
    intros _ f' l' t Hf Hl Ht. apply Hs. rewrite Ef in Hf. rewrite El in Hl.
    injection Hf as <-. injection Hl as <-. exact Ht.
  - exists v1. split; [exact Hp |]. split; [apply cleared_refl |].
    split; [reflexivity | congruence].
Qed.

Lemma visits_final m gi g gp p ns :
  forall st v1,
    nth_error (fst st) p = Some v1 ->
    exists v2,
      nth_error (fst (fold_left (visit_neighbor m halo_final gi g gp) ns st)) p
      = Some v2 /\
      cleared v1 v2 /\ (p <> gp \/ ns = [] -> v2 = v1) /\
      (p = gp -> ns <> [] -> clean_in m gp v2).
Proof.
  induction ns as [|n ns IH]; intros st v1 Hp; cbn [fold_left].
  - exists v1. split; [exact Hp |]. split; [apply cleared_refl |].
    split; [reflexivity | congruence].
  - destruct (visit_final m gi g gp st n p v1 Hp) as (v2 & H2 & C2 & O2 & K2).
    destruct (IH _ v2 H2) as (v3 & H3 & C3 & O3 & K3).
    exists v3. split; [exact H3 |]. split; [eapply cleared_trans; eassumption |].
    split.
    + intros [Hne | Hnil]; [| discriminate].
      rewrite O3 by (left; exact Hne). apply O2, Hne.
    + intros E _. eapply cleared_clean_in; [exact C3 | apply K2, E].
Qed.

Lemma loop_final h m p entries :
  forall gi st v1,
    nth_error (fst st) p = Some v1 ->
    exists v2,
      nth_error (fst (swap_loop h m halo_final gi entries st)) p = Some v2 /\
      cleared v1 v2 /\
      ((forall g, In (g, p) entries -> nbrs_of h g = []) -> v2 = v1) /\
      (forall g, In (g, p) entries -> nbrs_of h g <> [] -> clean_in m p v2).
Proof.
  induction entries as [|[g gp] entries IH]; intros gi st v1 Hp; cbn [swap_loop].
  - exists v1. split; [exact Hp |]. split; [apply cleared_refl |].
    split; [reflexivity | intros g []].
  - cbv zeta. fold (nbrs_of h g).
    destruct (visits_final m (gi + 1) g gp p (nbrs_of h g) st v1 Hp)
      as (v2 & H2 & C2 & O2 & K2).
    destruct (IH (gi + 1) _ v2 H2) as (v3 & H3 & C3 & O3 & K3).
    exists v3. split; [exact H3 |]. split; [eapply cleared_trans; eassumption |].
    split.
    + intros Hall. rewrite O3 by (intros g' Hin; apply Hall; right; exact Hin).
      apply O2. destruct (Nat.eq_dec p gp) as [-> | Hne]; [right | left; exact Hne].
      apply Hall. left; reflexivity.
    + intros g' [E | Hin] Hns.
      * injection E as -> ->. eapply cleared_clean_in; [exact C3 |]. apply K2; auto.
      * eapply K3; eassumption.
Qed.

(** X16: with halo exchange enabled on two or more ranks,
    [exchange_halos] changes nothing in a variable but dirty flags, and
    it only clears them.  It leaves a variable as it is when the call
    does not include the interior ([do_mpi_interior] off), when the
    variable is scratch, has no MPI data or no neighbour in it, or has no
    dirty step among the steps checked.  When the interior is included
    and the variables have distinct names, a variable that is not
    scratch and has at least one neighbour has no dirty step left among
    the steps checked. *)
Theorem exchange_halos_cleans_swapped_vars :
  forall (h : HaloCtx) (vars : list YkVar) (p : nat) (v : YkVar),
    enable_halo_exchange h = true -> 2 <= num_ranks h ->
    nth_error vars p = Some v ->
    exists v',
      nth_error (fst (exchange_halos h vars)) p = Some v' /\
      cleared v v' /\
      (do_mpi_interior h = false \/ is_scratch v = true \/
       nbrs_of h (get_name v) = [] \/
       (forall t, In t (checked_steps v) -> is_dirty v t = false) -> v' = v) /\
      (do_mpi_interior h = true -> NoDup (map get_name vars) ->
       is_scratch v = false -> nbrs_of h (get_name v) <> [] ->
       forall t, In t (checked_steps v) -> is_dirty v' t = false).
Proof.
  intros h vars p v Hen Hnr Hp. unfold exchange_halos.
  rewrite Hen. destruct (Z.ltb_spec (num_ranks h) 2) as [Hlt | _]; [lia |].
  cbn [negb orb]. cbv zeta.
  set (m := vars_to_swap h vars).
  destruct (vars_to_swap_spec h vars) as (P1 & P2 & P3). fold m in P1, P2, P3.
  cbv zeta in P1, P2, P3.
  set (pre := if do_mpi_left h || do_mpi_right h
              then [halo_irecv; halo_pack_isend] else []).
  assert (Hpre : forall st,
             fst (fold_left (fun st hs => swap_loop h m hs 0 (varsToSwap m) st) pre st)
             = fst st).
  { intros st. unfold pre. destruct (_ || _); cbn [fold_left]; [| reflexivity].
    rewrite !swap_loop_fst by discriminate. reflexivity. }
  assert (Hsame : varsToSwap m = [] \/ do_mpi_interior h = false ->
                  fst (fold_left (fun st hs => swap_loop h m hs 0 (varsToSwap m) st)
                                 (steps_to_do h m) (vars, [])) = vars).
  { unfold steps_to_do. fold pre. intros [E | E].
    - rewrite E. reflexivity.
    - rewrite E, app_nil_r.
      assert (Hm : match varsToSwap m with [] => [] | _ :: _ => pre end = []
                   \/ match varsToSwap m with [] => [] | _ :: _ => pre end = pre)
        by (destruct (varsToSwap m); auto).
      destruct Hm as [-> | ->]; [reflexivity | apply Hpre]. }
  destruct (do_mpi_interior h) eqn:Ei.
  2:{ rewrite Hsame by (right; reflexivity). exists v. split; [exact Hp |].
      split; [apply cleared_refl |]. split; [reflexivity | discriminate]. }
  assert (Hcases : varsToSwap m = [] \/ exists e es, varsToSwap m = e :: es)
    by (destruct (varsToSwap m); eauto).
  destruct Hcases as [Ev | (e & es & Ev)].
  { rewrite Hsame by (left; exact Ev). exists v. split; [exact Hp |].
    split; [apply cleared_refl |]. split; [reflexivity |].
    intros _ Hnd Hs Hns t Ht. destruct (is_dirty v t) eqn:Ed; [| reflexivity].
    exfalso. assert (Hn : needs_swap h v t).
    { unfold needs_swap. repeat split; auto. unfold nbrs_of in Hns.
      destruct (mpi_find _ _); congruence. }
    apply (P3 Hnd p v t Hp) in Hn. rewrite Ev in Hn. destruct Hn. }
  assert (Hst : steps_to_do h m = pre ++ [halo_unpack; halo_final])
    by (unfold steps_to_do; rewrite Ev, Ei; reflexivity).
  rewrite Hst, fold_left_app. cbn [fold_left].
  set (st0 := fold_left _ pre (vars, [])).
  assert (H0 : nth_error (fst (swap_loop h m halo_unpack 0 (varsToSwap m) st0)) p
               = Some v).
  { rewrite swap_loop_fst by discriminate. unfold st0. rewrite Hpre. exact Hp. }
  destruct (loop_final h m p (varsToSwap m) 0 _ v H0) as (v' & H1 & C1 & O1 & K1).
  exists v'. split; [exact H1 |]. split; [exact C1 |]. split.
  - intros Hcase. apply O1. intros g Hin.
    destruct (P1 g p Hin) as (v0 & t & Hv0 & -> & Hs & Hm & Ht & Hd).
    rewrite Hp in Hv0. injection Hv0 as <-.
    destruct Hcase as [Hc | [Hc | [Hc | Hclean]]].
    + discriminate Hc.
    + rewrite Hc in Hs. discriminate Hs.
    + exact Hc.
    + rewrite (Hclean t Ht) in Hd. discriminate.
  - intros _ Hnd Hs Hns t Ht. destruct (is_dirty v t) eqn:Ed.
    + assert (Hn : needs_swap h v t).
      { unfold needs_swap. repeat split; auto. unfold nbrs_of in Hns.
        destruct (mpi_find _ _); congruence. }
      destruct (P2 p v t Hp Hn) as (f & l & Hf & Hl & Hfl).
      exact (K1 (get_name v) (P3 Hnd p v t Hp Hn) Hns f l t Hf Hl Hfl).
    + destruct C1 as (_ & _ & _ & _ & _ & Hmono).
      destruct (is_dirty v' t) eqn:E; [| reflexivity].
      apply Hmono in E. congruence.
Qed.

Lemma exchange_halos_cleans_swapped_vars_witness :
  exists a b,
    fst (exchange_halos two_var_ctx two_vars) = [a; b] /\
    is_dirty a 0 = false /\ is_dirty a 1 = false /\
    b = mkVar "B"%string false true 2 0 [false; true].
Proof.
  destruct (exchange_halos_cleans_swapped_vars
              two_var_ctx two_vars 0
              (mkVar "A"%string false true 2 0 [true; false])
              eq_refl ltac:(simpl; lia) eq_refl) as (a & Ha & _ & _ & Ka).
  destruct (exchange_halos_cleans_swapped_vars
              two_var_ctx two_vars 1
              (mkVar "B"%string false true 2 0 [false; true])
              eq_refl ltac:(simpl; lia) eq_refl) as (b & Hb & _ & Ob & _).
  exists a, b. split.
  - vm_compute in Ha, Hb. injection Ha as <-. injection Hb as <-. reflexivity.
  - assert (Hnd : NoDup (map get_name two_vars)).
    { repeat constructor; cbn; intuition discriminate. }
    split; [| split].
    + apply (Ka eq_refl Hnd eq_refl); [discriminate | vm_compute; auto].
    + apply (Ka eq_refl Hnd eq_refl); [discriminate | vm_compute; auto].
    + apply Ob. right. right. left. reflexivity.
Defined.

(** *** [update_vars] *)

Lemma updated_refl (c : Prop) p vars : updated c p vars vars.
Proof.
  unfold updated, same_storage. split; [reflexivity |].
  split; [| reflexivity]. intros v H. exists v. tauto.
Qed.

Lemma updated_trans (c1 c2 c : Prop) p a b d :
  (c1 -> c) -> (c2 -> c) -> updated c1 p a b -> updated c2 p b d -> updated c p a d.
Proof.
  unfold updated, same_storage. intros I1 I2 (L1 & S1 & F1) (L2 & S2 & F2).
  split; [congruence |]. split.
  - intros v Hv. destruct (S1 v Hv) as (v1 & H1 & A1 & A2 & A3 & A4).
    destruct (S2 v1 H1) as (v2 & H2 & B1 & B2 & B3 & B4).
    exists v2. repeat split; congruence.
  - intros Hn. rewrite F2, F1 by tauto. reflexivity.
Qed.

Lemma at_var_length gp f vars : length (at_var gp f vars) = length vars.
Proof.
  revert gp. induction vars as [|v vars IH]; intros [|gp]; cbn [at_var length];
    try reflexivity.
  rewrite IH. reflexivity.
Qed.

Lemma at_var_updated gp f p vars :
  (forall v, same_storage v (f v)) -> updated (p = gp) p vars (at_var gp f vars).
Proof.
  intros Hf. unfold updated. split; [apply at_var_length |].
  split.
  - intros v Hv. rewrite nth_error_at_var_pos, Hv.
    destruct (gp =? p)%nat; cbn [option_map]; eexists; split; try reflexivity.
    + apply Hf.
    + unfold same_storage. tauto.
  - intros Hne. rewrite nth_error_at_var_pos.
    destruct (Nat.eqb_spec gp p); [congruence | reflexivity].
Qed.

Lemma update_valid_step_storage t v : same_storage v (update_valid_step t v).
Proof.
  unfold update_valid_step, same_storage. destruct (uses_step_dim v) eqn:E; cbn; tauto.
Qed.

Lemma set_dirty_storage b t v : same_storage v (set_dirty b t v).
Proof. unfold same_storage. cbn. tauto. Qed.

Lemma update_output_var_updated md t_out st gp p :
  updated (p = gp) p (fst st) (fst (update_output_var md t_out st gp)).
Proof.
  destruct st as [vars done]. cbn [update_output_var fst].
  destruct (existsb _ done); cbn [fst]; [apply updated_refl |].
  cbv zeta. cbn [fst]. destruct md.
  - eapply (updated_trans (p = gp) (p = gp)); [auto | auto | |].
    + apply at_var_updated, update_valid_step_storage.
    + apply at_var_updated, set_dirty_storage.
  - apply at_var_updated, update_valid_step_storage.
Qed.

Lemma update_outputs_updated md t_out gps p :
  forall st, updated (In p gps) p (fst st)
                     (fst (fold_left (update_output_var md t_out) gps st)).
Proof.
  induction gps as [|gp gps IH]; intros st; cbn [fold_left]; [apply updated_refl |].
  eapply (updated_trans (p = gp) (In p gps)).
  - intros ->. left; reflexivity.
  - intros H. right; exact H.
  - apply update_output_var_updated.
  - apply IH.
Qed.

Lemma update_bundle_updated md t sb p st :
  updated (get_output_step_index sb t <> None /\ In p (outputVarPtrs sb)) p
          (fst st) (fst (update_bundle md t st sb)).
Proof.
  unfold update_bundle. destruct (get_output_step_index sb t) as [t_out|];
    [| apply updated_refl].
  eapply (updated_trans (In p (outputVarPtrs sb)) False).
  - intros H. split; [discriminate | exact H].
  - intros [].
  - apply update_outputs_updated.
  - apply updated_refl.
Qed.

Lemma update_bundles_updated md t p bp :
  forall st,
    updated (exists sb, In sb bp /\ get_output_step_index sb t <> None /\
                        In p (outputVarPtrs sb)) p
            (fst st) (fst (fold_left (update_bundle md t) bp st)).
Proof.
  induction bp as [|sb bp IH]; intros st; cbn [fold_left]; [apply updated_refl |].
  eapply updated_trans; [| | apply update_bundle_updated | apply IH].
  - intros H. exists sb. split; [left; reflexivity | exact H].
  - intros (sb' & Hin & H). exists sb'. split; [right; exact Hin | exact H].
Qed.

Lemma update_steps_updated md p bp steps :
  forall st,
    updated (writes_to bp steps p) p (fst st)
            (fst (fold_left (fun st t => fold_left (update_bundle md t) bp st) steps st)).
Proof.
  induction steps as [|t steps IH]; intros st; cbn [fold_left]; [apply updated_refl |].
  eapply updated_trans; [| | apply update_bundles_updated | apply IH].
  - intros (sb & Hin & Ho & Hp). exists sb, t.
    split; [exact Hin |]. split; [left; reflexivity | tauto].
  - intros (sb & t' & Hin & Ht & H). exists sb, t'.
    split; [exact Hin |]. split; [right; exact Ht | exact H].
Qed.

Lemma update_pack_updated sel start stop md p st i bp :
  updated (selected sel i /\ writes_to bp (step_seq start stop) p) p
          (fst st) (fst (update_pack sel start stop md st (i, bp))).
Proof.
  unfold update_pack, selected. destruct sel as [s|].
  - destruct (Nat.eqb_spec s i) as [E | E]; [| apply updated_refl].
    eapply (updated_trans _ False); [| | apply update_steps_updated | apply updated_refl];
      tauto.
  - eapply (updated_trans _ False); [| | apply update_steps_updated | apply updated_refl];
      tauto.
Qed.

Lemma update_packs_updated sel start stop md p ibps :
  forall st,
    updated (exists i bp, In (i, bp) ibps /\ selected sel i /\
                          writes_to bp (step_seq start stop) p) p
            (fst st) (fst (fold_left (update_pack sel start stop md) ibps st)).
Proof.
  induction ibps as [|[i bp] ibps IH]; intros st; cbn [fold_left]; [apply updated_refl |].
  eapply updated_trans; [| | apply update_pack_updated | apply IH].
  - intros H. exists i, bp. split; [left; reflexivity | exact H].
  - intros (i' & bp' & Hin & H). exists i', bp'. split; [right; exact Hin | exact H].
Qed.

(** X17: [update_vars] keeps the number of variables and, in each of
    them, the name, the scratch flag, the use of the step dimension and
    the allocation in it.  A variable is left exactly as it was unless a
    bundle of a pack that is gone through (the selected one, or any pack
    when none is selected) has an output step for one of the input steps
    [start .. stop) and lists the variable among its outputs; with
    [start = stop] nothing changes. *)
Theorem update_vars_touches_outputs_only :
  forall (stPacks : list BundlePack) (sel_bp : option nat) (start stop : Z)
         (mark_dirty : bool) (vars : list YkVar) (p : nat),
    let vars' := update_vars stPacks sel_bp start stop mark_dirty vars in
    length vars' = length vars /\
    (forall v, nth_error vars p = Some v ->
               exists v', nth_error vars' p = Some v' /\ same_storage v v') /\
    ((forall i bp, nth_error stPacks i = Some bp -> selected sel_bp i ->
                   ~ writes_to bp (step_seq start stop) p) ->
     nth_error vars' p = nth_error vars p) /\
    (start = stop -> vars' = vars).
Proof.
  intros stPacks sel_bp start stop mark_dirty vars p. cbv zeta. unfold update_vars.
  destruct (update_packs_updated sel_bp start stop mark_dirty p
              (combine (seq 0 (length stPacks)) stPacks) (vars, [])) as (L & S & F).
  cbn [fst] in L, S, F.
  split; [exact L |]. split; [exact S |]. split.
  - intros Hno. apply F. intros (i & bp & Hin & Hsel & Hw).
    apply in_combine_seq in Hin as [_ Hin]. rewrite Nat.sub_0_r in Hin.
    exact (Hno i bp Hin Hsel Hw).
  - intros ->. apply nth_error_ext. intros q.
    destruct (update_packs_updated sel_bp stop stop mark_dirty q
                (combine (seq 0 (length stPacks)) stPacks) (vars, [])) as (_ & _ & F').
    cbn [fst] in F'. apply F'. intros (i & bp & _ & _ & sb & t & _ & Ht & _).
    unfold step_seq in Ht. rewrite Z.ltb_irrefl, Z.sub_diag in Ht. destruct Ht.
Qed.

Lemma update_vars_touches_outputs_only_witness :
  nth_error (update_vars one_bundle_pack None 0 2 true two_vars) 1
  = nth_error two_vars 1 /\
  nth_error (update_vars one_bundle_pack None 0 2 true two_vars) 0
  = Some (mkVar "A"%string false true 2 1 [true; true]) /\
  update_vars one_bundle_pack None 3 3 true two_vars = two_vars.
Proof.
  destruct (update_vars_touches_outputs_only one_bundle_pack None 0 2 true two_vars 1)
    as (_ & _ & F & _).
  split; [| split].
  - apply F. intros i bp Hbp _ (sb & t & Hsb & _ & _ & Hp).
    destruct i as [|[|i]]; try discriminate. injection Hbp as <-.
    destruct Hsb as [<- | []]. cbn in Hp. intuition discriminate.
  - reflexivity.
  - apply (update_vars_touches_outputs_only one_bundle_pack None 3 3 true two_vars 0).
    reflexivity.
Defined.

(** *** The requests of the halo exchange *)

Lemma after_visit_spec hs g n rq g' i :
  recv_reqs (after_visit hs g n rq) g' i
  = written (writes_recv hs) (String.eqb g' g && ((i =? ni n)%nat && has_recv n))
            (recv_reqs rq g' i) /\
  send_reqs (after_visit hs g n rq) g' i
  = written (writes_send hs) (String.eqb g' g && ((i =? ni n)%nat && has_send n))
            (send_reqs rq g' i).
Proof.
  unfold after_visit, has_recv, has_send, written, set_req.
  destruct hs; cbn [writes_recv writes_send];
    destruct (negb (recv_bytes n =? 0) && negb (using_shm n)),
      (negb (send_bytes n =? 0) && negb (using_shm n));
    cbn [recv_reqs send_reqs];
    destruct (String.eqb g' g), (i =? ni n)%nat; cbn [andb]; auto.
Qed.

Lemma visit_neighbor_reqs_spec m hs gi g gp vars rq calls n :
  visit_neighbor_reqs m hs gi g gp (vars, rq, calls) n
  = (fst (visit_neighbor m hs gi g gp (vars, calls) n),
     after_visit hs g n rq,
     calls ++ pending_call rq hs gi g n).
Proof.
  unfold visit_neighbor_reqs, visit_neighbor, after_visit, pending_call, neighbor_call.
  destruct hs.
  - destruct (_ && _); cbn [fst]; rewrite ?app_nil_r; reflexivity.
  - destruct (_ && _); cbn [fst]; rewrite ?app_nil_r; reflexivity.
  - destruct (_ && _); cbn [fst]; destruct (recv_reqs rq g (ni n));
      rewrite ?app_nil_r; reflexivity.
  - destruct (_ && _); destruct (send_reqs rq g (ni n));
      destruct (ptr_find gp (firstStepsToSwap m));
      destruct (ptr_find gp (lastStepsToSwap m)); cbn [fst];
      rewrite ?app_nil_r; reflexivity.
Qed.

(** The calls for a neighbour depend on its two requests only. *)
Lemma pending_call_agree a b hs gi g n :
  recv_reqs a g (ni n) = recv_reqs b g (ni n) ->
  send_reqs a g (ni n) = send_reqs b g (ni n) ->
  pending_call a hs gi g n = pending_call b hs gi g n.
Proof. intros Hr Hs. unfold pending_call. rewrite Hr, Hs. reflexivity. Qed.

Lemma flat_map_agree {A B : Type} (f g : A -> list B) (l : list A) :
  (forall x, In x l -> f x = g x) -> flat_map f l = flat_map g l.
Proof.
  induction l as [|x l IH]; intros H; cbn [flat_map]; [reflexivity |].
  rewrite (H x (or_introl eq_refl)), IH; [reflexivity |].
  intros; apply H; right; assumption.
Qed.

Lemma written_twice w h1 h2 old :
  written w h2 (written w h1 old) = written w (h1 || h2) old.
Proof. destruct w as [b|]; cbn; [| reflexivity]. destruct h1, h2; reflexivity. Qed.

(** The visits of the neighbours of one variable. *)
Lemma visit_neighbors_reqs m hs gi g gp ns :
  NoDup (map ni ns) ->
  forall vars rq calls,
    exists rq',
      fold_left (visit_neighbor_reqs m hs gi g gp) ns (vars, rq, calls)
      = (fst (fold_left (visit_neighbor m hs gi g gp) ns (vars, calls)), rq',
         calls ++ flat_map (pending_call rq hs gi g) ns) /\
      forall g' i,
        recv_reqs rq' g' i
        = written (writes_recv hs)
                  (String.eqb g' g && existsb (fun n => (i =? ni n)%nat && has_recv n) ns)
                  (recv_reqs rq g' i) /\
        send_reqs rq' g' i
        = written (writes_send hs)
                  (String.eqb g' g && existsb (fun n => (i =? ni n)%nat && has_send n) ns)
                  (send_reqs rq g' i).
Proof.
  induction ns as [|n ns IH]; intros Hnd vars rq calls; cbn [fold_left flat_map].
  - exists rq. rewrite app_nil_r. split; [reflexivity |].
    intros g' i. cbn [existsb]. rewrite andb_false_r.
    destruct (writes_recv hs), (writes_send hs); cbn; auto.
  - cbn [map] in Hnd. apply NoDup_cons_iff in Hnd as [Hnotin Hnd].
    rewrite visit_neighbor_reqs_spec.
    destruct (IH Hnd (fst (visit_neighbor m hs gi g gp (vars, calls) n))
                 (after_visit hs g n rq) (calls ++ pending_call rq hs gi g n))
      as (rq' & Hfold & Hrq').
    exists rq'. split.
    + rewrite Hfold. f_equal; [f_equal |].
      * destruct (visit_neighbor m hs gi g gp (vars, calls) n) as [v1 c1] eqn:E.
        cbn [fst].
        assert (Hindep : forall c c',
                   fst (fold_left (visit_neighbor m hs gi g gp) ns (v1, c))
                   = fst (fold_left (visit_neighbor m hs gi g gp) ns (v1, c'))).
        { clear. revert v1. induction ns as [|x ns IHn]; intros v1 c c';
            cbn [fold_left]; [reflexivity |].
          assert (Hx : fst (visit_neighbor m hs gi g gp (v1, c) x)
                       = fst (visit_neighbor m hs gi g gp (v1, c') x)).
          { unfold visit_neighbor. destruct hs; try (destruct (_ && _); reflexivity).
            destruct (ptr_find gp (firstStepsToSwap m)),
              (ptr_find gp (lastStepsToSwap m)); reflexivity. }
          destruct (visit_neighbor m hs gi g gp (v1, c) x) as [va ca].
          destruct (visit_neighbor m hs gi g gp (v1, c') x) as [vb cb].
          cbn [fst] in Hx. subst vb. apply IHn. }
        apply Hindep.
      * rewrite <- app_assoc. f_equal. f_equal. apply flat_map_agree.
        intros n' Hn'.
        assert (Hne : (ni n' =? ni n)%nat = false).
        { apply Nat.eqb_neq. intros Heq. apply Hnotin. rewrite <- Heq.
          apply in_map, Hn'. }
        destruct (after_visit_spec hs g n rq g (ni n')) as [Hr Hs].
        rewrite Hne in Hr, Hs. rewrite andb_false_r in Hr, Hs.
        apply pending_call_agree.
        -- rewrite Hr. destruct (writes_recv hs); reflexivity.
        -- rewrite Hs. destruct (writes_send hs); reflexivity.
    + intros g' i. destruct (Hrq' g' i) as [Hr Hs].
      destruct (after_visit_spec hs g n rq g' i) as [Hr1 Hs1].
      rewrite Hr, Hs, Hr1, Hs1, !written_twice. cbn [existsb].
      rewrite <- !andb_orb_distrib_r. auto.
Qed.

Lemma nodup_sorted_keys (m : list (String.string * nat)) :
  sorted_keys m -> NoDup (map fst m).
Proof.
  unfold sorted_keys. induction 1 as [|k ks Hs IH Hk]; constructor; [| exact IH].
  intros Hin. rewrite Forall_forall in Hk. exact (name_lt_irrefl k (Hk k Hin)).
Qed.

(** One step of the exchange over the variables to swap. *)
Lemma swap_loop_reqs_spec h m hs to_swap :
  NoDup (map fst to_swap) ->
  (forall g, NoDup (map ni (nbrs_of h g))) ->
  forall gi vars rq calls,
    exists rq',
      swap_loop_reqs h m hs gi to_swap (vars, rq, calls)
      = (fst (swap_loop h m hs gi to_swap (vars, calls)), rq',
         calls ++ step_calls_reqs h rq hs gi to_swap) /\
      forall g i,
        recv_reqs rq' g i
        = written (writes_recv hs) (visited h to_swap has_recv g i) (recv_reqs rq g i) /\
        send_reqs rq' g i
        = written (writes_send hs) (visited h to_swap has_send g i) (send_reqs rq g i).
Proof.
  intros Hnd Hni. induction to_swap as [|[g gp] rest IH]; intros gi vars rq calls;
    cbn [swap_loop_reqs swap_loop step_calls_reqs].
  - exists rq. rewrite app_nil_r. split; [reflexivity |].
    intros g i. unfold visited. cbn [existsb].
    destruct (writes_recv hs), (writes_send hs); cbn; auto.
  - cbv zeta. cbn [map fst] in Hnd. apply NoDup_cons_iff in Hnd as [Hnotin Hnd].
    fold (nbrs_of h g).
    destruct (visit_neighbors_reqs m hs (gi + 1) g gp (nbrs_of h g) (Hni g)
                vars rq calls) as (rq1 & Hfold & Hrq1).
    rewrite Hfold.
    destruct (IH Hnd (gi + 1)
                 (fst (fold_left (visit_neighbor m hs (gi + 1) g gp) (nbrs_of h g)
                                 (vars, calls)))
                 rq1 (calls ++ flat_map (pending_call rq hs (gi + 1) g) (nbrs_of h g)))
      as (rq' & Hloop & Hrq').
    exists rq'. split.
    + rewrite Hloop. f_equal; [f_equal |].
      * destruct (fold_left (visit_neighbor m hs (gi + 1) g gp) (nbrs_of h g)
                            (vars, calls)) as [v1 c1] eqn:E.
        cbn [fst].
        assert (Hindep : forall entries gi0 v c c',
                   fst (swap_loop h m hs gi0 entries (v, c))
                   = fst (swap_loop h m hs gi0 entries (v, c'))).
        { clear. induction entries as [|[x xp] entries IHe]; intros gi0 v c c';
            cbn [swap_loop]; [reflexivity |]. cbv zeta.
          assert (Hx : forall ns v0 d d',
                     fst (fold_left (visit_neighbor m hs (gi0 + 1) x xp) ns (v0, d))
                     = fst (fold_left (visit_neighbor m hs (gi0 + 1) x xp) ns (v0, d'))).
          { induction ns as [|y ns IHn]; intros v0 d d'; cbn [fold_left];
              [reflexivity |].
            assert (Hy : fst (visit_neighbor m hs (gi0 + 1) x xp (v0, d) y)
                         = fst (visit_neighbor m hs (gi0 + 1) x xp (v0, d') y)).
            { unfold visit_neighbor. destruct hs; try (destruct (_ && _); reflexivity).
              destruct (ptr_find xp (firstStepsToSwap m)),
                (ptr_find xp (lastStepsToSwap m)); reflexivity. }
            destruct (visit_neighbor m hs (gi0 + 1) x xp (v0, d) y) as [va ca].
            destruct (visit_neighbor m hs (gi0 + 1) x xp (v0, d') y) as [vb cb].
            cbn [fst] in Hy. subst vb. apply IHn. }
          specialize (Hx match mpi_find x (mpiData h) with
                         | Some ns => ns
                         | None => []
                         end v c c').
          destruct (fold_left (visit_neighbor m hs (gi0 + 1) x xp) _ (v, c)) as [va ca].
          destruct (fold_left (visit_neighbor m hs (gi0 + 1) x xp) _ (v, c')) as [vb cb].
          cbn [fst] in Hx. subst vb. apply IHe. }
        apply Hindep.
      * rewrite <- app_assoc. f_equal. f_equal.
        assert (Hagree : forall entries gi0,
                   (forall e, In e entries -> fst e <> g) ->
                   step_calls_reqs h rq1 hs gi0 entries
                   = step_calls_reqs h rq hs gi0 entries).
        { induction entries as [|[x xp] entries IHe]; intros gi0 Hx;
            cbn [step_calls_reqs]; [reflexivity |].
          rewrite IHe by (intros; apply Hx; right; assumption). f_equal.
          apply flat_map_agree. intros n _.
          assert (Hxg : String.eqb x g = false)
            by (apply String.eqb_neq; exact (Hx (x, xp) (or_introl eq_refl))).
          destruct (Hrq1 x (ni n)) as [Hr Hs]. rewrite Hxg in Hr, Hs.
          cbn [andb] in Hr, Hs.
          apply pending_call_agree.
          - rewrite Hr. destruct (writes_recv hs); reflexivity.
          - rewrite Hs. destruct (writes_send hs); reflexivity. }
        apply Hagree. intros e He Heq. apply Hnotin. rewrite <- Heq.
        apply in_map, He.
    + intros g' i. destruct (Hrq' g' i) as [Hr Hs]. destruct (Hrq1 g' i) as [Hr1 Hs1].
      rewrite Hr, Hs, Hr1, Hs1, !written_twice. unfold visited. cbn [existsb fst].
      rewrite !(orb_comm (String.eqb g' g && _)). auto.
Qed.

Lemma swap_loop_vars_indep h m hs entries :
  forall gi v c c',
    fst (swap_loop h m hs gi entries (v, c)) = fst (swap_loop h m hs gi entries (v, c')).
Proof.
  induction entries as [|[x xp] entries IHe]; intros gi0 v c c';
    cbn [swap_loop]; [reflexivity |]. cbv zeta.
  assert (Hx : forall ns v0 d d',
             fst (fold_left (visit_neighbor m hs (gi0 + 1) x xp) ns (v0, d))
             = fst (fold_left (visit_neighbor m hs (gi0 + 1) x xp) ns (v0, d'))).
  { induction ns as [|y ns IHn]; intros v0 d d'; cbn [fold_left]; [reflexivity |].
    assert (Hy : fst (visit_neighbor m hs (gi0 + 1) x xp (v0, d) y)
                 = fst (visit_neighbor m hs (gi0 + 1) x xp (v0, d') y)).
    { unfold visit_neighbor. destruct hs; try (destruct (_ && _); reflexivity).
      destruct (ptr_find xp (firstStepsToSwap m)),
        (ptr_find xp (lastStepsToSwap m)); reflexivity. }
    destruct (visit_neighbor m hs (gi0 + 1) x xp (v0, d) y) as [va ca].
    destruct (visit_neighbor m hs (gi0 + 1) x xp (v0, d') y) as [vb cb].
    cbn [fst] in Hy. subst vb. apply IHn. }
  specialize (Hx match mpi_find x (mpiData h) with
                 | Some ns => ns
                 | None => []
                 end v c c').
  destruct (fold_left (visit_neighbor m hs (gi0 + 1) x xp) _ (v, c)) as [va ca].
  destruct (fold_left (visit_neighbor m hs (gi0 + 1) x xp) _ (v, c')) as [vb cb].
  cbn [fst] in Hx. subst vb. apply IHe.
Qed.

(** The variables after the steps, whatever the calls. *)
Lemma steps_vars h m to_swap steps :
  forall v c,
    fst (fold_left (fun st hs => swap_loop h m hs 0 to_swap st) steps (v, c))
    = fold_left (fun v hs => fst (swap_loop h m hs 0 to_swap (v, []))) steps v.
Proof.
  induction steps as [|hs steps IH]; intros v c; cbn [fold_left]; [reflexivity |].
  destruct (swap_loop h m hs 0 to_swap (v, c)) as [v1 c1] eqn:E.
  rewrite IH. f_equal.
  rewrite (swap_loop_vars_indep h m hs to_swap 0 v [] c), E. reflexivity.
Qed.

(** One step, from any calls. *)
Lemma swap_loop_reqs_step h m hs to_swap :
  NoDup (map fst to_swap) ->
  (forall g, NoDup (map ni (nbrs_of h g))) ->
  forall vars rq calls,
    exists rq',
      swap_loop_reqs h m hs 0 to_swap (vars, rq, calls)
      = (fst (swap_loop h m hs 0 to_swap (vars, [])), rq',
         calls ++ step_calls_reqs h rq hs 0 to_swap) /\
      forall g i,
        recv_reqs rq' g i
        = written (writes_recv hs) (visited h to_swap has_recv g i) (recv_reqs rq g i) /\
        send_reqs rq' g i
        = written (writes_send hs) (visited h to_swap has_send g i) (send_reqs rq g i).
Proof.
  intros Hnd Hni vars rq calls.
  destruct (swap_loop_reqs_spec h m hs to_swap Hnd Hni 0 vars rq calls)
    as (rq' & E & R).
  exists rq'. split; [| exact R].
  rewrite E, (swap_loop_vars_indep h m hs to_swap 0 vars calls []). reflexivity.
Qed.

Lemma visited_in h to_swap has g gp n :
  In (g, gp) to_swap -> In n (nbrs_of h g) -> has n = true ->
  visited h to_swap has g (ni n) = true.
Proof.
  intros Hg Hn Hh. unfold visited. apply existsb_exists. exists (g, gp).
  split; [exact Hg |]. cbn [fst]. rewrite String.eqb_refl. cbn [andb].
  apply existsb_exists. exists n. split; [exact Hn |].
  rewrite Nat.eqb_refl, Hh. reflexivity.
Qed.

(** The calls of a step depend on the requests that the step visits
    only. *)
Lemma step_calls_reqs_agree h a b hs to_swap :
  (forall g gp n gi, In (g, gp) to_swap -> In n (nbrs_of h g) ->
                     pending_call a hs gi g n = pending_call b hs gi g n) ->
  forall gi, step_calls_reqs h a hs gi to_swap = step_calls_reqs h b hs gi to_swap.
Proof.
  induction to_swap as [|[g gp] rest IH]; intros H gi; cbn [step_calls_reqs];
    [reflexivity |].
  rewrite IH by (intros; eapply H; [right |]; eassumption). f_equal.
  apply flat_map_agree. intros n Hn. apply (H g gp); [left; reflexivity | exact Hn].
Qed.

(** With every request pending, the calls of a step are those of
    [step_calls]. *)
Lemma step_calls_all_pending h hs to_swap :
  forall gi, step_calls_reqs h all_pending hs gi to_swap = step_calls h hs gi to_swap.
Proof.
  induction to_swap as [|[g gp] rest IH]; intros gi;
    cbn [step_calls_reqs step_calls]; [reflexivity |].
  cbv zeta. rewrite IH. f_equal. fold (nbrs_of h g).
  apply flat_map_agree. intros n _. destruct hs; reflexivity.
Qed.

(** A wait of a step is for a request that is pending. *)
Lemma step_calls_reqs_in h rq hs to_swap c :
  forall gi,
    In c (step_calls_reqs h rq hs gi to_swap) ->
    exists g gp n gi',
      In (g, gp) to_swap /\ In n (nbrs_of h g) /\
      In c (neighbor_call hs gi' g n) /\
      (hs = halo_unpack -> recv_reqs rq g (ni n) = true) /\
      (hs = halo_final -> send_reqs rq g (ni n) = true).
Proof.
  induction to_swap as [|[g gp] rest IH]; intros gi; cbn [step_calls_reqs];
    [intros [] |].
  intros Hc. apply in_app_or in Hc as [Hc | Hc].
  - apply in_flat_map in Hc as (n & Hn & Hc).
    exists g, gp, n, (gi + 1). split; [left; reflexivity |]. split; [exact Hn |].
    unfold pending_call in Hc.
    destruct hs.
    + split; [exact Hc |]. split; discriminate.
    + split; [exact Hc |]. split; discriminate.
    + destruct (recv_reqs rq g (ni n)); [| destruct Hc].
      split; [exact Hc |]. split; [reflexivity | discriminate].
    + destruct (send_reqs rq g (ni n)); [| destruct Hc].
      split; [exact Hc |]. split; [discriminate | reflexivity].
  - destruct (IH (gi + 1) Hc) as (g' & gp' & n & gi' & H1 & H2).
    exists g', gp', n, gi'. split; [right; exact H1 | exact H2].
Qed.

(** X15: a call of [exchange_halos] with the exchange enabled and more
    than one rank, entered with the requests [rq] of the MPI data, and
    with neighbour indices that are unique in the MPI data of a
    variable.  It changes the variables as [exchange_halos] does and
    makes its MPI calls in this order: when [do_mpi_left] or
    [do_mpi_right] is set, all [MPI_Irecv] requests and then all
    [MPI_Isend] requests; after them, when [do_mpi_interior] is set, the
    waits for receives and then the waits for sends.  Within a step the
    calls follow the name order of the variables to swap and the order
    of the neighbours.  A wait is made for a pending request only: in a
    call that makes the requests, these are all waited for, in the order
    in which they were made; in a call that does not, the waits are for
    the requests that the call finds pending, and there is none when no
    request is pending.  On return, a request that the call visited is
    [MPI_REQUEST_NULL] when the interior was included, and pending when
    it was made and the interior was not included; every other request
    is as on entry. *)
Theorem exchange_halos_waits_for_pending_requests :
  forall (h : HaloCtx) (rq : Requests) (vars : list YkVar),
    enable_halo_exchange h = true -> 2 <= num_ranks h ->
    (forall g, NoDup (map ni (nbrs_of h g))) ->
    let to_swap := varsToSwap (vars_to_swap h vars) in
    let posted := do_mpi_left h || do_mpi_right h in
    let rq0 := if posted then all_pending else rq in
    let calls hs := step_calls_reqs h rq0 hs 0 to_swap in
    exists rq',
      exchange_halos_reqs h rq vars
      = (fst (exchange_halos h vars), rq',
         (if posted then calls halo_irecv ++ calls halo_pack_isend else [])
           ++ (if do_mpi_interior h then calls halo_unpack ++ calls halo_final else [])) /\
      Forall (is_request true) (calls halo_irecv) /\
      Forall (is_request false) (calls halo_pack_isend) /\
      (posted = true ->
       map completion (calls halo_irecv) = map Some (calls halo_unpack) /\
       map completion (calls halo_pack_isend) = map Some (calls halo_final)) /\
      (posted = false ->
       (forall c, In c (calls halo_unpack) ->
          exists g gp n, In (g, gp) to_swap /\ In n (nbrs_of h g) /\
                         c = MPI_Wait_recv g (neighbor_rank n) /\
                         recv_reqs rq g (ni n) = true) /\
       (forall c, In c (calls halo_final) ->
          exists g gp n, In (g, gp) to_swap /\ In n (nbrs_of h g) /\
                         c = MPI_Wait_send g (neighbor_rank n) /\
                         send_reqs rq g (ni n) = true) /\
       ((forall g i, recv_reqs rq g i = false /\ send_reqs rq g i = false) ->
        calls halo_unpack = [] /\ calls halo_final = [])) /\
      (forall g i,
         recv_reqs rq' g i
         = (if visited h to_swap has_recv g i && do_mpi_interior h then false
            else if visited h to_swap has_recv g i && posted then true
                 else recv_reqs rq g i) /\
         send_reqs rq' g i
         = (if visited h to_swap has_send g i && do_mpi_interior h then false
            else if visited h to_swap has_send g i && posted then true
                 else send_reqs rq g i)).
Proof.
  intros h rq vars He Hr Hni to_swap posted rq0 calls.
  assert (Hnd : NoDup (map fst to_swap))
    by (apply nodup_sorted_keys, vars_to_swap_sorted).
  assert (Hreq : forall a b hs gi, hs = halo_irecv \/ hs = halo_pack_isend ->
                   step_calls_reqs h a hs gi to_swap = step_calls_reqs h b hs gi to_swap).
  { intros a b hs gi Hhs. apply step_calls_reqs_agree. intros g gp n gi' _ _.
    destruct Hhs as [-> | ->]; reflexivity. }
  assert (Hwaits : forall a hs,
             (hs = halo_unpack ->
              forall g gp n, In (g, gp) to_swap -> In n (nbrs_of h g) ->
                             has_recv n = true ->
                             recv_reqs a g (ni n) = recv_reqs rq0 g (ni n)) ->
             (hs = halo_final ->
              forall g gp n, In (g, gp) to_swap -> In n (nbrs_of h g) ->
                             has_send n = true ->
                             send_reqs a g (ni n) = send_reqs rq0 g (ni n)) ->
             step_calls_reqs h a hs 0 to_swap = calls hs).
  { intros a hs Hu Hf. apply step_calls_reqs_agree. intros g gp n gi Hg Hn.
    unfold pending_call, neighbor_call. destruct hs; try reflexivity.
    - fold (has_recv n). destruct (has_recv n) eqn:E;
        [rewrite (Hu eq_refl g gp n Hg Hn E); reflexivity |].
      destruct (recv_reqs a g (ni n)), (recv_reqs rq0 g (ni n)); reflexivity.
    - fold (has_send n). destruct (has_send n) eqn:E;
        [rewrite (Hf eq_refl g gp n Hg Hn E); reflexivity |].
      destruct (send_reqs a g (ni n)), (send_reqs rq0 g (ni n)); reflexivity. }
  assert (Hfacts :
            Forall (is_request true) (calls halo_irecv) /\
            Forall (is_request false) (calls halo_pack_isend) /\
            (posted = true ->
             map completion (calls halo_irecv) = map Some (calls halo_unpack) /\
             map completion (calls halo_pack_isend) = map Some (calls halo_final)) /\
            (posted = false ->
             (forall c, In c (calls halo_unpack) ->
                exists g gp n, In (g, gp) to_swap /\ In n (nbrs_of h g) /\
                               c = MPI_Wait_recv g (neighbor_rank n) /\
                               recv_reqs rq g (ni n) = true) /\
             (forall c, In c (calls halo_final) ->
                exists g gp n, In (g, gp) to_swap /\ In n (nbrs_of h g) /\
                               c = MPI_Wait_send g (neighbor_rank n) /\
                               send_reqs rq g (ni n) = true) /\
             ((forall g i, recv_reqs rq g i = false /\ send_reqs rq g i = false) ->
              calls halo_unpack = [] /\ calls halo_final = []))).
  { destruct (step_calls_waits h to_swap 0) as (W1 & W2 & W3 & W4).
    assert (Ei : calls halo_irecv = step_calls h halo_irecv 0 to_swap).
    { unfold calls. rewrite (Hreq rq0 all_pending) by (left; reflexivity).
      apply step_calls_all_pending. }
    assert (Es : calls halo_pack_isend = step_calls h halo_pack_isend 0 to_swap).
    { unfold calls. rewrite (Hreq rq0 all_pending) by (right; reflexivity).
      apply step_calls_all_pending. }
    rewrite Ei, Es. split; [exact W3 |]. split; [exact W4 |]. split.
    - intros Hp. unfold calls, rq0. rewrite Hp, !step_calls_all_pending. auto.
    - intros Hp. unfold calls, rq0. rewrite Hp. split; [| split].
      + intros c Hc.
        destruct (step_calls_reqs_in h rq halo_unpack to_swap c 0 Hc)
          as (g & gp & n & gi' & Hg & Hn & Hc' & Hu & _).
        exists g, gp, n. split; [exact Hg |]. split; [exact Hn |].
        split; [| exact (Hu eq_refl)].
        unfold neighbor_call in Hc'. destruct (_ && _); [| destruct Hc'].
        destruct Hc' as [<- | []]. reflexivity.
      + intros c Hc.
        destruct (step_calls_reqs_in h rq halo_final to_swap c 0 Hc)
          as (g & gp & n & gi' & Hg & Hn & Hc' & _ & Hf).
        exists g, gp, n. split; [exact Hg |]. split; [exact Hn |].
        split; [| exact (Hf eq_refl)].
        unfold neighbor_call in Hc'. destruct (_ && _); [| destruct Hc'].
        destruct Hc' as [<- | []]. reflexivity.
      + intros Hnone.
        assert (Hno : forall hs, hs = halo_unpack \/ hs = halo_final ->
                                 step_calls_reqs h rq hs 0 to_swap = []).
        { intros hs Hhs.
          destruct (step_calls_reqs h rq hs 0 to_swap) as [|c l] eqn:E; [reflexivity |].
          destruct (step_calls_reqs_in h rq hs to_swap c 0
                      ltac:(rewrite E; left; reflexivity))
            as (g & gp & n & gi' & _ & _ & _ & Hu & Hf).
          destruct (Hnone g (ni n)) as [N1 N2].
          destruct Hhs as [-> | ->];
            [rewrite (Hu eq_refl) in N1 | rewrite (Hf eq_refl) in N2]; discriminate. }
        split; apply Hno; auto. }
  unfold exchange_halos_reqs, exchange_halos. rewrite He.
  assert ((num_ranks h <? 2) = false) as -> by (apply Z.ltb_ge; lia).
  cbn [negb orb]. cbv zeta. rewrite steps_vars.
  set (m := vars_to_swap h vars) in *.
  assert (Hsteps : forall (S : Type) (F : S -> halo_steps -> S) (st : S),
             (varsToSwap m = [] -> forall s hs, F s hs = s) ->
             fold_left F (steps_to_do h m) st
             = fold_left F ((if posted then [halo_irecv; halo_pack_isend] else [])
                              ++ (if do_mpi_interior h then [halo_unpack; halo_final]
                                  else [])) st).
  { intros S F st Hid. unfold steps_to_do. fold posted.
    destruct (varsToSwap m) as [|e0 rest0]; [| reflexivity].
    specialize (Hid eq_refl). cbn [fold_left].
    generalize ((if posted then [halo_irecv; halo_pack_isend] else [])
                  ++ (if do_mpi_interior h then [halo_unpack; halo_final] else [])).
    intros l. induction l as [|x l IHl]; cbn [fold_left]; [reflexivity |].
    rewrite Hid. exact IHl. }
  rewrite !Hsteps;
    [| intros E s hs; rewrite E; reflexivity
     | intros E s hs; rewrite E; reflexivity].
  fold to_swap.
  assert (Hvis_recv : forall g gp n, In (g, gp) to_swap -> In n (nbrs_of h g) ->
                                     has_recv n = true ->
                                     visited h to_swap has_recv g (ni n) = true)
    by (intros; eapply visited_in; eassumption).
  assert (Hvis_send : forall g gp n, In (g, gp) to_swap -> In n (nbrs_of h g) ->
                                     has_send n = true ->
                                     visited h to_swap has_send g (ni n) = true)
    by (intros; eapply visited_in; eassumption).
  clearbody posted. destruct Hfacts as (F1 & F2 & F3 & F4).
  destruct posted eqn:Ep, (do_mpi_interior h) eqn:Ei; cbn [app fold_left].
  - (* requests and waits *)
    destruct (swap_loop_reqs_step h m halo_irecv to_swap Hnd Hni vars rq [])
      as (rq1 & E1 & R1). rewrite E1.
    destruct (swap_loop_reqs_step h m halo_pack_isend to_swap Hnd Hni
                (fst (swap_loop h m halo_irecv 0 to_swap (vars, []))) rq1
                ([] ++ step_calls_reqs h rq halo_irecv 0 to_swap))
      as (rq2 & E2 & R2). rewrite E2.
    match goal with
    | |- context [swap_loop_reqs h m halo_unpack 0 to_swap (?v, rq2, ?c)] =>
        destruct (swap_loop_reqs_step h m halo_unpack to_swap Hnd Hni v rq2 c)
          as (rq3 & E3 & R3); rewrite E3
    end.
    match goal with
    | |- context [swap_loop_reqs h m halo_final 0 to_swap (?v, rq3, ?c)] =>
        destruct (swap_loop_reqs_step h m halo_final to_swap Hnd Hni v rq3 c)
          as (rq4 & E4 & R4); rewrite E4
    end.
    exists rq4. split; [| do 4 (split; [assumption |])].
    + f_equal. cbn [app]. rewrite <- !app_assoc. f_equal; [| f_equal; [| f_equal]].
      * apply Hreq. left; reflexivity.
      * apply Hreq. right; reflexivity.
      * apply Hwaits; [| discriminate]. intros _ g gp n Hg Hn Hh.
        destruct (R2 g (ni n)) as [A2 _]. destruct (R1 g (ni n)) as [A1 _].
        rewrite A2, A1. cbn [writes_recv written].
        rewrite (Hvis_recv g gp n Hg Hn Hh). reflexivity.
      * apply Hwaits; [discriminate |]. intros _ g gp n Hg Hn Hh.
        destruct (R3 g (ni n)) as [_ A3]. destruct (R2 g (ni n)) as [_ A2].
        rewrite A3, A2. cbn [writes_send written].
        rewrite (Hvis_send g gp n Hg Hn Hh). reflexivity.
    + intros g i. destruct (R4 g i) as [A4 B4]. destruct (R3 g i) as [A3 B3].
      destruct (R2 g i) as [A2 B2]. destruct (R1 g i) as [A1 B1].
      rewrite A4, A3, A2, A1, B4, B3, B2, B1. cbn [writes_recv writes_send written].
      rewrite !andb_true_r.
      destruct (visited h to_swap has_recv g i), (visited h to_swap has_send g i); auto.
  - (* requests only *)
    destruct (swap_loop_reqs_step h m halo_irecv to_swap Hnd Hni vars rq [])
      as (rq1 & E1 & R1). rewrite E1.
    destruct (swap_loop_reqs_step h m halo_pack_isend to_swap Hnd Hni
                (fst (swap_loop h m halo_irecv 0 to_swap (vars, []))) rq1
                ([] ++ step_calls_reqs h rq halo_irecv 0 to_swap))
      as (rq2 & E2 & R2). rewrite E2.
    exists rq2. split; [| do 4 (split; [assumption |])].
    + f_equal. cbn [app]. rewrite app_nil_r. f_equal.
      * apply Hreq. left; reflexivity.
      * apply Hreq. right; reflexivity.
    + intros g i. destruct (R2 g i) as [A2 B2]. destruct (R1 g i) as [A1 B1].
      rewrite A2, A1, B2, B1. cbn [writes_recv writes_send written].
      rewrite !andb_false_r, !andb_true_r.
      destruct (visited h to_swap has_recv g i), (visited h to_swap has_send g i); auto.
  - (* waits only *)
    destruct (swap_loop_reqs_step h m halo_unpack to_swap Hnd Hni vars rq [])
      as (rq3 & E3 & R3). rewrite E3.
    destruct (swap_loop_reqs_step h m halo_final to_swap Hnd Hni
                (fst (swap_loop h m halo_unpack 0 to_swap (vars, []))) rq3
                ([] ++ step_calls_reqs h rq halo_unpack 0 to_swap))
      as (rq4 & E4 & R4). rewrite E4.
    exists rq4. split; [| do 4 (split; [assumption |])].
    + f_equal. cbn [app].
      rewrite (Hwaits rq halo_unpack), (Hwaits rq3 halo_final);
        [reflexivity | intros H; discriminate H | | | intros H; discriminate H].
      * intros _ g gp n Hg Hn Hh.
        destruct (R3 g (ni n)) as [_ A3]. rewrite A3. reflexivity.
      * intros _ g gp n Hg Hn Hh. reflexivity.
    + intros g i. destruct (R4 g i) as [A4 B4]. destruct (R3 g i) as [A3 B3].
      rewrite A4, A3, B4, B3. cbn [writes_recv writes_send written].
      rewrite !andb_true_r.
      destruct (visited h to_swap has_recv g i), (visited h to_swap has_send g i); auto.
  - (* no step *)
    exists rq. split; [| do 4 (split; [assumption |])].
    + reflexivity.
    + intros g i. rewrite !andb_false_r. auto.
Qed.

Lemma exchange_halos_waits_for_pending_requests_witness :
  snd (exchange_halos_reqs x15_exterior none_pending x15_vars)
  = [MPI_Irecv "A"%string 1 1; MPI_Isend "A"%string 1 1] /\
  snd (exchange_halos_reqs x15_interior all_pending x15_vars)
  = [MPI_Wait_recv "A"%string 1; MPI_Wait_send "A"%string 1] /\
  snd (exchange_halos_reqs
         x15_interior
         (poke_halo_exchange x15_interior all_pending
            (snd (fst (exchange_halos_reqs x15_exterior none_pending x15_vars))))
         x15_vars)
  = [].
Proof.
  assert (Hni : forall h, mpiData h = [("A"%string, [mkNbr 1 0 8 8 false])] ->
                          forall g, NoDup (map ni (nbrs_of h g))).
  { intros h Hh g. unfold nbrs_of. rewrite Hh. cbn [mpi_find].
    destruct (String.eqb "A" g); repeat constructor. intros []. }
  split; [| split].
  - destruct (exchange_halos_waits_for_pending_requests
                x15_exterior none_pending x15_vars eq_refl ltac:(simpl; lia)
                (Hni x15_exterior eq_refl)) as (rq' & E & _).
    rewrite E. reflexivity.
  - destruct (exchange_halos_waits_for_pending_requests
                x15_interior all_pending x15_vars eq_refl ltac:(simpl; lia)
                (Hni x15_interior eq_refl)) as (rq' & E & _).
    rewrite E. reflexivity.
  - destruct (exchange_halos_waits_for_pending_requests
                x15_interior
                (poke_halo_exchange x15_interior all_pending
                   (snd (fst (exchange_halos_reqs x15_exterior none_pending x15_vars))))
                x15_vars eq_refl ltac:(simpl; lia)
                (Hni x15_interior eq_refl)) as (rq' & E & _).
    rewrite E. reflexivity.
Defined.

End HaloProofs.

(** ** The step loop of run_solution *)
Module StepLoopProofs.
Import Common Data Tuple Halo Run.
Import StepLoopSpec.

(** *** The step loop of [run_solution] *)

Lemma CEIL_DIV_brackets (n d : Z) :
  0 <= n -> 0 < d -> (CEIL_DIV n d - 1) * d < n <= CEIL_DIV n d * d.
Proof.
  intros Hn Hd. unfold CEIL_DIV. rewrite Z.quot_div_nonneg by lia.
  pose proof (Z.div_mod (n + d - 1) d ltac:(lia)) as E.
  pose proof (Z.mod_pos_bound (n + d - 1) d Hd) as B.
  nia.
Qed.

Lemma same_run_refl st : same_run st st.
Proof. unfold same_run. auto. Qed.

Lemma same_run_trans a b c : same_run a b -> same_run b c -> same_run a c.
Proof. unfold same_run. intros (?&?&?) (?&?&?). repeat split; congruence. Qed.

Lemma adds_loops_nil st : adds_loops st st [].
Proof. unfold adds_loops. rewrite app_nil_r. reflexivity. Qed.

Lemma adds_loops_trans a b c n1 n2 :
  adds_loops a b n1 -> adds_loops b c n2 -> adds_loops a c (n1 ++ n2).
Proof. unfold adds_loops. intros H1 H2. rewrite H2, H1, app_assoc. reflexivity. Qed.

Lemma set_flags_keeps i l r d st :
  same_run st (set_flags i l r d st) /\ adds_loops st (set_flags i l r d st) [].
Proof.
  unfold same_run, adds_loops. cbn. rewrite app_nil_r. repeat split; reflexivity.
Qed.

Lemma do_update_vars_keeps cfg sel s e md st :
  same_run st (do_update_vars cfg sel s e md st) /\
  adds_loops st (do_update_vars cfg sel s e md st) [].
Proof.
  unfold same_run, adds_loops. cbn. rewrite app_nil_r. repeat split; reflexivity.
Qed.

Lemma do_exchange_halos_keeps st :
  same_run st (do_exchange_halos st) /\ adds_loops st (do_exchange_halos st) [].
Proof.
  unfold do_exchange_halos. destruct (exchange_halos _ _).
  unfold same_run, adds_loops. cbn. rewrite app_nil_r. repeat split; reflexivity.
Qed.

Lemma rank_loops_adds sel s e st :
  same_run st (rank_loops sel s e st) /\
  exists r, adds_loops st (rank_loops sel s e st) [r] /\
            rl_span r = (s, e) /\ rl_sel_bp r = sel.
Proof.
  split; [unfold same_run; cbn; repeat split; reflexivity |].
  eexists. split; [reflexivity |]. split; reflexivity.
Qed.

Lemma exterior_passes_add cfg sel s e jls :
  forall st,
    let st' := fold_left (exterior_pass cfg sel s e) jls st in
    same_run st st' /\ exists new, adds_loops st st' new /\ loops_for sel s e new.
Proof.
  induction jls as [|[j il] jls IH]; intros st; cbn [fold_left].
  - split; [apply same_run_refl |]. exists []. split; [apply adds_loops_nil | constructor].
  - cbv zeta. destruct (IH (exterior_pass cfg sel s e st (j, il))) as (S2 & n2 & A2 & F2).
    assert (H1 : same_run st (exterior_pass cfg sel s e st (j, il)) /\
                 exists n1, adds_loops st (exterior_pass cfg sel s e st (j, il)) n1 /\
                            loops_for sel s e n1).
    { unfold exterior_pass. destruct (negb _).
      - split; [apply same_run_refl |]. exists []. split; [apply adds_loops_nil | constructor].
      - split; [unfold same_run; cbn; repeat split; reflexivity |].
        eexists. split; [reflexivity |].
        constructor; [split; reflexivity | constructor]. }
    destruct H1 as (S1 & n1 & A1 & F1).
    split; [eapply same_run_trans; eassumption |].
    exists (n1 ++ n2). split; [eapply adds_loops_trans; eassumption |].
    apply Forall_app. split; assumption.
Qed.

Lemma pack_pass_adds cfg sel s e st :
  let st' := pack_pass cfg sel s e st in
  same_run st st' /\
  exists new, adds_loops st st' new /\ loops_for sel s e new /\ new <> [].
Proof.
  unfold pack_pass. cbv zeta.
  set (st1 := if mpi_interior_valid cfg then _ else st).
  assert (H1 : same_run st st1 /\
               exists n1, adds_loops st st1 n1 /\ loops_for sel s e n1).
  { unfold st1. destruct (mpi_interior_valid cfg).
    2:{ split; [apply same_run_refl |]. exists [].
        split; [apply adds_loops_nil | constructor]. }
    match goal with
    | |- context [fold_left (exterior_pass cfg sel s e) ?jls ?st0] =>
        destruct (exterior_passes_add cfg sel s e jls st0) as (S & n & A & F)
    end.
    cbv zeta in S, A.
    split.
    - unfold same_run in *. unfold do_exchange_halos.
      destruct (exchange_halos _ _). exact S.
    - exists n. split; [| exact F]. unfold adds_loops in *. unfold do_exchange_halos.
      destruct (exchange_halos _ _). exact A. }
  destruct H1 as (S1 & n1 & A1 & F1).
  split.
  - unfold same_run in *. unfold do_exchange_halos.
    destruct (exchange_halos _ _). exact S1.
  - exists (n1 ++ [mkRankLoops sel s e (do_mpi_interior (halo st1))
                              (do_mpi_left (halo st1)) (do_mpi_right (halo st1))
                              (mpi_exterior_dim st1)]).
    split; [| split].
    + unfold adds_loops in *. unfold do_exchange_halos.
      destruct (exchange_halos _ _). cbn. rewrite A1, app_assoc. reflexivity.
    + apply Forall_app. split; [exact F1 |].
      constructor; [split; reflexivity | constructor].
    + destruct n1; discriminate.
Qed.

Lemma packs_fold_adds cfg s e packs :
  forall st,
    let st' := fold_left
                 (fun st i =>
                    if check_step_conds cfg && negb (pack_is_in_valid_step cfg i s)
                    then st
                    else pack_pass cfg (Some i) s e st) packs st in
    same_run st st' /\
    exists new, adds_loops st st' new /\ Forall (fun r => rl_span r = (s, e)) new.
Proof.
  induction packs as [|i packs IH]; intros st; cbn [fold_left].
  - split; [apply same_run_refl |]. exists []. split; [apply adds_loops_nil | constructor].
  - cbv zeta.
    set (st1 := if _ && _ then st else pack_pass cfg (Some i) s e st).
    assert (H1 : same_run st st1 /\
                 exists n1, adds_loops st st1 n1 /\
                            Forall (fun r => rl_span r = (s, e)) n1).
    { unfold st1. destruct (_ && _).
      - split; [apply same_run_refl |]. exists [].
        split; [apply adds_loops_nil | constructor].
      - destruct (pack_pass_adds cfg (Some i) s e st) as (S & n & A & F & _).
        split; [exact S |]. exists n. split; [exact A |].
        eapply Forall_impl; [| exact F]. intros r [H _]. exact H. }
    destruct H1 as (S1 & n1 & A1 & F1). destruct (IH st1) as (S2 & n2 & A2 & F2).
    split; [eapply same_run_trans; eassumption |].
    exists (n1 ++ n2). split; [eapply adds_loops_trans; eassumption |].
    apply Forall_app. split; assumption.
Qed.

Lemma step_body_adds cfg b e s st idx :
  let st' := step_body cfg b e s st idx in
  let span := body_chunk b e s idx in
  is_prepared st' = is_prepared st /\
  run_time_running st' = run_time_running st /\
  steps_done st' = steps_done st + Z.abs (snd span - fst span) /\
  exists new, adds_loops st st' new /\ chunk_loops cfg span new.
Proof.
  unfold step_body, body_chunk. cbv zeta. cbn [fst snd].
  set (start_t := b + idx * s).
  set (stop_t := if 0 <? s then _ else _).
  set (st1 := if wf_steps cfg =? 0 then _ else _).
  assert (H1 : same_run st st1 /\
               exists new, adds_loops st st1 new /\ chunk_loops cfg (start_t, stop_t) new).
  { unfold st1. destruct (Z.eqb_spec (wf_steps cfg) 0) as [E | E].
    - destruct (packs_fold_adds cfg start_t stop_t (seq 0 (length (stPacks cfg))) st)
        as (S & n & A & F).
      split; [exact S |]. exists n. split; [exact A |]. split; [exact F |].
      intros H. contradiction.
    - destruct (pack_pass_adds cfg None start_t stop_t st) as (S & n & A & F & Hne).
      split; [exact S |]. exists n. split; [exact A |]. split.
      + eapply Forall_impl; [| exact F]. intros r [H _]. exact H.
      + intros _. split; [exact Hne |].
        eapply Forall_impl; [| exact F]. intros r [_ H]. exact H. }
  destruct H1 as ((P1 & P2 & P3) & new & A & C).
  cbn [add_steps_done is_prepared run_time_running steps_done].
  repeat split; try congruence.
  exists new. split; [exact A | exact C].
Qed.

Lemma step_loop_adds cfg b e s idxs :
  forall st,
    let st' := fold_left (step_body cfg b e s) idxs st in
    is_prepared st' = is_prepared st /\
    run_time_running st' = run_time_running st /\
    steps_done st'
    = steps_done st
      + fold_right (fun idx n => Z.abs (snd (body_chunk b e s idx)
                                        - fst (body_chunk b e s idx)) + n) 0 idxs /\
    exists groups,
      adds_loops st st' (concat groups) /\
      Forall2 (fun idx new => chunk_loops cfg (body_chunk b e s idx) new) idxs groups.
Proof.
  induction idxs as [|idx idxs IH]; intros st; cbn [fold_left fold_right].
  - cbv zeta. repeat split; try lia. exists []. split; [apply adds_loops_nil | constructor].
  - cbv zeta.
    destruct (step_body_adds cfg b e s st idx) as (P1 & P2 & P3 & n1 & A1 & C1).
    destruct (IH (step_body cfg b e s st idx)) as (Q1 & Q2 & Q3 & gs & A2 & C2).
    cbv zeta in *. repeat split; try congruence; try lia.
    exists (n1 :: gs). cbn [concat].
    split; [eapply adds_loops_trans; eassumption | constructor; assumption].
Qed.

(** The lengths of the chunks of the step loop add up to the number of
    steps. *)
Lemma chunk_lengths_sum (b n w dir : Z) :
  0 <= n -> 0 < w -> (dir = 1 \/ dir = -1) ->
  forall (k : nat) (j : nat),
    Z.of_nat (j + k) <= CEIL_DIV n w ->
    fold_right (fun idx m => Z.abs (snd (body_chunk b (b + n * dir) (w * dir) idx)
                                    - fst (body_chunk b (b + n * dir) (w * dir) idx)) + m)
               0 (map Z.of_nat (seq j k))
    = Z.min (Z.of_nat (j + k) * w) n - Z.min (Z.of_nat j * w) n.
Proof.
  intros Hn Hw Hdir. pose proof (CEIL_DIV_brackets n w Hn Hw) as [Hb1 Hb2].
  induction k as [|k IH]; intros j Hj; cbn [seq map fold_right].
  - rewrite Nat.add_0_r. lia.
  - rewrite IH by lia. unfold body_chunk. cbv zeta. cbn [fst snd].
    replace (Z.of_nat (S j + k)) with (Z.of_nat (j + S k)) by lia.
    assert (Hlt : Z.of_nat j * w < n) by nia.
    assert (H1 : Z.of_nat (S j) * w = Z.of_nat j * w + w) by lia.
    assert (Hmono : Z.of_nat (S j) * w <= Z.of_nat (j + S k) * w) by nia.
    destruct Hdir as [-> | ->].
    + destruct (Z.ltb_spec 0 (w * 1)); [| lia]. lia.
    + destruct (Z.ltb_spec 0 (w * -1)); [lia |]. lia.
Qed.

Lemma step_chunk_is_body_chunk wf first last idx :
  step_chunk wf first last idx
  = body_chunk first (last + (if first <=? last then 1 else -1))
               (Z.max wf 1 * (if first <=? last then 1 else -1)) idx.
Proof. reflexivity. Qed.

Lemma step_direction (first last : Z) :
  let dir := if first <=? last then 1 else -1 in
  (dir = 1 \/ dir = -1) /\ last + dir = first + (Z.abs (last - first) + 1) * dir /\
  Z.abs (last + dir - first) = Z.abs (last - first) + 1.
Proof. cbv zeta. destruct (Z.leb_spec first last); lia. Qed.

Lemma run_solution_loop cfg before after st first last st1 :
  call_2idx_hooks before st first last = (st1, None) ->
  is_prepared st1 = true -> 1 <= ext_bb_size cfg ->
  exists st2 groups,
    run_solution cfg before after st first last
    = call_2idx_hooks after st2 first last /\
    is_prepared st2 = true /\ run_time_running st2 = false /\
    steps_done st2 = steps_done st1 + Z.abs (last - first) + 1 /\
    rank_loops_done st2 = rank_loops_done st1 ++ concat groups /\
    Forall2 (fun idx new => chunk_loops cfg (step_chunk (wf_steps cfg) first last idx) new)
            (range (step_chunks (wf_steps cfg) first last)) groups.
Proof.
  intros Hh Hp Hbb. unfold run_solution. rewrite Hh. cbv zeta.
  change (is_prepared (set_timer true st1)) with (is_prepared st1). rewrite Hp.
  cbn [negb]. destruct (Z.ltb_spec (ext_bb_size cfg) 1) as [Hlt | _]; [lia |].
  set (dir := if first <=? last then 1 else -1).
  set (st0 := do_exchange_halos (set_timer true st1)).
  destruct (do_exchange_halos_keeps (set_timer true st1)) as ((E1 & E2 & E3) & E4).
  fold st0 in E1, E2, E3, E4.
  match goal with
  | |- context [fold_left (step_body cfg first ?e ?s) ?idxs st0] =>
      destruct (step_loop_adds cfg first e s idxs st0) as (L1 & L2 & L3 & gs & L4 & L5);
      set (stl := fold_left (step_body cfg first e s) idxs st0) in *
  end.
  cbv zeta in L1, L2, L3, L4.
  exists (set_timer false stl), gs.
  change (is_prepared (set_timer true st1)) with (is_prepared st1) in E1.
  change (steps_done (set_timer true st1)) with (steps_done st1) in E2.
  change (rank_loops_done (set_timer true st1)) with (rank_loops_done st1) in E4.
  split; [reflexivity |]. split; [cbn; congruence |]. split; [reflexivity |].
  destruct (step_direction first last) as (Hdir & He & Hn). fold dir in Hdir, He, Hn.
  set (n := Z.abs (last - first) + 1) in *.
  set (w := Z.max (wf_steps cfg) 1) in *.
  assert (Hw : Z.abs (w * dir) = w) by (destruct Hdir as [-> | ->]; lia).
  split; [| split].
  - cbn [set_timer steps_done]. rewrite L3, E2. cbn [set_timer steps_done].
    rewrite Hn, Hw, He. unfold range.
    rewrite (chunk_lengths_sum first n w dir ltac:(lia) ltac:(lia) Hdir
               (Z.to_nat (CEIL_DIV n w)) 0%nat).
    + pose proof (CEIL_DIV_brackets n w ltac:(lia) ltac:(lia)). cbn [Nat.add].
      rewrite Z2Nat.id by nia. change (Z.of_nat 0 * w) with 0. lia.
    + pose proof (CEIL_DIV_brackets n w ltac:(lia) ltac:(lia)). cbn [Nat.add].
      rewrite Z2Nat.id by nia. lia.
  - cbn [set_timer rank_loops_done]. unfold adds_loops in L4, E4.
    rewrite L4, E4, app_nil_r. reflexivity.
  - exact L5.
Qed.

Lemma step_chunk_geometry (wf first last : Z) :
  let dir := if first <=? last then 1 else -1 in
  let n := step_chunks wf first last in
  let chunk := step_chunk wf first last in
  1 <= n /\
  fst (chunk 0) = first /\
  (forall i, 0 <= i -> i + 1 < n -> snd (chunk i) = fst (chunk (i + 1))) /\
  snd (chunk (n - 1)) = last + dir /\
  (forall i, 0 <= i < n ->
             1 <= (snd (chunk i) - fst (chunk i)) * dir <= Z.max wf 1).
Proof.
  cbv zeta. unfold step_chunks, step_chunk. cbv zeta. cbn [fst snd].
  destruct (step_direction first last) as (Hdir & He & Hn).
  set (dir := if first <=? last then 1 else -1) in *.
  set (w := Z.max wf 1).
  assert (Hw : Z.abs (w * dir) = w) by (destruct Hdir as [-> | ->]; lia).
  rewrite Hn, Hw, He.
  set (m := Z.abs (last - first) + 1).
  pose proof (CEIL_DIV_brackets m w ltac:(lia) ltac:(lia)) as [B1 B2].
  set (N := CEIL_DIV m w) in *.
  assert (Hm : 1 <= m) by lia. assert (Hw1 : 1 <= w) by lia.
  split; [nia |]. split; [lia |]. split; [| split].
  - intros i Hi HiN. assert ((i + 1) * w < m) by nia.
    destruct Hdir as [-> | ->].
    + destruct (Z.ltb_spec 0 (w * 1)); lia.
    + destruct (Z.ltb_spec 0 (w * -1)); lia.
  - assert ((N - 1) * w + w >= m) by lia.
    destruct Hdir as [-> | ->].
    + destruct (Z.ltb_spec 0 (w * 1)); lia.
    + destruct (Z.ltb_spec 0 (w * -1)); lia.
  - intros i Hi. assert (i * w < m) by nia.
    destruct Hdir as [-> | ->].
    + destruct (Z.ltb_spec 0 (w * 1)); lia.
    + destruct (Z.ltb_spec 0 (w * -1)); lia.
Qed.

(** X18: [run_solution] on a prepared solution whose before-hooks do not
    throw.  When the extended bounding box is empty it returns at once:
    nothing is exchanged or computed, no step is counted, the after-hooks
    are not called and the run timer is left running.  Otherwise the
    after-hooks are called on a state in which the timer is stopped and
    the number of steps done has grown by [|last - first| + 1], whatever
    the number of wave-front steps, the packs and their step
    conditions. *)
Theorem run_solution_counts_steps :
  forall (cfg : RunConfig) (before after : list hook_fn_2idx_t) (st st1 : RunState)
         (first last : Z),
    call_2idx_hooks before st first last = (st1, None) ->
    is_prepared st1 = true ->
    if ext_bb_size cfg <? 1
    then run_solution cfg before after st first last = (set_timer true st1, None)
    else exists st2,
        run_solution cfg before after st first last
        = call_2idx_hooks after st2 first last /\
        steps_done st2 = steps_done st1 + Z.abs (last - first) + 1 /\
        is_prepared st2 = true /\ run_time_running st2 = false.
Proof.
  intros cfg before after st st1 first last Hh Hp.
  destruct (Z.ltb_spec (ext_bb_size cfg) 1) as [Hlt | Hge].
  - unfold run_solution. rewrite Hh. cbv zeta.
    change (is_prepared (set_timer true st1)) with (is_prepared st1). rewrite Hp.
    cbn [negb]. destruct (Z.ltb_spec (ext_bb_size cfg) 1); [reflexivity | lia].
  - destruct (run_solution_loop cfg before after st first last st1 Hh Hp Hge)
      as (st2 & gs & H1 & H2 & H3 & H4 & _).
    exists st2. auto.
Qed.

Lemma run_solution_counts_steps_witness :
  steps_done (fst (run_solution wf2_config [] [] prepared_state 0 4)) = 5 /\
  run_solution (mkRunConfig 2 false [] (fun _ _ => true) 0 false 1 (fun _ _ => false))
               [] [] prepared_state 0 4
  = (set_timer true prepared_state, None).
Proof.
  split.
  - pose proof (run_solution_counts_steps wf2_config [] [] prepared_state
                  prepared_state 0 4 eq_refl eq_refl) as H.
    change (ext_bb_size wf2_config <? 1) with false in H. cbv iota in H.
    destruct H as (st2 & H1 & H2 & _). rewrite H1. cbn [call_2idx_hooks fst].
    rewrite H2. reflexivity.
  - exact (run_solution_counts_steps
             (mkRunConfig 2 false [] (fun _ _ => true) 0 false 1 (fun _ _ => false))
             [] [] prepared_state prepared_state 0 4 eq_refl eq_refl).
Defined.

(** X19: the step loop of [run_solution] on a prepared solution with a
    non-empty extended bounding box, when the before-hooks do not throw.
    The loop makes [CEIL_DIV(|last - first| + 1, max(wf_steps, 1))]
    iterations, at least one; each calls the rank loops only for its own
    steps [start_t .. stop_t), and with wave-fronts it calls them at
    least once, for all the packs at once.  The first iteration starts
    at [first], each one starts where the one before stopped, the last
    one stops one step beyond [last], and each covers between one and
    [max(wf_steps, 1)] steps, going down when [last < first]. *)
Theorem run_solution_step_chunks :
  forall (cfg : RunConfig) (before after : list hook_fn_2idx_t) (st st1 : RunState)
         (first last : Z),
    call_2idx_hooks before st first last = (st1, None) ->
    is_prepared st1 = true -> 1 <= ext_bb_size cfg ->
    let dir := if first <=? last then 1 else -1 in
    let n := step_chunks (wf_steps cfg) first last in
    let chunk := step_chunk (wf_steps cfg) first last in
    (exists st2 groups,
        run_solution cfg before after st first last
        = call_2idx_hooks after st2 first last /\
        rank_loops_done st2 = rank_loops_done st1 ++ concat groups /\
        Forall2 (fun idx new => chunk_loops cfg (chunk idx) new) (range n) groups) /\
    1 <= n /\
    fst (chunk 0) = first /\
    (forall i, 0 <= i -> i + 1 < n -> snd (chunk i) = fst (chunk (i + 1))) /\
    snd (chunk (n - 1)) = last + dir /\
    (forall i, 0 <= i < n ->
               1 <= (snd (chunk i) - fst (chunk i)) * dir <= Z.max (wf_steps cfg) 1).
Proof.
  intros cfg before after st st1 first last Hh Hp Hbb dir n chunk.
  split; [| apply step_chunk_geometry].
  destruct (run_solution_loop cfg before after st first last st1 Hh Hp Hbb)
    as (st2 & gs & H1 & _ & _ & _ & H5 & H6).
  exists st2, gs. auto.
Qed.

Lemma run_solution_step_chunks_witness :
  map rl_span (rank_loops_done (fst (run_solution wf2_config [] [] prepared_state 4 0)))
  = [(4, 2); (2, 0); (0, -1)] /\
  map (step_chunk 2 4 0) (range (step_chunks 2 4 0)) = [(4, 2); (2, 0); (0, -1)] /\
  exists st2 groups,
    run_solution wf2_config [] [] prepared_state 4 0 = (st2, None) /\
    rank_loops_done st2 = concat groups /\
    Forall2 (fun idx new => chunk_loops wf2_config (step_chunk 2 4 0 idx) new)
            [0; 1; 2] groups.
Proof.
  split; [reflexivity |]. split; [reflexivity |].
  destruct (run_solution_step_chunks wf2_config [] [] prepared_state prepared_state
              4 0 eq_refl eq_refl ltac:(simpl; lia))
    as ((st2 & groups & H1 & H2 & H3) & _).
  exists st2, groups. split; [exact H1 |]. split; [exact H2 | exact H3].
Defined.

End StepLoopProofs.

(** ** shift_mini_block: shapes and spans *)
Module ShiftMiniBlockProofs.
Import Common Data Angles Shift.
Import TupleSpec TupleFacts.
Import ShiftMiniBlockSpec.

(** *** context: [shift_mini_block] (temporal blocks) *)

Lemma block_sides_local tb a idxs idxs' j :
  at_dim (idx_begin idxs') j = at_dim (idx_begin idxs) j ->
  at_dim (idx_end idxs') j = at_dim (idx_end idxs) j ->
  block_sides tb a idxs' j = block_sides tb a idxs j.
Proof. intros Hb He. unfold block_sides. rewrite Hb, He. reflexivity. Qed.

Lemma shape_sides_local tb a idxs idxs' j :
  at_dim (idx_begin idxs') j = at_dim (idx_begin idxs) j ->
  at_dim (idx_end idxs') j = at_dim (idx_end idxs) j ->
  shape_sides tb a idxs' j = shape_sides tb a idxs j.
Proof.
  intros Hb He. unfold shape_sides. rewrite (block_sides_local tb a idxs idxs' j Hb He).
  reflexivity.
Qed.

(** What one dimension of [shift_mini_block] does to [idxs]. *)
Lemma shift_mini_block_dim_spec tb a idxs j :
  (j < length (idx_begin idxs))%nat -> (j < length (idx_end idxs))%nat ->
  let ok := fst (shift_mini_block_dim tb a idxs j) in
  let idxs' := snd (shift_mini_block_dim tb a idxs j) in
  length (idx_begin idxs') = length (idx_begin idxs) /\
  length (idx_end idxs') = length (idx_end idxs) /\
  (forall k, k <> j -> at_dim (idx_begin idxs') k = at_dim (idx_begin idxs) k /\
                       at_dim (idx_end idxs') k = at_dim (idx_end idxs) k) /\
  at_dim (idx_begin idxs) j <= at_dim (idx_begin idxs') j /\
  at_dim (idx_end idxs') j <= at_dim (idx_end idxs) j /\
  (ok = true ->
   at_dim (idx_begin idxs') j < at_dim (idx_end idxs') j /\
   fst (shape_sides tb a idxs j) <= at_dim (idx_begin idxs') j /\
   at_dim (idx_end idxs') j <= snd (shape_sides tb a idxs j)).
Proof.
  intros Hlb Hle. unfold shift_mini_block_dim.
  destruct (shape_sides tb a idxs j) as [shape_start shape_stop]. cbn [fst snd].
  destruct (Z.leb_spec shape_stop shape_start) as [Hempty | Hshape]; cbn [fst snd].
  { repeat split; try reflexivity; try lia; try discriminate. }
  cbv zeta.
  match goal with
  | |- context [mkScan (set_dim _ j ?s) (set_dim _ j ?e)] =>
      set (mb_start := s); set (mb_stop := e)
  end.
  cbn [idx_begin idx_end].
  rewrite !length_set_dim, !at_dim_set_dim_same by assumption.
  split; [reflexivity |]. split; [reflexivity |]. split.
  { intros k Hk. rewrite !at_dim_set_dim_other by congruence. auto. }
  assert (H1 : at_dim (idx_begin idxs) j <= mb_start) by (unfold mb_start; lia).
  assert (H2 : mb_stop <= at_dim (idx_end idxs) j) by (unfold mb_stop; lia).
  assert (H3 : shape_start <= mb_start) by (unfold mb_start; lia).
  assert (H4 : mb_stop <= shape_stop) by (unfold mb_stop; lia).
  split; [exact H1 |]. split; [exact H2 |].
  intros Hok. apply negb_true_iff, Z.leb_gt in Hok. auto.
Qed.

Lemma shift_mini_block_loop_spec tb a cnt :
  forall j idxs,
    (j + cnt <= length (idx_begin idxs))%nat -> (j + cnt <= length (idx_end idxs))%nat ->
    let ok := fst (shift_mini_block_loop tb a j cnt idxs) in
    let idxs' := snd (shift_mini_block_loop tb a j cnt idxs) in
    length (idx_begin idxs') = length (idx_begin idxs) /\
    length (idx_end idxs') = length (idx_end idxs) /\
    (forall k, (k < j \/ j + cnt <= k)%nat ->
               at_dim (idx_begin idxs') k = at_dim (idx_begin idxs) k /\
               at_dim (idx_end idxs') k = at_dim (idx_end idxs) k) /\
    (forall k, at_dim (idx_begin idxs) k <= at_dim (idx_begin idxs') k /\
               at_dim (idx_end idxs') k <= at_dim (idx_end idxs) k) /\
    (ok = true ->
     forall k, (j <= k < j + cnt)%nat ->
               at_dim (idx_begin idxs') k < at_dim (idx_end idxs') k /\
               fst (shape_sides tb a idxs k) <= at_dim (idx_begin idxs') k /\
               at_dim (idx_end idxs') k <= snd (shape_sides tb a idxs k)).
Proof.
  induction cnt as [|cnt IH]; intros j idxs Hlb Hle; cbn [shift_mini_block_loop].
  - cbn [fst snd]. repeat split; try reflexivity; try lia.
  - destruct (shift_mini_block_dim_spec tb a idxs j ltac:(lia) ltac:(lia))
      as (L1 & L2 & Ho & Hb & He & Hok).
    destruct (shift_mini_block_dim tb a idxs j) as [ok1 idxs1]. cbn [fst snd] in *.
    destruct ok1; cbn [fst snd].
    2:{ split; [exact L1 |]. split; [exact L2 |]. split.
        - intros k Hk. apply Ho. lia.
        - split; [| discriminate]. intros k.
          destruct (Nat.eq_dec k j) as [-> | Hne]; [lia |].
          destruct (Ho k Hne) as [-> ->]. lia. }
    destruct (IH (S j) idxs1 ltac:(lia) ltac:(lia)) as (M1 & M2 & Mo & Mm & Mok).
    cbv zeta in *.
    set (res := shift_mini_block_loop tb a (S j) cnt idxs1) in *.
    split; [congruence |]. split; [congruence |]. split; [| split].
    + intros k Hk. destruct (Mo k ltac:(lia)) as [-> ->]. apply Ho. lia.
    + intros k. destruct (Mm k) as [A B].
      destruct (Nat.eq_dec k j) as [-> | Hne]; [lia |].
      destruct (Ho k Hne) as [C D]. lia.
    + intros Hres k Hk. destruct (Nat.eq_dec k j) as [-> | Hne].
      * destruct (Mo j ltac:(lia)) as [-> ->]. apply Hok. reflexivity.
      * destruct (Ho k Hne) as [C D].
        rewrite <- (shape_sides_local tb a idxs idxs1 k C D).
        apply Mok; [exact Hres | lia].
Qed.

(** X20: [shift_mini_block] never widens the span it is given: in every
    dimension the new [begin] is not below and the new [end] not above
    the old one, and dimensions beyond the domain dimensions are not
    touched.  When it returns [true], the span of every domain dimension
    is non-empty and lies inside the shape of the current phase in that
    dimension. *)
Theorem shift_mini_block_trims_to_shape :
  forall (nddims : nat) (tb : TbInfo) (a : MiniBlockArgs) (idxs : ScanIndices),
    (nddims <= length (idx_begin idxs))%nat -> (nddims <= length (idx_end idxs))%nat ->
    let ok := fst (shift_mini_block nddims tb a idxs) in
    let idxs' := snd (shift_mini_block nddims tb a idxs) in
    (forall k, at_dim (idx_begin idxs) k <= at_dim (idx_begin idxs') k /\
               at_dim (idx_end idxs') k <= at_dim (idx_end idxs) k) /\
    (forall k, (nddims <= k)%nat ->
               at_dim (idx_begin idxs') k = at_dim (idx_begin idxs) k /\
               at_dim (idx_end idxs') k = at_dim (idx_end idxs) k) /\
    (ok = true ->
     forall k, (k < nddims)%nat ->
               at_dim (idx_begin idxs') k < at_dim (idx_end idxs') k /\
               fst (shape_sides tb a idxs k) <= at_dim (idx_begin idxs') k /\
               at_dim (idx_end idxs') k <= snd (shape_sides tb a idxs k)).
Proof.
  intros nddims tb a idxs Hb He. unfold shift_mini_block.
  destruct (shift_mini_block_loop_spec tb a nddims 0 idxs Hb He)
    as (_ & _ & Ho & Hm & Hok).
  cbv zeta in *. split; [exact Hm |]. split.
  - intros k Hk. apply Ho. right. exact Hk.
  - intros H k Hk. apply Hok; [exact H | lia].
Qed.

Lemma shift_mini_block_trims_to_shape_witness :
  shift_mini_block 1 tb_1d (first_block 0 [false]) (mkScan [0] [32])
  = (true, mkScan [0] [10]) /\
  shape_sides tb_1d (first_block 0 [false]) (mkScan [0] [32]) 0 = (0, 10).
Proof.
  split; [| reflexivity].
  pose proof (shift_mini_block_trims_to_shape 1 tb_1d (first_block 0 [false])
                (mkScan [0] [32]) ltac:(simpl; lia) ltac:(simpl; lia)) as H.
  reflexivity.
Defined.

(** X21: the shapes of [shift_mini_block] in one dimension, for the same
    block and shift.  The bridge of a later phase, in a dimension that
    the phase bridges, starts where the base shape of phase 0 stops (or
    at its start when the base shape has shrunk to nothing), so the two
    never overlap.  When the block is not the last of the region, the
    bridge stops where the base shape of the next block, shifted as
    many times, starts. *)
Theorem bridge_follows_base_shape :
  forall (tb : TbInfo) (a a' : MiniBlockArgs) (idxs idxs' : ScanIndices) (j : nat)
         (ph : Z) (mask mask0 mask0' : list bool),
    0 < ph -> nth j mask false = true ->
    let base := shape_sides tb (in_phase a 0 mask0) idxs j in
    let bridge := shape_sides tb (in_phase a ph mask) idxs j in
    let next_base := shape_sides tb (in_phase a' 0 mask0') idxs' j in
    snd base <= fst bridge /\
    (fst base <= snd base -> fst bridge = snd base) /\
    (at_dim (block_base_stop a) j < at_dim (region_base_stop a) j ->
     at_dim (region_base_start a') j < at_dim (block_base_start a') j ->
     at_dim (block_base_start a') j = at_dim (block_base_stop a) j ->
     mb_shift_num a' = mb_shift_num a ->
     fst next_base = snd bridge).
Proof.
  intros tb a a' idxs idxs' j ph mask mask0 mask0' Hph Hmask. cbv zeta.
  unfold shape_sides. cbn [phase bridge_mask in_phase]. rewrite Hmask.
  change (0 <? 0) with false. cbn [andb].
  destruct (Z.ltb_spec 0 ph) as [_ | Hn]; [| lia]. cbn [andb].
  assert (Hsame : block_sides tb (in_phase a ph mask) idxs j
                  = block_sides tb (in_phase a 0 mask0) idxs j) by reflexivity.
  rewrite Hsame.
  destruct (block_sides tb (in_phase a 0 mask0) idxs j) as [[bs be] nb] eqn:E.
  destruct (block_sides tb (in_phase a' 0 mask0') idxs' j) as [[bs' be'] nb'] eqn:E'.
  cbn [fst snd]. split; [lia |]. split; [lia |].
  intros Hlast Hfirst Hadj Hshift.
  unfold block_sides in E, E'. cbv zeta in E, E'.
  cbn [block_base_start block_base_stop region_base_start region_base_stop
       mb_shift_num nphases in_phase] in E, E'.
  destruct (Z.leb_spec (at_dim (region_base_stop a) j) (at_dim (block_base_stop a) j))
    as [Hx | _] in E; [lia |].
  destruct (Z.leb_spec (at_dim (block_base_start a') j) (at_dim (region_base_start a') j))
    as [Hx | _] in E'; [lia |].
  injection E as _ _ <-. injection E' as <- _ _.
  rewrite Hadj, Hshift. reflexivity.
Qed.

Lemma bridge_follows_base_shape_witness :
  shape_sides tb_1d (first_block 0 [false]) (mkScan [0] [32]) 0 = (0, 10) /\
  shape_sides tb_1d (first_block 1 [true]) (mkScan [0] [32]) 0 = (10, 18) /\
  shape_sides tb_1d (second_block 0 [false]) (mkScan [0] [32]) 0 = (18, 26).
Proof.
  pose proof (bridge_follows_base_shape tb_1d (first_block 0 [false])
                (second_block 0 [false]) (mkScan [0] [32]) (mkScan [0] [32]) 0 1
                [true] [false] [false] ltac:(lia) eq_refl) as (H1 & H2 & H3).
  repeat split; reflexivity.
Defined.

End ShiftMiniBlockProofs.

(** ** allocVarData: the layout of the variables *)
Module AllocProofs.
Import Common.
Import AllocSpec.

(** *** alloc.cpp: [allocVarData] *)

Lemma padded_bytes_small (pad nbytes : Z) :
  0 <= pad -> 0 <= nbytes -> nbytes + pad + CACHELINE_BYTES < 2 ^ 64 ->
  padded_bytes pad nbytes = ROUND_UP (nbytes + pad) CACHELINE_BYTES /\
  nbytes + pad <= padded_bytes pad nbytes < nbytes + pad + CACHELINE_BYTES /\
  padded_bytes pad nbytes mod CACHELINE_BYTES = 0.
Proof.
  unfold CACHELINE_BYTES. intros Hp Hn Hs.
  assert (E : padded_bytes pad nbytes = ROUND_UP (nbytes + pad) 64).
  { unfold padded_bytes, ROUND_UP, CEIL_DIV, size_t_wrap, CACHELINE_BYTES. cbv zeta.
    rewrite (Z.mod_small (nbytes + pad)) by lia.
    rewrite (Z.mod_small (nbytes + pad + 64)) by lia.
    rewrite (Z.mod_small (nbytes + pad + 64 - 1)) by lia.
    rewrite Z.quot_div_nonneg by lia.
    pose proof (Z.div_mod (nbytes + pad + 64 - 1) 64 ltac:(lia)).
    pose proof (Z.mod_pos_bound (nbytes + pad + 64 - 1) 64 ltac:(lia)).
    apply Z.mod_small. lia. }
  rewrite E. unfold ROUND_UP, CEIL_DIV. rewrite Z.quot_div_nonneg by lia.
  pose proof (Z.div_mod (nbytes + pad + 64 - 1) 64 ltac:(lia)).
  pose proof (Z.mod_pos_bound (nbytes + pad + 64 - 1) 64 ltac:(lia)).
  split; [reflexivity |]. split; [lia |]. apply Z.mod_mul. lia.
Qed.

Lemma nth_error_at_ptr gp f vars :
  forall p, nth_error (at_ptr gp f vars) p
            = if (gp =? p)%nat then option_map f (nth_error vars p)
              else nth_error vars p.
Proof.
  revert gp. induction vars as [|v vars IH]; intros [|gp] [|p];
    cbn [at_ptr nth_error Nat.eqb option_map]; try reflexivity.
  - destruct (_ =? _)%nat; reflexivity.
  - apply IH.
Qed.

Lemma at_ptr_length gp f vars : length (at_ptr gp f vars) = length vars.
Proof.
  revert gp. induction vars as [|v vars IH]; intros [|gp]; cbn [at_ptr length];
    try reflexivity.
  rewrite IH. reflexivity.
Qed.

Lemma alloc_pass_keeps_vars pad pass sorted :
  pass <> 2 ->
  forall vars c, fst (fold_left (alloc_var pad pass) sorted (vars, c)) = vars.
Proof.
  intros Hp. induction sorted as [|p sorted IH]; intros vars c; cbn [fold_left];
    [reflexivity |].
  unfold alloc_var at 2. destruct (nth_error vars p) as [gp|]; [| apply IH].
  destruct (negb (is_storage_allocated gp)); [| apply IH].
  cbv zeta. destruct (Z.eqb_spec pass 2); [contradiction | apply IH].
Qed.

Lemma placed_mono pad s s' v v' : s <= s' -> placed pad s v v' -> placed pad s' v v'.
Proof.
  intros Hs (ofs & H1 & H2 & H3 & H4). exists ofs. repeat split; auto; lia.
Qed.

Lemma layout_inv_skip pad orig processed cur c1 c1' c2 p :
  layout_inv pad orig processed cur c1 c2 ->
  (forall v, nth_error orig p = Some v -> storage v = None -> In p processed) ->
  (forall key, c1 key <= c1' key) ->
  layout_inv pad orig (processed ++ [p]) cur c1' c2.
Proof.
  intros (L & V & C & A) Hp Hc.
  assert (Hin : forall q v, nth_error orig q = Some v -> storage v = None ->
                            In q (processed ++ [p]) -> In q processed).
  { intros q v Hq Hs Hi. apply in_app_or in Hi as [Hi | [<- | []]]; [exact Hi |].
    eapply Hp; eassumption. }
  split; [exact L |]. split; [| split].
  - intros q v Hq. destruct (V q v Hq) as (v' & H1 & H2 & H3 & H4 & H5).
    exists v'. split; [exact H1 |]. split; [exact H2 |]. split; [exact H3 |]. split.
    + intros [Hs | Hn]; apply H4; [left; exact Hs |].
      right. intros Hi. apply Hn, in_or_app. left; exact Hi.
    + intros Hs Hi. apply H5; [exact Hs |]. eapply Hin; eassumption.
  - intros key. destruct (C key) as [H1 H2]. specialize (Hc key). split; [lia | exact H2].
  - intros q1 q2 v1 v2 v1' v2' Hne Ho1 Ho2 Hs1 Hs2 Hi1 Hi2.
    apply (A q1 q2 v1 v2 v1' v2' Hne Ho1 Ho2 Hs1 Hs2); eapply Hin; eassumption.
Qed.

Lemma mod_add_zero (a b m : Z) : a mod m = 0 -> b mod m = 0 -> (a + b) mod m = 0.
Proof.
  intros Ha Hb. destruct (Z.eq_dec m 0) as [-> | Hm].
  - rewrite Z.mod_0_r in *. lia.
  - rewrite Z.add_mod, Ha, Hb by exact Hm. apply Z.mod_0_l, Hm.
Qed.

Lemma layout_step pad orig processed cur c1 c2 p :
  0 <= pad ->
  (forall q v, nth_error orig q = Some v -> 0 <= get_num_storage_bytes v) ->
  layout_inv pad orig processed cur c1 c2 ->
  (forall key, c1 key + demand pad orig [p] < 2 ^ 64) ->
  let c1' := snd (alloc_var pad 1 (orig, c1) p) in
  let st2 := alloc_var pad 2 (cur, c2) p in
  layout_inv pad orig (processed ++ [p]) (fst st2) c1' (snd st2) /\
  (forall key, c1' key <= c1 key + demand pad orig [p]).
Proof.
  intros Hpad Hnb Inv Hbudget. cbv zeta.
  pose proof Inv as (L & V & C & A).
  unfold demand in *. cbn [fold_right] in *.
  unfold alloc_var.
  destruct (nth_error orig p) as [v0|] eqn:Eo.
  2:{ assert (Ec : nth_error cur p = None).
      { apply nth_error_None. rewrite L. apply nth_error_None, Eo. }
      rewrite Ec. cbn [fst snd]. split; [| intros key; lia].
      apply (layout_inv_skip pad orig processed cur c1 c1 c2 p Inv);
        [| intros key; lia].
      intros v Hv. congruence. }
  destruct (V p v0 Eo) as (v' & Ec & Hnuma & Hbytes & Hsame & Hplaced).
  rewrite Ec.
  pose proof (Hnb p v0 Eo) as Hn0.
  set (k := get_numa_preferred v0) in *.
  set (pb := padded_bytes pad (get_num_storage_bytes v0)).
  assert (Hk : c1 k + (get_num_storage_bytes v0 + pad + CACHELINE_BYTES + 0) < 2 ^ 64)
    by apply Hbudget.
  assert (Hc1k : 0 <= c1 k) by (destruct (C k); lia).
  destruct (padded_bytes_small pad (get_num_storage_bytes v0) Hpad Hn0 ltac:(lia))
    as (_ & Hpb & Hpbm). fold pb in Hpb, Hpbm.
  assert (Hadd1 : forall key, c1 key <= map_add c1 k pb key
                              <= c1 key + (get_num_storage_bytes v0 + pad
                                           + CACHELINE_BYTES + 0)).
  { intros key. unfold map_add. destruct (Z.eqb_spec key k) as [-> | _];
      [| unfold CACHELINE_BYTES; lia].
    unfold size_t_wrap. rewrite Z.mod_small by lia. lia. }
  unfold is_storage_allocated.
  destruct (storage v0) as [s0|] eqn:Es0.
  { (* allocated before *)
    assert (Hv' : v' = v0) by (apply Hsame; left; congruence).
    rewrite Hv', Es0. cbn [negb fst snd].
    split; [| intros key; lia].
    apply (layout_inv_skip pad orig processed cur c1 c1 c2 p Inv);
      [| intros key; lia].
    intros v Hv Hs. congruence. }
  cbn [negb]. change (1 =? 2) with false. cbv iota. cbn [snd].
  split; [| intros key; apply Hadd1].
  destruct (in_dec Nat.eq_dec p processed) as [Hin | Hnin].
  { (* met before in this pass *)
    destruct (Hplaced eq_refl Hin) as (ofs & Hst & _). rewrite Hst. cbn [negb fst snd].
    apply (layout_inv_skip pad orig processed cur c1 (map_add c1 k pb) c2 p Inv);
      [| intros key; apply Hadd1].
    intros _ _ _. exact Hin. }
  rewrite (Hsame (or_intror Hnin)), Es0. cbn [negb]. change (2 =? 2) with true.
  cbv iota. fold k. fold pb. cbn [fst snd].
  assert (Hc2k : 0 <= c2 k <= c1 k /\ c2 k mod CACHELINE_BYTES = 0) by apply C.
  assert (Hadd2 : forall key, c2 key <= map_add c2 k pb key /\
                              map_add c2 k pb key <= map_add c1 k pb key /\
                              map_add c2 k pb key mod CACHELINE_BYTES = 0).
  { intros key. destruct (C key) as [H1 H2]. unfold map_add.
    destruct (Z.eqb_spec key k) as [-> | _]; [| split; [lia | split; [lia | exact H2]]].
    unfold size_t_wrap. rewrite !Z.mod_small by lia.
    split; [lia |]. split; [lia |]. apply mod_add_zero; assumption. }
  assert (Hnew : map_add c2 k pb k = c2 k + pb).
  { unfold map_add. rewrite Z.eqb_refl. unfold size_t_wrap. apply Z.mod_small. lia. }
  split; [rewrite at_ptr_length; exact L |].
  split; [| split].
  - intros q v Hq. rewrite nth_error_at_ptr.
    destruct (Nat.eqb_spec p q) as [<- | Hne].
    + rewrite Ec, (Hsame (or_intror Hnin)). cbn [option_map]. rewrite Eo in Hq.
      injection Hq as <-. exists (set_storage k (c2 k) v0).
      split; [reflexivity |]. split; [reflexivity |]. split; [reflexivity |]. split.
      * intros [Hs | Hn]; [congruence |]. exfalso. apply Hn, in_or_app.
        right. left. reflexivity.
      * intros _ _. exists (c2 k). fold k. rewrite Hnew.
        split; [reflexivity |]. split; [lia |]. split; [tauto | lia].
    + destruct (V q v Hq) as (w & H1 & H2 & H3 & H4 & H5).
      exists w. split; [exact H1 |]. split; [exact H2 |]. split; [exact H3 |]. split.
      * intros [Hs | Hn]; apply H4; [left; exact Hs |].
        right. intros Hi. apply Hn, in_or_app. left; exact Hi.
      * intros Hs Hi. apply in_app_or in Hi as [Hi | [E | []]]; [| congruence].
        eapply placed_mono; [| exact (H5 Hs Hi)]. apply Hadd2.
  - intros key. destruct (Hadd2 key) as (H1 & H2 & H3). destruct (C key) as [H4 _].
    split; [lia | exact H3].
  - assert (Hfresh : forall q vq vq',
               q <> p -> nth_error orig q = Some vq -> storage vq = None ->
               In q processed -> nth_error cur q = Some vq' ->
               apart pad (set_storage k (c2 k) v0) vq' /\
               apart pad vq' (set_storage k (c2 k) v0)).
    { intros q vq vq' Hne Hq Hs Hi Hc.
      destruct (V q vq Hq) as (w & H1 & H2 & H3 & _ & H5).
      rewrite Hc in H1. injection H1 as <-.
      destruct (H5 Hs Hi) as (ofs & Hst & Ho1 & _ & Ho3).
      split; intros key op oq Hp Hq'; cbn [set_storage storage get_num_storage_bytes]
        in *.
      - injection Hp as <- <-. rewrite Hst in Hq'. injection Hq' as Hkey <-.
        right. rewrite H3. rewrite Hkey in Ho3. lia.
      - injection Hq' as <- <-. rewrite Hst in Hp. injection Hp as Hkey <-.
        left. rewrite H3. rewrite Hkey in Ho3. lia. }
    intros q1 q2 v1 v2 v1' v2' Hne Ho1 Ho2 Hs1 Hs2 Hi1 Hi2.
    rewrite !nth_error_at_ptr.
    apply in_app_or in Hi1 as [Hi1 | [<- | []]];
      apply in_app_or in Hi2 as [Hi2 | [E2 | []]].
    + destruct (Nat.eqb_spec p q1) as [-> | _]; [contradiction |].
      destruct (Nat.eqb_spec p q2) as [-> | _]; [contradiction |].
      apply (A q1 q2 v1 v2 v1' v2'); assumption.
    + subst q2. destruct (Nat.eqb_spec p q1) as [-> | Hn1]; [contradiction |].
      rewrite Nat.eqb_refl, Ec, (Hsame (or_intror Hnin)). cbn [option_map].
      intros Hc1 [= <-].
      apply (Hfresh q1 v1 v1'); auto.
    + rewrite Nat.eqb_refl, Ec, (Hsame (or_intror Hnin)). cbn [option_map].
      destruct (Nat.eqb_spec p q2) as [-> | Hn2]; [contradiction |].
      intros [= <-] Hc2.
      apply (Hfresh q2 v2 v2'); auto.
    + congruence.
Qed.

Lemma alloc_var_keeps_vars pad pass vars c p :
  pass <> 2 -> fst (alloc_var pad pass (vars, c) p) = vars.
Proof.
  intros Hp. unfold alloc_var. destruct (nth_error vars p) as [gp|]; [| reflexivity].
  destruct (negb (is_storage_allocated gp)); [| reflexivity].
  cbv zeta. destruct (Z.eqb_spec pass 2); [contradiction | reflexivity].
Qed.

Lemma layout_fold pad orig rest :
  0 <= pad ->
  (forall q v, nth_error orig q = Some v -> 0 <= get_num_storage_bytes v) ->
  forall processed cur c1 c2,
    layout_inv pad orig processed cur c1 c2 ->
    (forall key, c1 key + demand pad orig rest < 2 ^ 64) ->
    let c1' := snd (fold_left (alloc_var pad 1) rest (orig, c1)) in
    let st2 := fold_left (alloc_var pad 2) rest (cur, c2) in
    layout_inv pad orig (processed ++ rest) (fst st2) c1' (snd st2).
Proof.
  intros Hpad Hnb. induction rest as [|p rest IH]; intros processed cur c1 c2 Inv Hb;
    cbn [fold_left].
  - cbn [fst snd]. rewrite app_nil_r. exact Inv.
  - cbv zeta.
    assert (Hb1 : forall key, c1 key + demand pad orig [p] < 2 ^ 64).
    { intros key. specialize (Hb key). unfold demand in *. cbn [fold_right] in *.
      assert (0 <= fold_right
                     (fun p acc =>
                        match nth_error orig p with
                        | Some gp => get_num_storage_bytes gp + pad + CACHELINE_BYTES
                        | None => 0
                        end + acc) 0 rest).
      { clear -Hpad Hnb. induction rest as [|q rest IH]; cbn [fold_right]; [lia |].
        destruct (nth_error orig q) as [gp|] eqn:E; [| lia].
        specialize (Hnb q gp E).
        pose proof (eq_refl : CACHELINE_BYTES = 64). lia. }
      lia. }
    destruct (layout_step pad orig processed cur c1 c2 p Hpad Hnb Inv Hb1) as [Inv' Hc].
    cbv zeta in Inv', Hc.
    pose proof (alloc_var_keeps_vars pad 1 orig c1 p ltac:(lia)) as Hk.
    destruct (alloc_var pad 1 (orig, c1) p) as [o1 c1'] eqn:E1.
    destruct (alloc_var pad 2 (cur, c2) p) as [cur' c2'] eqn:E2.
    cbn [fst snd] in *. subst o1.
    replace (processed ++ p :: rest) with ((processed ++ [p]) ++ rest)
      by (rewrite <- app_assoc; reflexivity).
    apply (IH (processed ++ [p]) cur' c1' c2' Inv').
    intros key. specialize (Hb key). specialize (Hc key).
    unfold demand in *. cbn [fold_right] in *. lia.
Qed.

Lemma in_sortedVarPtrs outputs varPtrs p :
  In p (sortedVarPtrs outputs varPtrs) <-> In p outputs \/ In p varPtrs.
Proof.
  unfold sortedVarPtrs. rewrite in_app_iff, filter_In. split.
  - intros [H | [H _]]; auto.
  - intros [H | H]; [left; exact H |].
    destruct (existsb (Nat.eqb p) outputs) eqn:E.
    + left. apply existsb_exists in E as (x & Hx & Heq).
      apply Nat.eqb_eq in Heq. subst x. exact Hx.
    + right. split; [exact H | reflexivity].
Qed.

(** X22: the layout that [allocVarData] gives to the variables, when the
    sizes do not overflow [size_t].  A variable that has storage
    already, or is in neither list of variables, is left as it is.
    Every other variable is placed in the buffer of its preferred NUMA
    key, at an offset that is a multiple of the cache-line size, and its
    bytes and the pad after them end within the bytes that pass 1
    allocated for that key.  Two such variables never share a byte, pads
    included. *)
Theorem allocVarData_layout :
  forall (pad : Z) (outputVarPtrs varPtrs : list nat) (vars : list VarStorage),
    0 <= pad ->
    (forall p v, nth_error vars p = Some v -> 0 <= get_num_storage_bytes v) ->
    demand pad vars (sortedVarPtrs outputVarPtrs varPtrs) < 2 ^ 64 ->
    let vars' := fst (allocVarData pad outputVarPtrs varPtrs vars) in
    let bufs := snd (allocVarData pad outputVarPtrs varPtrs vars) in
    let listed p := In p outputVarPtrs \/ In p varPtrs in
    length vars' = length vars /\
    (forall p v, nth_error vars p = Some v ->
       exists v', nth_error vars' p = Some v' /\
                  get_numa_preferred v' = get_numa_preferred v /\
                  get_num_storage_bytes v' = get_num_storage_bytes v /\
                  (storage v <> None \/ ~ listed p -> v' = v) /\
                  (storage v = None -> listed p ->
                   placed pad (bufs (get_numa_preferred v)) v v')) /\
    (forall p q vp vq vp' vq',
       p <> q -> nth_error vars p = Some vp -> nth_error vars q = Some vq ->
       storage vp = None -> storage vq = None -> listed p -> listed q ->
       nth_error vars' p = Some vp' -> nth_error vars' q = Some vq' ->
       apart pad vp' vq').
Proof.
  intros pad outs vps vars Hpad Hnb Hdem. cbv zeta.
  unfold allocVarData. cbv zeta. unfold alloc_pass.
  set (sorted := sortedVarPtrs outs vps) in *.
  pose proof (alloc_pass_keeps_vars pad 0 sorted ltac:(lia) vars (fun _ => 0)) as K0.
  destruct (fold_left (alloc_var pad 0) sorted (vars, fun _ => 0)) as [v0 x0].
  cbn [fst] in K0. subst v0.
  assert (Inv0 : layout_inv pad vars [] vars (fun _ => 0) (fun _ => 0)).
  { split; [reflexivity |]. split; [| split].
    - intros p v Hp. exists v. repeat split; auto. intros _ [].
    - intros key. split; [lia | reflexivity].
    - intros p q vp vq vp' vq' _ _ _ _ _ []. }
  pose proof (layout_fold pad vars sorted Hpad Hnb [] vars (fun _ => 0) (fun _ => 0)
                Inv0 ltac:(intros key; lia)) as Inv.
  cbv zeta in Inv. cbn [app] in Inv.
  pose proof (alloc_pass_keeps_vars pad 1 sorted ltac:(lia) vars (fun _ => 0)) as K1.
  destruct (fold_left (alloc_var pad 1) sorted (vars, fun _ => 0)) as [v1 c1].
  cbn [fst snd] in K1, Inv. subst v1.
  destruct (fold_left (alloc_var pad 2) sorted (vars, fun _ => 0)) as [v2 c2].
  cbn [fst snd] in *.
  destruct Inv as (L & V & C & A).
  split; [exact L |]. split.
  - intros p v Hp. destruct (V p v Hp) as (v' & H1 & H2 & H3 & H4 & H5).
    exists v'. split; [exact H1 |]. split; [exact H2 |]. split; [exact H3 |]. split.
    + intros [Hs | Hn]; apply H4; [left; exact Hs | right].
      intros Hin. apply Hn, in_sortedVarPtrs, Hin.
    + intros Hs Hl. eapply placed_mono; [| apply (H5 Hs), in_sortedVarPtrs, Hl].
      apply C.
  - intros p q vp vq vp' vq' Hne Hp Hq Hsp Hsq Hlp Hlq.
    apply (A p q vp vq vp' vq' Hne Hp Hq Hsp Hsq); apply in_sortedVarPtrs; assumption.
Qed.

Lemma allocVarData_layout_witness :
  fst (allocVarData 128 [1%nat] [0%nat; 1%nat; 2%nat] three_vars)
  = [mkVarStorage 0 100 (Some (0, 384)); mkVarStorage 0 200 (Some (0, 0));
     mkVarStorage 0 50 (Some (7, 0))] /\
  snd (allocVarData 128 [1%nat] [0%nat; 1%nat; 2%nat] three_vars) 0 = 640 /\
  apart 128 (mkVarStorage 0 100 (Some (0, 384))) (mkVarStorage 0 200 (Some (0, 0))).
Proof.
  assert (Hnb : forall p v, nth_error three_vars p = Some v ->
                            0 <= get_num_storage_bytes v).
  { intros p v H. destruct p as [|[|[|p]]]; cbn in H;
      try (injection H as <-; cbn; lia). destruct p; discriminate. }
  destruct (allocVarData_layout 128 [1%nat] [0%nat; 1%nat; 2%nat] three_vars
              ltac:(lia) Hnb ltac:(vm_compute; reflexivity)) as (_ & _ & A).
  split; [reflexivity |]. split; [reflexivity |].
  apply (A 0%nat 1%nat (mkVarStorage 0 100 None) (mkVarStorage 0 200 None));
    try reflexivity; try discriminate; cbn; auto.
Defined.

End AllocProofs.

(** ** newGrid: the check of the dimensions *)
Module NewGridProofs.
Import NewGridSpec.

(** *** new_grid: the check of the dimensions in [newGrid] *)

Lemma lookup_In dims gdim : lookup dims gdim = true <-> In gdim dims.
Proof.
  unfold lookup. rewrite existsb_exists. split.
  - intros (x & Hx & E). apply String.eqb_eq in E. subst x. exact Hx.
  - intros H. exists gdim. split; [exact H | apply String.eqb_refl].
Qed.

Lemma check_dims_spec step_dim domain_dims gdims :
  forall i misc_dims,
    let res := check_dims step_dim domain_dims [] i gdims misc_dims in
    (exists extra, fst res = misc_dims ++ extra /\
                   forall g, In g extra ->
                             In g gdims /\ g <> step_dim /\ ~ In g domain_dims /\
                             ~ In g misc_dims) /\
    match snd res with
    | Some (DimUsedTwice _) => False
    | Some (StepDimNotFirst g) =>
        g = step_dim /\
        (i = 0%nat -> In step_dim (tl gdims)) /\ (i <> 0%nat -> In step_dim gdims)
    | None =>
        (i = 0%nat -> ~ In step_dim (tl gdims)) /\ (i <> 0%nat -> ~ In step_dim gdims) /\
        forall g, In g gdims -> g <> step_dim -> ~ In g domain_dims -> In g (fst res)
    end.
Proof.
  induction gdims as [|gdim rest IH]; intros i misc_dims; cbn [check_dims].
  - cbv zeta. cbn [fst snd]. split.
    + exists []. rewrite app_nil_r. split; [reflexivity | intros g []].
    + split; [intros _ [] |]. split; [intros _ [] | intros g []].
  - cbv zeta. cbn [lookup existsb].
    destruct (String.eqb_spec gdim step_dim) as [-> | Hns].
    { destruct i as [|i]; cbn [Nat.eqb negb].
      - destruct (IH 1%nat misc_dims) as ((extra & He & Hx) & Hr). cbv zeta in *.
        split.
        + exists extra. split; [exact He |]. intros g Hg.
          destruct (Hx g Hg) as (H1 & H2). split; [right; exact H1 | exact H2].
        + destruct (snd (check_dims step_dim domain_dims [] 1 rest misc_dims))
            as [[g | g]|]; [exact Hr | |].
          * destruct Hr as (Hg & _ & Hin). split; [exact Hg |].
            split; [intros _; cbn [tl]; apply Hin; discriminate | intros H; congruence].
          * destruct Hr as (_ & Hnin & Hall). split; [| split].
            -- intros _. cbn [tl]. apply Hnin. discriminate.
            -- intros H. congruence.
            -- intros g [<- | Hg] Hne Hnd; [contradiction | apply Hall; assumption].
      - cbn [fst snd]. split.
        + exists []. rewrite app_nil_r. split; [reflexivity | intros g []].
        + split; [reflexivity |]. split; [discriminate | intros _; left; reflexivity]. }
    assert (Hstep : forall misc',
               (exists extra0, misc' = misc_dims ++ extra0 /\
                  forall g, In g extra0 -> g = gdim /\ ~ In g domain_dims /\
                                           ~ In g misc_dims) ->
               (~ In gdim domain_dims -> In gdim misc') ->
               let res := check_dims step_dim domain_dims [] (S i) rest misc' in
               (exists extra, fst res = misc_dims ++ extra /\
                  forall g, In g extra ->
                            In g (gdim :: rest) /\ g <> step_dim /\
                            ~ In g domain_dims /\ ~ In g misc_dims) /\
               match snd res with
               | Some (DimUsedTwice _) => False
               | Some (StepDimNotFirst g) =>
                   g = step_dim /\
                   (i = 0%nat -> In step_dim (tl (gdim :: rest))) /\
                   (i <> 0%nat -> In step_dim (gdim :: rest))
               | None =>
                   (i = 0%nat -> ~ In step_dim (tl (gdim :: rest))) /\
                   (i <> 0%nat -> ~ In step_dim (gdim :: rest)) /\
                   forall g, In g (gdim :: rest) -> g <> step_dim ->
                             ~ In g domain_dims -> In g (fst res)
               end).
    { intros misc' (extra0 & E0 & Hx0) Hhave. cbv zeta.
      destruct (IH (S i) misc') as ((extra & He & Hx) & Hr). cbv zeta in *.
      split.
      - exists (extra0 ++ extra). rewrite He, E0, app_assoc. split; [reflexivity |].
        intros g Hg. apply in_app_or in Hg as [Hg | Hg].
        + destruct (Hx0 g Hg) as (-> & H2 & H3).
          split; [left; reflexivity |]. split; [exact Hns |]. split; assumption.
        + destruct (Hx g Hg) as (H1 & H2 & H3 & H4).
          split; [right; exact H1 |]. split; [exact H2 |]. split; [exact H3 |].
          intros Hm. apply H4. rewrite E0. apply in_or_app. left; exact Hm.
      - destruct (snd (check_dims step_dim domain_dims [] (S i) rest misc'))
          as [[g | g]|]; [exact Hr | |].
        + destruct Hr as (Hg & _ & Hin). specialize (Hin ltac:(discriminate)).
          split; [exact Hg |]. split; intros _; [exact Hin | right; exact Hin].
        + destruct Hr as (_ & Hnin & Hall). specialize (Hnin ltac:(discriminate)).
          split; [intros _; exact Hnin |]. split.
          * intros _ [E | Hin]; [congruence | contradiction].
          * intros g [<- | Hg] Hne Hnd; [| apply Hall; assumption].
            rewrite He. apply in_or_app. left. apply Hhave, Hnd. }
    destruct (lookup domain_dims gdim) eqn:Ed.
    { apply Hstep.
      - exists []. rewrite app_nil_r. split; [reflexivity | intros g []].
      - intros Hnd. exfalso. apply Hnd, lookup_In, Ed. }
    destruct (lookup misc_dims gdim) eqn:Em.
    { apply Hstep.
      - exists []. rewrite app_nil_r. split; [reflexivity | intros g []].
      - intros _. apply lookup_In, Em. }
    apply Hstep.
    + exists [gdim]. split; [reflexivity |]. intros g [<- | []].
      split; [reflexivity |]. split.
      * intros H. apply lookup_In in H. congruence.
      * intros H. apply lookup_In in H. congruence.
    + intros _. apply in_or_app. right. left. reflexivity.
Qed.

(** X24: the check of the dimensions of a new grid that matches no grid
    of the stencil.  It throws exactly when the step dimension is named
    at a position other than the first, and the exception is the one for
    that; the exception for a dimension used more than once is never
    thrown, because nothing is ever put into the set of dimensions seen.
    The miscellaneous dimensions only grow at the back, by names of the
    grid that are neither the step dimension, a domain dimension nor a
    known miscellaneous dimension; and when nothing is thrown every name
    of the grid other than the step and domain dimensions is a
    miscellaneous dimension afterwards. *)
Theorem new_grid_dims_check :
  forall (step_dim : String.string) (domain_dims misc_dims gdims : list String.string),
    let misc' := fst (check_new_grid_dims step_dim domain_dims misc_dims gdims) in
    let err := snd (check_new_grid_dims step_dim domain_dims misc_dims gdims) in
    (forall g, err <> Some (DimUsedTwice g)) /\
    (In step_dim (tl gdims) -> err = Some (StepDimNotFirst step_dim)) /\
    (~ In step_dim (tl gdims) -> err = None) /\
    (exists extra, misc' = misc_dims ++ extra /\
                   forall g, In g extra ->
                             In g gdims /\ g <> step_dim /\ ~ In g domain_dims /\
                             ~ In g misc_dims) /\
    (err = None ->
     forall g, In g gdims -> g <> step_dim -> ~ In g domain_dims -> In g misc').
Proof.
  intros step_dim domain_dims misc_dims gdims. cbv zeta. unfold check_new_grid_dims.
  destruct (check_dims_spec step_dim domain_dims gdims 0 misc_dims) as (Hx & Hr).
  cbv zeta in *.
  destruct (snd (check_dims step_dim domain_dims [] 0 gdims misc_dims)) as [[g | g]|].
  - destruct Hr.
  - destruct Hr as (-> & Hin & _). specialize (Hin eq_refl).
    split; [discriminate |]. split; [reflexivity |]. split; [contradiction |].
    split; [exact Hx | discriminate].
  - destruct Hr as (Hnin & _ & Hall). specialize (Hnin eq_refl).
    split; [discriminate |]. split; [contradiction |]. split; [reflexivity |].
    split; [exact Hx | intros _; exact Hall].
Qed.

Lemma new_grid_dims_check_witness :
  check_new_grid_dims "t"%string ["x"%string; "y"%string] ["m"%string] ["t"%string; "x"%string; "x"%string; "n"%string; "m"%string; "n"%string]
  = (["m"%string; "n"%string], None) /\
  check_new_grid_dims "t"%string ["x"%string; "y"%string] ["m"%string] ["x"%string; "n"%string; "t"%string]
  = (["m"%string; "n"%string], Some (StepDimNotFirst "t"%string)).
Proof.
  pose proof (new_grid_dims_check "t"%string ["x"%string; "y"%string] ["m"%string]
                ["t"%string; "x"%string; "x"%string; "n"%string; "m"%string; "n"%string]) as H.
  split; reflexivity.
Defined.

End NewGridProofs.

(** ** calc_region: the shift numbers of a region *)
Module RegionProofs.
Import Common Data Angles Tuple.
Import RegionSpec.

(** *** context: the shifts of [calc_region] *)

Lemma CEIL_DIV_bounds (n d : Z) :
  0 <= n -> 0 < d -> (CEIL_DIV n d - 1) * d < n <= CEIL_DIV n d * d.
Proof.
  intros Hn Hd. unfold CEIL_DIV. rewrite Z.quot_div_nonneg by lia.
  pose proof (Z.div_mod (n + d - 1) d ltac:(lia)) as E.
  pose proof (Z.mod_pos_bound (n + d - 1) d Hd) as B.
  nia.
Qed.

(** The calls added by the loop over the packs take the shift numbers
    from [region_shift_num] on, one after the other. *)
Lemma region_packs_spec cfg sel start_t stop_t packs :
  forall sh calls,
    let res := fold_left (region_pack cfg sel start_t stop_t) packs (sh, calls) in
    exists new,
      snd res = calls ++ new /\
      fst res = sh + Z.of_nat (length new) /\
      map sc_shift_num new = map (fun k => sh + Z.of_nat k) (seq 0 (length new)) /\
      (length new <= length packs)%nat /\
      (forall s, sel = Some s -> NoDup packs -> (length new <= 1)%nat).
Proof.
  induction packs as [|bp packs IH]; intros sh calls; cbn [fold_left].
  - exists []. cbn. rewrite app_nil_r. repeat split; lia.
  - cbv zeta.
    assert (Hstep : region_pack cfg sel start_t stop_t (sh, calls) bp = (sh, calls) \/
                    (region_pack cfg sel start_t stop_t (sh, calls) bp
                     = (sh + 1, calls ++ [mkShiftCall (Some bp) start_t stop_t sh]) /\
                     forall s, sel = Some s -> s = bp)).
    { unfold region_pack. destruct sel as [s|].
      - destruct (Nat.eqb_spec s bp) as [-> | Hne]; cbn [negb]; [| left; reflexivity].
        destruct (_ && _); [left; reflexivity | right].
        split; [reflexivity | intros s [= ->]; reflexivity].
      - destruct (_ && _); [left; reflexivity | right].
        split; [reflexivity | discriminate]. }
    destruct Hstep as [-> | [-> Hsel]].
    + destruct (IH sh calls) as (new & H1 & H2 & H3 & H4 & H5). cbv zeta in *.
      exists new. split; [exact H1 |]. split; [exact H2 |]. split; [exact H3 |].
      split; [cbn [length]; lia |].
      intros s Hs Hnd. apply NoDup_cons_iff in Hnd as [_ Hnd]. eapply H5; eassumption.
    + destruct (IH (sh + 1) (calls ++ [mkShiftCall (Some bp) start_t stop_t sh]))
        as (new & H1 & H2 & H3 & H4 & H5).
      cbv zeta in *.
      exists (mkShiftCall (Some bp) start_t stop_t sh :: new).
      split; [rewrite H1, <- app_assoc; reflexivity |].
      split; [rewrite H2; cbn [length]; lia |]. split; [| split].
      * cbn [length seq map sc_shift_num]. f_equal; [lia |].
        rewrite H3, <- seq_shift, map_map. apply map_ext. intros k. lia.
      * cbn [length]. lia.
      * intros s Hs Hnd. apply NoDup_cons_iff in Hnd as [Hnotin Hnd].
        assert (Hnone : new = []).
        { specialize (Hsel s Hs). subst s. clear -Hs Hnotin H1.
          revert H1. generalize (sh + 1) (calls ++ [mkShiftCall (Some bp) start_t stop_t sh]).
          induction packs as [|q packs IHp]; intros sh' calls' H1; cbn [fold_left] in H1.
          - cbn [snd] in H1. rewrite <- (app_nil_r calls') in H1 at 1.
            apply app_inv_head in H1. congruence.
          - assert (Hq : region_pack cfg sel start_t stop_t (sh', calls') q = (sh', calls')).
            { unfold region_pack. rewrite Hs.
              destruct (Nat.eqb_spec bp q) as [-> | Hne]; [| reflexivity].
              exfalso. apply Hnotin. left; reflexivity. }
            rewrite Hq in H1. apply (IHp ltac:(intros H; apply Hnotin; right; exact H) _ _ H1). }
        subst new. cbn [length]. lia.
Qed.

Lemma tb_step_shifts_bounds cfg t sh :
  sh <= tb_step_shifts cfg t sh <= sh + Z.of_nat (rc_npacks cfg).
Proof.
  unfold tb_step_shifts.
  assert (H : forall l n, n <= fold_left
                                 (fun n bp =>
                                    if rc_check_step_conds cfg
                                       && negb (rc_is_in_valid_step cfg bp t)
                                    then n else n + 1) l n
                          <= n + Z.of_nat (length l)).
  { induction l as [|bp l IH]; intros n; cbn [fold_left length]; [lia |].
    destruct (_ && _).
    - specialize (IH n). lia.
    - specialize (IH (n + 1)). lia. }
  specialize (H (seq 0 (rc_npacks cfg)) sh). rewrite length_seq in H. exact H.
Qed.

Lemma tb_shifts_spec cfg step_dir :
  step_dir <> 0 ->
  forall fuel t sh,
    exists sh',
      tb_shifts fuel cfg t (t + Z.of_nat fuel * step_dir) step_dir sh = Some sh' /\
      sh <= sh' <= sh + Z.of_nat (rc_npacks cfg) * Z.of_nat fuel.
Proof.
  intros Hdir. induction fuel as [|fuel IH]; intros t sh.
  - cbn [tb_shifts]. replace (t + Z.of_nat 0 * step_dir) with t by lia.
    rewrite Z.eqb_refl. exists sh. split; [reflexivity | lia].
  - cbn [tb_shifts]. destruct (Z.eqb_spec t (t + Z.of_nat (S fuel) * step_dir)) as [E | _].
    + exfalso. nia.
    + destruct (IH (t + step_dir) (tb_step_shifts cfg t sh)) as (sh' & H1 & H2).
      replace (t + step_dir + Z.of_nat fuel * step_dir)
        with (t + Z.of_nat (S fuel) * step_dir) in H1 by lia.
      exists sh'. split; [exact H1 |].
      pose proof (tb_step_shifts_bounds cfg t sh). nia.
Qed.

Lemma shift_numbers_seq (m n : nat) :
  forall s, map (fun k => Z.of_nat m + Z.of_nat k) (seq s n)
            = map Z.of_nat (seq (m + s) n).
Proof.
  induction n as [|n IH]; intros s; cbn [seq map]; [reflexivity |].
  rewrite IH. f_equal; [lia |]. rewrite Nat.add_succ_r. reflexivity.
Qed.

(** The time loop without temporal blocking: every call takes the next
    shift number. *)
Lemma region_steps_no_tb cfg sel begin_t end_t k :
  rc_tb_steps cfg = 0 ->
  forall j sh calls,
    map sc_shift_num calls = map Z.of_nat (seq 0 (length calls)) ->
    sh = Z.of_nat (length calls) ->
    Z.of_nat (length calls) <= active_packs cfg sel * Z.of_nat j ->
    exists sh' calls',
      fold_left (region_step cfg sel begin_t end_t) (map Z.of_nat (seq j k))
                (Some (sh, calls)) = Some (sh', calls') /\
      map sc_shift_num calls' = map Z.of_nat (seq 0 (length calls')) /\
      Z.of_nat (length calls') <= active_packs cfg sel * Z.of_nat (j + k).
Proof.
  intros Htb. induction k as [|k IH]; intros j sh calls Hm Hsh Hlen;
    cbn [seq map fold_left].
  - exists sh, calls. rewrite Nat.add_0_r. auto.
  - unfold region_step at 2. cbv zeta. rewrite Htb. cbn [Z.eqb].
    match goal with
    | |- context [fold_left (region_pack cfg sel ?s ?e) ?packs (sh, calls)] =>
        destruct (region_packs_spec cfg sel s e packs sh calls)
          as (new & H1 & H2 & H3 & H4 & H5);
        destruct (fold_left (region_pack cfg sel s e) packs (sh, calls))
          as [sh1 calls1]
    end.
    cbn [fst snd] in *. subst calls1.
    rewrite length_seq in H4. specialize (fun s Hs => H5 s Hs (seq_NoDup _ _)).
    assert (Hnew : Z.of_nat (length new) <= active_packs cfg sel).
    { unfold active_packs. rewrite Htb. cbn [Z.eqb]. destruct sel as [s|]; [| lia].
      specialize (H5 s eq_refl). lia. }
    destruct (IH (S j) sh1 (calls ++ new)) as (sh' & calls' & F1 & F2 & F3).
    + rewrite map_app, Hm, H3, length_app, seq_app, map_app. f_equal.
      rewrite Hsh, shift_numbers_seq. rewrite Nat.add_0_r. reflexivity.
    + rewrite H2, Hsh, length_app. lia.
    + rewrite length_app. nia.
    + exists sh', calls'. split; [exact F1 |]. split; [exact F2 |].
      replace (j + S k)%nat with (S j + k)%nat by lia. exact F3.
Qed.

(** The time loop with temporal blocking over the [n] steps from
    [begin_t] in direction [dir]: one call for each iteration, with at
    most one shift for each pack and step before it. *)
Lemma region_steps_tb cfg sel begin_t n dir k :
  rc_tb_steps cfg <> 0 -> 0 <= n -> (dir = 1 \/ dir = -1) ->
  (n = 0 -> dir = 1) ->
  let end_t := begin_t + n * dir in
  let w := Z.max (rc_tb_steps cfg) 1 in
  let bound := Z.max (Z.of_nat (rc_npacks cfg) * n - 1) 0 in
  forall j sh calls,
    Z.of_nat (j + k) <= CEIL_DIV n w ->
    0 <= sh <= Z.of_nat (rc_npacks cfg) * steps_covered n w j ->
    Forall (fun c => 0 <= sc_shift_num c <= bound) calls ->
    exists sh' calls',
      fold_left (region_step cfg sel begin_t end_t) (map Z.of_nat (seq j k))
                (Some (sh, calls)) = Some (sh', calls') /\
      Forall (fun c => 0 <= sc_shift_num c <= bound) calls'.
Proof.
  intros Htb Hn Hdir Hzero end_t w bound.
  assert (Hw : 1 <= w) by (unfold w; lia).
  pose proof (CEIL_DIV_bounds n w Hn ltac:(lia)) as [B1 B2].
  assert (Hd : (if begin_t <=? end_t then 1 else -1) = dir).
  { unfold end_t. destruct (Z.leb_spec begin_t (begin_t + n * dir)); destruct Hdir; nia. }
  induction k as [|k IH]; intros j sh calls Hj Hsh Hcalls; cbn [seq map fold_left].
  - exists sh, calls. auto.
  - unfold region_step at 2. cbv zeta. rewrite Hd. fold w.
    destruct (Z.eqb_spec (rc_tb_steps cfg) 0) as [E | _]; [contradiction |].
    set (start_t := begin_t + Z.of_nat j * (w * dir)).
    set (stop_t := if 0 <? w * dir then Z.min (start_t + w * dir) end_t
                   else Z.max (start_t + w * dir) end_t).
    assert (Hlt : Z.of_nat j * w < n) by nia.
    set (len := Z.min w (n - Z.of_nat j * w)).
    assert (Hstop : stop_t = start_t + len * dir).
    { unfold stop_t, start_t, end_t, len. destruct Hdir as [-> | ->].
      - destruct (Z.ltb_spec 0 (w * 1)); lia.
      - destruct (Z.ltb_spec 0 (w * -1)); lia. }
    assert (Hlen : 1 <= len <= w) by (unfold len; lia).
    assert (Hfuel : Z.abs (stop_t - start_t) = len)
      by (rewrite Hstop; destruct Hdir as [-> | ->]; lia).
    rewrite Hfuel.
    destruct (tb_shifts_spec cfg dir ltac:(lia) (Z.to_nat len) start_t sh)
      as (sh1 & T1 & T2).
    rewrite Z2Nat.id in T1, T2 by lia. rewrite <- Hstop in T1. rewrite T1.
    assert (Hcov : steps_covered n w (S j) = steps_covered n w j + len).
    { unfold steps_covered, len. lia. }
    assert (Hcj : steps_covered n w j = Z.of_nat j * w) by (unfold steps_covered; lia).
    destruct (IH (S j) sh1 (calls ++ [mkShiftCall None start_t stop_t sh]))
      as (sh' & calls' & F1 & F2).
    + lia.
    + rewrite Hcov. nia.
    + apply Forall_app. split; [exact Hcalls |]. constructor; [| constructor].
      cbn [sc_shift_num]. unfold bound. rewrite Hcj in Hsh. nia.
    + exists sh', calls'. split; [exact F1 | exact F2].
Qed.

Lemma region_span (begin_t end_t : Z) :
  let dir := if begin_t <=? end_t then 1 else -1 in
  (dir = 1 \/ dir = -1) /\ end_t = begin_t + Z.abs (end_t - begin_t) * dir /\
  (Z.abs (end_t - begin_t) = 0 -> dir = 1).
Proof. cbv zeta. destruct (Z.leb_spec begin_t end_t); lia. Qed.

Lemma wf_info_of_update_grid_info o nddims fold_pts grids npacks wf :
  update_grid_info o nddims fold_pts grids npacks = inr wf ->
  num_wf_shifts wf
  = (if 0 <? wf_steps wf
     then if 0 <? npacks * wf_steps wf then npacks * wf_steps wf - 1
          else npacks * wf_steps wf
     else 0).
Proof.
  unfold update_grid_info. cbv zeta.
  destruct (angle_loop _ _ _ _ _ _) as [e | ds]; [discriminate |].
  intros [= <-]. reflexivity.
Qed.

(** X25: [calc_region] over the steps [begin_t .. end_t) returns, and
    every shift number that it hands to [shift_region] is between 0 and
    [max(p * |end_t - begin_t| - 1, 0)], where [p] is the number of packs
    (at most one when a pack is selected and there is no temporal
    blocking).  Without temporal blocking the calls take the shift
    numbers 0, 1, 2, ... in order.  So with the settings of
    [update_grid_info], a region of at most [max(wf_steps, 1)] steps, run
    for one selected pack without temporal blocking when there are no
    wave-front steps, is never shifted more than [num_wf_shifts]
    times. *)
Theorem calc_region_shift_numbers :
  forall (cfg : RegionConfig) (sel_bp : option nat) (begin_t end_t : Z),
    exists calls,
      calc_region cfg sel_bp begin_t end_t = Some calls /\
      (forall c, In c calls ->
                 0 <= sc_shift_num c
                 <= Z.max (active_packs cfg sel_bp * Z.abs (end_t - begin_t) - 1) 0) /\
      (rc_tb_steps cfg = 0 ->
       map sc_shift_num calls = range (Z.of_nat (length calls))) /\
      (forall o nddims fold_pts grids wf,
          update_grid_info o nddims fold_pts grids (Z.of_nat (rc_npacks cfg)) = inr wf ->
          Z.abs (end_t - begin_t) <= Z.max (wf_steps wf) 1 ->
          (wf_steps wf <= 0 -> rc_tb_steps cfg = 0 /\ sel_bp <> None) ->
          forall c, In c calls -> 0 <= sc_shift_num c <= num_wf_shifts wf).
Proof.
  intros cfg sel begin_t end_t.
  destruct (region_span begin_t end_t) as (Hdir & Hend & Hzero).
  set (dir := if begin_t <=? end_t then 1 else -1) in *.
  set (n := Z.abs (end_t - begin_t)) in *.
  assert (Hn : 0 <= n) by (unfold n; lia).
  set (w := Z.max (rc_tb_steps cfg) 1).
  assert (Hw : Z.abs (w * dir) = w) by (unfold w; destruct Hdir as [-> | ->]; lia).
  assert (Hbound : exists calls,
             calc_region cfg sel begin_t end_t = Some calls /\
             (forall c, In c calls ->
                        0 <= sc_shift_num c <= Z.max (active_packs cfg sel * n - 1) 0) /\
             (rc_tb_steps cfg = 0 ->
              map sc_shift_num calls = range (Z.of_nat (length calls)))).
  { unfold calc_region. cbv zeta. fold dir. fold n. fold w. rewrite Hw. unfold range.
    pose proof (CEIL_DIV_bounds n w Hn ltac:(unfold w; lia)) as [B1 B2].
    assert (Hnum : 0 <= CEIL_DIV n w) by (unfold w in *; nia).
    destruct (Z.eq_dec (rc_tb_steps cfg) 0) as [Htb | Htb].
    - destruct (region_steps_no_tb cfg sel begin_t end_t (Z.to_nat (CEIL_DIV n w)) Htb
                  0%nat 0 [] eq_refl eq_refl ltac:(cbn; lia))
        as (sh' & calls' & F1 & F2 & F3).
      rewrite F1. exists calls'. split; [reflexivity |].
      assert (Hw1 : w = 1) by (unfold w; lia).
      assert (Hnum1 : CEIL_DIV n w = n) by (rewrite Hw1 in *; lia).
      cbn [Nat.add] in F3. rewrite Z2Nat.id, Hnum1 in F3 by lia.
      split; [| intros _; rewrite Nat2Z.id; exact F2].
      intros c Hc. apply (in_map sc_shift_num) in Hc. rewrite F2 in Hc.
      apply in_map_iff in Hc as (x & <- & Hx). apply in_seq in Hx. lia.
    - assert (Hloop : forall e, e = begin_t + n * dir ->
                 exists sh' calls',
                   fold_left (region_step cfg sel begin_t e)
                             (map Z.of_nat (seq 0 (Z.to_nat (CEIL_DIV n w))))
                             (Some (0, [])) = Some (sh', calls') /\
                   Forall (fun c => 0 <= sc_shift_num c
                                    <= Z.max (Z.of_nat (rc_npacks cfg) * n - 1) 0) calls');
        [intros e ->;
         apply (region_steps_tb cfg sel begin_t n dir (Z.to_nat (CEIL_DIV n w))
                  Htb Hn Hdir Hzero 0%nat 0 []) | destruct (Hloop end_t Hend)
        as (sh' & calls' & F1 & F2)].
      + cbn [Nat.add]. fold w. rewrite Z2Nat.id by lia. lia.
      + unfold steps_covered. cbn. lia.
      + constructor.
      + fold w in F1. rewrite F1. exists calls'. split; [reflexivity |].
        split; [| contradiction].
        intros c Hc. rewrite Forall_forall in F2. specialize (F2 c Hc).
        unfold active_packs. destruct (Z.eqb_spec (rc_tb_steps cfg) 0); [contradiction |].
        exact F2. }
  destruct Hbound as (calls & H1 & H2 & H3).
  exists calls. split; [exact H1 |]. split; [exact H2 |]. split; [exact H3 |].
  intros o nddims fold_pts grids wf Hwf Hsteps Hsel c Hc.
  specialize (H2 c Hc). rewrite (wf_info_of_update_grid_info _ _ _ _ _ _ Hwf).
  assert (Ha : 0 <= active_packs cfg sel <= Z.of_nat (rc_npacks cfg)).
  { unfold active_packs. destruct (_ =? _); [destruct sel |]; lia. }
  destruct (Z.ltb_spec 0 (wf_steps wf)) as [Hpos | Hnpos].
  - destruct (Z.ltb_spec 0 (Z.of_nat (rc_npacks cfg) * wf_steps wf)); nia.
  - destruct (Hsel Hnpos) as [Htb Hs].
    assert (Ha1 : active_packs cfg sel <= 1).
    { unfold active_packs. rewrite Htb. cbn [Z.eqb]. destruct sel; [lia | contradiction]. }
    nia.
Qed.

Lemma calc_region_shift_numbers_witness :
  option_map (map sc_shift_num) (calc_region (two_packs 0) None 5 8)
  = Some [0; 1; 2; 3; 4; 5] /\
  option_map (map sc_shift_num) (calc_region (two_packs 2) None 8 5) = Some [0; 4].
Proof.
  destruct (calc_region_shift_numbers (two_packs 0) None 5 8) as (calls & H & _).
  split; reflexivity.
Defined.

End RegionProofs.
